(** * Domino chains on a grid: the circuit-and-placement model

    A shallow embedding of [domino/domino_cf.py] (graph construction, the
    CP-SAT model builder and the chain renderer) and of the orientation
    library of [polyomino/polyomino.py], with the properties the
    specification states about them.

    Further sections embed the circuit-only builder of
    [domino/domino_circuit.py], the path finder of [digraph/circuit.py]
    and the puzzle builder and grid of [polyomino/polyomino.py], with
    properties read off the code.

    Conventions.  Python integers are [Z].  A Python [dict] that the code
    iterates over is an association list in insertion order; the dict
    [place], which is only probed with [in] and [[]], is a [gmap].  CP-SAT
    boolean variables are numbered in the order [NewBoolVar] creates them. *)

From Stdlib Require Import ZArith Lia.
From stdpp Require Import base decidable option numbers list sorting strings gmap.

(** ** Python built-ins used by the sources *)

Module Py.

(** [range(lo, hi)] *)
Definition range (lo hi : Z) : list Z := seqZ lo (hi - lo).

(** the set display [{x, y}]: a single element when [x == y] *)
Definition set2 {A} `{EqDecision A} (x y : A) : list A :=
  if decide (x = y) then [x] else [x; y].

(** [l.remove(x)]: drops the first element equal to [x]; [None] stands for
    the [ValueError] raised when there is none. *)
Fixpoint remove {A} `{EqDecision A} (x : A) (l : list A) : option (list A) :=
  match l with
  | [] => None
  | y :: l' => if decide (y = x) then Some l' else cons y <$> remove x l'
  end.

(** [next((y for y in l if P y), None)] *)
Definition next_where {A} (P : A -> Prop) `{forall y, Decision (P y)}
    (l : list A) : option A :=
  snd <$> list_find P l.

(** [d[k] = v] on an insertion-ordered dict: an existing key keeps its
    position and takes the new value, a new key goes last. *)
Fixpoint dict_set {K V} `{EqDecision K} (k : K) (v : V) (d : list (K * V))
    : list (K * V) :=
  match d with
  | [] => [(k, v)]
  | (k', v') :: d' =>
      if decide (k' = k) then (k, v) :: d' else (k', v') :: dict_set k v d'
  end.

(** [d[k]]; [None] stands for [KeyError]. *)
Fixpoint dict_get {K V} `{EqDecision K} (k : K) (d : list (K * V)) : option V :=
  match d with
  | [] => None
  | (k', v) :: d' => if decide (k' = k) then Some v else dict_get k d'
  end.

(** [{k: i for i, k in enumerate(keys)}[k]]: the position of [k]. *)
Definition index_of {K} `{EqDecision K} (k : K) (keys : list K) : option nat :=
  fst <$> list_find (λ k', k' = k) keys.

End Py.

(** ** Pieces, fixes and the domino digraph *)

(** A domino [(a, b)]; a fix is an oriented domino, head value first. *)
Abbreviation piece := (Z * Z)%type (only parsing).
Abbreviation fix_t := (Z * Z)%type (only parsing).
(** A chain step: (head fix, tail fix). *)
Abbreviation link := ((Z * Z) * (Z * Z))%type (only parsing).

Module DominoDigraph.

(** [set((x, y) for y in range(size+1) for x in range(y, size+1))], listed
    in generation order (the iteration order of a Python set is not
    specified; nothing below depends on it). *)
Definition dominoes (size : Z) : list piece :=
  y ← Py.range 0 (size + 1); x ← Py.range y (size + 1); [(x, y)].

(** [{(a, b): {(a, b), (b, a)} for (a, b) in dominoes}] *)
Definition fixed (size : Z) : list (piece * list fix_t) :=
  (λ d : piece, (d, Py.set2 (d.1, d.2) (d.2, d.1))) <$> dominoes size.

(** The ['tails'] comprehension of one fix [d_fix] of domino [d]. *)
Definition tails_of (fx : list (piece * list fix_t)) (d : piece) (d_fix : fix_t)
    : list fix_t :=
  e ← fx;
  if decide (e.1 ≠ d)
  then o_fix ← e.2; if decide (o_fix.1 = d_fix.2) then [o_fix] else []
  else [].

(** [self.graph]: domino -> ['fixes'] -> fix -> ['tails'] -> list of fixes. *)
Definition graph (size : Z) : list (piece * list (fix_t * list fix_t)) :=
  (λ e : piece * list fix_t,
     (e.1, (λ d_fix, (d_fix, tails_of (fixed size) e.1 d_fix)) <$> e.2))
    <$> fixed size.

End DominoDigraph.

(** ** The chain renderer: [SolutionManager.on_solution_callback] *)

Module Renderer.

(** What a run of the arc-following loop ends in. *)
Inductive outcome (A : Type) : Type :=
  | Done (a : A)
  | ValueError      (* [used.remove(arc)] on an absent arc *)
  | IndexError      (* [used[0]] on an empty list *)
  | OutOfFuel.
Arguments Done {A} a.
Arguments ValueError {A}.
Arguments IndexError {A}.
Arguments OutOfFuel {A}.

(** What is printed: the reconstructed chain, whether ['duplicates found!']
    was reported, and the arcs listed after ['unused:']. *)
Record report (N : Type) : Type := Report {
  chain : list N;
  duplicates : bool;
  unused : list (N * N)
}.
Arguments Report {N} chain duplicates unused.
Arguments chain {N} r.
Arguments duplicates {N} r.
Arguments unused {N} r.

Section loop.
Context {N : Type} `{EqDecision N}.

(** [while arc: used.remove(arc); result.append(arc[0]); arc = next(...)],
    one unfolding per unit of fuel.  Returns the final [used] and [result]. *)
Fixpoint follow (fuel : nat) (arc : N * N) (used : list (N * N)) (result : list N)
    : outcome (list (N * N) * list N) :=
  match fuel with
  | O => OutOfFuel
  | S fuel' =>
      match Py.remove arc used with
      | None => ValueError
      | Some used' =>
          let result' := result ++ [arc.1] in
          match Py.next_where (λ l : N * N, l.1 = arc.2) used' with
          | None => Done (used', result')
          | Some arc' => follow fuel' arc' used' result'
          end
      end
  end.

(** The [show_circuit] branch, given the list [used] of true arcs.  The
    loop is given one unit of fuel per used arc. *)
Definition render (used : list (N * N)) : outcome (report N) :=
  match used with
  | [] => IndexError
  | arc :: _ =>
      match follow (length used) arc used [] with
      | Done (used', result) =>
          Done (Report result (bool_decide (length (remove_dups result) ≠ length result)) used')
      | ValueError => ValueError
      | IndexError => IndexError
      | OutOfFuel => OutOfFuel
      end
  end.

(** The arcs of the path that leaves [n], runs through [rest] and ends
    in [fin]. *)
Fixpoint path_arcs (n : N) (rest : list N) (fin : N) : list (N * N) :=
  match rest with
  | [] => [(n, fin)]
  | m :: rest' => (n, m) :: path_arcs m rest' fin
  end.

(** The arcs of the closed tour through the nodes [c], in order, the last
    node leading back to the first. *)
Definition tour_arcs (c : list N) : list (N * N) :=
  match c with
  | [] => []
  | n :: rest => path_arcs n rest n
  end.

(** The used arcs are, in some order, those of one closed tour through
    pairwise distinct nodes. *)
Definition closed_tour (used : list (N * N)) : Prop :=
  exists c, c ≠ [] /\ NoDup c /\ used ≡ₚ tour_arcs c.

(** Consecutive arcs are joined: each one starts where the one before it
    ends. *)
Fixpoint chained (l : list (N * N)) : Prop :=
  match l with
  | a :: (b :: _) as l' => a.2 = b.1 /\ chained l'
  | _ => True
  end.
End loop.
End Renderer.

(** ** The constraint model handed to the solver

    The part of the CP-SAT modelling interface the sources use.  A model
    is the number of boolean variables created so far and the constraints
    added so far, in order. *)

Module CpModel.

Abbreviation var := nat (only parsing).

(** A boolean variable [x] or its negation [x.Not()]. *)
Inductive lit : Type :=
  | Pos (x : var)
  | Neg (x : var).

(** An arc of [AddCircuit]: (head index, tail index, literal). *)
Abbreviation arc := (nat * nat * nat)%type (only parsing).

Inductive constraint : Type :=
  (** [AddImplication(a, b)] *)
  | Implication (a b : lit)
  (** [AddBoolOr(lits).OnlyEnforceIf(e1).OnlyEnforceIf(e2)...] *)
  | BoolOr (lits : list lit) (enforce : list lit)
  (** [Add(sum(lhs) == sum(rhs) + k).OnlyEnforceIf(...)] *)
  | LinearEq (lhs rhs : list var) (k : Z) (enforce : list lit)
  (** [AddCircuit(arcs)] *)
  | Circuit (arcs : list arc).

Record t : Type := Model {
  n_vars : nat;
  constraints : list constraint
}.

(** [cp_model.CpModel()] *)
Definition new : t := Model 0 [].

(** [model.NewBoolVar(name)]: the next unused variable. *)
Definition NewBoolVar (m : t) : var * t :=
  (n_vars m, Model (S (n_vars m)) (constraints m)).

(** [model.Add...(c)] *)
Definition Add (c : constraint) (m : t) : t :=
  Model (n_vars m) (constraints m ++ [c]).

Definition AddAll (cs : list constraint) (m : t) : t :=
  Model (n_vars m) (constraints m ++ cs).

(** *** Meaning of the constraints under an assignment *)

Abbreviation assignment := (nat -> bool) (only parsing).

Definition lit_holds (s : assignment) (l : lit) : Prop :=
  match l with
  | Pos x => s x = true
  | Neg x => s x = false
  end.

(** [sum(vars)] under [s], every true variable counting for one *)
Definition total (s : assignment) (xs : list var) : Z :=
  Z.of_nat (length (filter (λ x, s x = true) xs)).

Definition head (a : arc) : nat := a.1.1.
Definition tail (a : arc) : nat := a.1.2.
Definition arc_var (a : arc) : var := a.2.

(** Number of true arcs leaving, respectively entering, node [n]. *)
Definition out_degree (s : assignment) (arcs : list arc) (n : nat) : nat :=
  length (filter (λ a, head a = n ∧ s (arc_var a) = true) arcs).
Definition in_degree (s : assignment) (arcs : list arc) (n : nat) : nat :=
  length (filter (λ a, tail a = n ∧ s (arc_var a) = true) arcs).

(** The nodes of a circuit constraint are those its arcs mention. *)
Definition nodes (arcs : list arc) : list nat :=
  remove_dups ((head <$> arcs) ++ (tail <$> arcs)).

(** A node is excluded from the tour by a true self-loop. *)
Definition skipped (s : assignment) (arcs : list arc) (n : nat) : Prop :=
  Exists (λ a, head a = n ∧ tail a = n ∧ s (arc_var a) = true) arcs.

(** Where the first true arc out of [n] leads ([n] itself if there is none). *)
Definition successor (s : assignment) (arcs : list arc) (n : nat) : nat :=
  from_option tail n (Py.next_where (λ a, head a = n ∧ s (arc_var a) = true) arcs).

(** The [k] nodes met from [n] on, following true arcs. *)
Fixpoint walk (s : assignment) (arcs : list arc) (k : nat) (n : nat) : list nat :=
  match k with
  | O => []
  | S k' => n :: walk s arcs k' (successor s arcs n)
  end.

(** Modelled from the spec: the solver's circuit primitive (the solver is
    an external collaborator).  It takes (head index, tail index, boolean)
    triples, self-loops included, and constrains exactly one true outgoing
    and one true incoming arc per node, a true self-loop meaning that the
    node is excluded from the tour; the chosen arcs form exactly one closed
    tour through every node that is not excluded. *)
Definition circuit_holds (s : assignment) (arcs : list arc) : Prop :=
  Forall (λ n, out_degree s arcs n = 1%nat ∧ in_degree s arcs n = 1%nat) (nodes arcs)
  ∧ match filter (λ n, ¬ skipped s arcs n) (nodes arcs) with
    | [] => True
    | n0 :: rest => Forall (λ n, n ∈ walk s arcs (S (length rest)) n0) rest
    end.

Definition holds (s : assignment) (c : constraint) : Prop :=
  match c with
  | Implication a b => lit_holds s a -> lit_holds s b
  | BoolOr lits enforce =>
      Forall (lit_holds s) enforce -> Exists (lit_holds s) lits
  | LinearEq lhs rhs k enforce =>
      Forall (lit_holds s) enforce -> total s lhs = (total s rhs + k)%Z
  | Circuit arcs => circuit_holds s arcs
  end.

(** [s] is a solution of [m]. *)
Definition satisfies (s : assignment) (m : t) : Prop :=
  Forall (holds s) (constraints m).

#[export] Instance lit_holds_dec s l : Decision (lit_holds s l).
Proof. destruct l; simpl; apply _. Defined.

#[export] Instance circuit_holds_dec s arcs : Decision (circuit_holds s arcs).
Proof.
  unfold circuit_holds.
  destruct (filter (λ n, ¬ skipped s arcs n) (nodes arcs)); apply _.
Defined.

#[export] Instance holds_dec s c : Decision (holds s c).
Proof. destruct c; simpl; apply _. Defined.

#[export] Instance satisfies_dec s m : Decision (satisfies s m).
Proof. unfold satisfies; apply _. Defined.

End CpModel.

(** ** The model builder: [DominoBraneSolver] *)

Module DominoBraneSolver.
Import CpModel.

(** The entry of one fix in a domino's ['fixes'] directory once
    [set_circuit] has run: its ['tails'] and its ['tail_vars']. *)
Record head_dir : Type := HeadDir {
  tails : list fix_t;
  tail_vars : list (fix_t * var)
}.

(** The graph as [DominoDigraph] builds it, and as [set_circuit] leaves it. *)
Abbreviation graph_t := (list ((Z * Z) * list ((Z * Z) * list (Z * Z)))) (only parsing).
Abbreviation cgraph_t := (list ((Z * Z) * list ((Z * Z) * head_dir))) (only parsing).

(** A cell and the space: cell -> clue ([None] for an open cell). *)
Abbreviation cell := (Z * Z)%type (only parsing).
Abbreviation space_t := (list ((Z * Z) * option Z)) (only parsing).

(** Keys of [self.place]: [(x, y, a, b, i)], with [i = 1] for the variable
    named ['H'] and [i = 0] for the one named ['T']. *)
Abbreviation place_key := (Z * Z * Z * Z * Z)%type (only parsing).
Definition pkey (c : cell) (f : fix_t) (i : Z) : place_key :=
  (c.1, c.2, f.1, f.2, i).

(** [self.fixes = {node: NewBoolVar(...) for dom, fixes in graph.items()
                   for node in fixes['fixes']}] *)
Fixpoint new_fixes (nodes : list fix_t) (fixes : list (fix_t * var)) (m : CpModel.t)
    : list (fix_t * var) * CpModel.t :=
  match nodes with
  | [] => (fixes, m)
  | node :: nodes' =>
      let '(x, m1) := NewBoolVar m in
      new_fixes nodes' (Py.dict_set node x fixes) m1
  end.

Definition graph_nodes (graph : graph_t) : list fix_t :=
  e ← graph; e.2.*1.

(** [idx[k]], with [idx = {k: i for i, k in enumerate(self.fixes)}] *)
Definition idx (fixes : list (fix_t * var)) (k : fix_t) : option nat :=
  Py.index_of k fixes.*1.

(** The loop [for t in hd['tails']] for the head [h]: returns the model,
    [hd['tail_vars']] and the arcs appended to [d_arcs]. *)
Fixpoint tail_arcs (fixes : list (fix_t * var)) (h : fix_t) (ts : list fix_t)
    (tv : list (fix_t * var)) (m : CpModel.t)
    : option (list (fix_t * var) * list arc * CpModel.t) :=
  match ts with
  | [] => Some (tv, [], m)
  | t :: ts' =>
      let '(a, m1) := NewBoolVar m in
      fh ← Py.dict_get h fixes;
      ft ← Py.dict_get t fixes;
      let m2 := Add (Implication (Pos a) (Pos fh)) m1 in
      let m3 := Add (Implication (Pos a) (Pos ft)) m2 in
      let m4 := Add (Implication (Neg fh) (Neg a)) m3 in
      let m5 := Add (Implication (Neg ft) (Neg a)) m4 in
      ih ← idx fixes h;
      it ← idx fixes t;
      '(tv', arcs', m') ← tail_arcs fixes h ts' (Py.dict_set t a tv) m5;
      Some (tv', (ih, it, a) :: arcs', m')
  end.

(** The loop [for h, hd in fs['fixes'].items()] of a domino with
    [n_fixes] fixes: returns the updated directory, the domino's [d_arcs],
    the self-loops appended to [loops], and the model. *)
Fixpoint head_arcs (fixes : list (fix_t * var)) (n_fixes : nat)
    (hs : list (fix_t * list fix_t)) (m : CpModel.t)
    : option (list (fix_t * head_dir) * list arc * list arc * CpModel.t) :=
  match hs with
  | [] => Some ([], [], [], m)
  | (h, ts) :: hs' =>
      '(tv, h_arcs, m1) ← tail_arcs fixes h ts [] m;
      '(h_loops, m2) ←
        (if decide (1 < n_fixes)%nat
         then ih ← idx fixes h;
              let '(lp, m2) := NewBoolVar m1 in Some ([(ih, ih, lp)], m2)
         else Some ([], m1));
      '(dir', d_arcs', loops', m') ← head_arcs fixes n_fixes hs' m2;
      Some ((h, HeadDir ts tv) :: dir', h_arcs ++ d_arcs', h_loops ++ loops', m')
  end.

(** The loop [for fs in self.graph.values()]: returns the graph with its
    [tail_vars], [arcs], [loops], and the model. *)
Fixpoint piece_arcs (fixes : list (fix_t * var)) (graph : graph_t) (m : CpModel.t)
    : option (cgraph_t * list arc * list arc * CpModel.t) :=
  match graph with
  | [] => Some ([], [], [], m)
  | (d, fs) :: graph' =>
      '(dir, d_arcs, d_loops, m1) ← head_arcs fixes (length fs) fs m;
      let m2 := Add (LinearEq (arc_var <$> d_arcs) [] 1 []) m1 in
      '(cg, arcs', loops', m') ← piece_arcs fixes graph' m2;
      Some ((d, dir) :: cg, d_arcs ++ arcs', d_loops ++ loops', m')
  end.

(** The state of the solver object after [set_circuit], together with the
    local lists [arcs] and [loops] of that method. *)
Record circuit_state : Type := CircuitState {
  cs_model : CpModel.t;
  cs_fixes : list (fix_t * var);
  cs_graph : cgraph_t;
  cs_arcs : list arc;
  cs_loops : list arc
}.

Definition set_circuit (graph : graph_t) (m : CpModel.t) : option circuit_state :=
  let '(fixes, m1) := new_fixes (graph_nodes graph) [] m in
  '(cg, arcs, loops, m2) ← piece_arcs fixes graph m1;
  let m3 := Add (LinearEq (arc_var <$> arcs) [] (Z.of_nat (length graph)) []) m2 in
  let m4 := Add (Circuit (arcs ++ loops)) m3 in
  Some (CircuitState m4 fixes cg arcs loops).

(** *** [set_placements] *)

(** The placement variables of one fix in one cell. *)
Definition new_place (f : fix_t) (c : cell * option Z)
    (st : gmap place_key var * CpModel.t) : gmap place_key var * CpModel.t :=
  let '(place, m) := st in
  match c.2 with
  | None =>
      let '(h, m1) := NewBoolVar m in
      let '(t, m2) := NewBoolVar m1 in
      (<[pkey c.1 f 0 := t]> (<[pkey c.1 f 1 := h]> place), m2)
  | Some clue =>
      let '(place1, m1) :=
        if decide (clue = f.2)
        then let '(h, m1) := NewBoolVar m in (<[pkey c.1 f 1 := h]> place, m1)
        else (place, m) in
      if decide (clue = f.1)
      then let '(t, m2) := NewBoolVar m1 in (<[pkey c.1 f 0 := t]> place1, m2)
      else (place1, m1)
  end.

(** [for (a, b), fix in self.fixes.items(): for (x, y) in self.space: ...] *)
Definition new_places (fixes : list (fix_t * var)) (space : space_t)
    (st : gmap place_key var * CpModel.t) : gmap place_key var * CpModel.t :=
  foldl (λ st f, foldl (λ st c, new_place f c st) st space) st fixes.*1.

(** [[ij for ij in [(x-1, y), (x+1, y), (x, y-1), (x, y+1)] if ij in self.space]] *)
Definition adj (space : space_t) (c : cell) : list cell :=
  filter (λ ij, ij ∈ space.*1)
    [(c.1 - 1, c.2); (c.1 + 1, c.2); (c.1, c.2 - 1); (c.1, c.2 + 1)]%Z.

(** Two cells share an edge. *)
Definition orthogonal (c c' : cell) : Prop :=
  (Z.abs (c'.1 - c.1) + Z.abs (c'.2 - c.2) = 1)%Z.

Section constraints.
Variable fixes : list (fix_t * var).
Variable space : space_t.
Variable place : gmap place_key var.

(** [[self.place[k] for k in keys if k in self.place]] *)
Definition placed (keys : list place_key) : list var :=
  omap (λ k, place !! k) keys.

(** [[self.place[x, y, a, b, i] for x, y in self.space
      if (x, y, a, b, i) in self.place]] *)
Definition role_vars (f : fix_t) (i : Z) : list var :=
  placed ((λ c, pkey c f i) <$> space.*1).

(** "Connect fixes to space." *)
Definition fix_constraints : list constraint :=
  f ← fixes;
  [ LinearEq (role_vars f.1 1) [f.2] 0 [];
    LinearEq (role_vars f.1 0) [f.2] 0 [] ].

(** The variables summed at a cell. *)
Definition cell_vars (c : cell) : list var :=
  placed (f ← fixes.*1; i ← [0; 1]%Z; [pkey c f i]).

(** [[self.place[i, j, a, b, 0] for (i, j) in adj if (i, j, a, b, 0) in self.place]] *)
Definition halves (c : cell) (f : fix_t) : list var :=
  placed ((λ ij, pkey ij f 0) <$> adj space c).

(** "Each square will either be the head (1) or a tail (0) of a fix." *)
Definition cell_constraints : list constraint :=
  c ← space.*1;
  LinearEq (cell_vars c) [] 1 [] ::
  (f ← fixes.*1;
   match place !! pkey c f 1 with
   | Some p => [BoolOr (Pos <$> halves c f) [Pos p]]
   | None => []
   end).

(** "Connect domino tails to their heads." *)
Definition glue_constraints (graph : cgraph_t) : list constraint :=
  dd ← graph;
  hd ← dd.2;
  tv ← tail_vars hd.2;
  c ← space.*1;
  match place !! pkey c hd.1 1 with
  | Some p => [BoolOr (Pos <$> halves c tv.1) [Pos p; Pos tv.2]]
  | None => []
  end.

(** "Reduce ambiguity" *)
Definition ambiguity_constraints : list constraint :=
  c ← space.*1;
  f ← fixes.*1;
  match place !! pkey c f 1 with
  | Some p =>
      let vals :=
        placed (i ← [0; 1]%Z; ij ← adj space c; uv ← fixes.*1;
                if decide (uv.1 = f.2) then [pkey ij uv i] else []) in
      [LinearEq vals [] (if decide (f.1 = f.2) then 2 else 1) [Pos p]]
  | None => []
  end.

End constraints.

(** The solver object once [setup] has run. *)
Record solver : Type := Solver {
  model : CpModel.t;
  graph : cgraph_t;
  space : space_t;
  place : gmap place_key var;
  fixes : list (fix_t * var);
  arcs : list arc;      (* the locals of [set_circuit] *)
  loops : list arc
}.

Definition set_placements (cs : circuit_state) (space : space_t) : solver :=
  let fixes := cs_fixes cs in
  let m0 := Add (LinearEq fixes.*2 [] (Z.of_nat (length space) `div` 2) []) (cs_model cs) in
  let '(place, m1) := new_places fixes space (∅, m0) in
  let m2 := AddAll (fix_constraints fixes space place) m1 in
  let m3 := AddAll (cell_constraints fixes space place) m2 in
  let m4 := AddAll (glue_constraints space place (cs_graph cs)) m3 in
  let m5 := AddAll (ambiguity_constraints fixes space place) m4 in
  Solver m5 (cs_graph cs) space place fixes (cs_arcs cs) (cs_loops cs).

(** [DominoBraneSolver(graph, space).setup()] *)
Definition setup (graph : graph_t) (space : space_t) : option solver :=
  cs ← set_circuit graph CpModel.new;
  Some (set_placements cs space).

(** [Space(size).space] *)
Definition Space (size : Z) : space_t :=
  y ← Py.range 0 (size + 2); x ← Py.range 0 (size + 1); [((x, y), None)].

(** *** Notions used to state the properties of [set_circuit] *)

(** The arc variables leaving the fixes of one domino. *)
Definition piece_vars (dd : piece * list (fix_t * head_dir)) : list var :=
  hd ← dd.2; (tail_vars hd.2).*2.

(** No tails list names a fix twice. *)
Definition tails_distinct (graph : graph_t) : Prop :=
  Forall (λ p, Forall (λ e : fix_t * list fix_t, NoDup e.2) p.2) graph.

(** No fix is listed among its own tails. *)
Definition no_self_tail (graph : graph_t) : Prop :=
  Forall (λ p, Forall (λ e : fix_t * list fix_t, e.1 ∉ e.2) p.2) graph.

(** An entry of the graph without its [tail_vars], as it was on entry. *)
Definition strip_head (d : fix_t * head_dir) : fix_t * list fix_t :=
  (d.1, tails d.2).
Definition strip (dd : piece * list (fix_t * head_dir))
    : piece * list (fix_t * list fix_t) :=
  (dd.1, strip_head <$> dd.2).

(** The [idx] lookups behind the arcs out of one fix, and behind the
    self-loops of one domino. *)
Definition arc_nodes (fixes : list (fix_t * var)) (e : fix_t * list fix_t)
    : list (option nat * option nat) :=
  (λ t, (idx fixes e.1, idx fixes t)) <$> e.2.
Definition loop_nodes (fixes : list (fix_t * var))
    (p : piece * list (fix_t * list fix_t)) : list (option nat * option nat) :=
  if decide (1 < length p.2)%nat
  then (λ e : fix_t * list fix_t, (idx fixes e.1, idx fixes e.1)) <$> p.2
  else [].
Definition ends (a : arc) : option nat * option nat :=
  (Some (head a), Some (tail a)).

(** The fixes that are given a self-loop: those of the dominoes with
    more than one fix. *)
Definition looped_fixes (graph : graph_t) : list fix_t :=
  p ← graph; if decide (1 < length p.2)%nat then p.2.*1 else [].

(** The number of self-loops on node [i] in a list of arcs. *)
Definition self_loops (i : nat) (arcs : list arc) : nat :=
  length (filter (λ a, head a = i ∧ tail a = i) arcs).

(** *** Reading a solution *)

(** Under [s], the [i] end of fix [f] rests on cell [c]: the placement
    variable exists and is true. *)
Definition lies_on (s : assignment) (place : gmap place_key var)
    (c : cell) (f : fix_t) (i : Z) : Prop :=
  match place !! pkey c f i with
  | Some p => s p = true
  | None => False
  end.

#[export] Instance lies_on_dec s place c f i : Decision (lies_on s place c f i).
Proof. unfold lies_on. destruct (place !! pkey c f i); apply _. Defined.

(** The variable of the arc [(h, t)]: [fs['fixes'][h]['tail_vars'][t]]. *)
Definition arc_var_of (graph : cgraph_t) (l : link) : option var :=
  (dd ← graph; hd ← dd.2; tv ← tail_vars hd.2;
   if decide ((hd.1, tv.1) = l) then [tv.2] else []) !! 0%nat.

(** The variable of the self-loop on the node of fix [f]. *)
Definition loop_var_of (fixes : list (fix_t * var)) (loops : list arc)
    (f : fix_t) : option var :=
  i ← idx fixes f;
  (lp ← loops; if decide (head lp = i) then [arc_var lp] else []) !! 0%nat.

(** The assignment in which exactly these variables are true: the
    activity variables of the fixes [active], the arcs [used], the
    self-loops on the fixes [skipped] and the placements [on]. *)
Definition assignment_of (fixes : list (fix_t * var)) (graph : cgraph_t)
    (loops : list arc) (place : gmap place_key var)
    (active : list fix_t) (used : list link) (skipped : list fix_t)
    (on : list place_key) : assignment :=
  let true_vars :=
    omap (λ f, Py.dict_get f fixes) active
    ++ omap (arc_var_of graph) used
    ++ omap (loop_var_of fixes loops) skipped
    ++ omap (λ k, place !! k) on in
  λ x, bool_decide (x ∈ true_vars).

(** The list [used] of the renderer: the arcs whose variable is true. *)
Definition used_arcs (s : assignment) (graph : cgraph_t) : list link :=
  fs ← graph; hd ← fs.2; tv ← tail_vars hd.2;
  if decide (s tv.2 = true) then [(hd.1, tv.1)] else [].

(** Every fix listed as a tail is itself a node of the graph. *)
Definition tails_closed (graph : graph_t) : Prop :=
  Forall (λ p, Forall (λ e : fix_t * list fix_t,
                         Forall (λ t, t ∈ graph_nodes graph) e.2) p.2) graph.

(** The test under which [set_placements] creates [place[x, y, a, b, i]]
    for a cell with the given clue: the cell is open, or its clue is the
    number of the [i] end of the fix ([b] for [i = 1], [a] for [i = 0]). *)
Definition admits (clue : option Z) (f : fix_t) (i : Z) : Prop :=
  (i = 1%Z /\ (clue = None \/ clue = Some f.2))
  \/ (i = 0%Z /\ (clue = None \/ clue = Some f.1)).

(** The arcs of the graph with their variables, in the order in which
    [on_solution_callback] enumerates them: for each domino, for each of
    its fixes [h], for each entry [(t, var)] of [tail_vars]. *)
Definition links (graph : cgraph_t) : list (link * var) :=
  fs ← graph; hd ← fs.2; tv ← tail_vars hd.2; [((hd.1, tv.1), tv.2)].

(** What [set_circuit] does for one arc [(h, t)] with variable [x]: the
    triple handed to the circuit constraint carries the indices of [h] and
    [t] and the variable [x], and the four implications between [x] and
    the activity variables of [h] and [t] are among the constraints. *)
Definition wired (fixes : list (fix_t * var)) (cons : list constraint)
    (a : arc) (l : link * var) : Prop :=
  idx fixes l.1.1 = Some (head a) /\ idx fixes l.1.2 = Some (tail a)
  /\ arc_var a = l.2
  /\ exists fh ft,
       Py.dict_get l.1.1 fixes = Some fh /\ Py.dict_get l.1.2 fixes = Some ft
       /\ Implication (Pos l.2) (Pos fh) ∈ cons
       /\ Implication (Pos l.2) (Pos ft) ∈ cons
       /\ Implication (Neg fh) (Neg l.2) ∈ cons
       /\ Implication (Neg ft) (Neg l.2) ∈ cons.

(** The fix behind a node index of the circuit (the inverse of [idx]). *)
Definition fix_at (fixes : list (fix_t * var)) (i : nat) : fix_t :=
  default (0, 0)%Z (fixes.*1 !! i).

End DominoBraneSolver.

(** ** A worked instance: the six dominoes of size 2 on the 3 x 4 grid *)

Module Scenario.
Import CpModel DominoBraneSolver.
Local Open Scope Z_scope.

(** The chain [0:0] [0:1] [1:1] [1:2] [2:2] [2:0] laid anticlockwise
    along the border and back through the middle:
<<
    y=3   2 1 1        [1:2] lies on (1,3),(0,3); [1:1] on (2,2),(2,3)
    y=2   2 2 1        [2:2] lies on (0,2),(1,2)
    y=1   0 2 1        [2:0] lies on (1,1),(0,1); [0:1] on (2,0),(2,1)
    y=0   0 0 0        [0:0] lies on (0,0),(1,0)
         x=0 1 2
>> *)
Definition tiling (s : solver) : assignment :=
  assignment_of (fixes s) (graph s) (loops s) (place s)
    [(0, 0); (0, 1); (1, 1); (1, 2); (2, 2); (2, 0)]
    [((0, 0), (0, 1)); ((0, 1), (1, 1)); ((1, 1), (1, 2));
     ((1, 2), (2, 2)); ((2, 2), (2, 0)); ((2, 0), (0, 0))]
    [(1, 0); (2, 1); (0, 2)]
    [(0, 0, 0, 0, 0); (1, 0, 0, 0, 1); (2, 0, 0, 1, 0); (2, 1, 0, 1, 1);
     (2, 2, 1, 1, 0); (2, 3, 1, 1, 1); (1, 3, 1, 2, 0); (0, 3, 1, 2, 1);
     (0, 2, 2, 2, 0); (1, 2, 2, 2, 1); (1, 1, 2, 0, 0); (0, 1, 2, 0, 1)].

(** Five cells in a row. *)
Definition row5 : space_t :=
  [((0, 0), None); ((1, 0), None); ((2, 0), None); ((3, 0), None); ((4, 0), None)].

End Scenario.

(** ** The orientation library: [ShapeCollection] of [polyomino.py] *)

Module ShapeCollection.

Abbreviation point := (Z * Z)%type (only parsing).

(** [min(...)] and [max(...)] of a sequence; [None] stands for the
    [ValueError] raised on an empty one. *)
Definition py_min (l : list Z) : option Z :=
  match l with
  | [] => None
  | x :: l' => Some (foldl Z.min x l')
  end.
Definition py_max (l : list Z) : option Z :=
  match l with
  | [] => None
  | x :: l' => Some (foldl Z.max x l')
  end.

(** [_normalise_pts_]: the shape moved to the origin of its bounding box,
    its points listed column by column. *)
Definition normalise_pts (d : list point) : option (list point) :=
  lx ← py_min d.*1; mx ← py_max d.*1;
  ly ← py_min d.*2; my ← py_max d.*2;
  let bx := (1 + mx)%Z in
  let by_ := (1 + my)%Z in
  Some (x ← Py.range 0 (bx - lx); y ← Py.range 0 (by_ - ly);
        if decide (((x + lx)%Z, (y + ly)%Z) ∈ d) then [(x, y)] else []).

(** [_square_p]: the [p % 8]-th element of the symmetry group of the square. *)
Definition square_p (pts : list point) (p : Z) : list point :=
  (λ ab : point,
     let a := ab.1 in
     let b := ab.2 in
     default ab
       ([(a, b); (- b, a); (- a, - b); (b, - a);
         (b, a); (- a, b); (- b, - a); (a, - b)]%Z !! Z.to_nat (p `mod` 8)))
    <$> pts.

Section with_hash.
(** [hash(str(fix))]: the key under which an orientation is stored.  The
    hash of a string is a built-in of the interpreter; it enters as a
    parameter. *)
Variable hash_str : list point -> Z.

(** The loop [for f in range(8)] filling the dict [restrict]. *)
Fixpoint restrict_loop (base : list point) (fs : list Z)
    (restrict : list (Z * list point)) : option (list (Z * list point)) :=
  match fs with
  | [] => Some restrict
  | f :: fs' =>
      fx ← normalise_pts (square_p base f);
      restrict_loop base fs' (Py.dict_set (hash_str fx) fx restrict)
  end.

(** The orientations kept for one shape: [restrict.values()]. *)
Definition orientations (pts : list point) : option (list (list point)) :=
  base ← normalise_pts pts;
  restrict ← restrict_loop base (Py.range 0 8) [];
  Some restrict.*2.

(** [fix]: fills [self.lib] with [(k, i) -> fix]. *)
Fixpoint fix_lib {K : Type} (points : list (K * list point))
    : option (list ((K * nat) * list point)) :=
  match points with
  | [] => Some []
  | (k, pts) :: points' =>
      os ← orientations pts;
      lib' ← fix_lib points';
      Some (imap (λ i o, ((k, i), o)) os ++ lib')
  end.

End with_hash.

(** Two point lists denote the same point-set. *)
Definition same_points (p q : list point) : Prop :=
  forall x, x ∈ p <-> x ∈ q.

(** The eight images of the normalised shape [base], each normalised. *)
Definition images (base : list point) : list (list point) :=
  omap (λ f, normalise_pts (square_p base f)) (Py.range 0 8).

(** The keys of distinct images do not collide. *)
Definition collision_free (hash_str : list point -> Z) (base : list point) : Prop :=
  forall x y, x ∈ images base -> y ∈ images base -> hash_str x = hash_str y -> x = y.

(** The key is content-based: it tells apart any two lists that differ. *)
Definition content_based (hash_str : list point -> Z) : Prop :=
  forall x y, hash_str x = hash_str y -> x = y.
(** The order in which [_normalise_pts_] lists points: by column, then by
    row. *)
Definition lex_lt (p q : point) : Prop :=
  (p.1 < q.1 \/ (p.1 = q.1 /\ p.2 < q.2))%Z.

End ShapeCollection.

(** ** A worked shape: the L-tromino *)

Module ShapeScenario.
Local Open Scope Z_scope.

Definition tromino : list (Z * Z) := [(0, 0); (1, 0); (1, 1)].

(** A key that tells apart the shapes that fit a 4 x 4 box: the points
    read as digits. *)
Definition positional (l : list (Z * Z)) : Z :=
  foldl (λ acc p, acc * 16 + p.1 * 4 + p.2) 1 l.

(** A content-based key: the code of the list as a number. *)
Definition coded (l : list (Z * Z)) : Z := Z.pos (encode l).
End ShapeScenario.

(** ** The tour of a circuit constraint *)

Module CircuitTour.
Import CpModel.

(** A node of the tour chosen by [s]: mentioned by the circuit constraint
    and not excluded by a true self-loop. *)
Definition on_tour (s : assignment) (arcs : list arc) (n : nat) : Prop :=
  n ∈ nodes arcs /\ ¬ skipped s arcs n.

End CircuitTour.

(** ** Reading the grid off a solution: [SolutionManager.set_grid] *)

Module SolutionManager.
Import CpModel DominoBraneSolver.

(** One turn of the comprehension of [set_grid]: the entry
    [(x, y): (i, (a, b))] is stored when the variable is true. *)
Definition grid_step (val : assignment)
    (grid : list (cell * (Z * fix_t))) (kv : place_key * var)
    : list (cell * (Z * fix_t)) :=
  let '(x, y, a, b, i, x_var) := kv in
  if val x_var then Py.dict_set (x, y) (i, (a, b)) grid else grid.

(** [{(x, y): (i, (a, b)) for (x, y, a, b, i), var in self.place.items()
      if self.val(var)}], with [items] standing for [self.place.items()]. *)
Definition set_grid (val : assignment) (items : list (place_key * var))
    : list (cell * (Z * fix_t)) :=
  foldl (grid_step val) [] items.

End SolutionManager.

(** ** Loading a puzzle: [solve_domino_digraph] *)

Module Puzzle.
Import DominoBraneSolver.
Local Open Scope Z_scope.

(** [l[i]] on a list: a negative index counts from the end; [None]
    stands for [IndexError]. *)
Definition list_get {A : Type} (l : list A) (i : Z) : option A :=
  if decide (0 <= i) then l !! Z.to_nat i
  else if decide (- Z.of_nat (length l) <= i) then l !! Z.to_nat (Z.of_nat (length l) + i)
  else None.

(** [puzzle[y][x]] *)
Definition clue_at (puzzle : list (list (option Z))) (c : cell)
    : option (option Z) :=
  row ← list_get puzzle c.2; list_get row c.1.

(** [for (x, y) in space: space[x, y] = puzzle[y][x]] *)
Definition load (puzzle : list (list (option Z))) (space : space_t)
    : option space_t :=
  mapM (λ e : cell * option Z, clue ← clue_at puzzle e.1; Some (e.1, clue)) space.

Definition db4_demo : list (list (option Z)) :=
  let n : option Z := None in
  [ [n; Some 4; n; Some 4; n];
    [n; Some 3; n; Some 3; n];
    [n; n; Some 2; n; n];
    [n; Some 1; n; Some 1; n];
    [n; Some 0; n; Some 0; n];
    [n; Some 3; n; Some 4; n] ].

(** The space handed to [solve] by [solve_domino_digraph(scale)]. *)
Definition demo_space (scale : Z) : option space_t :=
  load db4_demo (Space scale).

End Puzzle.

(** ** A worked puzzle: four clues on the 3 x 4 grid *)

Module CluedScenario.
Import DominoBraneSolver.
Local Open Scope Z_scope.

(** Clues that the tiling of [Scenario] respects. *)
Definition puzzle : list (list (option Z)) :=
  let n : option Z := None in
  [ [Some 0; n; n];
    [n; Some 2; n];
    [n; n; Some 1];
    [Some 2; n; n] ].

Definition clued : space_t := default [] (Puzzle.load puzzle (Space 2)).

End CluedScenario.

(** ** The circuit-only model builder: [DiGraphSolver] of [domino_circuit.py] *)

Module DominoCircuit.
Import CpModel.

(** [desc.graph]: domino -> fix -> list of tails. *)
Abbreviation graph_t :=
  (list ((Z * Z) * list ((Z * Z) * list (Z * Z)))) (only parsing).

(** [self.nodal = {node: heads for m in self.graph.values()
                   for node, heads in m.items()}] *)
Definition nodal_of (graph : graph_t) : list (fix_t * list fix_t) :=
  foldl (λ d (e : fix_t * list fix_t), Py.dict_set e.1 e.2 d) [] (m ← graph; m.2).

(** [self.idx[k]], with [idx = {k: i for i, k in enumerate(self.nodal)}],
    and [self.rev[i]], its inverse; [None] stands for [KeyError]. *)
Definition idx (nodal : list (fix_t * list fix_t)) (k : fix_t) : option nat :=
  Py.index_of k nodal.*1.
Definition rev (nodal : list (fix_t * list fix_t)) (i : nat) : option fix_t :=
  nodal.*1 !! i.

Record solver : Type := Solver {
  model : CpModel.t;
  graph : graph_t;
  nodal : list (fix_t * list fix_t);
  nodes : list (nat * list nat);
  arcs : list arc
}.

(** [DiGraphSolver(desc)] *)
Definition init (graph : graph_t) : option solver :=
  let nodal := nodal_of graph in
  nodes ← mapM (λ e : fix_t * list fix_t,
                  ih ← idx nodal e.1;
                  its ← mapM (idx nodal) e.2;
                  Some (ih, its)) nodal;
  Some (Solver CpModel.new graph nodal nodes []).

(** [[(idx[h], idx[t], NewBoolVar(...)) for h, ts in nodal.items() for t in ts]],
    over the pairs [(h, t)] in that order. *)
Fixpoint new_arcs (nodal : list (fix_t * list fix_t)) (pairs : list (fix_t * fix_t))
    (m : CpModel.t) : option (list arc * CpModel.t) :=
  match pairs with
  | [] => Some ([], m)
  | (h, t) :: pairs' =>
      ih ← idx nodal h;
      it ← idx nodal t;
      let '(x, m1) := NewBoolVar m in
      '(arcs', m') ← new_arcs nodal pairs' m1;
      Some ((ih, it, x) :: arcs', m')
  end.

Definition arc_pairs (nodal : list (fix_t * list fix_t)) : list (fix_t * fix_t) :=
  e ← nodal; t ← e.2; [(e.1, t)].

(** [[a for (h, t, a) in self.arcs if self.rev[h] in m]] *)
Definition heads_of (nodal : list (fix_t * list fix_t))
    (m : list (fix_t * list fix_t)) (arcs : list arc) : option (list var) :=
  mjoin <$> mapM (λ a : arc,
                    k ← rev nodal (head a);
                    Some (if decide (k ∈ m.*1) then [arc_var a] else [])) arcs.

(** [[(idx[n], idx[n], NewBoolVar(...)) for n in m]] *)
Fixpoint new_loops (nodal : list (fix_t * list fix_t)) (ns : list fix_t)
    (m : CpModel.t) : option (list arc * CpModel.t) :=
  match ns with
  | [] => Some ([], m)
  | n :: ns' =>
      i ← idx nodal n;
      j ← idx nodal n;
      let '(x, m1) := NewBoolVar m in
      '(loops', m') ← new_loops nodal ns' m1;
      Some ((i, j, x) :: loops', m')
  end.

(** The loop [for m in self.graph.values()]: "Lock out the graph from
    allowing both mirrors." *)
Fixpoint lock_out (nodal : list (fix_t * list fix_t))
    (pieces : list (list (fix_t * list fix_t))) (arcs : list arc) (m : CpModel.t)
    : option (list arc * CpModel.t) :=
  match pieces with
  | [] => Some (arcs, m)
  | p :: pieces' =>
      if decide (1 < length p)%nat
      then
        heads ← heads_of nodal p arcs;
        let m1 := Add (LinearEq heads [] 1 []) m in
        '(loops, m2) ← new_loops nodal p.*1 m1;
        lock_out nodal pieces' (arcs ++ loops) m2
      else lock_out nodal pieces' arcs m
  end.

(** [setup] *)
Definition setup (s : solver) : option solver :=
  '(arcs0, m1) ← new_arcs (nodal s) (arc_pairs (nodal s)) (model s);
  let m2 := Add (LinearEq (arc_var <$> arcs0) [] (Z.of_nat (length (graph s))) []) m1 in
  '(arcs1, m3) ← lock_out (nodal s) (snd <$> graph s) arcs0 m2;
  Some (Solver (Add (Circuit arcs1) m3) (graph s) (nodal s) (nodes s) arcs1).

End DominoCircuit.

(** ** Notions used to state the properties of [DominoCircuit.setup] *)

Module DominoCircuitFacts.
Import CpModel DominoCircuit.

(** The arc leaves a fix of the piece [m]: [self.rev[h] in m]. *)
Definition leaves (nodal : list (fix_t * list fix_t))
    (m : list (fix_t * list fix_t)) (a : arc) : Prop :=
  match rev nodal (head a) with
  | Some k => k ∈ m.*1
  | None => False
  end.

#[export] Instance leaves_dec nodal m a : Decision (leaves nodal m a).
Proof. unfold leaves. destruct (rev nodal (head a)); apply _. Defined.

(** The index pairs of the self-loops of a piece: none for a piece with
    one fix. *)
Definition loop_pairs (nodal : list (fix_t * list fix_t))
    (m : list (fix_t * list fix_t)) : list (option nat * option nat) :=
  if decide (1 < length m)%nat
  then (λ e : fix_t * list fix_t, (idx nodal e.1, idx nodal e.1)) <$> m
  else [].

End DominoCircuitFacts.

(** ** A chain for the circuit-only model of size 2 *)

Module CircuitScenario.
Import CpModel DominoCircuit.
Local Open Scope Z_scope.

(** The arcs named by their fixes: an arc between two fixes is chosen when
    it is one of [links], a self-loop when its fix is one of [off]. *)
Definition chosen (s : solver) (links : list (fix_t * fix_t)) (off : list fix_t)
    (a : arc) : bool :=
  match rev (nodal s) (head a), rev (nodal s) (tail a) with
  | Some h, Some t =>
      if decide (head a = tail a) then bool_decide (h ∈ off)
      else bool_decide ((h, t) ∈ links)
  | _, _ => false
  end.

Definition assignment_of (s : solver) (links : list (fix_t * fix_t))
    (off : list fix_t) : assignment :=
  λ x, bool_decide
         (x ∈ arc_var <$> filter (λ a, chosen s links off a = true) (arcs s)).

(** The chain [0:0] [0:1] [1:1] [1:2] [2:2] [2:0]; the mirrors [1:0],
    [2:1], [0:2] are left out. *)
Definition chain (s : solver) : assignment :=
  assignment_of s
    [((0, 0), (0, 1)); ((0, 1), (1, 1)); ((1, 1), (1, 2));
     ((1, 2), (2, 2)); ((2, 2), (2, 0)); ((2, 0), (0, 0))]
    [(1, 0); (2, 1); (0, 2)].

End CircuitScenario.

(** ** The path finder: [DiGraphSolver] of [digraph/circuit.py]

    [desc.nodes] maps a node to the list of its tails; since it is a dict,
    its keys are pairwise distinct, which the properties below assume
    where they need it. *)

Module DigraphCircuit.
Import CpModel.

(** [desc.steps]: ['min'], ['max'] or a number. *)
Inductive steps_t : Type :=
  | StepsMin
  | StepsMax
  | Steps (n : Z).

(** What the solver is asked to optimise: [Maximize(sum(vars))] or
    [Minimize(sum(vars))]. *)
Inductive objective_t : Type :=
  | Maximize (xs : list var)
  | Minimize (xs : list var).

(** What [store] ends in. *)
Inductive outcome (A : Type) : Type :=
  | Stored (a : A)
  | TypeError     (* [arc[0]] when no used arc leaves the node: [arc] is [None] *)
  | KeyError      (* [self.revs[arc[0]]] *)
  | OutOfFuel.
Arguments Stored {A} a.
Arguments TypeError {A}.
Arguments KeyError {A}.
Arguments OutOfFuel {A}.

Section solver.
Context {K : Type} `{EqDecision K}.

Record desc_t : Type := Desc {
  d_nodes : list (K * list K);
  d_start : K;
  d_stop : K;
  d_steps : steps_t
}.

(** [self.keys] and [self.revs] are kept as the list of keys:
    [self.keys[k]] is the position of [k], [self.revs[i]] the key at
    position [i]. *)
Record solver : Type := Solver {
  model : CpModel.t;
  objective : option objective_t;
  keys : list K;
  min_maxing : bool;
  find_max : bool;
  step_count : option Z;
  start : nat;
  stop : nat;
  nodes : list (nat * list nat);
  arcs : list arc;
  vars : list var;
  result : list K
}.

(** [DiGraphSolver(desc)]; [None] stands for [KeyError]. *)
Definition init (desc : desc_t) : option solver :=
  let ks := (d_nodes desc).*1 in
  let steps := d_steps desc in
  let min_maxing := match steps with Steps _ => false | _ => true end in
  let find_max := match steps with StepsMax => true | _ => false end in
  let step_count := match steps with Steps n => Some n | _ => None end in
  start ← Py.index_of (d_start desc) ks;
  stop ← Py.index_of (d_stop desc) ks;
  nodes ← mapM (λ e : K * list K,
                  ih ← Py.index_of e.1 ks;
                  its ← mapM (λ t, Py.index_of t ks) e.2;
                  Some (ih, its)) (d_nodes desc);
  Some (Solver CpModel.new None ks min_maxing find_max step_count start stop
          nodes [] [] []).

(** [[(head, tail, NewBoolVar(...)) for ...]] over the pairs [(head, tail)]
    in order. *)
Fixpoint new_arcs (pairs : list (nat * nat)) (m : CpModel.t) : list arc * CpModel.t :=
  match pairs with
  | [] => ([], m)
  | (h, t) :: pairs' =>
      let '(x, m1) := NewBoolVar m in
      let '(arcs', m') := new_arcs pairs' m1 in
      ((h, t, x) :: arcs', m')
  end.

(** [for head, tails in self.nodes.items() for tail in tails] *)
Definition arc_pairs (nodes : list (nat * list nat)) : list (nat * nat) :=
  e ← nodes; t ← e.2; [(e.1, t)].

(** [for n in self.revs if n not in [self.start, self.stop]] *)
Definition optional (s : solver) : list nat :=
  filter (λ n, n ∉ [start s; stop s]) (seq 0 (length (keys s))).

(** [setup] *)
Definition setup (s : solver) : solver :=
  let '(arcs0, m1) := new_arcs (arc_pairs (nodes s)) (model s) in
  let vars := arc_var <$> arcs0 in
  let '(loops, m2) := new_arcs ((λ n, (n, n)) <$> optional s) m1 in
  let '(x, m3) := NewBoolVar m2 in
  let arcs := (arcs0 ++ loops) ++ [(stop s, start s, x)] in
  let m4 := Add (Circuit arcs) m3 in
  let '(m5, obj) :=
    if min_maxing s
    then (m4, Some (if find_max s then Maximize vars else Minimize vars))
    else match step_count s with
         | Some n => (Add (LinearEq vars [] n []) m4, None)
         | None => (m4, None)
         end in
  Solver m5 obj (keys s) (min_maxing s) (find_max s) (step_count s)
    (start s) (stop s) (nodes s) arcs vars (result s).

(** The loop of [store], one turn per unit of fuel: [cur] is [arc[1]]. *)
Fixpoint follow (fuel : nat) (s : solver) (used : list arc) (cur : nat)
    (result : list K) : outcome (list K) :=
  match fuel with
  | O => OutOfFuel
  | S fuel' =>
      match Py.next_where (λ l : arc, head l = cur) used with
      | None => TypeError
      | Some a =>
          match keys s !! head a with
          | None => KeyError
          | Some k =>
              let result' := result ++ [k] in
              if decide (tail a = start s) then Stored result'
              else follow fuel' s used (tail a) result'
          end
      end
  end.

(** [store(cp_solver)], where [val] gives [cp_solver.Value]. *)
Definition store (fuel : nat) (val : assignment) (s : solver) : outcome solver :=
  let used := filter (λ a : arc, val (arc_var a) = true) (arcs s) in
  match follow fuel s used (start s) (result s) with
  | Stored r =>
      Stored (Solver (model s) (objective s) (keys s) (min_maxing s) (find_max s)
                (Some (Z.of_nat (length r) - 1)%Z) (start s) (stop s) (nodes s)
                (arcs s) (vars s) r)
  | TypeError => TypeError
  | KeyError => KeyError
  | OutOfFuel => OutOfFuel
  end.

End solver.
Arguments desc_t K : clear implicits.
Arguments solver K : clear implicits.

End DigraphCircuit.

(** ** Notions used to state the properties of [DigraphCircuit] *)

Module DigraphCircuitFacts.
Import CpModel DigraphCircuit.

(** The two nodes of an arc. *)
Definition ends_of (a : arc) : nat * nat := (head a, tail a).

(** [nodes] is the indexed form of [desc.nodes]: every key and every tail
    replaced by its position among the keys. *)
Definition indexed {K : Type} `{EqDecision K} (desc : desc_t K)
    (nodes : list (nat * list nat)) : Prop :=
  Forall2 (λ (e : K * list K) (r : nat * list nat),
             Py.index_of e.1 (d_nodes desc).*1 = Some r.1
             /\ Forall2 (λ t it, Py.index_of t (d_nodes desc).*1 = Some it) e.2 r.2)
    (d_nodes desc) nodes.

End DigraphCircuitFacts.

(** ** A three-node digraph *)

Module DigraphScenario.
Import CpModel DigraphCircuit.

(** [a: ['b', 'c'], b: ['c'], c: []], from ['a'] to ['c'] in two steps. *)
Definition abc : desc_t string :=
  Desc [("a", ["b"; "c"]); ("b", ["c"]); ("c", [])]%string
       "a"%string "c"%string (Steps 2).

(** The variables are created in the order a:b, a:c, b:c, the self-loop of
    b, the dummy arc; the path a-b-c uses the first, the third and the
    dummy arc. *)
Definition a_b_c : assignment := λ x, bool_decide (x ∈ [0; 2; 4]%nat).

End DigraphScenario.

(** ** The puzzle builder: [ShapeCollection.legal], [translate] and
    [SolvePolyominoPuzzle.process] of [polyomino.py]

    [pieces.lib] and [problem['use']] are dicts and [problem['fill']] is
    a set: their keys, respectively elements, are pairwise distinct, which
    the properties below assume where they need it.  A set is kept as the
    list of its elements in the order it is iterated. *)

Module PolyominoPuzzle.
Import CpModel.

(** The linear constraints that [process] adds to its model. *)
Inductive constraint : Type :=
  (** [Add(sum(xs) == k)] *)
  | SumEq (xs : list var) (k : Z)
  (** [Add(sum(xs) >= k)] *)
  | SumGe (xs : list var) (k : Z)
  (** [Add(sum(xs) <= k)] *)
  | SumLe (xs : list var) (k : Z).

Definition holds (s : assignment) (c : constraint) : Prop :=
  match c with
  | SumEq xs k => total s xs = k
  | SumGe xs k => (k <= total s xs)%Z
  | SumLe xs k => (total s xs <= k)%Z
  end.

#[export] Instance puzzle_holds_dec s c : Decision (holds s c).
Proof. destruct c; simpl; apply _. Defined.

(** A dict filled by successive assignments [d[k] = v]. *)
Definition dict_from {K V : Type} `{EqDecision K} (l : list (K * V)) : list (K * V) :=
  foldl (λ d (e : K * V), Py.dict_set e.1 e.2 d) [] l.

(** [s.add(x)] *)
Definition set_add {A : Type} `{EqDecision A} (x : A) (s : list A) : list A :=
  if decide (x ∈ s) then s else s ++ [x].

(** [(pt[0] + offs[0], pt[1] + offs[1])] *)
Definition move (offs pt : Z * Z) : Z * Z := (pt.1 + offs.1, pt.2 + offs.2)%Z.

(** [set((x, y) for y in range(0, 6) for x in range(0, 10))] *)
Definition default_ground : list (Z * Z) :=
  y ← Py.range 0 6; x ← Py.range 0 10; [(x, y)].

Section puzzle.
Context {K : Type} `{EqDecision K}.

(** The dict [problem], with its optional entries ['gaps'], ['fill'] and
    ['use']. *)
Record problem_t : Type := Problem {
  p_gaps : option bool;
  p_fill : option (list (Z * Z));
  p_use : option (list (K * Z))
}.

(** [pieces.legal(key, ground, offs)]; [None] stands for [KeyError]. *)
Definition legal (lib : list ((K * nat) * list (Z * Z))) (key : K * nat)
    (ground : list (Z * Z)) (offs : Z * Z) : option bool :=
  point_set ← Py.dict_get key lib;
  Some (bool_decide (Forall (λ pt, move offs pt ∈ ground) point_set)).

(** [pieces.translate(key, offs)] *)
Definition translate (lib : list ((K * nat) * list (Z * Z))) (key : K * nat)
    (offs : Z * Z) : option (list (Z * Z)) :=
  point_set ← Py.dict_get key lib;
  Some (remove_dups (move offs <$> point_set)).

(** The keys [(name, i, point)] under which the loop over [pieces.lib]
    and [self.ground] stores a variable and a placement, in order, each
    with its placement. *)
Definition candidates (lib : list ((K * nat) * list (Z * Z)))
    (available : list (K * Z)) (ground : list (Z * Z))
    : option (list ((K * nat * (Z * Z)) * list (Z * Z))) :=
  mjoin <$> mapM (λ named_fix : K * nat,
                    if decide (named_fix.1 ∈ available.*1)
                    then mjoin <$> mapM (λ point : Z * Z,
                                           ok ← legal lib named_fix ground point;
                                           if ok : bool
                                           then pp ← translate lib named_fix point;
                                                Some [((named_fix, point), pp)]
                                           else Some []) ground
                    else Some []) lib.*1.

(** [free[k]]: [[bv for i, bv in self.presence.items() if i[0] == k]] *)
Definition free (presence : list ((K * nat * (Z * Z)) * var)) (k : K) : list var :=
  (filter (λ e : (K * nat * (Z * Z)) * var, e.1.1.1 = k) presence).*2.

(** [for point in pp: self.pos_items[point].add(fixed)] *)
Fixpoint add_points (fixed : K * nat * (Z * Z)) (pp : list (Z * Z))
    (pos : list ((Z * Z) * list (K * nat * (Z * Z))))
    : option (list ((Z * Z) * list (K * nat * (Z * Z)))) :=
  match pp with
  | [] => Some pos
  | point :: pp' =>
      s ← Py.dict_get point pos;
      add_points fixed pp' (Py.dict_set point (set_add fixed s) pos)
  end.

(** [for fixed, p_bv in self.presence.items(): pp = placement[fixed]; ...] *)
Fixpoint fill_pos (fixeds : list (K * nat * (Z * Z)))
    (placement : list ((K * nat * (Z * Z)) * list (Z * Z)))
    (pos : list ((Z * Z) * list (K * nat * (Z * Z))))
    : option (list ((Z * Z) * list (K * nat * (Z * Z)))) :=
  match fixeds with
  | [] => Some pos
  | fixed :: fixeds' =>
      pp ← Py.dict_get fixed placement;
      pos' ← add_points fixed pp pos;
      fill_pos fixeds' placement pos'
  end.

(** The loop [for k, allowed in available.items()]: its constraints, and
    the list [to_maximise]. *)
Definition count_constraints (presence : list ((K * nat * (Z * Z)) * var))
    (available : list (K * Z)) : list constraint :=
  (λ e : K * Z,
     if decide (0 < e.2)%Z then SumEq (free presence e.1) e.2
     else SumGe (free presence e.1) (- e.2)) <$> available.
Definition to_maximise (presence : list ((K * nat * (Z * Z)) * var))
    (available : list (K * Z)) : list var :=
  e ← available; if decide (0 < e.2)%Z then [] else free presence e.1.

(** The loop [for pt_points in self.pos_items.values()]. *)
Definition cell_constraints (gaps : bool)
    (presence : list ((K * nat * (Z * Z)) * var))
    (pos : list ((Z * Z) * list (K * nat * (Z * Z)))) : option (list constraint) :=
  mapM (λ e : (Z * Z) * list (K * nat * (Z * Z)),
          items ← mapM (λ i, Py.dict_get i presence) e.2;
          Some (if gaps then SumLe items 1 else SumEq items 1)) pos.

(** The solver object after [process], with the model handed to
    [Solve]. *)
Record puzzle : Type := Puzzle {
  allow_gaps : bool;
  maximising : bool;
  ground : list (Z * Z);
  pos_items : list ((Z * Z) * list (K * nat * (Z * Z)));
  presence : list ((K * nat * (Z * Z)) * var);
  constraints : list constraint;
  objective : option (list var)
}.

(** [process(pieces, problem)] on a solver object just created
    ([self.presence] is empty); the variables of the fresh model are
    numbered as they are created.  [None] stands for [KeyError]. *)
Definition process (lib : list ((K * nat) * list (Z * Z))) (names : list K)
    (problem : problem_t) : option puzzle :=
  let gaps := default false (p_gaps problem) in
  let ground := default default_ground (p_fill problem) in
  let available :=
    default (dict_from ((λ k, (k, (-1)%Z)) <$> names)) (p_use problem) in
  cands ← candidates lib available ground;
  let presence := dict_from (imap (λ i c, (c.1, i)) cands) in
  let placement := dict_from cands in
  pos ← fill_pos presence.*1 placement (dict_from ((λ x, (x, [])) <$> ground));
  let counts := count_constraints presence available in
  let to_max := to_maximise presence available in
  cells ← cell_constraints gaps presence pos;
  Some (Puzzle gaps (bool_decide (to_max ≠ [])) ground pos presence
          (counts ++ cells)
          (if decide (to_max = []) then None else Some to_max)).

(** [val] is a solution of the model. *)
Definition satisfies (val : assignment) (pz : puzzle) : Prop :=
  Forall (holds val) (constraints pz).

#[export] Instance puzzle_satisfies_dec val pz : Decision (satisfies val pz).
Proof. unfold satisfies. apply _. Defined.

End puzzle.
Arguments problem_t K : clear implicits.
Arguments puzzle K : clear implicits.

End PolyominoPuzzle.

(** ** Notions used to state the properties of [PolyominoPuzzle.process] *)

Module PolyominoPuzzleFacts.
Import CpModel PolyominoPuzzle.

Section notions.
Context {K : Type} `{EqDecision K}.

(** [available], as [process] computes it from the problem. *)
Definition available_of (names : list K) (problem : problem_t K) : list (K * Z) :=
  default (dict_from ((λ k, (k, (-1)%Z)) <$> names)) (p_use problem).

(** The cells that the placement [(name, i, point)] covers:
    [pieces.translate((name, i), point)]. *)
Definition cells (lib : list ((K * nat) * list (Z * Z)))
    (fixed : K * nat * (Z * Z)) : list (Z * Z) :=
  default [] (translate lib fixed.1 fixed.2).

(** The placement is part of the solution: its variable is true. *)
Definition placed (val : assignment) (pz : puzzle K)
    (fixed : K * nat * (Z * Z)) : Prop :=
  exists x, (fixed, x) ∈ presence pz /\ val x = true.

End notions.

End PolyominoPuzzleFacts.

(** ** A worked puzzle: two dominoes in a 2 x 2 box *)

Module PuzzleScenario.
Import CpModel PolyominoPuzzle.
Local Open Scope Z_scope.

(** The library of the one shape ["D"], a domino: lying and standing. *)
Definition domino_lib : list ((string * nat) * list (Z * Z)) :=
  [(("D"%string, 0%nat), [(0, 0); (1, 0)]); (("D"%string, 1%nat), [(0, 0); (0, 1)])].

(** [{'gaps': False, 'fill': {(0,0), (1,0), (0,1), (1,1)}, 'use': {'D': 2}}] *)
Definition box2 : problem_t string :=
  Problem (Some false) (Some [(0, 0); (1, 0); (0, 1); (1, 1)])
          (Some [("D"%string, 2)]).

(** The variables are created for the lying domino at (0,0) and at
    (0,1), then for the standing domino at (0,0) and at (1,0); the two
    lying dominoes fill the box. *)
Definition two_rows : assignment := λ x, bool_decide (x ∈ [0; 1]%nat).

End PuzzleScenario.

(** ** Box-drawing characters: [box] of [polyomino.py] and of
    [box_draw] in [domino_cf.py] *)

Module BoxDrawing.
Local Open Scope Z_scope.

Definition box_chars : list string :=
  [" "; "╸"; "╺"; "═"; "╹"; "╝"; "╚"; "╩"; "╻"; "╗"; "╔"; "╦"; "║"; "╣"; "╠"; "╬"]%string.

(** [for i, wall in enumerate(walls): value |= 1 << i if wall else 0] *)
Definition box_value (walls : list bool) : Z :=
  foldl (λ value (iw : nat * bool),
           Z.lor value (if iw.2 then Z.shiftl 1 (Z.of_nat iw.1) else 0))
        0 (imap (λ i wall, (i, wall)) walls).

(** [box(walls...)]: the character at index [value & 0x0F]; [None] stands
    for [IndexError]. *)
Definition box (walls : list bool) : option string :=
  box_chars !! Z.to_nat (Z.land (box_value walls) 15).

End BoxDrawing.

(** ** The grid that [SolvePolyominoPuzzle.draw] composes from a solution *)

Module PolyominoDraw.
Import CpModel PolyominoPuzzle.

(** [min(l, key=key)] and [max(l, key=key)]: the first element whose key
    is least, respectively greatest; [None] stands for the [ValueError]
    raised on an empty collection. *)
Definition min_by {A : Type} (key : A -> Z) (l : list A) : option A :=
  match l with
  | [] => None
  | a :: l' => Some (foldl (λ m b, if decide (key b < key m)%Z then b else m) a l')
  end.
Definition max_by {A : Type} (key : A -> Z) (l : list A) : option A :=
  match l with
  | [] => None
  | a :: l' => Some (foldl (λ m b, if decide (key m < key b)%Z then b else m) a l')
  end.

Section draw.
Context {K : Type} `{EqDecision K}.

(** [for maybe in self.pos_items[x, y]:
       if self.solver.Value(self.presence[maybe]): grid[key] = maybe] *)
Fixpoint mark (val : assignment) (presence : list ((K * nat * (Z * Z)) * var))
    (key : Z * Z) (maybes : list (K * nat * (Z * Z)))
    (grid : list ((Z * Z) * option (K * nat * (Z * Z))))
    : option (list ((Z * Z) * option (K * nat * (Z * Z)))) :=
  match maybes with
  | [] => Some grid
  | maybe :: rest =>
      x ← Py.dict_get maybe presence;
      mark val presence key rest
        (if val x then Py.dict_set key (Some maybe) grid else grid)
  end.

(** The body of the two loops, for the cell [(x, y)]. *)
Definition grid_cell (val : assignment) (pz : puzzle K) (x1 y1 : Z)
    (grid : list ((Z * Z) * option (K * nat * (Z * Z)))) (xy : Z * Z)
    : option (list ((Z * Z) * option (K * nat * (Z * Z)))) :=
  let key := (xy.1 - x1, xy.2 - y1)%Z in
  let grid1 := Py.dict_set key None grid in
  if decide (xy ∈ (pos_items pz).*1)
  then maybes ← Py.dict_get xy (pos_items pz);
       mark val (presence pz) key maybes grid1
  else Some grid1.

Fixpoint fill_grid (val : assignment) (pz : puzzle K) (x1 y1 : Z)
    (cells : list (Z * Z)) (grid : list ((Z * Z) * option (K * nat * (Z * Z))))
    : option (list ((Z * Z) * option (K * nat * (Z * Z)))) :=
  match cells with
  | [] => Some grid
  | xy :: cells' =>
      grid' ← grid_cell val pz x1 y1 grid xy;
      fill_grid val pz x1 y1 cells' grid'
  end.

(** The first part of [draw]: the bounds of the ground and the dict
    [grid]; [val] gives [self.solver.Value].  [None] stands for
    [ValueError] or [KeyError]. *)
Definition draw_grid (val : assignment) (pz : puzzle K)
    : option (Z * Z * Z * Z * list ((Z * Z) * option (K * nat * (Z * Z)))) :=
  a ← min_by fst (ground pz);
  b ← min_by snd (ground pz);
  c ← max_by fst (ground pz);
  d ← max_by snd (ground pz);
  let x1 := a.1 in
  let y1 := b.2 in
  let x2 := c.1 in
  let y2 := d.2 in
  grid ← fill_grid val pz x1 y1
            (y ← Py.range y1 (y2 + 1); x ← Py.range x1 (x2 + 1); [(x, y)]) [];
  Some (x1, y1, x2, y2, grid).

End draw.

End PolyominoDraw.

(** * Properties *)

(** ** Python helpers *)

Section py_facts.
Context {A : Type} `{EqDecision A}.

Lemma range_elem lo hi (k : Z) : k ∈ Py.range lo hi <-> (lo <= k < hi)%Z.
Proof. unfold Py.range. rewrite elem_of_seqZ. lia. Qed.

Lemma range_NoDup lo hi : NoDup (Py.range lo hi).
Proof. apply NoDup_seqZ. Qed.

Lemma set2_elem (x y z : A) : z ∈ Py.set2 x y <-> z = x \/ z = y.
Proof.
  unfold Py.set2. case_decide; subst.
  - rewrite list_elem_of_singleton. tauto.
  - rewrite elem_of_cons, list_elem_of_singleton. tauto.
Qed.

Lemma set2_NoDup (x y : A) : NoDup (Py.set2 x y).
Proof.
  unfold Py.set2. case_decide.
  - apply NoDup_singleton.
  - apply NoDup_cons. split; [|apply NoDup_singleton].
    rewrite list_elem_of_singleton. done.
Qed.

Lemma set2_length (x y : A) :
  length (Py.set2 x y) = if decide (x = y) then 1%nat else 2%nat.
Proof. unfold Py.set2. by case_decide. Qed.

Lemma remove_elem (x : A) l : x ∈ l -> exists l', Py.remove x l = Some l'.
Proof.
  induction l as [|y l IH]; intros Hx; [by apply elem_of_nil in Hx|].
  simpl. case_decide; [eauto|].
  apply elem_of_cons in Hx as [->|Hx]; [done|].
  destruct (IH Hx) as [l' ->]. simpl. eauto.
Qed.

Lemma remove_length (x : A) l l' :
  Py.remove x l = Some l' -> length l = S (length l').
Proof.
  revert l'. induction l as [|y l IH]; intros l'; simpl; [done|].
  case_decide.
  - by intros [= ->].
  - destruct (Py.remove x l) as [l0|] eqn:E; simpl; [|done].
    intros [= <-]. simpl. f_equal. by apply IH.
Qed.

Lemma remove_perm (x : A) l l' : Py.remove x l = Some l' -> l ≡ₚ x :: l'.
Proof.
  revert l'. induction l as [|y l IH]; intros l'; simpl; [done|].
  case_decide.
  - intros [= ->]. by subst.
  - destruct (Py.remove x l) as [l0|] eqn:E; simpl; [|done].
    intros [= <-]. rewrite (IH l0 eq_refl). apply Permutation_swap.
Qed.

Lemma next_where_Some (P : A -> Prop) `{forall y, Decision (P y)} l y :
  Py.next_where P l = Some y -> y ∈ l /\ P y.
Proof.
  unfold Py.next_where. destruct (list_find P l) as [[i z]|] eqn:E; simpl; [|done].
  intros [= <-]. apply list_find_Some in E as (Hi & HP & _).
  split; [by eapply list_elem_of_lookup_2|done].
Qed.

Lemma next_where_None (P : A -> Prop) `{forall y, Decision (P y)} l :
  Py.next_where P l = None -> Forall (λ y, ¬ P y) l.
Proof.
  unfold Py.next_where. destruct (list_find P l) as [[i z]|] eqn:E; simpl; [done|].
  intros _. by apply list_find_None in E.
Qed.

Lemma remove_dups_length_le (l : list A) :
  (length (remove_dups l) <= length l)%nat.
Proof.
  induction l as [|x l IH]; simpl; [done|].
  destruct (decide_rel elem_of x l); simpl; lia.
Qed.

(** [len(set(l)) == len(l)] exactly when [l] has no repeated entry. *)
Lemma remove_dups_length (l : list A) :
  length (remove_dups l) = length l <-> NoDup l.
Proof.
  induction l as [|x l IH]; simpl.
  - split; [intros _; apply NoDup_nil_2|done].
  - pose proof (remove_dups_length_le l).
    destruct (decide_rel elem_of x l) as [Hx|Hx]; simpl.
    + split; [lia|]. intros [? _]%NoDup_cons. done.
    + rewrite NoDup_cons. split.
      * intros [= Hl]. split; [done|]. by apply IH.
      * intros [_ Hnd]. f_equal. by apply IH.
Qed.

End py_facts.

(** ** The domino digraph *)

Section digraph_facts.
Import DominoDigraph.

Lemma dominoes_elem size (d : piece) :
  d ∈ dominoes size <-> (0 <= d.2 <= d.1 /\ d.1 <= size)%Z.
Proof.
  unfold dominoes. destruct d as [x y]. simpl. rewrite list_elem_of_bind. split.
  - intros (y' & Hin & Hy). apply list_elem_of_bind in Hin as (x' & Hin & Hx).
    apply list_elem_of_singleton in Hin as [= -> ->].
    apply range_elem in Hx, Hy. lia.
  - intros H. exists y. split; [|apply range_elem; lia].
    apply list_elem_of_bind. exists x. split; [by apply list_elem_of_singleton|].
    apply range_elem. lia.
Qed.

Lemma dominoes_NoDup size : NoDup (dominoes size).
Proof.
  unfold dominoes. apply NoDup_bind; [| |apply range_NoDup].
  - intros y1 y2 d H1 H2 Hd1 Hd2.
    apply list_elem_of_bind in Hd1 as (x1 & Hd1 & _).
    apply list_elem_of_bind in Hd2 as (x2 & Hd2 & _).
    apply list_elem_of_singleton in Hd1, Hd2. congruence.
  - intros y _. apply NoDup_bind; [| |apply range_NoDup].
    + intros x1 x2 d _ _ Hd1 Hd2.
      apply list_elem_of_singleton in Hd1, Hd2. congruence.
    + intros x _. apply NoDup_singleton.
Qed.

Lemma fixed_elem size (e : piece * list fix_t) :
  e ∈ fixed size <->
  e.1 ∈ dominoes size /\ e.2 = Py.set2 (e.1.1, e.1.2) (e.1.2, e.1.1).
Proof.
  unfold fixed. rewrite list_elem_of_fmap. split.
  - intros (d & -> & Hd). done.
  - intros [Hd He]. exists e.1. split; [|done]. destruct e; simpl in *; by subst.
Qed.

Lemma fixed_NoDup size : NoDup (fixed size).
Proof.
  unfold fixed. apply NoDup_fmap_2_strong; [|apply dominoes_NoDup].
  intros d1 d2 _ _ [= ->]. done.
Qed.

(** A fix belongs to one domino only. *)
Lemma fixed_owner size (e1 e2 : piece * list fix_t) (f : fix_t) :
  e1 ∈ fixed size -> e2 ∈ fixed size -> f ∈ e1.2 -> f ∈ e2.2 -> e1 = e2.
Proof.
  intros [H1 E1]%fixed_elem [H2 E2]%fixed_elem Hf1 Hf2.
  apply dominoes_elem in H1, H2.
  rewrite E1 in Hf1. rewrite E2 in Hf2.
  apply set2_elem in Hf1, Hf2.
  destruct e1 as [[a1 b1] l1], e2 as [[a2 b2] l2]; simpl in *.
  assert (a1 = a2 /\ b1 = b2) as [-> ->].
  { destruct Hf1 as [->| ->], Hf2 as [[= ? ?]|[= ? ?]]; lia. }
  by subst.
Qed.

Lemma tails_of_inner (e : piece * list fix_t) (d : piece) (d_fix f : fix_t) :
  f ∈ (if decide (e.1 ≠ d)
       then o_fix ← e.2; if decide (o_fix.1 = d_fix.2) then [o_fix] else []
       else []) <->
  e.1 ≠ d /\ f ∈ e.2 /\ f.1 = d_fix.2.
Proof.
  destruct (decide (e.1 ≠ d)) as [Hne|Hne].
  - rewrite list_elem_of_bind. split.
    + intros (f' & Hin & Hf).
      destruct (decide (f'.1 = d_fix.2)); [|by apply elem_of_nil in Hin].
      apply list_elem_of_singleton in Hin as ->. done.
    + intros (_ & Hf & Heq). exists f. split; [|done].
      rewrite decide_True by done. by apply list_elem_of_singleton.
  - split; [intros []%elem_of_nil|tauto].
Qed.

Lemma tails_of_elem size (d : piece) (d_fix o_fix : fix_t) :
  o_fix ∈ tails_of (fixed size) d d_fix <->
  exists e, e ∈ fixed size /\ e.1 ≠ d /\ o_fix ∈ e.2 /\ o_fix.1 = d_fix.2.
Proof.
  unfold tails_of. rewrite list_elem_of_bind. split.
  - intros (e & Hin%tails_of_inner & He). eauto.
  - intros (e & He & Hin). exists e. split; [|done]. by apply tails_of_inner.
Qed.

Lemma tails_of_NoDup size (d : piece) (d_fix : fix_t) :
  NoDup (tails_of (fixed size) d d_fix).
Proof.
  unfold tails_of. apply NoDup_bind; [| |apply fixed_NoDup].
  - intros e1 e2 f H1 H2 (_ & Hf1 & _)%tails_of_inner (_ & Hf2 & _)%tails_of_inner.
    by apply (fixed_owner size e1 e2 f).
  - intros e He. destruct (decide (e.1 ≠ d)); [|apply NoDup_nil_2].
    apply NoDup_bind.
    + intros f1 f2 f _ _ Hf1 Hf2.
      destruct (decide (f1.1 = d_fix.2)); [|by apply elem_of_nil in Hf1].
      destruct (decide (f2.1 = d_fix.2)); [|by apply elem_of_nil in Hf2].
      apply list_elem_of_singleton in Hf1, Hf2. congruence.
    + intros f _. case_decide; [apply NoDup_singleton|apply NoDup_nil_2].
    + apply fixed_elem in He as [_ He]. rewrite He. apply set2_NoDup.
Qed.

Lemma graph_elem size (g : piece * list (fix_t * list fix_t)) :
  g ∈ graph size <->
  exists e, e ∈ fixed size /\ g.1 = e.1 /\
            g.2 = (λ d_fix, (d_fix, tails_of (fixed size) e.1 d_fix)) <$> e.2.
Proof.
  unfold graph. rewrite list_elem_of_fmap. split.
  - intros (e & -> & He). eauto.
  - intros (e & He & H1 & H2). exists e. split; [|done].
    destruct g; simpl in *; by subst.
Qed.

(** C7. In the graph [DominoDigraph] builds, a fix [o_fix] of domino [o] is
    in the tails list of a fix [d_fix] of domino [d] exactly when the two
    dominoes differ and the leading value of [o_fix] is the trailing value
    of [d_fix]; and no tails list holds a fix twice. *)
Theorem tails_characterised size (d o : piece) dir odir (d_fix o_fix : fix_t) ts ots :
  (d, dir) ∈ graph size -> (d_fix, ts) ∈ dir ->
  (o, odir) ∈ graph size -> (o_fix, ots) ∈ odir ->
  (o_fix ∈ ts <-> o ≠ d /\ o_fix.1 = d_fix.2) /\ NoDup ts.
Proof.
  intros (e & He & Hd & Hdir)%graph_elem Hdf (e' & He' & Ho & Hodir)%graph_elem Hof.
  simpl in *. subst d dir o odir.
  apply list_elem_of_fmap in Hdf as (df & [= -> ->] & Hdf).
  apply list_elem_of_fmap in Hof as (f & [= -> ->] & Hof).
  split; [|apply tails_of_NoDup].
  rewrite tails_of_elem. split.
  - intros (e2 & He2 & Hne & Hin & Heq).
    assert (e2 = e') as -> by (by eapply fixed_owner).
    done.
  - intros [Hne Heq]. exists e'. done.
Qed.

Lemma tails_characterised_witness :
  ((0, 1)%Z ∈ [(0, 1)%Z] <-> (1, 0)%Z ≠ (0, 0)%Z /\ (0, 1)%Z.1 = (0, 0)%Z.2)
  /\ NoDup [(0, 1)%Z].
Proof.
  apply (tails_characterised 1 (0, 0)%Z (1, 0)%Z
           [((0, 0)%Z, [(0, 1)%Z])]
           [((1, 0)%Z, [(0, 0)%Z]); ((0, 1)%Z, [(1, 1)%Z])]
           (0, 0)%Z (0, 1)%Z [(0, 1)%Z] [(1, 1)%Z]);
    vm_compute; repeat constructor.
Defined.

End digraph_facts.

(** ** The chain renderer *)

Section renderer_facts.
Import Renderer.
Context {N : Type} `{EqDecision N}.
Implicit Types (used : list (N * N)) (c rest : list N).

(** Every turn of the loop takes one arc out of [used] and appends one
    entry to [result]: with one unit of fuel per arc the loop ends. *)
Lemma follow_total fuel (arc : N * N) used result :
  arc ∈ used -> (length used <= fuel)%nat ->
  exists used' added,
    follow fuel arc used result = Done (used', result ++ added)
    /\ (length added + length used' = length used)%nat
    /\ (1 <= length added)%nat
    /\ used' ⊆+ used.
Proof.
  revert arc used result.
  induction fuel as [|fuel IH]; intros arc used result Hin Hlen.
  { destruct used; [by apply elem_of_nil in Hin|simpl in Hlen; lia]. }
  simpl. destruct (remove_elem arc used Hin) as [u' Hrm]. rewrite Hrm.
  pose proof (remove_length _ _ _ Hrm) as Hl.
  pose proof (remove_perm _ _ _ Hrm) as Hp.
  destruct (Py.next_where (λ l : N * N, l.1 = arc.2) u') as [arc'|] eqn:Hnext.
  - apply next_where_Some in Hnext as [Hin' _].
    destruct (IH arc' u' (result ++ [arc.1]) Hin') as (used' & added & -> & H1 & H2 & H3);
      [lia|].
    exists used', (arc.1 :: added). rewrite <- app_assoc. simpl.
    split_and!; [done|lia|lia|].
    rewrite Hp. by apply submseteq_cons.
  - exists u', [arc.1]. simpl. split_and!; [done|lia|lia|].
    rewrite Hp. by apply submseteq_cons.
Qed.

Lemma follow_more_fuel fuel fuel' (arc : N * N) used result x :
  follow fuel arc used result = Done x -> (fuel <= fuel')%nat ->
  follow fuel' arc used result = Done x.
Proof.
  revert fuel' arc used result.
  induction fuel as [|fuel IH]; intros fuel' arc used result; simpl; [done|].
  intros Hf Hle. destruct fuel' as [|fuel']; [lia|]. simpl.
  destruct (Py.remove arc used) as [u'|]; [|done].
  destruct (Py.next_where (λ l : N * N, l.1 = arc.2) u') as [arc'|]; [|done].
  apply IH; [done|lia].
Qed.

(** C10. The arc-following loop of the renderer ends for every non-empty
    list of used arcs, valid circuit or not: it makes at least one and at
    most [len(used)] turns (one entry of the chain per turn), each turn
    removing one arc, the arcs left over being reported as unused. *)
Theorem render_terminates used :
  used ≠ [] ->
  exists r,
    render used = Renderer.Done r
    /\ (1 <= length (chain r) <= length used)%nat
    /\ (length (chain r) + length (unused r) = length used)%nat
    /\ unused r ⊆+ used
    /\ forall arc fuel, head used = Some arc -> (length used <= fuel)%nat ->
         follow fuel arc used [] = Done (unused r, chain r).
Proof.
  intros Hne. destruct used as [|arc used0]; [done|].
  destruct (follow_total (length (arc :: used0)) arc (arc :: used0) [])
    as (used' & added & Hf & H1 & H2 & H3); [apply list_elem_of_here|done|].
  unfold render. rewrite Hf. simpl in H1.
  eexists. split; [done|]. simpl. split_and!; [lia|lia|lia|done|].
  intros arc' fuel [= <-] Hle.
  by apply (follow_more_fuel (length (arc :: used0))).
Qed.

End renderer_facts.

Lemma render_terminates_witness :
  exists r : Renderer.report nat,
    Renderer.render [(2, 3); (1, 2); (5, 6); (6, 5)]%nat = Renderer.Done r
    /\ (1 <= length (Renderer.chain r) <= 4)%nat
    /\ (length (Renderer.chain r) + length (Renderer.unused r) = 4)%nat
    /\ Renderer.unused r ⊆+ [(2, 3); (1, 2); (5, 6); (6, 5)]%nat
    /\ forall arc fuel,
         head [(2, 3); (1, 2); (5, 6); (6, 5)]%nat = Some arc -> (4 <= fuel)%nat ->
         Renderer.follow fuel arc [(2, 3); (1, 2); (5, 6); (6, 5)]%nat [] = Renderer.Done (Renderer.unused r, Renderer.chain r).
Proof. apply (render_terminates [(2, 3); (1, 2); (5, 6); (6, 5)]%nat). done. Defined.

Section renderer_tour.
Import Renderer.
Context {N : Type} `{EqDecision N}.
Implicit Types (used : list (N * N)) (c rest : list N) (n m fin : N).

Lemma path_arcs_heads n rest fin : (path_arcs n rest fin).*1 = n :: rest.
Proof.
  revert n. induction rest as [|m rest IH]; intros n; simpl; [done|].
  by rewrite IH.
Qed.

Lemma path_arcs_app n (r1 : list N) m (r2 : list N) fin :
  path_arcs n (r1 ++ m :: r2) fin = path_arcs n r1 m ++ path_arcs m r2 fin.
Proof.
  revert n. induction r1 as [|k r1 IH]; intros n; simpl; [done|].
  by rewrite IH.
Qed.

Lemma path_arcs_first n rest fin :
  (n, default fin (head rest)) ∈ path_arcs n rest fin.
Proof. destruct rest; simpl; apply list_elem_of_here. Qed.

(** Among arcs with pairwise distinct heads, the head determines the arc. *)
Lemma heads_unique (l : list (N * N)) (x y : N * N) :
  NoDup l.*1 -> x ∈ l -> y ∈ l -> x.1 = y.1 -> x = y.
Proof.
  intros Hnd [i Hi]%list_elem_of_lookup [j Hj]%list_elem_of_lookup Heq.
  assert (i = j) as ->.
  { apply (NoDup_lookup l.*1 i j x.1); [done| |].
    - by rewrite list_lookup_fmap, Hi.
    - by rewrite list_lookup_fmap, Hj, Heq. }
  congruence.
Qed.

(** Rotating a tour keeps its arcs. *)
Lemma tour_arcs_rotate (c1 : list N) m (r2 : list N) :
  tour_arcs (c1 ++ m :: r2) ≡ₚ tour_arcs (m :: r2 ++ c1).
Proof.
  destruct c1 as [|n r1]; simpl.
  - by rewrite app_nil_r.
  - rewrite !path_arcs_app. apply Permutation_app_comm.
Qed.

(** Following a path of distinct nodes from its first arc consumes it all. *)
Lemma follow_path rest n fin used result fuel :
  NoDup (n :: rest) -> used ≡ₚ path_arcs n rest fin ->
  (length used <= fuel)%nat ->
  follow fuel (n, default fin (head rest)) used result
  = Done ([], result ++ n :: rest).
Proof.
  revert n used result fuel.
  induction rest as [|m rest IH]; intros n used result fuel Hnd Hp Hlen; simpl in *.
  - apply Permutation_singleton_r in Hp as ->.
    destruct fuel as [|fuel]; [simpl in Hlen; lia|]. simpl.
    rewrite decide_True by done. done.
  - destruct fuel as [|fuel].
    { apply Permutation_length in Hp. simpl in *. lia. }
    simpl.
    assert ((n, m) ∈ used) as Hin by (rewrite Hp; apply list_elem_of_here).
    destruct (remove_elem _ _ Hin) as [u' Hrm]. rewrite Hrm.
    pose proof (remove_length _ _ _ Hrm) as Hl.
    apply remove_perm in Hrm. rewrite Hp in Hrm.
    apply Permutation_cons_inv in Hrm. symmetry in Hrm.
    apply NoDup_cons in Hnd as [_ Hnd].
    assert (NoDup u'.*1) as Hu.
    { rewrite Hrm, path_arcs_heads. done. }
    pose proof (path_arcs_first m rest fin) as Hfirst. rewrite <- Hrm in Hfirst.
    destruct (Py.next_where (λ l : N * N, l.1 = m) u') as [y|] eqn:Hnext.
    + apply next_where_Some in Hnext as [Hy Hy1].
      assert (y = (m, default fin (head rest))) as ->
        by (by apply (heads_unique u')).
      rewrite (IH m u' (result ++ [n]) fuel); [|done|done|lia].
      by rewrite <- app_assoc.
    + apply next_where_None in Hnext.
      rewrite Forall_forall in Hnext. by destruct (Hnext _ Hfirst).
Qed.

(** The loop, arc by arc: the arcs it follows start with the arc it is
    given, each is joined to the next, together with the arcs left over
    they are the arcs it was given, and no arc left over continues the
    last one followed. *)
Lemma follow_followed fuel (arc : N * N) used result :
  arc ∈ used -> (length used <= fuel)%nat ->
  exists used' followed,
    follow fuel arc used result = Done (used', result ++ followed.*1)
    /\ used ≡ₚ followed ++ used'
    /\ head followed = Some arc
    /\ chained followed
    /\ forall lst l, last followed = Some lst -> l ∈ used' -> l.1 ≠ lst.2.
Proof.
  revert arc used result.
  induction fuel as [|fuel IH]; intros arc used result Hin Hlen.
  { destruct used; [by apply elem_of_nil in Hin|simpl in Hlen; lia]. }
  simpl. destruct (remove_elem arc used Hin) as [u' Hrm]. rewrite Hrm.
  pose proof (remove_length _ _ _ Hrm) as Hl.
  pose proof (remove_perm _ _ _ Hrm) as Hp.
  destruct (Py.next_where (λ l : N * N, l.1 = arc.2) u') as [arc'|] eqn:Hnext.
  - apply next_where_Some in Hnext as [Hin' Hjoin].
    destruct (IH arc' u' (result ++ [arc.1]) Hin')
      as (used' & followed & -> & H1 & H2 & H3 & H4); [lia|].
    exists used', (arc :: followed). rewrite <- app_assoc. simpl.
    split_and!; [done| |done| |].
    + rewrite Hp, H1. done.
    + destruct followed as [|b followed]; [done|].
      simpl in H2. injection H2 as ->. done.
    + intros lst l Hlast. destruct followed as [|b followed]; [done|].
      rewrite last_cons_cons in Hlast. by apply H4.
  - exists u', [arc]. simpl. split_and!; [done|by rewrite Hp|done|done|].
    intros lst l [= <-] Hl'. apply next_where_None in Hnext.
    rewrite Forall_forall in Hnext. by apply Hnext.
Qed.

(** What the renderer reports, for every non-empty list of used arcs. *)
Lemma render_report used :
  used ≠ [] ->
  exists r followed,
    render used = Done r
    /\ chain r = followed.*1
    /\ used ≡ₚ followed ++ unused r
    /\ head followed = head used
    /\ chained followed
    /\ (forall lst l, last followed = Some lst -> l ∈ unused r -> l.1 ≠ lst.2)
    /\ (duplicates r = true <-> ¬ NoDup (chain r))
    /\ (closed_tour used ->
        unused r = []
        /\ duplicates r = false
        /\ NoDup (chain r)
        /\ chain r ≡ₚ used.*1
        /\ head (chain r) = fst <$> head used
        /\ tour_arcs (chain r) ≡ₚ used).
Proof.
  intros Hne. destruct used as [|arc used0]; [done|]. clear Hne.
  destruct (follow_followed (length (arc :: used0)) arc (arc :: used0) [])
    as (used' & followed & Hf & Hperm & Hhead & Hch & Hlast);
    [apply list_elem_of_here|done|].
  unfold render. rewrite Hf. cbn [app].
  eexists. exists followed. split; [reflexivity|]. cbn [chain unused duplicates].
  split_and!; try done.
  - rewrite bool_decide_eq_true. rewrite <- remove_dups_length.
    split; intros H; [done|]. intros H'. by apply H.
  - intros (c & Hcne & Hnd & Hp).
    assert (arc.1 ∈ c) as Hin.
    { assert (arc.1 ∈ (tour_arcs c).*1) as Hh.
      { rewrite <- Hp. apply list_elem_of_fmap_2, list_elem_of_here. }
      destruct c as [|n rest]; [done|]. simpl in Hh.
      by rewrite path_arcs_heads in Hh. }
    apply list_elem_of_split in Hin as (c1 & r2 & ->).
    set (rest := r2 ++ c1).
    assert (arc :: used0 ≡ₚ path_arcs arc.1 rest arc.1) as Hp'.
    { rewrite Hp. apply tour_arcs_rotate. }
    assert (NoDup (arc.1 :: rest)) as Hnd'.
    { unfold rest. rewrite (Permutation_app_comm r2 c1), Permutation_middle. done. }
    assert (arc = (arc.1, default arc.1 (head rest))) as Harc.
    { apply (heads_unique (arc :: used0)); [| | |done].
      - by rewrite Hp', path_arcs_heads.
      - apply list_elem_of_here.
      - rewrite Hp'. apply path_arcs_first. }
    pose proof (follow_path rest arc.1 arc.1 (arc :: used0) []
                  (length (arc :: used0)) Hnd' Hp' (le_n _)) as Hf'.
    rewrite <- Harc, Hf in Hf'. injection Hf' as -> Hchain.
    rewrite Hchain. cbn [app]. split_and!.
    + done.
    + apply bool_decide_eq_false. intros Hd. apply Hd.
      by apply (remove_dups_length (arc.1 :: rest)).
    + done.
    + by rewrite Hp', path_arcs_heads.
    + done.
    + symmetry. exact Hp'.
Qed.

End renderer_tour.

(** ** The model builder *)

Section builder_facts.
Import CpModel DominoBraneSolver.

Lemma new_place_constraints f c pl m :
  constraints (new_place f c (pl, m)).2 = constraints m.
Proof.
  unfold new_place. simpl. destruct c.2 as [clue|]; [|done].
  destruct (decide (clue = f.2)), (decide (clue = f.1)); done.
Qed.

Lemma new_places_constraints fixes space st :
  constraints (new_places fixes space st).2 = constraints st.2.
Proof.
  unfold new_places. revert st.
  induction fixes.*1 as [|f fs IH]; intros st; simpl; [done|].
  rewrite IH. clear IH. revert st.
  induction space as [|c space IH]; intros st; simpl; [done|].
  rewrite IH. destruct st as [pl m]. apply new_place_constraints.
Qed.

(** The constraints of the finished model, in the order they were added. *)
Lemma set_placements_constraints cs space :
  let s := set_placements cs space in
  constraints (model s) =
    constraints (cs_model cs)
    ++ [LinearEq (cs_fixes cs).*2 [] (Z.of_nat (length space) `div` 2) []]
    ++ fix_constraints (fixes s) space (place s)
    ++ cell_constraints (fixes s) space (place s)
    ++ glue_constraints space (place s) (graph s)
    ++ ambiguity_constraints (fixes s) space (place s).
Proof.
  unfold set_placements.
  destruct (new_places _ _ _) as [pl m1] eqn:E. simpl.
  pose proof (new_places_constraints (cs_fixes cs) space
    (∅, Add (LinearEq (cs_fixes cs).*2 [] (Z.of_nat (length space) `div` 2) [])
          (cs_model cs))) as H.
  rewrite E in H. simpl in H. rewrite H. by rewrite <- !app_assoc.
Qed.

Lemma set_placements_fields cs space :
  let s := set_placements cs space in
  graph s = cs_graph cs /\ DominoBraneSolver.space s = space
  /\ fixes s = cs_fixes cs /\ arcs s = cs_arcs cs /\ loops s = cs_loops cs.
Proof. unfold set_placements. by destruct (new_places _ _ _). Qed.

Lemma setup_inv graph space s :
  setup graph space = Some s ->
  exists cs, set_circuit graph CpModel.new = Some cs /\ s = set_placements cs space.
Proof.
  unfold setup. destruct (set_circuit graph new) as [cs|]; simpl; [|done].
  intros [= <-]. eauto.
Qed.

Lemma setup_space graph space s :
  setup graph space = Some s -> DominoBraneSolver.space s = space.
Proof. intros (cs & _ & ->)%setup_inv. apply set_placements_fields. Qed.

Lemma setup_fix_constraints graph space s c :
  setup graph space = Some s ->
  c ∈ fix_constraints (fixes s) space (place s) -> c ∈ constraints (model s).
Proof.
  intros (cs & _ & ->)%setup_inv Hc.
  rewrite set_placements_constraints. rewrite !elem_of_app. auto.
Qed.

Lemma setup_cell_constraints graph space s c :
  setup graph space = Some s ->
  c ∈ cell_constraints (fixes s) space (place s) -> c ∈ constraints (model s).
Proof.
  intros (cs & _ & ->)%setup_inv Hc.
  rewrite set_placements_constraints. rewrite !elem_of_app. auto.
Qed.

Lemma setup_glue_constraints graph space s c :
  setup graph space = Some s ->
  c ∈ glue_constraints space (place s) (DominoBraneSolver.graph s) ->
  c ∈ constraints (model s).
Proof.
  intros (cs & _ & ->)%setup_inv Hc.
  rewrite set_placements_constraints. rewrite !elem_of_app. auto 10.
Qed.

Lemma satisfies_elem val m c :
  satisfies val m -> c ∈ constraints m -> holds val c.
Proof. unfold satisfies. rewrite Forall_forall. auto. Qed.

End builder_facts.

Section placement_facts.
Import CpModel DominoBraneSolver.

Lemma adj_elem space (c c' : cell) :
  c' ∈ adj space c <-> c' ∈ space.*1 /\ orthogonal c c'.
Proof.
  unfold adj, orthogonal. rewrite list_elem_of_filter.
  rewrite !elem_of_cons, elem_of_nil. destruct c as [x y], c' as [x' y']; simpl.
  split.
  - intros [Hin Hor]. split; [done|].
    destruct Hor as [Hc|[Hc|[Hc|[Hc|[]]]]]; simplify_eq; lia.
  - intros [Hin Ho]. split; [done|].
    assert ((x' = x - 1 /\ y' = y) \/ (x' = x + 1 /\ y' = y)
            \/ (x' = x /\ y' = y - 1) \/ (x' = x /\ y' = y + 1))%Z
      as [[-> ->]|[[-> ->]|[[-> ->]|[-> ->]]]] by lia; auto.
Qed.

Lemma total_singleton val x : total val [x] = if val x then 1%Z else 0%Z.
Proof.
  unfold total. rewrite filter_cons, filter_nil.
  destruct (val x) eqn:E; by case_decide.
Qed.

Lemma total_nil val : total val [] = 0%Z.
Proof. done. Qed.

Lemma total_app val xs ys : total val (xs ++ ys) = (total val xs + total val ys)%Z.
Proof. unfold total. rewrite filter_app, length_app. lia. Qed.

Lemma total_cons val x xs :
  total val (x :: xs) = ((if val x then 1 else 0) + total val xs)%Z.
Proof.
  change (x :: xs) with ([x] ++ xs). by rewrite total_app, total_singleton.
Qed.

(** A true literal among the halves of [f] around [c] is a true tail
    placement of [f] in a cell of the space that shares an edge with [c]. *)
Lemma halves_true val space place (c : cell) (f : fix_t) :
  Exists (lit_holds val) (Pos <$> halves space place c f) ->
  exists c', c' ∈ space.*1 /\ orthogonal c c' /\ lies_on val place c' f 0.
Proof.
  rewrite Exists_exists. intros (l & Hl & Hv).
  apply list_elem_of_fmap in Hl as (t & -> & Ht). simpl in Hv.
  unfold halves, placed in Ht. apply list_elem_of_omap in Ht as (k & Hk & Hkt).
  apply list_elem_of_fmap in Hk as (c' & -> & Hc'%adj_elem).
  exists c'. unfold lies_on. rewrite Hkt. tauto.
Qed.

End placement_facts.

(** ** Counting placements: an odd space cannot be covered *)

Section counting.
Import CpModel DominoBraneSolver.

Lemma sum_list_with_add {A} (f g : A -> nat) l :
  sum_list_with (λ x, f x + g x)%nat l = (sum_list_with f l + sum_list_with g l)%nat.
Proof. induction l as [|x l IH]; simpl; [done|]. rewrite IH. lia. Qed.

Lemma sum_list_with_swap {A B} (g : A -> B -> nat) (xs : list A) (ys : list B) :
  sum_list_with (λ x, sum_list_with (g x) ys) xs
  = sum_list_with (λ y, sum_list_with (λ x, g x y) xs) ys.
Proof.
  induction xs as [|x xs IH]; simpl.
  - induction ys as [|y ys IH]; simpl; [done|]. by rewrite <- IH.
  - rewrite IH. by rewrite sum_list_with_add.
Qed.

Lemma sum_list_with_ext_in {A} (f g : A -> nat) l :
  (forall x, x ∈ l -> f x = g x) -> sum_list_with f l = sum_list_with g l.
Proof.
  induction l as [|x l IH]; intros H; simpl; [done|].
  rewrite (H x) by apply list_elem_of_here.
  rewrite IH; [done|]. intros y Hy. apply H. by apply list_elem_of_further.
Qed.

Lemma sum_list_with_const {A} (l : list A) :
  sum_list_with (λ _, 1%nat) l = length l.
Proof. induction l; simpl; [done|]. by f_equal. Qed.

Lemma sum_list_with_even {A} (f : A -> nat) l :
  (forall x, x ∈ l -> Nat.even (f x) = true) -> Nat.even (sum_list_with f l) = true.
Proof.
  induction l as [|x l IH]; intros H; simpl; [done|].
  rewrite Nat.even_add, (H x) by apply list_elem_of_here.
  rewrite IH; [done|]. intros y Hy. apply H. by apply list_elem_of_further.
Qed.

(** The number of true variables of a list. *)
Local Abbreviation count val xs := (length (filter (λ x : nat, val x = true) xs)).

Lemma count_placed_bind {A : Type} (val : nat -> bool) (place : gmap (Z * Z * Z * Z * Z) nat)
    (h : A -> list (Z * Z * Z * Z * Z)) (l : list A) :
  count val (placed place (l ≫= h))
  = sum_list_with (λ x, count val (placed place (h x))) l.
Proof.
  unfold placed. induction l as [|x l IH]; [done|].
  rewrite bind_cons, omap_app, filter_app, length_app, IH. done.
Qed.

Lemma count_placed_fmap {A : Type} (val : nat -> bool) (place : gmap (Z * Z * Z * Z * Z) nat)
    (h : A -> Z * Z * Z * Z * Z) (l : list A) :
  count val (placed place (h <$> l))
  = sum_list_with (λ x, count val (placed place [h x])) l.
Proof.
  unfold placed. induction l as [|x l IH]; [done|].
  rewrite fmap_cons. change (h x :: (h <$> l)) with ([h x] ++ (h <$> l)).
  rewrite omap_app, filter_app, length_app. simpl sum_list_with. by rewrite IH.
Qed.

(** Summed over the cells, the variables at a cell are the head and the
    tail placements of all the fixes. *)
Lemma count_cells_fixes (val : nat -> bool) (fixes : list ((Z * Z) * nat)) (space : list ((Z * Z) * option Z))
    (place : gmap (Z * Z * Z * Z * Z) nat) :
  sum_list_with (λ c, count val (cell_vars fixes place c)) space.*1
  = sum_list_with (λ f, count val (role_vars space place f 0)
                        + count val (role_vars space place f 1))%nat fixes.*1.
Proof.
  unfold cell_vars, role_vars.
  rewrite (sum_list_with_ext_in _
    (λ c, sum_list_with (λ f, count val (placed place [pkey c f 0])
                              + count val (placed place [pkey c f 1]))%nat fixes.*1)).
  - rewrite sum_list_with_swap. apply sum_list_with_ext_in. intros f _.
    rewrite sum_list_with_add. by rewrite !count_placed_fmap.
  - intros c _. rewrite count_placed_bind. apply sum_list_with_ext_in. intros f _.
    simpl. unfold placed. simpl.
    destruct (place !! pkey c f 0), (place !! pkey c f 1); simpl;
      rewrite ?filter_cons, ?filter_nil; repeat case_decide; simpl; lia.
Qed.

(** What a solution makes of the cell and of the fix constraints. *)
Lemma cell_total graph space s val :
  setup graph space = Some s -> satisfies val (model s) ->
  forall c, c ∈ space.*1 -> total val (cell_vars (fixes s) (place s) c) = 1%Z.
Proof.
  intros Hs Hval c Hc.
  assert (LinearEq (cell_vars (fixes s) (place s) c) [] 1 [] ∈ constraints (model s))
    as Hin.
  { apply (setup_cell_constraints _ _ _ _ Hs).
    unfold cell_constraints. apply list_elem_of_bind. exists c. split; [|done].
    apply list_elem_of_here. }
  pose proof (satisfies_elem _ _ _ Hval Hin) as H.
  simpl in H. rewrite H by constructor. done.
Qed.

Lemma fix_total graph space s val :
  setup graph space = Some s -> satisfies val (model s) ->
  forall f, f ∈ fixes s ->
    total val (role_vars space (place s) f.1 1) = (if val f.2 then 1 else 0)%Z
    /\ total val (role_vars space (place s) f.1 0) = (if val f.2 then 1 else 0)%Z.
Proof.
  intros Hs Hval f Hf.
  assert (LinearEq (role_vars space (place s) f.1 1) [f.2] 0 [] ∈ constraints (model s)
          /\ LinearEq (role_vars space (place s) f.1 0) [f.2] 0 []
             ∈ constraints (model s)) as [H1 H0].
  { split; apply (setup_fix_constraints _ _ _ _ Hs);
      unfold fix_constraints; apply list_elem_of_bind; exists f; (split; [|done]).
    - apply list_elem_of_here.
    - apply list_elem_of_further, list_elem_of_here. }
  apply (satisfies_elem _ _ _ Hval) in H1, H0. simpl in H1, H0.
  rewrite H1, H0 by constructor. rewrite total_singleton. split; lia.
Qed.

(** C9. A space with an odd number of cells admits no solution: the cell
    constraints make the true placements as many as the cells, and the fix
    constraints make them twice as many as the active fixes. *)
Theorem odd_space_infeasible graph space s :
  setup graph space = Some s ->
  Nat.odd (length space) = true ->
  forall val, ¬ satisfies val (model s).
Proof.
  intros Hs Hodd val Hval.
  pose proof (cell_total graph space s val Hs Hval) as Hcell.
  pose proof (fix_total graph space s val Hs Hval) as Hfix.
  assert (length space
          = sum_list_with (λ c, count val (cell_vars (fixes s) (place s) c)) space.*1)
    as Hlen.
  { rewrite <- (length_fmap fst space), <- sum_list_with_const.
    apply sum_list_with_ext_in. intros c Hc. specialize (Hcell c Hc).
    unfold total in Hcell. lia. }
  rewrite count_cells_fixes in Hlen.
  assert (Nat.even (length space) = true) as Heven.
  { rewrite Hlen. apply sum_list_with_even. intros f Hf.
    apply list_elem_of_fmap in Hf as (fx & -> & Hfx).
    destruct (Hfix fx Hfx) as [H1 H0]. unfold total in H1, H0.
    rewrite Nat.even_add. destruct (val fx.2).
    - replace (count val (role_vars space (place s) fx.1 0)) with 1%nat by lia.
      replace (count val (role_vars space (place s) fx.1 1)) with 1%nat by lia.
      done.
    - replace (count val (role_vars space (place s) fx.1 0)) with 0%nat by lia.
      replace (count val (role_vars space (place s) fx.1 1)) with 0%nat by lia.
      done. }
  rewrite <- Nat.negb_odd, Hodd in Heven. done.
Qed.

End counting.

(** ** The worked instance *)

(** Facts about a built model are checked by evaluation: the check is a
    boolean function of the solver object, run on the result of [setup]. *)
Lemma checked {A : Type} (P : A -> bool) (o : option A) :
  from_option P false o = true -> exists x, o = Some x /\ P x = true.
Proof. destruct o; simpl; [eauto|done]. Qed.

Section scenario_facts.
Import CpModel DominoBraneSolver Scenario.
Local Open Scope Z_scope.

(** The tiling is a solution of the model built for size 2. *)
Lemma tiling_is_solution :
  exists s, setup (DominoDigraph.graph 2) (Space 2) = Some s
            /\ satisfies (tiling s) (model s).
Proof.
  destruct (checked (λ s, bool_decide (satisfies (tiling s) (model s)))
              (setup (DominoDigraph.graph 2) (Space 2))) as (s & Hs & H).
  { vm_compute. reflexivity. }
  exists s. split; [exact Hs|]. by apply bool_decide_eq_true in H.
Qed.

(** The renderer on the tiling: the chain of the six dominoes, nothing
    left over, no duplicate. *)
Lemma tiling_renders :
  exists s r, setup (DominoDigraph.graph 2) (Space 2) = Some s
    /\ Renderer.render (used_arcs (tiling s) (graph s)) = Renderer.Done r
    /\ Renderer.chain r = [(0, 0); (0, 1); (1, 1); (1, 2); (2, 2); (2, 0)]
    /\ Renderer.duplicates r = false
    /\ Renderer.unused r = [].
Proof.
  destruct (checked
    (λ s, match Renderer.render (used_arcs (tiling s) (graph s)) with
          | Renderer.Done r =>
              bool_decide
                (Renderer.chain r = [(0, 0); (0, 1); (1, 1); (1, 2); (2, 2); (2, 0)]
                 /\ Renderer.duplicates r = false /\ Renderer.unused r = [])
          | _ => false
          end)
    (setup (DominoDigraph.graph 2) (Space 2))) as (s & Hs & H).
  { vm_compute. reflexivity. }
  destruct (Renderer.render (used_arcs (tiling s) (graph s))) as [r| | |] eqn:Hr;
    try discriminate H.
  apply bool_decide_eq_true in H. exists s, r.
  split; [exact Hs|]. split; [exact Hr|]. exact H.
Qed.

End scenario_facts.

(** *** The theorems on the model, applied to the worked instance *)

Lemma odd_space_infeasible_witness :
  exists s,
    DominoBraneSolver.setup (DominoDigraph.graph 1) Scenario.row5 = Some s
    /\ Nat.odd (length Scenario.row5) = true
    /\ forall val, ¬ CpModel.satisfies val (DominoBraneSolver.model s).
Proof.
  destruct (checked (λ _, true)
              (DominoBraneSolver.setup (DominoDigraph.graph 1) Scenario.row5))
    as (s & Hs & _).
  { vm_compute. reflexivity. }
  exists s. split; [exact Hs|]. split; [reflexivity|].
  exact (odd_space_infeasible _ _ s Hs eq_refl).
Defined.

(** ** The circuit builder *)

Section dict_facts.
Context {K V : Type} `{EqDecision K}.
Implicit Types (d : list (K * V)) (keys : list K).

Lemma dict_set_fresh k v d : k ∉ d.*1 -> Py.dict_set k v d = d ++ [(k, v)].
Proof.
  induction d as [|[k' v'] d IH]; simpl; [done|].
  rewrite not_elem_of_cons. intros [Hne Hk].
  rewrite decide_False by done. by rewrite IH.
Qed.

Lemma dict_set_keys_elem k v d k' :
  k' ∈ (Py.dict_set k v d).*1 <-> k' = k \/ k' ∈ d.*1.
Proof.
  induction d as [|[k0 v0] d IH]; simpl.
  - rewrite list_elem_of_singleton, elem_of_nil. tauto.
  - case_decide; subst; simpl; rewrite !elem_of_cons; [tauto|].
    rewrite IH. tauto.
Qed.

Lemma dict_set_keys_NoDup k v d : NoDup d.*1 -> NoDup (Py.dict_set k v d).*1.
Proof.
  induction d as [|[k0 v0] d IH]; simpl.
  - intros _. apply NoDup_singleton.
  - rewrite NoDup_cons. intros [Hk0 Hd].
    case_decide; subst; simpl; apply NoDup_cons; [done|].
    split; [|by apply IH]. rewrite dict_set_keys_elem. intros [->|?]; done.
Qed.

Lemma dict_get_elem k d : k ∈ d.*1 -> is_Some (Py.dict_get k d).
Proof.
  induction d as [|[k0 v0] d IH]; simpl; [by intros ?%elem_of_nil|].
  rewrite elem_of_cons. intros [->|Hk].
  - rewrite decide_True by done. eauto.
  - case_decide; [eauto|]. by apply IH.
Qed.

Lemma index_of_Some k keys i : Py.index_of k keys = Some i -> keys !! i = Some k.
Proof.
  unfold Py.index_of.
  destruct (list_find (λ k', k' = k) keys) as [[j k']|] eqn:E; simpl; [|done].
  intros [= <-]. apply list_find_Some in E as (Hj & -> & _). done.
Qed.

Lemma index_of_inj k k' keys i :
  Py.index_of k keys = Some i -> Py.index_of k' keys = Some i -> k = k'.
Proof. intros H1%index_of_Some H2%index_of_Some. congruence. Qed.

Lemma index_of_elem k keys : k ∈ keys -> is_Some (Py.index_of k keys).
Proof.
  intros Hk. unfold Py.index_of.
  destruct (list_find (λ k', k' = k) keys) as [[j k']|] eqn:E; simpl; [eauto|].
  apply list_find_None in E. rewrite Forall_forall in E. by destruct (E k Hk).
Qed.

Lemma index_of_lookup k keys i :
  NoDup keys -> keys !! i = Some k -> Py.index_of k keys = Some i.
Proof.
  intros Hnd Hi.
  destruct (index_of_elem k keys) as [j Hj]; [by eapply list_elem_of_lookup_2|].
  pose proof (index_of_Some _ _ _ Hj) as Hj'.
  by rewrite (NoDup_lookup keys i j k Hnd Hi Hj').
Qed.

End dict_facts.

Section circuit_facts.
Import CpModel DominoBraneSolver.

Lemma Add_prefix c m : constraints m `prefix_of` constraints (Add c m).
Proof. simpl. by apply prefix_app_r. Qed.

Lemma new_fixes_spec nodes fixes m fixes' m' :
  new_fixes nodes fixes m = (fixes', m') ->
  constraints m' = constraints m
  /\ (NoDup fixes.*1 -> NoDup fixes'.*1)
  /\ forall k, k ∈ fixes'.*1 <-> k ∈ fixes.*1 \/ k ∈ nodes.
Proof.
  revert fixes m. induction nodes as [|n nodes IH]; intros fixes m; simpl.
  - intros [= <- <-]. split_and!; [done|done|]. intros k. rewrite elem_of_nil. tauto.
  - intros H. apply IH in H as (Hc & Hnd & Hk). simpl in Hc.
    split_and!; [done| |].
    + intros H. by apply Hnd, dict_set_keys_NoDup.
    + intros k. rewrite Hk, dict_set_keys_elem, elem_of_cons. tauto.
Qed.

Lemma tail_arcs_spec fixes h ts tv m tv' arcs' m' :
  tail_arcs fixes h ts tv m = Some (tv', arcs', m') ->
  constraints m `prefix_of` constraints m'
  /\ ends <$> arcs' = arc_nodes fixes (h, ts)
  /\ (NoDup ts -> (forall t, t ∈ ts -> t ∉ tv.*1) ->
      tv' = tv ++ zip ts (arc_var <$> arcs')).
Proof.
  unfold arc_nodes. simpl. revert tv m tv' arcs' m'.
  induction ts as [|t ts IH]; intros tv m tv' arcs' m'; simpl.
  - intros [= <- <- <-]. split_and!; [done|done|]. intros _ _. by rewrite app_nil_r.
  - destruct (Py.dict_get h fixes) as [fh|]; simpl; [|done].
    destruct (Py.dict_get t fixes) as [ft|]; simpl; [|done].
    destruct (idx fixes h) as [ih|] eqn:Hih; simpl; [|done].
    destruct (idx fixes t) as [it|] eqn:Hit; simpl; [|done].
    destruct (tail_arcs fixes h ts _ _) as [[[tv1 arcs1] m1]|] eqn:Hrec; simpl; [|done].
    intros [= <- <- <-]. apply IH in Hrec as (Hp & Hshape & Htv).
    split_and!.
    + etrans; [|exact Hp]. simpl. rewrite <- !app_assoc. by apply prefix_app_r.
    + rewrite !fmap_cons, Hshape. done.
    + intros [Ht Hnd]%NoDup_cons Hfresh.
      rewrite Htv; [|done|].
      * rewrite dict_set_fresh by (apply Hfresh, list_elem_of_here).
        by rewrite <- app_assoc.
      * intros t' Ht'. rewrite dict_set_keys_elem. intros [->|Hin]; [done|].
        by apply (Hfresh t'); [apply list_elem_of_further|].
Qed.

Lemma head_arcs_spec fixes n hs m dir d_arcs d_loops m' :
  head_arcs fixes n hs m = Some (dir, d_arcs, d_loops, m') ->
  constraints m `prefix_of` constraints m'
  /\ strip_head <$> dir = hs
  /\ ends <$> d_arcs = hs ≫= arc_nodes fixes
  /\ ends <$> d_loops
     = (if decide (1 < n)%nat
        then (λ e : (Z * Z) * list (Z * Z), (idx fixes e.1, idx fixes e.1)) <$> hs
        else [])
  /\ (Forall (λ e : (Z * Z) * list (Z * Z), NoDup e.2) hs ->
      arc_var <$> d_arcs = piece_vars ((0, 0)%Z, dir)).
Proof.
  unfold piece_vars. simpl. revert m dir d_arcs d_loops m'.
  induction hs as [|[h ts] hs IH]; intros m dir d_arcs d_loops m'; simpl.
  - intros [= <- <- <- <-]. split_and!; try done. by case_decide.
  - destruct (tail_arcs fixes h ts [] m) as [[[tv h_arcs] m1]|] eqn:Ht; simpl; [|done].
    apply tail_arcs_spec in Ht as (Hp1 & Hs1 & Htv).
    assert (NoDup ts -> tv.*2 = arc_var <$> h_arcs) as Hvars.
    { intros Hnd. rewrite (Htv Hnd) by (intros ? _ []%elem_of_nil). simpl.
      rewrite snd_zip; [done|].
      apply (f_equal length) in Hs1. unfold arc_nodes in Hs1. simpl in Hs1.
      rewrite !length_fmap in Hs1. rewrite length_fmap. lia. }
    clear Htv.
    destruct (decide (1 < n)%nat) as [Hn|Hn].
    + destruct (idx fixes h) as [ih|] eqn:Hih; simpl; [|done].
      destruct (head_arcs fixes n hs _) as [[[[dir1 arcs1] loops1] m2]|] eqn:Hrec;
        simpl; [|done].
      intros [= <- <- <- <-]. apply IH in Hrec as (Hp2 & Hd & Hs2 & Hl & Hv).
      split_and!.
      * etrans; [exact Hp1|]. etrans; [|exact Hp2]. simpl. done.
      * rewrite fmap_cons, Hd. done.
      * rewrite fmap_app, Hs1, Hs2. done.
      * rewrite fmap_cons, Hl. done.
      * intros [Hnd Hall]%Forall_cons.
        rewrite fmap_app, bind_cons, (Hv Hall). simpl. by rewrite (Hvars Hnd).
    + simpl.
      destruct (head_arcs fixes n hs m1) as [[[[dir1 arcs1] loops1] m2]|] eqn:Hrec;
        simpl; [|done].
      intros [= <- <- <- <-]. apply IH in Hrec as (Hp2 & Hd & Hs2 & Hl & Hv).
      split_and!.
      * etrans; [exact Hp1|]. exact Hp2.
      * rewrite fmap_cons, Hd. done.
      * rewrite fmap_app, Hs1, Hs2. done.
      * done.
      * intros [Hnd Hall]%Forall_cons.
        rewrite fmap_app, bind_cons, (Hv Hall). simpl. by rewrite (Hvars Hnd).
Qed.

Lemma piece_arcs_spec fixes (graph : graph_t) m (cg : cgraph_t)
    (arcs loops : list arc) m' :
  piece_arcs fixes graph m = Some (cg, arcs, loops, m') ->
  constraints m `prefix_of` constraints m'
  /\ strip <$> cg = graph
  /\ ends <$> arcs = graph ≫= (λ p, p.2 ≫= arc_nodes fixes)
  /\ ends <$> loops = graph ≫= loop_nodes fixes
  /\ (tails_distinct graph ->
      arc_var <$> arcs = cg ≫= piece_vars
      /\ Forall (λ dd, LinearEq (piece_vars dd) [] 1 [] ∈ constraints m'
                       /\ length (piece_vars dd)
                          = length ((strip dd).2 ≫= arc_nodes fixes)) cg).
Proof.
  revert m cg arcs loops m'.
  induction graph as [|[d fs] graph IH]; intros m cg arcs loops m'; simpl.
  - intros [= <- <- <- <-]. split_and!; done.
  - destruct (head_arcs fixes (length fs) fs m) as [[[[dir d_arcs] d_loops] m1]|] eqn:Hh;
      simpl; [|done].
    apply head_arcs_spec in Hh as (Hp1 & Hd1 & Hs1 & Hl1 & Hv1).
    destruct (piece_arcs fixes graph _) as [[[[cg1 arcs1] loops1] m2]|] eqn:Hrec;
      simpl; [|done].
    intros [= <- <- <- <-]. apply IH in Hrec as (Hp2 & Hd2 & Hs2 & Hl2 & Hv2).
    split_and!.
    + etrans; [exact Hp1|]. etrans; [|exact Hp2]. apply Add_prefix.
    + rewrite fmap_cons, Hd2. unfold strip at 1. simpl. by rewrite Hd1.
    + rewrite fmap_app, Hs1, Hs2. done.
    + rewrite fmap_app, Hl1, Hl2. done.
    + intros [Hnd Hall]%Forall_cons. destruct (Hv2 Hall) as [Hv Hc].
      assert (piece_vars (d, dir) = arc_var <$> d_arcs) as Hpv by (by rewrite (Hv1 Hnd)).
      split.
      * rewrite fmap_app, bind_cons, Hv, Hpv. done.
      * constructor; [|done]. rewrite Hpv. split.
        -- apply (elem_of_prefix
                    (constraints (Add (LinearEq (arc_var <$> d_arcs) [] 1 []) m1)));
             [|done].
           simpl. rewrite elem_of_app. right. apply list_elem_of_here.
        -- unfold strip. simpl. rewrite Hd1, <- Hs1. by rewrite !length_fmap.
Qed.

End circuit_facts.

(** ** Counting arcs *)

Section count_facts.
Context {A : Type}.

Lemma filter_none_length (P : A -> Prop) `{forall x, Decision (P x)} (l : list A) :
  Forall (λ x, ¬ P x) l -> length (filter P l) = 0%nat.
Proof.
  induction 1 as [|x l Hx Hl IH]; [done|].
  rewrite filter_cons, decide_False by done. done.
Qed.

(** Two lists with the same image count alike under predicates that agree
    on equal images. *)
Lemma filter_length_transport {B C : Type} (f : A -> C) (g : B -> C)
    (P : A -> Prop) (Q : B -> Prop)
    `{forall x, Decision (P x)} `{forall y, Decision (Q y)} (l : list A) (k : list B) :
  f <$> l = g <$> k -> (forall a b, f a = g b -> (P a <-> Q b)) ->
  length (filter P l) = length (filter Q k).
Proof.
  intros Heq HPQ. revert k Heq.
  induction l as [|a l IH]; intros [|b k]; try done.
  rewrite !fmap_cons. intros [= Hab Hrest].
  rewrite !filter_cons. specialize (IH k Hrest).
  destruct (decide (P a)) as [HP|HP], (decide (Q b)) as [HQ|HQ]; simpl; try lia.
  - by apply (HPQ a b Hab) in HP.
  - by apply (HPQ a b Hab) in HQ.
Qed.

Lemma count_NoDup `{EqDecision A} (x : A) (l : list A) :
  NoDup l ->
  length (filter (λ y, y = x) l) = if decide (x ∈ l) then 1%nat else 0%nat.
Proof.
  induction 1 as [|y l Hy Hnd IH]; [done|].
  rewrite filter_cons. destruct (decide (y = x)) as [->|Hne].
  - rewrite decide_True by apply list_elem_of_here. simpl.
    rewrite IH, decide_False by done. done.
  - rewrite IH. destruct (decide (x ∈ l)) as [Hin|Hin].
    + rewrite decide_True by (by apply list_elem_of_further). done.
    + rewrite decide_False; [done|]. rewrite elem_of_cons. intros [->|?]; done.
Qed.

End count_facts.

Section degree_facts.
Import CpModel.

Lemma total_count (val : nat -> bool) (l : list (nat * nat * nat)) :
  total val (arc_var <$> l)
  = Z.of_nat (length (filter (λ a, val (arc_var a) = true) l)).
Proof.
  unfold total. f_equal.
  apply (filter_length_transport id arc_var); [by rewrite list_fmap_id|].
  intros x a <-. done.
Qed.

Lemma out_degree_cons val (a : nat * nat * nat) l n :
  out_degree val (a :: l) n
  = ((if decide (head a = n ∧ val (arc_var a) = true) then 1 else 0)
     + out_degree val l n)%nat.
Proof. unfold out_degree. rewrite filter_cons. by case_decide. Qed.

Lemma sum_indicator (x : nat) (N : list nat) (b : Prop) `{Decision b} :
  NoDup N -> x ∈ N ->
  sum_list_with (λ n, if decide (x = n ∧ b) then 1 else 0)%nat N
  = if decide b then 1%nat else 0%nat.
Proof.
  induction 1 as [|y N Hy Hnd IH]; [by intros ?%elem_of_nil|].
  rewrite elem_of_cons. simpl. intros [->|Hx].
  - rewrite (sum_list_with_ext_in _ (λ _, 0%nat)).
    + assert (sum_list_with (λ _ : nat, 0%nat) N = 0%nat) as ->
        by (clear; induction N; simpl; auto).
      destruct (decide b); [rewrite decide_True by done|rewrite decide_False by tauto]; lia.
    + intros n Hn. rewrite decide_False; [done|]. intros [-> _]. done.
  - rewrite IH by done. rewrite decide_False; [done|]. intros [-> _]. done.
Qed.

(** The true arcs, counted by the node they leave. *)
Lemma out_degree_sum val (l : list (nat * nat * nat)) (N : list nat) :
  NoDup N -> (forall a, a ∈ l -> head a ∈ N) ->
  length (filter (λ a, val (arc_var a) = true) l)
  = sum_list_with (out_degree val l) N.
Proof.
  intros Hnd. induction l as [|a l IH]; intros Hin.
  - simpl. clear. induction N; simpl; auto.
  - rewrite (sum_list_with_ext_in _ _ _ (λ n _, out_degree_cons val a l n)).
    rewrite sum_list_with_add, <- IH
      by (intros b Hb; apply Hin; by apply list_elem_of_further).
    rewrite (sum_indicator (head a) N (val (arc_var a) = true) Hnd)
      by apply Hin, list_elem_of_here.
    rewrite filter_cons. by case_decide.
Qed.

Lemma nodes_elem (l : list (nat * nat * nat)) n :
  n ∈ nodes l <-> (exists a, a ∈ l /\ (head a = n \/ tail a = n)).
Proof.
  unfold nodes. rewrite elem_of_remove_dups, elem_of_app, !list_elem_of_fmap.
  split.
  - intros [(a & -> & Ha)|(a & -> & Ha)]; eauto.
  - intros (a & Ha & [<-|<-]); eauto.
Qed.

(** Under a circuit constraint the true arcs are as many as the nodes. *)
Lemma circuit_total val (l : list (nat * nat * nat)) :
  circuit_holds val l ->
  total val (arc_var <$> l) = Z.of_nat (length (nodes l)).
Proof.
  intros [Hdeg _]. rewrite total_count. f_equal.
  rewrite (out_degree_sum val l (nodes l)).
  - rewrite <- sum_list_with_const. apply sum_list_with_ext_in.
    intros n Hn. rewrite Forall_forall in Hdeg. by destruct (Hdeg n Hn).
  - apply NoDup_remove_dups.
  - intros a Ha. apply nodes_elem. eauto.
Qed.

End degree_facts.

(** ** [set_circuit] and the counting constraints *)

Section set_circuit_facts.
Import CpModel DominoBraneSolver.

Lemma set_circuit_spec (graph : graph_t) m cs :
  set_circuit graph m = Some cs ->
  NoDup (cs_fixes cs).*1
  /\ (forall k, k ∈ (cs_fixes cs).*1 <-> k ∈ graph_nodes graph)
  /\ strip <$> cs_graph cs = graph
  /\ ends <$> cs_arcs cs = graph ≫= (λ p, p.2 ≫= arc_nodes (cs_fixes cs))
  /\ ends <$> cs_loops cs = graph ≫= loop_nodes (cs_fixes cs)
  /\ LinearEq (arc_var <$> cs_arcs cs) [] (Z.of_nat (length graph)) []
       ∈ constraints (cs_model cs)
  /\ Circuit (cs_arcs cs ++ cs_loops cs) ∈ constraints (cs_model cs)
  /\ (tails_distinct graph ->
      arc_var <$> cs_arcs cs = cs_graph cs ≫= piece_vars
      /\ Forall (λ dd, LinearEq (piece_vars dd) [] 1 [] ∈ constraints (cs_model cs)
                       /\ length (piece_vars dd)
                          = length ((strip dd).2 ≫= arc_nodes (cs_fixes cs)))
           (cs_graph cs)).
Proof.
  unfold set_circuit.
  destruct (new_fixes (graph_nodes graph) [] m) as [fixes m1] eqn:Hf.
  apply new_fixes_spec in Hf as (_ & Hnd & Hk).
  destruct (piece_arcs fixes graph m1) as [[[[cg arcs] loops] m2]|] eqn:Hp; simpl; [|done].
  intros [= <-]. simpl.
  apply piece_arcs_spec in Hp as (Hpre & Hstrip & Harcs & Hloops & Hv).
  split_and!; try done.
  - apply Hnd. constructor.
  - intros k. rewrite Hk. rewrite elem_of_nil. tauto.
  - rewrite !elem_of_app, !list_elem_of_singleton. auto.
  - rewrite !elem_of_app, !list_elem_of_singleton. auto.
  - intros Htd. destruct (Hv Htd) as [Hvars Hall]. split; [done|].
    eapply Forall_impl; [exact Hall|]. intros dd [Hin Hlen]. split; [|done].
    rewrite !elem_of_app. auto.
Qed.

Lemma setup_circuit_constraints graph space s cs c :
  set_circuit graph CpModel.new = Some cs -> s = set_placements cs space ->
  c ∈ constraints (cs_model cs) -> c ∈ constraints (model s).
Proof.
  intros _ -> Hc. rewrite set_placements_constraints, elem_of_app. auto.
Qed.

Lemma idx_lt fixes (k : Z * Z) i : idx fixes k = Some i -> (i < length fixes)%nat.
Proof.
  intros H%index_of_Some. apply lookup_lt_Some in H. by rewrite length_fmap in H.
Qed.

(** Every node of the circuit is the index of a fix. *)
Lemma circuit_nodes_bound (graph : graph_t) fixes (arcs loops : list arc) n :
  ends <$> arcs = graph ≫= (λ p, p.2 ≫= arc_nodes fixes) ->
  ends <$> loops = graph ≫= loop_nodes fixes ->
  n ∈ nodes (arcs ++ loops) -> (n < length fixes)%nat.
Proof.
  intros Harcs Hloops (a & Ha & Hn)%nodes_elem.
  assert (exists h t, idx fixes h = Some (head a) /\ idx fixes t = Some (tail a))
    as (h & t & Hh & Ht).
  { apply elem_of_app in Ha as [Ha|Ha].
    - apply (list_elem_of_fmap_2 ends) in Ha. rewrite Harcs in Ha.
      apply list_elem_of_bind in Ha as (p & Ha & _).
      apply list_elem_of_bind in Ha as (e & Ha & _).
      unfold arc_nodes in Ha. apply list_elem_of_fmap in Ha as (t & [= H1 H2] & _).
      eauto.
    - apply (list_elem_of_fmap_2 ends) in Ha. rewrite Hloops in Ha.
      apply list_elem_of_bind in Ha as (p & Ha & _).
      unfold loop_nodes in Ha. case_decide; [|by apply elem_of_nil in Ha].
      apply list_elem_of_fmap in Ha as (e & [= H1 H2] & _). eauto. }
  destruct Hn as [<-|<-]; by eapply idx_lt.
Qed.

End set_circuit_facts.

Section circuit_counts.
Import CpModel DominoBraneSolver.

(** In a solution every fix is a node of the circuit: it carries a
    self-loop, or it is the only fix of its domino and has an arc. *)
Lemma circuit_nodes_cover (graph : graph_t) fixes (cg : cgraph_t)
    (arcs loops : list arc) val i :
  NoDup fixes.*1 -> (forall k, k ∈ fixes.*1 <-> k ∈ graph_nodes graph) ->
  strip <$> cg = graph ->
  ends <$> arcs = graph ≫= (λ p, p.2 ≫= arc_nodes fixes) ->
  ends <$> loops = graph ≫= loop_nodes fixes ->
  Forall (λ dd, total val (piece_vars dd) = 1%Z
                /\ length (piece_vars dd)
                   = length ((strip dd).2 ≫= arc_nodes fixes)) cg ->
  (i < length fixes)%nat -> i ∈ nodes (arcs ++ loops).
Proof.
  intros Hnd Hk Hstrip Harcs Hloops Hall Hi.
  destruct (lookup_lt_is_Some_2 fixes.*1 i) as [k Hlk]; [by rewrite length_fmap|].
  assert (idx fixes k = Some i) as Hidx by (by apply index_of_lookup).
  assert (k ∈ graph_nodes graph) as Hin by (by eapply Hk, list_elem_of_lookup_2).
  unfold graph_nodes in Hin.
  apply list_elem_of_bind in Hin as (p & Hin & Hp).
  apply list_elem_of_fmap in Hin as (e & -> & He).
  apply nodes_elem.
  destruct (decide (1 < length p.2)%nat) as [Hlen|Hlen].
  - assert ((Some i, Some i) ∈ ends <$> loops) as Hl.
    { rewrite Hloops. apply list_elem_of_bind. exists p. split; [|done].
      unfold loop_nodes. rewrite decide_True by done.
      apply list_elem_of_fmap. exists e. split; [|done].
      cbv beta. by rewrite Hidx. }
    apply list_elem_of_fmap in Hl as (lp & [= H1 H2] & Hlp).
    exists lp. rewrite elem_of_app. auto.
  - assert (p.2 = [e]) as Hp2.
    { destruct p.2 as [|e0 [|e1 l]]; simpl in Hlen.
      - by apply elem_of_nil in He.
      - by apply list_elem_of_singleton in He as ->.
      - lia. }
    assert (p ∈ strip <$> cg) as Hpc by (by rewrite Hstrip).
    apply list_elem_of_fmap in Hpc as (dd & -> & Hdd).
    rewrite Forall_forall in Hall. destruct (Hall dd Hdd) as [Htot Hl].
    rewrite Hp2 in Hl. simpl in Hl. rewrite app_nil_r in Hl.
    unfold arc_nodes in Hl. rewrite length_fmap in Hl.
    destruct e.2 as [|t ts] eqn:Hts.
    { destruct (piece_vars dd); [by rewrite total_nil in Htot|done]. }
    assert ((Some i, idx fixes t) ∈ ends <$> arcs) as Ha.
    { rewrite Harcs. apply list_elem_of_bind. exists (strip dd). split; [|done].
      apply list_elem_of_bind. exists e. split; [|done].
      unfold arc_nodes. rewrite Hts, Hidx. apply list_elem_of_here. }
    apply list_elem_of_fmap in Ha as (a & [= H1 H2] & Ha).
    exists a. rewrite elem_of_app. auto.
Qed.

(** The arcs, domino by domino: [piece_arcs] hands over one group of arcs
    for each domino of the graph, in order; the arcs of a group are those
    from each fix of the domino to each of its tails, and the variables of
    a group are constrained to sum to 1. *)
Lemma piece_arcs_groups fixes (graph : graph_t) m (cg : cgraph_t)
    (arcs loops : list arc) m' :
  piece_arcs fixes graph m = Some (cg, arcs, loops, m') ->
  exists groups : list (list arc),
    arcs = mjoin groups
    /\ Forall2 (λ (p : (Z * Z) * list ((Z * Z) * list (Z * Z))) (g : list arc),
                  ends <$> g = p.2 ≫= arc_nodes fixes
                  /\ LinearEq (arc_var <$> g) [] 1 [] ∈ constraints m')
         graph groups.
Proof.
  revert m cg arcs loops m'.
  induction graph as [|[d fs] graph IH]; intros m cg arcs loops m'; simpl.
  - intros [= <- <- <- <-]. exists []. split; [done|constructor].
  - destruct (head_arcs fixes (length fs) fs m) as [[[[dir d_arcs] d_loops] m1]|] eqn:Hh;
      simpl; [|done].
    apply head_arcs_spec in Hh as (_ & _ & Hs1 & _).
    destruct (piece_arcs fixes graph _) as [[[[cg1 arcs1] loops1] m2]|] eqn:Hrec;
      simpl; [|done].
    intros [= <- <- <- <-].
    pose proof (piece_arcs_spec _ _ _ _ _ _ _ Hrec) as (Hp & _).
    apply IH in Hrec as (groups & -> & Hall).
    exists (d_arcs :: groups). split; [done|]. constructor; [|done].
    split; [done|].
    apply (elem_of_prefix
             (constraints (Add (LinearEq (arc_var <$> d_arcs) [] 1 []) m1)));
      [|done].
    simpl. rewrite elem_of_app. right. apply list_elem_of_here.
Qed.

Lemma set_circuit_groups (graph : graph_t) m cs :
  set_circuit graph m = Some cs ->
  exists groups : list (list arc),
    cs_arcs cs = mjoin groups
    /\ Forall2 (λ (p : (Z * Z) * list ((Z * Z) * list (Z * Z))) (g : list arc),
                  ends <$> g = p.2 ≫= arc_nodes (cs_fixes cs)
                  /\ LinearEq (arc_var <$> g) [] 1 [] ∈ constraints (cs_model cs))
         graph groups.
Proof.
  unfold set_circuit. destruct (new_fixes _ _ _) as [fixes m1] eqn:Hnf.
  destruct (piece_arcs fixes graph m1) as [[[[cg arcs] loops] m2]|] eqn:Hp;
    simpl; [|done].
  intros [= <-]. simpl.
  apply piece_arcs_groups in Hp as (groups & -> & Hall).
  exists groups. split; [done|].
  eapply Forall2_impl; [exact Hall|]. intros p g [H1 H2]. split; [done|].
  rewrite !elem_of_app. auto.
Qed.

(** In a solution every fix is a node of the circuit: it carries a
    self-loop, or it is the only fix of its domino and has an arc. *)
Lemma group_nodes_cover (graph : graph_t) fixes (groups : list (list arc))
    (loops : list arc) val i :
  NoDup fixes.*1 -> (forall k, k ∈ fixes.*1 <-> k ∈ graph_nodes graph) ->
  Forall2 (λ (p : (Z * Z) * list ((Z * Z) * list (Z * Z))) (g : list arc),
             ends <$> g = p.2 ≫= arc_nodes fixes
             /\ total val (arc_var <$> g) = 1%Z) graph groups ->
  ends <$> loops = graph ≫= loop_nodes fixes ->
  (i < length fixes)%nat -> i ∈ nodes (mjoin groups ++ loops).
Proof.
  intros Hnd Hk Hall Hloops Hi.
  destruct (lookup_lt_is_Some_2 fixes.*1 i) as [k Hlk]; [by rewrite length_fmap|].
  assert (idx fixes k = Some i) as Hidx by (by apply index_of_lookup).
  assert (k ∈ graph_nodes graph) as Hin by (by eapply Hk, list_elem_of_lookup_2).
  unfold graph_nodes in Hin.
  apply list_elem_of_bind in Hin as (p & Hin & Hp).
  apply list_elem_of_fmap in Hin as (e & -> & He).
  apply nodes_elem.
  destruct (decide (1 < length p.2)%nat) as [Hlen|Hlen].
  - assert ((Some i, Some i) ∈ ends <$> loops) as Hl.
    { rewrite Hloops. apply list_elem_of_bind. exists p. split; [|done].
      unfold loop_nodes. rewrite decide_True by done.
      apply list_elem_of_fmap. exists e. split; [|done].
      cbv beta. by rewrite Hidx. }
    apply list_elem_of_fmap in Hl as (lp & [= H1 H2] & Hlp).
    exists lp. rewrite elem_of_app. auto.
  - assert (p.2 = [e]) as Hp2.
    { destruct p.2 as [|e0 [|e1 l]]; simpl in Hlen.
      - by apply elem_of_nil in He.
      - by apply list_elem_of_singleton in He as ->.
      - lia. }
    apply list_elem_of_lookup in Hp as (j & Hj).
    destruct (Forall2_lookup_l _ _ _ _ _ Hall Hj) as (g & Hg & Hends & Htot).
    rewrite Hp2 in Hends. simpl in Hends. rewrite app_nil_r in Hends.
    destruct g as [|a g]; [by rewrite total_nil in Htot|].
    unfold arc_nodes in Hends. destruct e.2 as [|t ts]; [done|].
    rewrite !fmap_cons in Hends. unfold ends in Hends at 1.
    injection Hends as Hh _ _. rewrite Hidx in Hh. injection Hh as Hh.
    exists a. split; [|by left].
    rewrite elem_of_app. left. apply list_elem_of_join. exists (a :: g).
    split; [apply list_elem_of_here|by eapply list_elem_of_lookup_2].
Qed.

(** C5. [set_circuit] hands the circuit constraint one arc for every fix
    of every domino of the graph and every tail of that fix, and one
    self-loop for every fix of a domino with more than one fix.  For every
    domino the model holds the constraint that the variables of the arcs
    leaving its fixes sum to 1, and the constraint that all arc variables
    sum to the number of dominoes.  Hence in every solution the used arcs
    out of each domino are one, the used arcs are as many as the dominoes,
    and the used arcs and self-loops together are as many as the fix
    nodes. *)
Theorem circuit_counts (graph : graph_t) space s :
  setup graph space = Some s ->
  strip <$> DominoBraneSolver.graph s = graph
  /\ (fixes s).*1 ≡ₚ remove_dups (graph_nodes graph)
  /\ (exists groups : list (list arc),
        arcs s = mjoin groups
        /\ Forall2 (λ (p : (Z * Z) * list ((Z * Z) * list (Z * Z))) (g : list arc),
                      ends <$> g = p.2 ≫= arc_nodes (fixes s)
                      /\ LinearEq (arc_var <$> g) [] 1 [] ∈ constraints (model s)
                      /\ forall val, satisfies val (model s) ->
                                     total val (arc_var <$> g) = 1%Z)
             graph groups)
  /\ ends <$> loops s = graph ≫= loop_nodes (fixes s)
  /\ LinearEq (arc_var <$> arcs s) [] (Z.of_nat (length graph)) []
       ∈ constraints (model s)
  /\ Circuit (arcs s ++ loops s) ∈ constraints (model s)
  /\ forall val, satisfies val (model s) ->
       total val (arc_var <$> arcs s) = Z.of_nat (length graph)
       /\ (total val (arc_var <$> arcs s) + total val (arc_var <$> loops s))%Z
          = Z.of_nat (length (remove_dups (graph_nodes graph))).
Proof.
  intros Hs. destruct (setup_inv _ _ _ Hs) as (cs & Hcs & Heq).
  destruct (set_circuit_spec _ _ _ Hcs)
    as (Hnd & Hk & Hstrip & Harcs & Hloops & Hsum & Hcirc & _).
  destruct (set_circuit_groups _ _ _ Hcs) as (groups & Hcat & Hall).
  destruct (set_placements_fields cs space) as (Eg & _ & Ef & Ea & El).
  rewrite <- Heq in Eg, Ef, Ea, El. rewrite Eg, Ef, Ea, El.
  pose proof (λ c, setup_circuit_constraints graph space s cs c Hcs Heq) as Hlift.
  assert ((cs_fixes cs).*1 ≡ₚ remove_dups (graph_nodes graph)) as Hperm.
  { apply NoDup_Permutation; [done|apply NoDup_remove_dups|].
    intros k. rewrite elem_of_remove_dups. apply Hk. }
  assert (Forall2 (λ (p : (Z * Z) * list ((Z * Z) * list (Z * Z))) (g : list arc),
                     ends <$> g = p.2 ≫= arc_nodes (cs_fixes cs)
                     /\ LinearEq (arc_var <$> g) [] 1 [] ∈ constraints (model s)
                     /\ forall val, satisfies val (model s) ->
                                    total val (arc_var <$> g) = 1%Z)
            graph groups) as Hall'.
  { eapply Forall2_impl; [exact Hall|]. intros p g [H1 H2].
    split; [done|]. split; [by apply Hlift|].
    intros val Hval. pose proof (satisfies_elem _ _ _ Hval (Hlift _ H2)) as H.
    simpl in H. rewrite H by constructor. done. }
  split_and!; [done|done| |done|by apply Hlift|by apply Hlift|].
  { by exists groups. }
  intros val Hval. split.
  - pose proof (satisfies_elem _ _ _ Hval (Hlift _ Hsum)) as H.
    simpl in H. rewrite H by constructor. done.
  - pose proof (satisfies_elem _ _ _ Hval (Hlift _ Hcirc)) as H. simpl in H.
    apply circuit_total in H. rewrite fmap_app, total_app in H. rewrite H.
    f_equal. rewrite <- Hperm, length_fmap.
    trans (length (seq 0 (length (cs_fixes cs)))); [|apply length_seq].
    apply Permutation_length, NoDup_Permutation.
    + apply NoDup_remove_dups.
    + apply NoDup_seq.
    + intros n. rewrite elem_of_seq. split.
      * intros Hn.
        pose proof (circuit_nodes_bound graph (cs_fixes cs) _ _ n Harcs Hloops Hn). lia.
      * intros [_ Hn]. rewrite Hcat.
        apply (group_nodes_cover graph (cs_fixes cs) groups _ val); try done.
        eapply Forall2_impl; [exact Hall'|]. intros p g (H1 & _ & H3).
        split; [done|]. by apply H3.
Qed.

End circuit_counts.

(** ** The domino digraph is well formed *)

Section digraph_wf.
Import DominoDigraph DominoBraneSolver.

Lemma graph_entry_nodes size (p : (Z * Z) * list ((Z * Z) * list (Z * Z))) :
  p ∈ DominoDigraph.graph size ->
  exists e, e ∈ fixed size /\ p.1 = e.1 /\ p.2.*1 = e.2
            /\ p.2 = (λ d_fix, (d_fix, tails_of (fixed size) e.1 d_fix)) <$> e.2.
Proof.
  intros (e & He & H1 & H2)%graph_elem. exists e. split_and!; try done.
  rewrite H2, <- list_fmap_compose. clear. induction e.2 as [|x l IH]; [done|].
  rewrite fmap_cons. simpl. by rewrite IH.
Qed.

Lemma graph_tails_distinct size : tails_distinct (DominoDigraph.graph size).
Proof.
  unfold tails_distinct. rewrite Forall_forall. intros p Hp.
  apply graph_entry_nodes in Hp as (e & He & _ & _ & ->).
  rewrite Forall_forall. intros x (f & -> & Hf)%list_elem_of_fmap. simpl.
  apply tails_of_NoDup.
Qed.

Lemma graph_no_self_tail size : no_self_tail (DominoDigraph.graph size).
Proof.
  unfold no_self_tail. rewrite Forall_forall. intros p Hp.
  apply graph_entry_nodes in Hp as (e & He & _ & _ & ->).
  rewrite Forall_forall. intros x (f & -> & Hf)%list_elem_of_fmap. simpl.
  intros (e' & He' & Hne & Hin & _)%tails_of_elem.
  apply Hne. by rewrite (fixed_owner size e' e f).
Qed.

Lemma graph_nodes_NoDup size : NoDup (graph_nodes (DominoDigraph.graph size)).
Proof.
  unfold graph_nodes. apply NoDup_bind.
  - intros p1 p2 k Hp1 Hp2 Hk1 Hk2.
    apply graph_entry_nodes in Hp1 as (e1 & He1 & H11 & H12 & H13).
    apply graph_entry_nodes in Hp2 as (e2 & He2 & H21 & H22 & H23).
    rewrite H12 in Hk1. rewrite H22 in Hk2.
    assert (e1 = e2) as -> by (by apply (fixed_owner size e1 e2 k)).
    destruct p1, p2; simpl in *; congruence.
  - intros p Hp. apply graph_entry_nodes in Hp as (e & He & _ & -> & _).
    apply fixed_elem in He as [_ ->]. apply set2_NoDup.
  - unfold DominoDigraph.graph. apply NoDup_fmap_2_strong; [|apply fixed_NoDup].
    intros e1 e2 He1 He2 [= H1 _].
    apply fixed_elem in He1 as [_ E1], He2 as [_ E2].
    destruct e1, e2; simpl in *; congruence.
Qed.

(** A double has one fix, any other domino two. *)
Lemma graph_fix_count size (p : (Z * Z) * list ((Z * Z) * list (Z * Z))) :
  p ∈ DominoDigraph.graph size ->
  length p.2 = if decide (p.1.1 = p.1.2) then 1%nat else 2%nat.
Proof.
  intros (e & He & H1 & H2 & _)%graph_entry_nodes.
  rewrite <- (length_fmap fst), H2, H1.
  apply fixed_elem in He as [_ ->]. rewrite set2_length.
  destruct (decide (e.1.1 = e.1.2)) as [Heq|Hne].
  - rewrite decide_True; [done|]. by rewrite Heq.
  - rewrite decide_False; [done|]. intros [= ? ?]. done.
Qed.

End digraph_wf.

(** ** The self-loop policy *)

Section self_loop_facts.
Import CpModel DominoBraneSolver.

Lemma loop_nodes_looped fixes (graph : graph_t) :
  graph ≫= loop_nodes fixes
  = (λ h, (idx fixes h, idx fixes h)) <$> looped_fixes graph.
Proof.
  unfold looped_fixes. induction graph as [|p graph IH]; [done|].
  rewrite !bind_cons, fmap_app, IH. f_equal.
  unfold loop_nodes. case_decide; [|done].
  by rewrite <- list_fmap_compose.
Qed.

Lemma looped_fixes_nodes (graph : graph_t) h :
  h ∈ looped_fixes graph -> h ∈ graph_nodes graph.
Proof.
  unfold looped_fixes, graph_nodes. rewrite !list_elem_of_bind.
  intros (p & Hh & Hp). exists p. split; [|done].
  case_decide; [done|by apply elem_of_nil in Hh].
Qed.

Lemma looped_fixes_count (graph : graph_t) p h :
  NoDup (graph_nodes graph) -> p ∈ graph -> h ∈ p.2.*1 ->
  length (filter (λ y, y = h) (looped_fixes graph))
  = if decide (1 < length p.2)%nat then 1%nat else 0%nat.
Proof.
  unfold looped_fixes, graph_nodes.
  induction graph as [|q graph IH]; [by intros _ ?%elem_of_nil|].
  rewrite !bind_cons. intros (Hq & Hdisj & Hrest)%NoDup_app Hp Hh.
  rewrite filter_app, length_app.
  apply elem_of_cons in Hp as [->|Hp].
  - rewrite (filter_none_length _ (graph ≫= _)).
    + case_decide; [|done]. rewrite count_NoDup by done.
      by rewrite decide_True.
    + rewrite Forall_forall. intros y Hy ->.
      by apply (Hdisj h), (looped_fixes_nodes graph).
  - rewrite IH by done. rewrite filter_none_length; [done|].
    rewrite Forall_forall. intros y Hy ->.
    assert (h ∈ q.2.*1) as Hq2 by (case_decide; [done|by apply elem_of_nil in Hy]).
    apply (Hdisj h Hq2). apply list_elem_of_bind. eauto.
Qed.

(** The self-loops on the node of a fix: none among the arcs, and one
    among the loops exactly when its domino has more than one fix. *)
Lemma self_loop_count (graph : graph_t) space s p e :
  setup graph space = Some s ->
  NoDup (graph_nodes graph) -> no_self_tail graph ->
  p ∈ graph -> e ∈ p.2 ->
  exists i, idx (fixes s) e.1 = Some i
            /\ self_loops i (arcs s) = 0%nat
            /\ self_loops i (loops s)
               = if decide (1 < length p.2)%nat then 1%nat else 0%nat.
Proof.
  intros Hs Hnd Hself Hp He. destruct (setup_inv _ _ _ Hs) as (cs & Hcs & Heq).
  destruct (set_circuit_spec _ _ _ Hcs)
    as (Hndk & Hk & Hstrip & Harcs & Hloops & _).
  destruct (set_placements_fields cs space) as (_ & _ & Ef & Ea & El).
  rewrite <- Heq in Ef, Ea, El. rewrite Ef, Ea, El.
  assert (e.1 ∈ p.2.*1) as He1 by (by apply list_elem_of_fmap_2).
  assert (e.1 ∈ graph_nodes graph) as Hin
    by (apply list_elem_of_bind; eauto).
  destruct (index_of_elem e.1 (cs_fixes cs).*1) as [i Hi]; [by apply Hk|].
  exists i. split; [exact Hi|]. split.
  - apply filter_none_length. rewrite Forall_forall. intros a Ha [H1 H2].
    apply (list_elem_of_fmap_2 ends) in Ha. rewrite Harcs in Ha.
    apply list_elem_of_bind in Ha as (q & Ha & Hq).
    apply list_elem_of_bind in Ha as (x & Ha & Hx).
    unfold arc_nodes in Ha. apply list_elem_of_fmap in Ha as (t & [= Hh Ht] & Hin').
    rewrite H1 in Hh. rewrite H2 in Ht.
    assert (x.1 = t) as Hxt by (by eapply index_of_inj).
    unfold no_self_tail in Hself. rewrite Forall_forall in Hself.
    specialize (Hself q Hq). rewrite Forall_forall in Hself.
    apply (Hself x Hx). by rewrite Hxt.
  - rewrite <- (looped_fixes_count graph p e.1 Hnd Hp He1).
    unfold self_loops.
    apply (filter_length_transport ends (λ h, (idx (cs_fixes cs) h, idx (cs_fixes cs) h))).
    + by rewrite Hloops, loop_nodes_looped.
    + intros a h [= Hh Ht]. split.
      * intros [H1 H2]. rewrite H1 in Hh.
        apply (index_of_inj h e.1 (cs_fixes cs).*1 i); [by symmetry|done].
      * intros ->. unfold idx in Hh, Ht. rewrite Hi in Hh, Ht. by simplify_eq.
Qed.

End self_loop_facts.

Section circuit_witness.
Import CpModel DominoBraneSolver.

Lemma circuit_counts_witness :
  exists s val,
    DominoBraneSolver.setup (DominoDigraph.graph 2) (DominoBraneSolver.Space 2) = Some s
    /\ satisfies val (model s)
    /\ length (DominoDigraph.graph 2) = 6%nat
    /\ length (remove_dups (graph_nodes (DominoDigraph.graph 2))) = 9%nat
    /\ strip <$> DominoBraneSolver.graph s = DominoDigraph.graph 2
    /\ (exists groups : list (list arc),
          arcs s = mjoin groups
          /\ Forall2 (λ (p : (Z * Z) * list ((Z * Z) * list (Z * Z))) (g : list arc),
                        ends <$> g = p.2 ≫= arc_nodes (fixes s)
                        /\ LinearEq (arc_var <$> g) [] 1 [] ∈ constraints (model s)
                        /\ forall val, satisfies val (model s) ->
                                       total val (arc_var <$> g) = 1%Z)
               (DominoDigraph.graph 2) groups)
    /\ total val (arc_var <$> arcs s) = 6%Z
    /\ (total val (arc_var <$> arcs s) + total val (arc_var <$> loops s))%Z = 9%Z.
Proof.
  destruct (checked
    (λ s, bool_decide (satisfies (Scenario.tiling s) (model s)))
    (DominoBraneSolver.setup (DominoDigraph.graph 2) (DominoBraneSolver.Space 2)))
    as (s & Hs & H).
  { vm_compute. reflexivity. }
  apply bool_decide_eq_true in H.
  destruct (circuit_counts _ _ s Hs) as (Hstrip & _ & Hgroups & _ & _ & _ & Hsem).
  destruct (Hsem (Scenario.tiling s) H) as [Harcs Hall].
  exists s, (Scenario.tiling s).
  split; [exact Hs|]. split; [exact H|].
  split; [vm_compute; reflexivity|]. split; [vm_compute; reflexivity|].
  split; [exact Hstrip|]. split; [exact Hgroups|].
  split; [exact Harcs|]. exact Hall.
Defined.

End circuit_witness.

(** ** One fix of a pair is on the tour *)

Section pair_facts.
Import CpModel DominoBraneSolver.

(** The arcs, domino by domino. *)
Lemma piece_arcs_parts fixes (graph : graph_t) m (cg : cgraph_t)
    (arcs loops : list arc) m' :
  piece_arcs fixes graph m = Some (cg, arcs, loops, m') ->
  tails_distinct graph ->
  exists parts : list (list arc),
    arcs = mjoin parts
    /\ Forall2 (λ dd part, ends <$> part = (strip dd).2 ≫= arc_nodes fixes
                           /\ arc_var <$> part = piece_vars dd) cg parts.
Proof.
  revert m cg arcs loops m'.
  induction graph as [|[d fs] graph IH]; intros m cg arcs loops m'; simpl.
  - intros [= <- <- <- <-] _. exists []. split; [done|constructor].
  - destruct (head_arcs fixes (length fs) fs m) as [[[[dir d_arcs] d_loops] m1]|] eqn:Hh;
      simpl; [|done].
    apply head_arcs_spec in Hh as (_ & Hd1 & Hs1 & _ & Hv1).
    destruct (piece_arcs fixes graph _) as [[[[cg1 arcs1] loops1] m2]|] eqn:Hrec;
      simpl; [|done].
    intros [= <- <- <- <-] [Hnd Hall]%Forall_cons.
    destruct (IH _ _ _ _ _ Hrec Hall) as (parts & -> & Hparts).
    exists (d_arcs :: parts). split; [done|]. constructor; [|done].
    split.
    + unfold strip. simpl. by rewrite Hd1.
    + by rewrite (Hv1 Hnd).
Qed.

Lemma set_circuit_parts (graph : graph_t) m cs :
  set_circuit graph m = Some cs -> tails_distinct graph ->
  exists parts : list (list arc),
    cs_arcs cs = mjoin parts
    /\ Forall2 (λ dd part, ends <$> part = (strip dd).2 ≫= arc_nodes (cs_fixes cs)
                           /\ arc_var <$> part = piece_vars dd) (cs_graph cs) parts.
Proof.
  unfold set_circuit.
  destruct (new_fixes (graph_nodes graph) [] m) as [fixes m1].
  destruct (piece_arcs fixes graph m1) as [[[[cg arcs] loops] m2]|] eqn:Hp; simpl; [|done].
  intros [= <-] Htd. simpl. by eapply piece_arcs_parts.
Qed.

Lemma out_degree_app val (l1 l2 : list (nat * nat * nat)) n :
  out_degree val (l1 ++ l2) n = (out_degree val l1 n + out_degree val l2 n)%nat.
Proof. unfold out_degree. by rewrite filter_app, length_app. Qed.

Lemma out_degree_none val (l : list (nat * nat * nat)) n :
  (forall a, a ∈ l -> head a ≠ n) -> out_degree val l n = 0%nat.
Proof.
  intros H. apply filter_none_length. rewrite Forall_forall.
  intros a Ha [Hh _]. by apply (H a).
Qed.

(** Where every arc leaves one of two distinct nodes, the true arcs are
    those leaving the one and those leaving the other. *)
Lemma out_degree_pair val (l : list (nat * nat * nat)) i j :
  i ≠ j -> (forall a, a ∈ l -> head a = i \/ head a = j) ->
  (out_degree val l i + out_degree val l j)%nat
  = length (filter (λ a, val (arc_var a) = true) l).
Proof.
  intros Hij. unfold out_degree. induction l as [|a l IH]; intros H; [done|].
  rewrite !filter_cons.
  assert (forall b, b ∈ l -> head b = i \/ head b = j) as H'
    by (intros b Hb; by apply H, list_elem_of_further).
  specialize (IH H'). destruct (H a (list_elem_of_here _ _)) as [Ha|Ha].
  - destruct (decide (val (arc_var a) = true)).
    + rewrite decide_True, (decide_False (P := head a = j ∧ _)) by (try done; lia).
      simpl. lia.
    + rewrite !decide_False by tauto. done.
  - destruct (decide (val (arc_var a) = true)).
    + rewrite (decide_False (P := head a = i ∧ _)), decide_True by (try done; lia).
      simpl. lia.
    + rewrite !decide_False by tauto. done.
Qed.

Lemma Forall2_join_elem {A B : Type} (P : A -> list B -> Prop)
    (l : list A) (parts : list (list B)) (b : B) :
  Forall2 P l parts -> b ∈ mjoin parts ->
  exists x part, x ∈ l /\ b ∈ part /\ P x part.
Proof.
  induction 1 as [|x part l parts HP _ IH]; simpl; [by intros ?%elem_of_nil|].
  rewrite elem_of_app. intros [Hb|Hb].
  - exists x, part. split_and!; [apply list_elem_of_here|done|done].
  - destruct (IH Hb) as (y & part' & Hy & Hb' & HP').
    exists y, part'. split_and!; [by apply list_elem_of_further|done|done].
Qed.

(** The head of an arc built for a domino is the node of one of its fixes. *)
Lemma part_head fixes (dd : (Z * Z) * list ((Z * Z) * head_dir))
    (part : list (nat * nat * nat)) a :
  ends <$> part = (strip dd).2 ≫= arc_nodes fixes -> a ∈ part ->
  exists e, e ∈ (strip dd).2 /\ idx fixes e.1 = Some (head a).
Proof.
  intros Hshape Ha. apply (list_elem_of_fmap_2 ends) in Ha. rewrite Hshape in Ha.
  apply list_elem_of_bind in Ha as (e & Ha & He).
  unfold arc_nodes in Ha. apply list_elem_of_fmap in Ha as (t & [= H1 H2] & _).
  eauto.
Qed.

End pair_facts.

Section pair_on_tour.
Import CpModel DominoBraneSolver.

Lemma arcs_no_self_loop fixes (graph : graph_t) (arcs : list (nat * nat * nat)) a :
  ends <$> arcs = graph ≫= (λ p, p.2 ≫= arc_nodes fixes) ->
  no_self_tail graph -> a ∈ arcs -> head a ≠ tail a.
Proof.
  intros Harcs Hself Ha Heq.
  apply (list_elem_of_fmap_2 ends) in Ha. rewrite Harcs in Ha.
  apply list_elem_of_bind in Ha as (q & Ha & Hq).
  apply list_elem_of_bind in Ha as (x & Ha & Hx).
  unfold arc_nodes in Ha. apply list_elem_of_fmap in Ha as (t & [= Hh Ht] & Hin).
  rewrite Heq in Hh.
  assert (x.1 = t) as Hxt by (by apply (index_of_inj x.1 t fixes.*1 (tail a))).
  unfold no_self_tail in Hself. rewrite Forall_forall in Hself.
  specialize (Hself q Hq). rewrite Forall_forall in Hself.
  apply (Hself x Hx). by rewrite Hxt.
Qed.

Lemma loops_are_loops fixes (graph : graph_t) (loops : list (nat * nat * nat)) a :
  ends <$> loops = graph ≫= loop_nodes fixes -> a ∈ loops -> tail a = head a.
Proof.
  intros Hloops Ha.
  apply (list_elem_of_fmap_2 ends) in Ha. rewrite Hloops in Ha.
  apply list_elem_of_bind in Ha as (q & Ha & Hq).
  unfold loop_nodes in Ha. case_decide; [|by apply elem_of_nil in Ha].
  apply list_elem_of_fmap in Ha as (e & [= Hh Ht] & _). congruence.
Qed.

(** A node is excluded exactly when one of the self-loops on it is true. *)
Lemma skipped_loops val (arcs loops : list (nat * nat * nat)) i :
  (forall a, a ∈ arcs -> head a ≠ tail a) ->
  (forall a, a ∈ loops -> tail a = head a) ->
  skipped val (arcs ++ loops) i <-> (0 < out_degree val loops i)%nat.
Proof.
  intros Harcs Hloops. unfold skipped, out_degree. rewrite Exists_exists. split.
  - intros (a & [Ha|Ha]%elem_of_app & Hh & Ht & Hv).
    + destruct (Harcs a Ha). congruence.
    + assert (a ∈ filter (λ a, head a = i ∧ val (arc_var a) = true) loops) as Hin
        by (by apply list_elem_of_filter).
      destruct (filter _ loops); [by apply elem_of_nil in Hin|simpl; lia].
  - intros Hlen.
    destruct (filter (λ a, head a = i ∧ val (arc_var a) = true) loops) as [|a l] eqn:E;
      [simpl in Hlen; lia|].
    assert (a ∈ filter (λ a, head a = i ∧ val (arc_var a) = true) loops) as Hin
      by (rewrite E; apply list_elem_of_here).
    apply list_elem_of_filter in Hin as [[Hh Hv] Ha].
    exists a. rewrite elem_of_app. split_and!; [by right|done| |done].
    by rewrite (Hloops a Ha).
Qed.

(** Of the two fixes of a domino, a solution leaves exactly one out of the
    tour. *)
Lemma one_of_pair (graph : graph_t) space s p e1 e2 i1 i2 val :
  setup graph space = Some s ->
  NoDup (graph_nodes graph) -> no_self_tail graph -> tails_distinct graph ->
  p ∈ graph -> p.2 = [e1; e2] ->
  idx (fixes s) e1.1 = Some i1 -> idx (fixes s) e2.1 = Some i2 ->
  satisfies val (model s) ->
  (skipped val (arcs s ++ loops s) i1 <-> ¬ skipped val (arcs s ++ loops s) i2)
  /\ (skipped val (arcs s ++ loops s) i2 <-> ¬ skipped val (arcs s ++ loops s) i1).
Proof.
  intros Hs Hnd Hself Htd Hp Hp2 Hi1 Hi2 Hval.
  destruct (setup_inv _ _ _ Hs) as (cs & Hcs & Heq).
  destruct (set_circuit_spec _ _ _ Hcs)
    as (Hndk & Hk & Hstrip & Harcs & Hloops & _ & Hcirc & Hv).
  destruct (Hv Htd) as [_ Hall].
  destruct (set_circuit_parts _ _ _ Hcs Htd) as (parts & Hjoin & Hparts).
  destruct (set_placements_fields cs space) as (_ & _ & Ef & Ea & El).
  rewrite <- Heq in Ef, Ea, El. rewrite Ef in Hi1, Hi2. rewrite Ea, El.
  pose proof (λ c, setup_circuit_constraints graph space s cs c Hcs Heq) as Hlift.
  assert (forall dd, dd ∈ cs_graph cs -> total val (piece_vars dd) = 1%Z) as Hone.
  { intros dd Hdd. rewrite Forall_forall in Hall. destruct (Hall dd Hdd) as [Hin _].
    pose proof (satisfies_elem _ _ _ Hval (Hlift _ Hin)) as H.
    simpl in H. rewrite H by constructor. done. }
  pose proof (satisfies_elem _ _ _ Hval (Hlift _ Hcirc)) as [Hdeg _].
  rewrite Forall_forall in Hdeg.
  assert (forall i, (i < length (cs_fixes cs))%nat ->
            (out_degree val (cs_arcs cs) i + out_degree val (cs_loops cs) i = 1)%nat)
    as Hout.
  { intros i Hi. rewrite <- out_degree_app. apply Hdeg.
    apply (circuit_nodes_cover graph (cs_fixes cs) (cs_graph cs) _ _ val); try done.
    rewrite Forall_forall in Hall |- *. intros dd Hdd.
    split; [by apply Hone|by apply Hall]. }
  pose proof (Hout i1 (idx_lt _ _ _ Hi1)) as D1.
  pose proof (Hout i2 (idx_lt _ _ _ Hi2)) as D2.
  (* the domino, its arcs, and the others *)
  assert (p ∈ strip <$> cs_graph cs) as Hpc by (by rewrite Hstrip).
  apply list_elem_of_fmap in Hpc as (dd & Hdd & Hin).
  apply list_elem_of_split in Hin as (cg1 & cg2 & Hcg).
  rewrite Hcg in Hparts.
  apply Forall2_app_inv_l in Hparts as (parts1 & parts' & Hf1 & Hf' & ->).
  apply Forall2_cons_inv_l in Hf' as (part & parts2 & [Hshape Hvars] & Hf2 & ->).
  rewrite join_app in Hjoin. simpl in Hjoin.
  assert (graph_nodes graph
          = graph_nodes (strip <$> cg1) ++ (p.2.*1 ++ graph_nodes (strip <$> cg2)))
    as Hnodes.
  { rewrite <- Hstrip, Hcg, fmap_app, fmap_cons, <- Hdd. unfold graph_nodes.
    by rewrite bind_app, bind_cons. }
  rewrite Hnodes in Hnd.
  apply NoDup_app in Hnd as (_ & Hdis1 & Hnd).
  apply NoDup_app in Hnd as (Hndp & Hdis2 & _).
  rewrite Hp2 in Hndp. simpl in Hndp.
  assert (e1.1 ≠ e2.1) as Hne.
  { apply NoDup_cons in Hndp as [Hn _]. intros Heq'. apply Hn. rewrite Heq'.
    apply list_elem_of_here. }
  assert (i1 ≠ i2) as Hi12.
  { intros ->. apply Hne. by apply (index_of_inj e1.1 e2.1 (cs_fixes cs).*1 i2). }
  assert (forall k ek, ek ∈ p.2 -> idx (cs_fixes cs) ek.1 = Some k ->
            forall (cgx : list ((Z * Z) * list ((Z * Z) * head_dir))) partsx,
            Forall2 (λ dd part, ends <$> part = (strip dd).2 ≫= arc_nodes (cs_fixes cs)
                                /\ arc_var <$> part = piece_vars dd) cgx partsx ->
            (forall x, x ∈ graph_nodes (strip <$> cgx) -> x ∉ p.2.*1) ->
            out_degree val (mjoin partsx) k = 0%nat) as Hother.
  { intros k ek Hek Hik cgx partsx Hfx Hdis. apply out_degree_none.
    intros a Ha Hhead.
    destruct (Forall2_join_elem _ _ _ a Hfx Ha) as (dd' & part' & Hdd' & Ha' & Hsh & _).
    destruct (part_head _ dd' part' a Hsh Ha') as (e' & He' & Hidx).
    rewrite Hhead in Hidx.
    assert (e'.1 = ek.1) as Hsame
      by (by apply (index_of_inj e'.1 ek.1 (cs_fixes cs).*1 k)).
    apply (Hdis e'.1).
    - apply list_elem_of_bind. exists (strip dd'). split.
      + by apply list_elem_of_fmap_2.
      + by apply list_elem_of_fmap_2.
    - rewrite Hsame. by apply list_elem_of_fmap_2. }
  assert (e1 ∈ p.2) as He1 by (rewrite Hp2; apply list_elem_of_here).
  assert (e2 ∈ p.2) as He2
    by (rewrite Hp2; apply list_elem_of_further, list_elem_of_here).
  assert (forall x, x ∈ graph_nodes (strip <$> cg1) -> x ∉ p.2.*1) as Hd1.
  { intros x Hx Hxp. apply (Hdis1 x Hx). apply elem_of_app. by left. }
  assert (forall x, x ∈ graph_nodes (strip <$> cg2) -> x ∉ p.2.*1) as Hd2.
  { intros x Hx Hxp. by apply (Hdis2 x Hxp). }
  assert ((out_degree val (cs_arcs cs) i1 + out_degree val (cs_arcs cs) i2 = 1)%nat)
    as HX.
  { rewrite Hjoin, !out_degree_app.
    rewrite (Hother i1 e1 He1 Hi1 cg1 parts1 Hf1 Hd1),
            (Hother i2 e2 He2 Hi2 cg1 parts1 Hf1 Hd1),
            (Hother i1 e1 He1 Hi1 cg2 parts2 Hf2 Hd2),
            (Hother i2 e2 He2 Hi2 cg2 parts2 Hf2 Hd2).
    assert ((out_degree val part i1 + out_degree val part i2)%nat = 1%nat) as Hpart.
    { rewrite (out_degree_pair val part i1 i2 Hi12).
      - assert (dd ∈ cs_graph cs) as Hddin
          by (rewrite Hcg; apply elem_of_app; right; apply list_elem_of_here).
        pose proof (Hone dd Hddin) as H1. rewrite <- Hvars, total_count in H1. lia.
      - intros a Ha. destruct (part_head _ dd part a Hshape Ha) as (e & He & Hidx).
        rewrite <- Hdd, Hp2 in He.
        apply elem_of_cons in He as [->|He].
        + left. rewrite Hi1 in Hidx. by injection Hidx.
        + apply list_elem_of_singleton in He as ->.
          right. rewrite Hi2 in Hidx. by injection Hidx. }
    lia. }
  assert (forall i, skipped val (cs_arcs cs ++ cs_loops cs) i
                    <-> (0 < out_degree val (cs_loops cs) i)%nat) as Hsk.
  { intros i. apply skipped_loops.
    - intros a. by apply (arcs_no_self_loop (cs_fixes cs) graph (cs_arcs cs)).
    - intros a. by apply (loops_are_loops (cs_fixes cs) graph). }
  rewrite !Hsk. lia.
Qed.

Lemma no_self_loop_on_tour val (l : list (nat * nat * nat)) i :
  self_loops i l = 0%nat -> ¬ skipped val l i.
Proof.
  unfold self_loops, skipped. rewrite Exists_exists.
  intros Hlen (a & Ha & Hh & Ht & _).
  assert (a ∈ filter (λ a, head a = i ∧ tail a = i) l) as Hin
    by (by apply list_elem_of_filter).
  destruct (filter _ l); [by apply elem_of_nil in Hin|done].
Qed.

End pair_on_tour.

Section self_loop_theorem.
Import CpModel DominoBraneSolver.

(** C6. In the arc list handed to the circuit constraint for a domino set,
    the node of the single fix of a double carries no self-loop, and each
    of the two fix nodes of any other domino carries exactly one.  In every
    solution the node of a double is therefore on the tour, and of the two
    nodes of any other domino exactly one is. *)
Theorem self_loop_policy size space s (d : Z * Z) dir (h : Z * Z) ts :
  setup (DominoDigraph.graph size) space = Some s ->
  (d, dir) ∈ DominoDigraph.graph size -> (h, ts) ∈ dir ->
  length dir = (if decide (d.1 = d.2) then 1%nat else 2%nat)
  /\ exists i, idx (fixes s) h = Some i
       /\ self_loops i (arcs s ++ loops s)
          = (if decide (d.1 = d.2) then 0%nat else 1%nat)
       /\ forall val, satisfies val (model s) ->
            if decide (d.1 = d.2)
            then ¬ skipped val (arcs s ++ loops s) i
            else forall h' ts' i',
                   (h', ts') ∈ dir -> h' ≠ h -> idx (fixes s) h' = Some i' ->
                   (skipped val (arcs s ++ loops s) i
                    <-> ¬ skipped val (arcs s ++ loops s) i').
Proof.
  intros Hs Hd Hh.
  pose proof (graph_fix_count size _ Hd) as Hlen. simpl in Hlen.
  split; [exact Hlen|].
  destruct (self_loop_count _ space s (d, dir) (h, ts) Hs
              (graph_nodes_NoDup size) (graph_no_self_tail size) Hd Hh)
    as (i & Hi & Ha & Hl).
  assert (self_loops i (arcs s ++ loops s)
          = if decide (d.1 = d.2) then 0%nat else 1%nat) as Hcount.
  { unfold self_loops in *. rewrite filter_app, length_app, Ha, Hl. simpl.
    rewrite Hlen. destruct (decide (d.1 = d.2)); simpl; done. }
  exists i. split; [exact Hi|]. split; [exact Hcount|].
  intros val Hval. destruct (decide (d.1 = d.2)) as [Hdouble|Hpair].
  - by apply no_self_loop_on_tour.
  - intros h' ts' i' Hh' Hne Hi'.
    destruct dir as [|e1 [|e2 [|e3 dir]]]; try discriminate Hlen.
    assert (forall x : (Z * Z) * list (Z * Z), x ∈ [e1; e2] -> x = e1 \/ x = e2)
      as Hcase.
    { intros x [->|Hx%list_elem_of_singleton]%elem_of_cons; auto. }
    destruct (Hcase _ Hh) as [E|E], (Hcase _ Hh') as [E'|E'].
    + destruct Hne. rewrite <- E in E'. by injection E'.
    + subst e1 e2.
      apply (one_of_pair (DominoDigraph.graph size) space s
               (d, [(h, ts); (h', ts')]) (h, ts) (h', ts') i i' val Hs
               (graph_nodes_NoDup size) (graph_no_self_tail size)
               (graph_tails_distinct size) Hd eq_refl Hi Hi' Hval).
    + subst e1 e2.
      apply (one_of_pair (DominoDigraph.graph size) space s
               (d, [(h', ts'); (h, ts)]) (h', ts') (h, ts) i' i val Hs
               (graph_nodes_NoDup size) (graph_no_self_tail size)
               (graph_tails_distinct size) Hd eq_refl Hi' Hi Hval).
    + destruct Hne. rewrite <- E in E'. by injection E'.
Qed.

End self_loop_theorem.

Lemma self_loop_policy_witness :
  exists s,
    DominoBraneSolver.setup (DominoDigraph.graph 2) (DominoBraneSolver.Space 2) = Some s
    /\ ((1, 0)%Z, [((1, 0)%Z, [(0, 0); (0, 2)]%Z); ((0, 1)%Z, [(1, 1); (1, 2)]%Z)])
       ∈ DominoDigraph.graph 2
    /\ ((0, 1)%Z, [(1, 1); (1, 2)]%Z)
       ∈ [((1, 0)%Z, [(0, 0); (0, 2)]%Z); ((0, 1)%Z, [(1, 1); (1, 2)]%Z)]
    /\ length [((1, 0)%Z, [(0, 0); (0, 2)]%Z); ((0, 1)%Z, [(1, 1); (1, 2)]%Z)] = 2%nat
    /\ exists i, DominoBraneSolver.idx (DominoBraneSolver.fixes s) (0, 1)%Z = Some i
         /\ DominoBraneSolver.self_loops i
              (DominoBraneSolver.arcs s ++ DominoBraneSolver.loops s) = 1%nat
         /\ forall val, CpModel.satisfies val (DominoBraneSolver.model s) ->
              forall h' ts' i',
                (h', ts')
                ∈ [((1, 0)%Z, [(0, 0); (0, 2)]%Z); ((0, 1)%Z, [(1, 1); (1, 2)]%Z)] ->
                h' ≠ (0, 1)%Z ->
                DominoBraneSolver.idx (DominoBraneSolver.fixes s) h' = Some i' ->
                (CpModel.skipped val
                   (DominoBraneSolver.arcs s ++ DominoBraneSolver.loops s) i
                 <-> ¬ CpModel.skipped val
                         (DominoBraneSolver.arcs s ++ DominoBraneSolver.loops s) i').
Proof.
  destruct (checked (λ _, true)
              (DominoBraneSolver.setup (DominoDigraph.graph 2) (DominoBraneSolver.Space 2)))
    as (s & Hs & _).
  { vm_compute. reflexivity. }
  assert (((1, 0)%Z, [((1, 0)%Z, [(0, 0); (0, 2)]%Z); ((0, 1)%Z, [(1, 1); (1, 2)]%Z)])
          ∈ DominoDigraph.graph 2) as Hd
    by (apply (bool_decide_unpack _); vm_compute; exact I).
  assert (((0, 1)%Z, [(1, 1); (1, 2)]%Z)
          ∈ [((1, 0)%Z, [(0, 0); (0, 2)]%Z); ((0, 1)%Z, [(1, 1); (1, 2)]%Z)]) as Hh
    by (apply (bool_decide_unpack _); vm_compute; exact I).
  exists s. split; [exact Hs|]. split; [exact Hd|]. split; [exact Hh|].
  exact (self_loop_policy 2 _ s (1, 0)%Z _ (0, 1)%Z _ Hs Hd Hh).
Defined.

(** ** The orientation library *)

Section sorted_facts.
Context {A : Type}.

Lemma StronglySorted_NoDup (R : relation A) `{!Irreflexive R} (l : list A) :
  StronglySorted R l -> NoDup l.
Proof.
  induction 1 as [|x l Hl IH Hx]; [apply NoDup_nil_2|].
  apply NoDup_cons. split; [|done].
  intros Hin. rewrite Forall_forall in Hx. by apply (irreflexivity R x), Hx.
Qed.

Lemma StronglySorted_bind {B : Type} (R' : relation A) (R : relation B)
    (f : A -> list B) (l : list A) :
  StronglySorted R' l ->
  (forall x, x ∈ l -> StronglySorted R (f x)) ->
  (forall x y a b, R' x y -> a ∈ f x -> b ∈ f y -> R a b) ->
  StronglySorted R (l ≫= f).
Proof.
  intros Hl Hf Hlt. induction Hl as [|x l Hl IH Hx]; [constructor|].
  rewrite bind_cons. apply StronglySorted_app_2.
  - intros a b Ha (y & Hb & Hy)%list_elem_of_bind.
    rewrite Forall_forall in Hx. apply (Hlt x y); [by apply Hx|done|done].
  - apply Hf, list_elem_of_here.
  - apply IH. intros y Hy. by apply Hf, list_elem_of_further.
Qed.

End sorted_facts.

Lemma range_sorted lo hi : StronglySorted Z.lt (Py.range lo hi).
Proof.
  unfold Py.range. generalize (hi - lo)%Z as n. intros n.
  remember (Z.to_nat n) as k eqn:Hk. revert lo n Hk.
  induction k as [|k IH]; intros lo n Hk.
  - rewrite seqZ_nil by lia. constructor.
  - rewrite seqZ_cons by lia. constructor.
    + apply IH. lia.
    + rewrite Forall_forall. intros x Hx%elem_of_seqZ. lia.
Qed.

Section normalise_facts.
Import ShapeCollection.
Local Open Scope Z_scope.

Lemma foldl_min_le (l : list Z) (a : Z) :
  foldl Z.min a l <= a /\ forall x, x ∈ l -> foldl Z.min a l <= x.
Proof.
  revert a. induction l as [|y l IH]; intros a; simpl.
  - split; [lia|]. by intros x ?%elem_of_nil.
  - destruct (IH (Z.min a y)) as [H1 H2]. split; [lia|].
    intros x [->|Hx]%elem_of_cons; [lia|by apply H2].
Qed.

Lemma foldl_max_ge (l : list Z) (a : Z) :
  a <= foldl Z.max a l /\ forall x, x ∈ l -> x <= foldl Z.max a l.
Proof.
  revert a. induction l as [|y l IH]; intros a; simpl.
  - split; [lia|]. by intros x ?%elem_of_nil.
  - destruct (IH (Z.max a y)) as [H1 H2]. split; [lia|].
    intros x [->|Hx]%elem_of_cons; [lia|by apply H2].
Qed.

Lemma py_min_le l m x : py_min l = Some m -> x ∈ l -> m <= x.
Proof.
  destruct l as [|a l]; simpl; [done|]. intros [= <-].
  destruct (foldl_min_le l a) as [H1 H2].
  intros [->|Hx]%elem_of_cons; [done|by apply H2].
Qed.

Lemma py_max_ge l m x : py_max l = Some m -> x ∈ l -> x <= m.
Proof.
  destruct l as [|a l]; simpl; [done|]. intros [= <-].
  destruct (foldl_max_ge l a) as [H1 H2].
  intros [->|Hx]%elem_of_cons; [done|by apply H2].
Qed.

(** [_normalise_pts_] raises on the empty shape, and only there. *)
Lemma normalise_pts_nil : normalise_pts [] = None.
Proof. done. Qed.

Lemma normalise_pts_Some (d : list (Z * Z)) :
  d ≠ [] -> exists o, normalise_pts d = Some o /\ o ≠ [].
Proof.
  destruct d as [|q d]; [done|]. intros _. unfold normalise_pts.
  destruct (py_min (q :: d).*1) as [lx|] eqn:Hlx; [|done].
  destruct (py_max (q :: d).*1) as [mx|] eqn:Hmx; [|done].
  destruct (py_min (q :: d).*2) as [ly|] eqn:Hly; [|done].
  destruct (py_max (q :: d).*2) as [my|] eqn:Hmy; [|done].
  simpl. eexists. split; [done|].
  assert (q.1 ∈ (q :: d).*1) as H1 by apply list_elem_of_here.
  assert (q.2 ∈ (q :: d).*2) as H2 by apply list_elem_of_here.
  pose proof (py_min_le _ _ _ Hlx H1). pose proof (py_max_ge _ _ _ Hmx H1).
  pose proof (py_min_le _ _ _ Hly H2). pose proof (py_max_ge _ _ _ Hmy H2).
  assert ((q.1 - lx, q.2 - ly) ∈
            (x ← Py.range 0 (1 + mx - lx); y ← Py.range 0 (1 + my - ly);
             if decide ((x + lx, y + ly) ∈ q :: d) then [(x, y)] else [])) as Hin.
  { apply list_elem_of_bind. exists (q.1 - lx). split; [|apply range_elem; lia].
    apply list_elem_of_bind. exists (q.2 - ly). split; [|apply range_elem; lia].
    rewrite decide_True; [apply list_elem_of_here|].
    replace (q.1 - lx + lx) with q.1 by lia. replace (q.2 - ly + ly) with q.2 by lia.
    destruct q. apply list_elem_of_here. }
  intros Hnil. rewrite Hnil in Hin. by apply elem_of_nil in Hin.
Qed.

#[local] Instance lex_lt_irreflexive : Irreflexive lex_lt.
Proof. intros p [H|[_ H]]; lia. Qed.

Lemma lex_lt_asym p q : lex_lt p q -> lex_lt q p -> p = q.
Proof. unfold lex_lt. intros [?|[? ?]] [?|[? ?]]; lia. Qed.

Lemma guarded_singleton (P : Prop) `{Decision P} (a p : Z * Z) :
  a ∈ (if decide P then [p] else []) -> a = p.
Proof.
  case_decide; [by intros ->%list_elem_of_singleton|by intros ?%elem_of_nil].
Qed.

(** The normalised shape lists its points in increasing order. *)
Lemma normalise_pts_sorted (d o : list (Z * Z)) :
  normalise_pts d = Some o -> StronglySorted lex_lt o.
Proof.
  unfold normalise_pts.
  destruct (py_min d.*1) as [lx|]; [|done]. destruct (py_max d.*1) as [mx|]; [|done].
  destruct (py_min d.*2) as [ly|]; [|done]. destruct (py_max d.*2) as [my|]; [|done].
  simpl. intros [= <-].
  apply (StronglySorted_bind Z.lt); [apply range_sorted| |].
  - intros x _. apply (StronglySorted_bind Z.lt); [apply range_sorted| |].
    + intros y _. case_decide; repeat constructor.
    + intros y1 y2 a b Hy ->%guarded_singleton ->%guarded_singleton.
      right. simpl. lia.
  - intros x1 x2 a b Hx (y1 & Ha & _)%list_elem_of_bind (y2 & Hb & _)%list_elem_of_bind.
    apply guarded_singleton in Ha as ->, Hb as ->. left. simpl. lia.
Qed.

(** Normalised shapes with the same points are the same list. *)
Lemma normalise_pts_canonical (d1 d2 o1 o2 : list (Z * Z)) :
  normalise_pts d1 = Some o1 -> normalise_pts d2 = Some o2 ->
  same_points o1 o2 -> o1 = o2.
Proof.
  intros H1%normalise_pts_sorted H2%normalise_pts_sorted Hsame.
  apply (StronglySorted_unique_strong lex_lt); [|done|done|].
  - intros p q _ _. apply lex_lt_asym.
  - apply NoDup_Permutation; [by apply (StronglySorted_NoDup lex_lt)..|done].
Qed.

End normalise_facts.

Section dict_elem_facts.
Context {K V : Type} `{EqDecision K}.
Implicit Types (d : list (K * V)).

Lemma dict_set_elem_inv k v d kv :
  kv ∈ Py.dict_set k v d -> kv = (k, v) \/ kv ∈ d.
Proof.
  induction d as [|[k0 v0] d IH]; simpl.
  - intros ->%list_elem_of_singleton. auto.
  - case_decide; rewrite !elem_of_cons; [tauto|].
    intros [->|H']; [tauto|]. destruct (IH H'); tauto.
Qed.

Lemma dict_set_elem_new k v d : (k, v) ∈ Py.dict_set k v d.
Proof.
  induction d as [|[k0 v0] d IH]; simpl; [apply list_elem_of_here|].
  case_decide; [apply list_elem_of_here|by apply list_elem_of_further].
Qed.

Lemma dict_value_unique d k v1 v2 :
  NoDup d.*1 -> (k, v1) ∈ d -> (k, v2) ∈ d -> v1 = v2.
Proof.
  intros Hnd [i Hi]%list_elem_of_lookup [j Hj]%list_elem_of_lookup.
  assert (i = j) as ->.
  { apply (NoDup_lookup d.*1 i j k); [done| |]; by rewrite list_lookup_fmap, ?Hi, ?Hj. }
  congruence.
Qed.

Lemma dict_key_elem d k : k ∈ d.*1 -> exists v, (k, v) ∈ d.
Proof.
  intros (kv & -> & Hkv)%list_elem_of_fmap. exists kv.2. by destruct kv.
Qed.

End dict_elem_facts.

Section orientation_facts.
Import ShapeCollection.
Variable hash_str : list (Z * Z) -> Z.

Lemma images_elem base (o : list (Z * Z)) :
  o ∈ images base <->
  exists f, (0 <= f < 8)%Z /\ normalise_pts (square_p base f) = Some o.
Proof.
  unfold images. rewrite list_elem_of_omap. split.
  - intros (f & Hf%range_elem & H). eauto.
  - intros (f & Hf & H). exists f. split; [by apply range_elem|done].
Qed.

(** The loop over the group elements [fs], started with the dict
    [restrict]: where every image normalises, it ends with a dict whose
    keys are distinct, whose values are stored under their own key, are
    those already present or images, and hold an image under the key of
    each image met. *)
Lemma restrict_loop_spec base (fs : list Z) (restrict : list (Z * list (Z * Z))) :
  (forall f, f ∈ fs -> is_Some (normalise_pts (square_p base f))) ->
  NoDup restrict.*1 ->
  (forall kv, kv ∈ restrict -> kv.1 = hash_str kv.2) ->
  exists r,
    restrict_loop hash_str base fs restrict = Some r
    /\ NoDup r.*1
    /\ (forall kv, kv ∈ r -> kv.1 = hash_str kv.2)
    /\ (forall kv, kv ∈ r ->
          kv ∈ restrict
          \/ exists f, f ∈ fs /\ normalise_pts (square_p base f) = Some kv.2)
    /\ (forall k, k ∈ restrict.*1 -> k ∈ r.*1)
    /\ (forall f v, f ∈ fs -> normalise_pts (square_p base f) = Some v ->
          hash_str v ∈ r.*1).
Proof.
  revert restrict. induction fs as [|f fs IH]; intros restrict Himg Hnd Hkey; simpl.
  - exists restrict. split_and!; try done; [auto|].
    by intros f v ?%elem_of_nil.
  - destruct (Himg f) as [v Hv]; [apply list_elem_of_here|]. rewrite Hv. simpl.
    destruct (IH (Py.dict_set (hash_str v) v restrict))
      as (r & Hr & Hrnd & Hrkey & Hrel & Hkeep & Hmet).
    + intros g Hg. by apply Himg, list_elem_of_further.
    + by apply dict_set_keys_NoDup.
    + intros kv [->|Hkv]%dict_set_elem_inv; [done|by apply Hkey].
    + exists r. split_and!; try done.
      * intros kv Hkv. destruct (Hrel kv Hkv) as [Hin|(g & Hg & Himgg)].
        -- apply dict_set_elem_inv in Hin as [->|Hin]; [|by left].
           right. exists f. split; [apply list_elem_of_here|done].
        -- right. exists g. split; [by apply list_elem_of_further|done].
      * intros k Hk. apply Hkeep, dict_set_keys_elem. by right.
      * intros g w [->|Hg]%elem_of_cons Hw.
        -- rewrite Hv in Hw. injection Hw as <-.
           apply Hkeep, dict_set_keys_elem. by left.
        -- by apply (Hmet g).
Qed.

(** What [fix] keeps for a non-empty shape: normalised images only, no
    two of them the same point-set, and every image if the keys of
    distinct images do not collide. *)
Lemma orientations_spec (pts base : list (Z * Z)) :
  normalise_pts pts = Some base -> base ≠ [] ->
  exists os,
    orientations hash_str pts = Some os
    /\ (forall o, o ∈ os -> o ∈ images base)
    /\ NoDup os
    /\ (forall i j o1 o2, os !! i = Some o1 -> os !! j = Some o2 ->
          same_points o1 o2 -> i = j)
    /\ (collision_free hash_str base -> forall o, o ∈ images base -> o ∈ os).
Proof.
  intros Hbase Hne. unfold orientations. rewrite Hbase. cbn [mbind option_bind].
  destruct (restrict_loop_spec base (Py.range 0 8) [])
    as (r & Hr & Hnd & Hkey & Hrel & _ & Hmet).
  { intros f _. destruct (normalise_pts_Some (square_p base f)) as (o & Ho & _).
    - unfold square_p. by destruct base.
    - by rewrite Ho. }
  { constructor. }
  { by intros kv ?%elem_of_nil. }
  rewrite Hr. cbn [mbind option_bind]. exists r.*2. split; [done|].
  assert (forall o, o ∈ r.*2 -> o ∈ images base) as Himgs.
  { intros o (kv & -> & Hkv)%list_elem_of_fmap.
    destruct (Hrel kv Hkv) as [?%elem_of_nil|(f & Hf%range_elem & Hi)]; [done|].
    apply images_elem. eauto. }
  assert (forall i j o, r.*2 !! i = Some o -> r.*2 !! j = Some o -> i = j) as Hinj.
  { intros i j o Hi Hj. rewrite list_lookup_fmap in Hi, Hj.
    destruct (r !! i) as [[k1 v1]|] eqn:Ei; [|done].
    destruct (r !! j) as [[k2 v2]|] eqn:Ej; [|done].
    simpl in Hi, Hj. injection Hi as ->. injection Hj as ->.
    pose proof (Hkey _ (list_elem_of_lookup_2 _ _ _ Ei)) as H1.
    pose proof (Hkey _ (list_elem_of_lookup_2 _ _ _ Ej)) as H2.
    simpl in H1, H2.
    apply (NoDup_lookup r.*1 i j k1); [done| |];
      rewrite list_lookup_fmap, ?Ei, ?Ej; simpl; congruence. }
  split_and!.
  - done.
  - apply NoDup_alt. intros i j o. apply Hinj.
  - intros i j o1 o2 Hi Hj Hsame.
    assert (o1 = o2) as ->.
    { destruct (proj1 (images_elem base o1)) as (f1 & _ & H1);
        [by eapply Himgs, list_elem_of_lookup_2|].
      destruct (proj1 (images_elem base o2)) as (f2 & _ & H2);
        [by eapply Himgs, list_elem_of_lookup_2|].
      by eapply normalise_pts_canonical. }
    by eapply Hinj.
  - intros Hfree o Ho. pose proof Ho as (f & Hf & Hi)%images_elem.
    assert (hash_str o ∈ r.*1) as Hk
      by (apply (Hmet f o); [by apply range_elem|done]).
    apply dict_key_elem in Hk as (o' & Ho').
    pose proof (Hkey _ Ho') as Hh. simpl in Hh.
    assert (o = o') as ->.
    { apply Hfree; [done| |done]. apply Himgs.
      apply list_elem_of_fmap. exists (hash_str o, o'). done. }
    apply list_elem_of_fmap. exists (hash_str o', o'). done.
Qed.

End orientation_facts.




(** With the positional key the L-tromino keeps its four orientations,
    and that key is free of collisions on them. *)
Lemma tromino_orientations :
  ShapeCollection.orientations ShapeScenario.positional ShapeScenario.tromino
  = Some [[(0, 0); (1, 0); (1, 1)]; [(0, 1); (1, 0); (1, 1)];
          [(0, 0); (0, 1); (1, 1)]; [(0, 0); (0, 1); (1, 0)]]%Z
  /\ ShapeCollection.collision_free ShapeScenario.positional
       [(0, 0); (1, 0); (1, 1)]%Z.
Proof.
  split; [by vm_compute|].
  intros x y Hx Hy.
  assert (Forall (λ x, Forall (λ y, ShapeScenario.positional x = ShapeScenario.positional y
                                    -> x = y)
                          (ShapeCollection.images [(0, 0); (1, 0); (1, 1)]%Z))
                 (ShapeCollection.images [(0, 0); (1, 0); (1, 1)]%Z)) as H
    by (apply (bool_decide_unpack _); vm_compute; exact I).
  rewrite Forall_forall in H. specialize (H x Hx).
  rewrite Forall_forall in H. exact (H y Hy).
Qed.

(** ** The shape of the domino digraph and of the grid *)

Section digraph_counts.
Import DominoDigraph DominoBraneSolver.
Local Open Scope Z_scope.

Lemma bind_length {A B : Type} (f : A -> list B) (l : list A) :
  length (l ≫= f) = sum_list_with (λ x, length (f x)) l.
Proof. induction l as [|x l IH]; [done|]. rewrite bind_cons, length_app, IH. done. Qed.

Lemma triangle_sum (k : nat) (lo : Z) :
  (2 * Z.of_nat (sum_list_with (λ y, length (Py.range y (lo + Z.of_nat k))) (seqZ lo (Z.of_nat k)))
   = Z.of_nat k * (Z.of_nat k + 1)).
Proof.
  revert lo. induction k as [|k IH]; intros lo; [done|].
  rewrite Nat2Z.inj_succ, seqZ_cons by lia. simpl.
  replace (Z.pred (Z.succ (Z.of_nat k))) with (Z.of_nat k) by lia.
  specialize (IH (Z.succ lo)).
  replace (Z.succ lo + Z.of_nat k) with (lo + Z.succ (Z.of_nat k)) in IH by lia.
  unfold Py.range at 1. rewrite length_seqZ. lia.
Qed.

Lemma dominoes_length size :
  0 <= size -> 2 * Z.of_nat (length (dominoes size)) = (size + 1) * (size + 2).
Proof.
  intros Hs. unfold dominoes. rewrite bind_length.
  erewrite sum_list_with_ext_in.
  2:{ intros y _. rewrite bind_length. apply sum_list_with_const. }
  unfold Py.range at 2.
  pose proof (triangle_sum (Z.to_nat (size + 1)) 0) as H.
  rewrite Z2Nat.id in H by lia. rewrite Z.sub_0_r.
  replace (0 + (size + 1)) with (size + 1) in H by lia.
  rewrite H. lia.
Qed.

End digraph_counts.

Section digraph_shape.
Import DominoDigraph DominoBraneSolver.
Local Open Scope Z_scope.

Lemma graph_length size : length (DominoDigraph.graph size) = length (dominoes size).
Proof. unfold DominoDigraph.graph, fixed. by rewrite !length_fmap. Qed.

Lemma graph_keys size : (DominoDigraph.graph size).*1 = dominoes size.
Proof.
  unfold DominoDigraph.graph. rewrite <- list_fmap_compose.
  trans ((fixed size).*1); [by apply list_fmap_ext|].
  unfold fixed. rewrite <- list_fmap_compose.
  trans (id <$> dominoes size); [by apply list_fmap_ext|apply list_fmap_id].
Qed.

Lemma graph_nodes_elem size (f : Z * Z) :
  f ∈ graph_nodes (DominoDigraph.graph size) <-> 0 <= f.1 <= size /\ 0 <= f.2 <= size.
Proof.
  unfold graph_nodes. rewrite list_elem_of_bind. split.
  - intros (p & Hf & Hp).
    apply graph_entry_nodes in Hp as (e & He & _ & H2 & _). rewrite H2 in Hf.
    apply fixed_elem in He as [Hd He]. rewrite He in Hf.
    apply dominoes_elem in Hd. apply set2_elem in Hf as [->| ->]; simpl; lia.
  - intros [H1 H2].
    set (d := (Z.max f.1 f.2, Z.min f.1 f.2)).
    assert (d ∈ dominoes size) as Hd by (apply dominoes_elem; simpl; lia).
    set (e := (d, Py.set2 (d.1, d.2) (d.2, d.1))).
    assert (e ∈ fixed size) as He by (by apply fixed_elem).
    exists (e.1, (λ d_fix, (d_fix, tails_of (fixed size) e.1 d_fix)) <$> e.2).
    split.
    + simpl. rewrite <- list_fmap_compose. apply list_elem_of_fmap.
      exists f. split; [done|]. apply set2_elem. destruct f as [a b]; simpl in *.
      destruct (Z.le_gt_cases a b).
      * rewrite Z.max_r, Z.min_l by lia. auto.
      * rewrite Z.max_l, Z.min_r by lia. auto.
    + apply graph_elem. exists e. done.
Qed.

Lemma sum_list_with_constant {A : Type} (c : nat) (l : list A) :
  sum_list_with (λ _, c) l = (c * length l)%nat.
Proof. induction l as [|x l IH]; simpl; lia. Qed.

Lemma pairs_length (n : Z) :
  0 <= n ->
  Z.of_nat (length (a ← Py.range 0 n; b ← Py.range 0 n; [(a, b)])) = n * n.
Proof.
  intros Hn. rewrite bind_length.
  erewrite sum_list_with_ext_in.
  2:{ intros a _. rewrite bind_length. rewrite sum_list_with_const.
      unfold Py.range. rewrite length_seqZ. reflexivity. }
  rewrite sum_list_with_constant. unfold Py.range. rewrite length_seqZ. lia.
Qed.

Lemma pairs_NoDup (n : Z) : NoDup (a ← Py.range 0 n; b ← Py.range 0 n; [(a, b)]).
Proof.
  apply NoDup_bind; [| |apply range_NoDup].
  - intros a1 a2 p _ _ H1 H2.
    apply list_elem_of_bind in H1 as (b1 & H1 & _).
    apply list_elem_of_bind in H2 as (b2 & H2 & _).
    apply list_elem_of_singleton in H1, H2. congruence.
  - intros a _. apply NoDup_bind; [| |apply range_NoDup].
    + intros b1 b2 p _ _ H1 H2. apply list_elem_of_singleton in H1, H2. congruence.
    + intros b _. apply NoDup_singleton.
Qed.

Lemma pairs_elem (n : Z) (p : Z * Z) :
  p ∈ (a ← Py.range 0 n; b ← Py.range 0 n; [(a, b)]) <-> 0 <= p.1 < n /\ 0 <= p.2 < n.
Proof.
  rewrite list_elem_of_bind. split.
  - intros (a & (b & ->%list_elem_of_singleton & Hb%range_elem)%list_elem_of_bind
              & Ha%range_elem). simpl. lia.
  - intros [H1 H2]. exists p.1. split; [|apply range_elem; lia].
    apply list_elem_of_bind. exists p.2. split; [|apply range_elem; lia].
    destruct p. by apply list_elem_of_singleton.
Qed.

Lemma graph_nodes_length size :
  0 <= size ->
  Z.of_nat (length (graph_nodes (DominoDigraph.graph size))) = (size + 1) * (size + 1).
Proof.
  intros Hs. rewrite <- (pairs_length (size + 1)) by lia. f_equal.
  apply Permutation_length, NoDup_Permutation;
    [apply graph_nodes_NoDup|apply pairs_NoDup|].
  intros p. rewrite graph_nodes_elem, pairs_elem. lia.
Qed.

Lemma filter_ne_length {A : Type} `{EqDecision A} (x : A) (l : list A) :
  NoDup l -> x ∈ l -> S (length (filter (λ y, y ≠ x) l)) = length l.
Proof.
  induction l as [|y l IH]; [by intros _ ?%elem_of_nil|].
  intros [Hy Hl]%NoDup_cons Hx. rewrite filter_cons.
  destruct (decide (y ≠ x)) as [Hne|Heq].
  - simpl. f_equal. apply IH; [done|].
    apply elem_of_cons in Hx as [->|Hx]; done.
  - apply dec_stable in Heq as ->. simpl. f_equal.
    clear IH Hx Hl. induction l as [|z l IH]; [done|].
    rewrite filter_cons, decide_True.
    + simpl. f_equal. apply IH. intros H. apply Hy. by right.
    + intros ->. apply Hy. by left.
Qed.

(** The fixes of a domino of the graph. *)
Lemma graph_fix_range size (d : Z * Z) dir (h : Z * Z) ts :
  (d, dir) ∈ DominoDigraph.graph size -> (h, ts) ∈ dir ->
  d ∈ dominoes size
  /\ (h = (d.1, d.2) \/ h = (d.2, d.1))
  /\ ts = tails_of (fixed size) d h
  /\ 0 <= h.1 <= size /\ 0 <= h.2 <= size.
Proof.
  intros Hd Hh. apply graph_entry_nodes in Hd as (e & He & H1 & H2 & H3).
  simpl in *. subst d. apply fixed_elem in He as [Hd He].
  rewrite H3 in Hh. apply list_elem_of_fmap in Hh as (f & [= -> ->] & Hf).
  rewrite He in Hf. apply set2_elem in Hf. apply dominoes_elem in Hd as Hr.
  split; [done|]. split; [done|]. split; [done|].
  destruct Hf as [->| ->]; simpl; lia.
Qed.

Lemma fix_tails_elem size (d : Z * Z) dir (h : Z * Z) ts (t : Z * Z) :
  (d, dir) ∈ DominoDigraph.graph size -> (h, ts) ∈ dir ->
  t ∈ ts <-> t.1 = h.2 /\ 0 <= t.2 <= size /\ t.2 ≠ h.1.
Proof.
  intros Hd Hh.
  destruct (graph_fix_range _ _ _ _ _ Hd Hh) as (Hdom & Hfix & -> & Hr1 & Hr2).
  assert ((d, Py.set2 (d.1, d.2) (d.2, d.1)) ∈ fixed size) as Hown
    by (by apply fixed_elem).
  rewrite tails_of_elem. split.
  - intros (e & He & Hne & Ht & Heq). split; [done|].
    apply fixed_elem in He as Heq'. destruct Heq' as [Hed He2].
    apply dominoes_elem in Hed. rewrite He2 in Ht. apply set2_elem in Ht as Ht'.
    split; [destruct Ht' as [->| ->]; simpl; lia|].
    intros Hrev. apply Hne.
    assert (t ∈ Py.set2 (d.1, d.2) (d.2, d.1)) as Htd.
    { apply set2_elem. destruct t as [t1 t2]; simpl in *. subst t1 t2.
      destruct Hfix as [->| ->]; simpl; auto. }
    rewrite <- He2 in Ht.
    by rewrite (fixed_owner size e (d, Py.set2 (d.1, d.2) (d.2, d.1)) t).
  - intros (H1 & H2 & H3).
    set (o := (Z.max t.1 t.2, Z.min t.1 t.2)).
    assert (o ∈ dominoes size) as Ho by (apply dominoes_elem; simpl; lia).
    exists (o, Py.set2 (o.1, o.2) (o.2, o.1)). split; [by apply fixed_elem|].
    simpl. split_and!; [| |done].
    + intros <-. simpl in *.
      destruct Hfix as [->| ->]; simpl in *; lia.
    + apply set2_elem. destruct t as [a b]; simpl in *.
      destruct (Z.le_gt_cases a b).
      * rewrite Z.max_r, Z.min_l by lia. auto.
      * rewrite Z.max_l, Z.min_r by lia. auto.
Qed.

Lemma fix_tails_length size (d : Z * Z) dir (h : Z * Z) ts :
  (d, dir) ∈ DominoDigraph.graph size -> (h, ts) ∈ dir ->
  length ts = Z.to_nat size.
Proof.
  intros Hd Hh.
  destruct (graph_fix_range _ _ _ _ _ Hd Hh) as (_ & _ & Hts & Hr1 & Hr2).
  assert (ts ≡ₚ (λ c, (h.2, c)) <$> filter (λ c, c ≠ h.1) (Py.range 0 (size + 1)))
    as Hperm.
  { apply NoDup_Permutation.
    - rewrite Hts. apply tails_of_NoDup.
    - apply NoDup_fmap_2_strong; [by intros c1 c2 _ _ [= ->]|].
      apply NoDup_filter, range_NoDup.
    - intros t. rewrite (fix_tails_elem size d dir h ts t Hd Hh), list_elem_of_fmap.
      split.
      + intros (H1 & H2 & H3). exists t.2. split; [destruct t; simpl in *; by subst|].
        apply list_elem_of_filter. split; [done|]. apply range_elem. lia.
      + intros (c & -> & [Hc1 Hc2%range_elem]%list_elem_of_filter). simpl. lia. }
  rewrite Hperm, length_fmap.
  assert (h.1 ∈ Py.range 0 (size + 1)) as Hin by (apply range_elem; lia).
  pose proof (filter_ne_length h.1 (Py.range 0 (size + 1)) (range_NoDup _ _) Hin) as H.
  assert (length (Py.range 0 (size + 1)) = Z.to_nat (size + 1)) as Hlen.
  { unfold Py.range. rewrite length_seqZ. f_equal. lia. }
  rewrite Hlen in H. lia.
Qed.

Lemma graph_node_entry (graph : list ((Z * Z) * list ((Z * Z) * list (Z * Z))))
    (f : Z * Z) :
  f ∈ graph_nodes graph -> exists d dir ts, (d, dir) ∈ graph /\ (f, ts) ∈ dir.
Proof.
  unfold graph_nodes. intros ([d dir] & Hf & Hp)%list_elem_of_bind. simpl in Hf.
  apply list_elem_of_fmap in Hf as ([f' ts] & -> & Hin). eauto.
Qed.

End digraph_shape.

Section space_shape.
Import DominoDigraph DominoBraneSolver.
Local Open Scope Z_scope.

Lemma Space_elem size (c : Z * Z) (clue : option Z) :
  (c, clue) ∈ Space size <->
  clue = None /\ 0 <= c.1 <= size /\ 0 <= c.2 <= size + 1.
Proof.
  unfold Space. rewrite list_elem_of_bind. split.
  - intros (y & (x & [= -> ->]%list_elem_of_singleton & Hx%range_elem)%list_elem_of_bind
              & Hy%range_elem). simpl. split; [done|lia].
  - intros (-> & H1 & H2). exists c.2. split; [|apply range_elem; lia].
    apply list_elem_of_bind. exists c.1. split; [|apply range_elem; lia].
    destruct c. by apply list_elem_of_singleton.
Qed.

Lemma Space_cells size : (Space size).*1 = (y ← Py.range 0 (size + 2); x ← Py.range 0 (size + 1); [(x, y)]).
Proof.
  unfold Space. induction (Py.range 0 (size + 2)) as [|y l IH]; [done|].
  rewrite !bind_cons, fmap_app, IH. f_equal.
  clear. induction (Py.range 0 (size + 1)) as [|x l IH]; [done|].
  rewrite !bind_cons, fmap_app, IH. done.
Qed.

Lemma Space_NoDup size : NoDup (Space size).*1.
Proof.
  rewrite Space_cells.
  apply NoDup_bind; [| |apply range_NoDup].
  - intros a1 a2 p _ _ H1 H2.
    apply list_elem_of_bind in H1 as (b1 & H1 & _).
    apply list_elem_of_bind in H2 as (b2 & H2 & _).
    apply list_elem_of_singleton in H1, H2. congruence.
  - intros a _. apply NoDup_bind; [| |apply range_NoDup].
    + intros b1 b2 p _ _ H1 H2. apply list_elem_of_singleton in H1, H2. congruence.
    + intros b _. apply NoDup_singleton.
Qed.

Lemma Space_length size :
  length (Space size) = (Z.to_nat (size + 2) * Z.to_nat (size + 1))%nat.
Proof.
  unfold Space. rewrite bind_length.
  erewrite sum_list_with_ext_in.
  2:{ intros a _. rewrite bind_length. rewrite sum_list_with_const.
      unfold Py.range. rewrite length_seqZ. reflexivity. }
  rewrite sum_list_with_constant. unfold Py.range. rewrite length_seqZ.
  rewrite !Z.sub_0_r. lia.
Qed.

Lemma Space_two_per_domino size :
  length (Space size) = (2 * length (DominoDigraph.graph size))%nat.
Proof.
  rewrite Space_length, graph_length.
  destruct (Z.le_gt_cases 0 size) as [Hs|Hs].
  - pose proof (dominoes_length size Hs) as H. nia.
  - assert (Z.to_nat (size + 1) = 0%nat) as -> by lia.
    unfold dominoes.
    assert (Py.range 0 (size + 1) = []) as ->; [|simpl; lia].
    unfold Py.range. apply seqZ_nil. lia.
Qed.

End space_shape.

(** ** When [setup] raises [KeyError] *)

Section key_errors.
Import CpModel DominoBraneSolver.

Lemma dict_get_Some_elem {K V : Type} `{EqDecision K} (k : K) (d : list (K * V)) v :
  Py.dict_get k d = Some v -> (k, v) ∈ d.
Proof.
  induction d as [|[k' v'] d IH]; [done|]. simpl.
  case_decide as E; [intros [= ->]; subst; apply list_elem_of_here|].
  intros H. apply list_elem_of_further. by apply IH.
Qed.

Lemma dict_get_is_Some {K V : Type} `{EqDecision K} (k : K) (d : list (K * V)) :
  is_Some (Py.dict_get k d) <-> k ∈ d.*1.
Proof.
  split; [|apply dict_get_elem].
  intros [v Hv]. apply dict_get_Some_elem in Hv.
  by apply (list_elem_of_fmap_2 fst) in Hv.
Qed.

Lemma idx_is_Some fixes (k : Z * Z) : is_Some (idx fixes k) <-> k ∈ fixes.*1.
Proof.
  unfold idx. split; [|apply index_of_elem].
  intros [i Hi]. apply index_of_Some in Hi. by apply list_elem_of_lookup_2 in Hi.
Qed.

Lemma tail_arcs_is_Some fixes (h : Z * Z) ts tv m :
  h ∈ fixes.*1 ->
  is_Some (tail_arcs fixes h ts tv m) <-> Forall (λ t, t ∈ fixes.*1) ts.
Proof.
  intros Hh. revert tv m. induction ts as [|t ts IH]; intros tv m.
  - simpl. split; [constructor|eauto].
  - rewrite Forall_cons. simpl.
    destruct (proj2 (dict_get_is_Some h fixes) Hh) as [fh ->].
    destruct (proj2 (idx_is_Some fixes h) Hh) as [ih Hih].
    cbn [mbind option_bind].
    destruct (Py.dict_get t fixes) as [ft|] eqn:Eft; cbn [mbind option_bind].
    + assert (t ∈ fixes.*1) as Ht by (apply dict_get_is_Some; eauto).
      rewrite Hih. cbn [mbind option_bind].
      destruct (proj2 (idx_is_Some fixes t) Ht) as [it ->]. cbn [mbind option_bind].
      specialize (IH (Py.dict_set t (n_vars m) tv)
                     (Add (Implication (Neg ft) (Neg (n_vars m)))
                        (Add (Implication (Neg fh) (Neg (n_vars m)))
                           (Add (Implication (Pos (n_vars m)) (Pos ft))
                              (Add (Implication (Pos (n_vars m)) (Pos fh))
                                 (Model (S (n_vars m)) (constraints m))))))).
      destruct (tail_arcs fixes h ts _ _) as [[[tv' arcs'] m']|] eqn:E.
      * cbn [mbind option_bind]. split; [|eauto].
        intros _. split; [done|]. apply IH. eauto.
      * cbn [mbind option_bind]. split; [by intros [? ?]|].
        intros [_ H]. apply IH in H. by destruct H.
    + split; [by intros [? ?]|]. intros [Ht _].
      apply dict_get_is_Some in Ht. rewrite Eft in Ht. by destruct Ht.
Qed.

Lemma head_arcs_is_Some fixes n (hs : list ((Z * Z) * list (Z * Z))) m :
  Forall (λ e, e.1 ∈ fixes.*1) hs ->
  is_Some (head_arcs fixes n hs m)
  <-> Forall (λ e : (Z * Z) * list (Z * Z), Forall (λ t, t ∈ fixes.*1) e.2) hs.
Proof.
  revert m. induction hs as [|[h ts] hs IH]; intros m Hhs.
  - simpl. split; [constructor|eauto].
  - apply Forall_cons in Hhs as [Hh Hhs]. simpl in Hh.
    rewrite Forall_cons. simpl.
    pose proof (tail_arcs_is_Some fixes h ts [] m Hh) as Hta.
    destruct (tail_arcs fixes h ts [] m) as [[[tv h_arcs] m1]|];
      cbn [mbind option_bind].
    + destruct (proj2 (idx_is_Some fixes h) Hh) as [ih Hih].
      rewrite Hih. cbn [mbind option_bind].
      assert (exists h_loops m2,
                (if decide (1 < n)%nat
                 then Some ([(ih, ih, n_vars m1)],
                            Model (S (n_vars m1)) (constraints m1))
                 else Some ([], m1)) = Some (h_loops, m2)) as (h_loops & m2 & ->).
      { case_decide; eauto. }
      cbn [mbind option_bind]. specialize (IH m2 Hhs).
      destruct (head_arcs fixes n hs m2) as [[[[dir' d_arcs'] loops'] m']|];
        cbn [mbind option_bind].
      * split; [|eauto]. intros _. split; [apply Hta; eauto|apply IH; eauto].
      * split; [by intros [? ?]|]. intros [_ H]. apply IH in H. by destruct H.
    + split; [by intros [? ?]|]. intros [H _]. apply Hta in H. by destruct H.
Qed.

Lemma piece_arcs_is_Some fixes (graph : graph_t) m :
  Forall (λ p, Forall (λ e : (Z * Z) * list (Z * Z), e.1 ∈ fixes.*1) p.2) graph ->
  is_Some (piece_arcs fixes graph m)
  <-> Forall (λ p, Forall (λ e : (Z * Z) * list (Z * Z),
                             Forall (λ t, t ∈ fixes.*1) e.2) p.2) graph.
Proof.
  revert m. induction graph as [|[d fs] graph IH]; intros m Hg.
  - simpl. split; [constructor|eauto].
  - apply Forall_cons in Hg as [Hfs Hg]. simpl in Hfs.
    rewrite Forall_cons. simpl.
    pose proof (head_arcs_is_Some fixes (length fs) fs m Hfs) as Hha.
    destruct (head_arcs fixes (length fs) fs m) as [[[[dir d_arcs] d_loops] m1]|];
      cbn [mbind option_bind].
    + specialize (IH (Add (LinearEq (arc_var <$> d_arcs) [] 1 []) m1) Hg).
      destruct (piece_arcs fixes graph _) as [[[[cg arcs'] loops'] m']|];
        cbn [mbind option_bind].
      * split; [|eauto]. intros _. split; [apply Hha; eauto|apply IH; eauto].
      * split; [by intros [? ?]|]. intros [_ H]. apply IH in H. by destruct H.
    + split; [by intros [? ?]|]. intros [H _]. apply Hha in H. by destruct H.
Qed.

Lemma graph_heads_nodes (graph : graph_t) :
  Forall (λ p, Forall (λ e : (Z * Z) * list (Z * Z), e.1 ∈ graph_nodes graph) p.2)
    graph.
Proof.
  rewrite Forall_forall. intros p Hp. rewrite Forall_forall. intros e He.
  unfold graph_nodes. apply list_elem_of_bind. exists p. split; [|done].
  by apply list_elem_of_fmap_2.
Qed.

Lemma set_circuit_is_Some (graph : graph_t) m :
  is_Some (set_circuit graph m) <-> tails_closed graph.
Proof.
  unfold set_circuit, tails_closed.
  destruct (new_fixes (graph_nodes graph) [] m) as [fixes m1] eqn:Hnf.
  destruct (new_fixes_spec _ _ _ _ _ Hnf) as (_ & _ & Hk).
  assert (forall k, k ∈ fixes.*1 <-> k ∈ graph_nodes graph) as Hk'.
  { intros k. rewrite Hk. split; [intros [[]%elem_of_nil|]|]; auto. }
  assert (Forall (λ p, Forall (λ e : (Z * Z) * list (Z * Z), e.1 ∈ fixes.*1) p.2)
            graph) as Hheads.
  { eapply Forall_impl; [apply graph_heads_nodes|]. intros p Hp.
    eapply Forall_impl; [apply Hp|]. intros e He. by apply Hk'. }
  pose proof (piece_arcs_is_Some fixes graph m1 Hheads) as Hpa.
  assert (Forall (λ p, Forall (λ e : (Z * Z) * list (Z * Z),
                                 Forall (λ t, t ∈ fixes.*1) e.2) p.2) graph
          <-> Forall (λ p, Forall (λ e : (Z * Z) * list (Z * Z),
                                     Forall (λ t, t ∈ graph_nodes graph) e.2) p.2)
                graph) as Heq.
  { split; intros H; (eapply Forall_impl; [apply H|]); intros p Hp;
      (eapply Forall_impl; [apply Hp|]); intros e He;
      (eapply Forall_impl; [apply He|]); intros t Ht; by apply Hk'. }
  rewrite <- Heq, <- Hpa.
  destruct (piece_arcs fixes graph m1) as [[[[cg arcs] loops] m2]|];
    cbn [mbind option_bind]; split; eauto; by intros [? ?].
Qed.

Lemma setup_is_Some (graph : graph_t) space :
  is_Some (setup graph space) <-> tails_closed graph.
Proof.
  rewrite <- (set_circuit_is_Some graph CpModel.new). unfold setup.
  destruct (set_circuit graph CpModel.new); cbn [mbind option_bind];
    split; eauto; by intros [? ?].
Qed.

Lemma graph_tails_closed size : tails_closed (DominoDigraph.graph size).
Proof.
  unfold tails_closed. rewrite Forall_forall. intros [d dir] Hd.
  rewrite Forall_forall. intros [h ts] Hh. rewrite Forall_forall. intros t Ht.
  simpl in *. apply (fix_tails_elem size d dir h ts t Hd Hh) in Ht as (H1 & H2 & _).
  destruct (graph_fix_range _ _ _ _ _ Hd Hh) as (_ & _ & _ & _ & Hr).
  apply graph_nodes_elem. lia.
Qed.

End key_errors.

(** ** The size of the domino set and of its grid *)

Section census.
Import DominoDigraph DominoBraneSolver.
Local Open Scope Z_scope.

(** X1. [DominoDigraph(size)] holds one domino for every unordered pair
    of numbers up to [size], none twice, and one fix for every ordered
    pair: (size+1)(size+2)/2 dominoes and (size+1)^2 fixes. *)
Theorem digraph_census size :
  0 <= size ->
  NoDup (DominoDigraph.graph size).*1
  /\ (forall d : Z * Z,
        d ∈ (DominoDigraph.graph size).*1 <-> 0 <= d.2 <= d.1 /\ d.1 <= size)
  /\ 2 * Z.of_nat (length (DominoDigraph.graph size)) = (size + 1) * (size + 2)
  /\ NoDup (graph_nodes (DominoDigraph.graph size))
  /\ (forall f : Z * Z,
        f ∈ graph_nodes (DominoDigraph.graph size)
        <-> 0 <= f.1 <= size /\ 0 <= f.2 <= size)
  /\ Z.of_nat (length (graph_nodes (DominoDigraph.graph size)))
     = (size + 1) * (size + 1).
Proof.
  intros Hs. rewrite graph_keys, graph_length. split_and!.
  - apply dominoes_NoDup.
  - intros d. apply dominoes_elem.
  - by apply dominoes_length.
  - apply graph_nodes_NoDup.
  - apply graph_nodes_elem.
  - by apply graph_nodes_length.
Qed.

(** X2. The tails of a fix [(a, b)] are exactly the fixes [(b, c)] with
    [c] any number up to [size] other than [a]: every fix has [size]
    possible successors. *)
Theorem fix_successors size (d : Z * Z) dir (h : Z * Z) ts :
  (d, dir) ∈ DominoDigraph.graph size -> (h, ts) ∈ dir ->
  (forall t : Z * Z, t ∈ ts <-> t.1 = h.2 /\ 0 <= t.2 <= size /\ t.2 ≠ h.1)
  /\ length ts = Z.to_nat size.
Proof.
  intros Hd Hh. split.
  - intros t. by apply (fix_tails_elem size d dir).
  - by apply (fix_tails_length size d dir h).
Qed.

(** X3. The graph is symmetric under reversal of the chain: when [t] may
    follow [h], the flipped [h] may follow the flipped [t]. *)
Theorem chain_reversal size (d : Z * Z) dir (h : Z * Z) ts (t : Z * Z) :
  (d, dir) ∈ DominoDigraph.graph size -> (h, ts) ∈ dir -> t ∈ ts ->
  exists d' dir' ts',
    (d', dir') ∈ DominoDigraph.graph size
    /\ ((t.2, t.1), ts') ∈ dir'
    /\ (h.2, h.1) ∈ ts'.
Proof.
  intros Hd Hh Ht.
  apply (fix_tails_elem size d dir h ts t Hd Hh) in Ht as (H1 & H2 & H3).
  destruct (graph_fix_range _ _ _ _ _ Hd Hh) as (_ & _ & _ & Hr1 & Hr2).
  destruct (graph_node_entry (DominoDigraph.graph size) (t.2, t.1))
    as (d' & dir' & ts' & Hd' & Hh').
  { apply graph_nodes_elem. simpl. lia. }
  exists d', dir', ts'. split; [done|]. split; [done|].
  apply (fix_tails_elem size d' dir' (t.2, t.1) ts' (h.2, h.1) Hd' Hh').
  simpl. lia.
Qed.

(** X4. [Space(size)] is the open grid of [size+1] columns and [size+2]
    rows, each cell listed once, and it has exactly two cells for every
    domino of [DominoDigraph(size)]. *)
Theorem Space_fits_dominoes size :
  (forall (c : Z * Z) clue,
     (c, clue) ∈ Space size
     <-> clue = None /\ 0 <= c.1 <= size /\ 0 <= c.2 <= size + 1)
  /\ NoDup (Space size).*1
  /\ length (Space size) = (2 * length (DominoDigraph.graph size))%nat.
Proof.
  split_and!.
  - intros c clue. apply Space_elem.
  - apply Space_NoDup.
  - apply Space_two_per_domino.
Qed.


End census.

Lemma digraph_census_witness :
  (0 <= 6)%Z
  /\ NoDup (DominoDigraph.graph 6).*1
  /\ (forall d : Z * Z,
        d ∈ (DominoDigraph.graph 6).*1 <-> (0 <= d.2 <= d.1 /\ d.1 <= 6)%Z)
  /\ (2 * Z.of_nat (length (DominoDigraph.graph 6)) = (6 + 1) * (6 + 2))%Z
  /\ NoDup (DominoBraneSolver.graph_nodes (DominoDigraph.graph 6))
  /\ (forall f : Z * Z,
        f ∈ DominoBraneSolver.graph_nodes (DominoDigraph.graph 6)
        <-> (0 <= f.1 <= 6 /\ 0 <= f.2 <= 6)%Z)
  /\ (Z.of_nat (length (DominoBraneSolver.graph_nodes (DominoDigraph.graph 6)))
      = (6 + 1) * (6 + 1))%Z.
Proof.
  assert (0 <= 6)%Z as H by lia.
  split; [exact H|]. exact (digraph_census 6 H).
Defined.

Lemma fix_successors_witness :
  ((1, 0)%Z, [((1, 0)%Z, [(0, 0); (0, 2)]%Z); ((0, 1)%Z, [(1, 1); (1, 2)]%Z)])
    ∈ DominoDigraph.graph 2
  /\ ((0, 1)%Z, [(1, 1); (1, 2)]%Z)
       ∈ [((1, 0)%Z, [(0, 0); (0, 2)]%Z); ((0, 1)%Z, [(1, 1); (1, 2)]%Z)]
  /\ (forall t : Z * Z,
        t ∈ [(1, 1); (1, 2)]%Z <-> t.1 = 1%Z /\ (0 <= t.2 <= 2)%Z /\ t.2 ≠ 0%Z)
  /\ length [(1, 1); (1, 2)]%Z = 2%nat.
Proof.
  assert (((1, 0)%Z, [((1, 0)%Z, [(0, 0); (0, 2)]%Z); ((0, 1)%Z, [(1, 1); (1, 2)]%Z)])
          ∈ DominoDigraph.graph 2) as Hd
    by (apply (bool_decide_unpack _); vm_compute; exact I).
  assert (((0, 1)%Z, [(1, 1); (1, 2)]%Z)
          ∈ [((1, 0)%Z, [(0, 0); (0, 2)]%Z); ((0, 1)%Z, [(1, 1); (1, 2)]%Z)]) as Hh
    by (apply (bool_decide_unpack _); vm_compute; exact I).
  split; [exact Hd|]. split; [exact Hh|].
  exact (fix_successors 2 (1, 0)%Z _ (0, 1)%Z _ Hd Hh).
Defined.

Lemma chain_reversal_witness :
  ((1, 0)%Z, [((1, 0)%Z, [(0, 0); (0, 2)]%Z); ((0, 1)%Z, [(1, 1); (1, 2)]%Z)])
    ∈ DominoDigraph.graph 2
  /\ ((0, 1)%Z, [(1, 1); (1, 2)]%Z)
       ∈ [((1, 0)%Z, [(0, 0); (0, 2)]%Z); ((0, 1)%Z, [(1, 1); (1, 2)]%Z)]
  /\ (1, 2)%Z ∈ [(1, 1); (1, 2)]%Z
  /\ exists d' dir' ts',
       (d', dir') ∈ DominoDigraph.graph 2
       /\ ((2, 1)%Z, ts') ∈ dir'
       /\ (1, 0)%Z ∈ ts'.
Proof.
  assert (((1, 0)%Z, [((1, 0)%Z, [(0, 0); (0, 2)]%Z); ((0, 1)%Z, [(1, 1); (1, 2)]%Z)])
          ∈ DominoDigraph.graph 2) as Hd
    by (apply (bool_decide_unpack _); vm_compute; exact I).
  assert (((0, 1)%Z, [(1, 1); (1, 2)]%Z)
          ∈ [((1, 0)%Z, [(0, 0); (0, 2)]%Z); ((0, 1)%Z, [(1, 1); (1, 2)]%Z)]) as Hh
    by (apply (bool_decide_unpack _); vm_compute; exact I).
  assert ((1, 2)%Z ∈ [(1, 1); (1, 2)]%Z) as Ht
    by (apply (bool_decide_unpack _); vm_compute; exact I).
  split; [exact Hd|]. split; [exact Hh|]. split; [exact Ht|].
  exact (chain_reversal 2 (1, 0)%Z _ (0, 1)%Z _ (1, 2)%Z Hd Hh Ht).
Defined.

(** ** Which placement variables exist *)

Section place_domain.
Import CpModel DominoBraneSolver.

Lemma pkey_inj (c c' : Z * Z) (f f' : Z * Z) (i i' : Z) :
  pkey c f i = pkey c' f' i' -> c = c' /\ f = f' /\ i = i'.
Proof.
  unfold pkey. destruct c, c', f, f'. simpl. intros [= -> -> -> -> ->]. done.
Qed.

Lemma new_place_dom (f : Z * Z) (c : (Z * Z) * option Z)
    (pl : gmap (Z * Z * Z * Z * Z) nat) m (k : Z * Z * Z * Z * Z) :
  is_Some ((new_place f c (pl, m)).1 !! k)
  <-> is_Some (pl !! k) \/ exists i, k = pkey c.1 f i /\ admits c.2 f i.
Proof.
  assert (forall clue : option Z,
            (exists i, k = pkey c.1 f i /\ admits clue f i)
            <-> (k = pkey c.1 f 1 /\ (clue = None \/ clue = Some f.2))
                \/ (k = pkey c.1 f 0 /\ (clue = None \/ clue = Some f.1))) as Hex.
  { intros clue. unfold admits. split.
    - intros (i & -> & [[-> H]|[-> H]]); [left|right]; done.
    - intros [[-> H]|[-> H]]; [exists 1%Z|exists 0%Z]; (split; [done|]); [left|right]; done. }
  rewrite Hex. clear Hex.
  unfold new_place. cbn [NewBoolVar]. destruct c as [xy [clue|]]; simpl.
  - destruct (decide (clue = f.2)) as [E2|E2], (decide (clue = f.1)) as [E1|E1];
      simpl; rewrite ?lookup_insert_is_Some'; intuition congruence.
  - rewrite !lookup_insert_is_Some'. intuition congruence.
Qed.

Lemma new_places_dom (fixes : list ((Z * Z) * nat)) (space : list ((Z * Z) * option Z))
    (st : gmap (Z * Z * Z * Z * Z) nat * CpModel.t) (k : Z * Z * Z * Z * Z) :
  is_Some ((new_places fixes space st).1 !! k)
  <-> is_Some (st.1 !! k)
      \/ exists (f : Z * Z) c i,
           f ∈ fixes.*1 /\ c ∈ space /\ k = pkey c.1 f i /\ admits c.2 f i.
Proof.
  unfold new_places. revert st.
  induction fixes.*1 as [|f fs IH]; intros st; simpl.
  - split; [auto|]. intros [H|(f & c & i & []%elem_of_nil & _)]. done.
  - rewrite IH. clear IH.
    assert (forall st : gmap (Z * Z * Z * Z * Z) nat * CpModel.t,
              is_Some ((foldl (λ st c, new_place f c st) st space).1 !! k)
              <-> is_Some (st.1 !! k)
                  \/ exists c i, c ∈ space /\ k = pkey c.1 f i /\ admits c.2 f i)
      as Hrow.
    { clear. induction space as [|c space IH]; intros st; simpl.
      - split; [auto|]. intros [H|(c & i & []%elem_of_nil & _)]. done.
      - rewrite IH. destruct st as [pl m]. rewrite new_place_dom. simpl. split.
        + intros [[H|(i & H1 & H2)]|(c' & i & H1 & H2)]; [by left| |].
          * right. exists c, i. split; [apply list_elem_of_here|done].
          * right. exists c', i. split; [by apply list_elem_of_further|done].
        + intros [H|(c' & i & [->|H1]%elem_of_cons & H2)].
          * by left; left.
          * left; right. by exists i.
          * right. by exists c', i. }
    rewrite Hrow. split.
    + intros [[H|(c & i & H1 & H2)]|(f' & c & i & H1 & H2)]; [by left| |].
      * right. exists f, c, i. split; [apply list_elem_of_here|done].
      * right. exists f', c, i. split; [by apply list_elem_of_further|done].
    + intros [H|(f' & c & i & [->|H1]%elem_of_cons & H2)].
      * by left; left.
      * left; right. by exists c, i.
      * right. by exists f', c, i.
Qed.

Lemma set_placements_place cs space :
  place (set_placements cs space)
  = (new_places (cs_fixes cs) space
       (∅, Add (LinearEq (cs_fixes cs).*2 [] (Z.of_nat (length space) `div` 2) [])
             (cs_model cs))).1.
Proof. unfold set_placements. by destruct (new_places _ _ _). Qed.

(** The keys of [self.place] after [setup]. *)
Lemma setup_place_dom graph space s (k : Z * Z * Z * Z * Z) :
  setup graph space = Some s ->
  is_Some (place s !! k)
  <-> exists (f : Z * Z) c i,
        f ∈ (fixes s).*1 /\ c ∈ space /\ k = pkey c.1 f i /\ admits c.2 f i.
Proof.
  intros Hs. destruct (setup_inv _ _ _ Hs) as (cs & Hcs & ->).
  rewrite set_placements_place, new_places_dom. simpl.
  destruct (set_placements_fields cs space) as (_ & _ & -> & _).
  rewrite lookup_empty. split; [|auto].
  intros [[? [=]]|H]. done.
Qed.

End place_domain.

(** ** One end on every cell *)

Section one_end.
Import CpModel DominoBraneSolver.

Lemma placed_cons (place : gmap (Z * Z * Z * Z * Z) nat) k keys :
  placed place (k :: keys)
  = match place !! k with Some p => p :: placed place keys | None => placed place keys end.
Proof. unfold placed. simpl. by destruct (place !! k). Qed.

Lemma total_nonneg val xs : (0 <= total val xs)%Z.
Proof. unfold total. lia. Qed.

Lemma total_zero_placed (val : nat -> bool) (place : gmap (Z * Z * Z * Z * Z) nat) keys k p :
  total val (placed place keys) = 0%Z ->
  k ∈ keys -> place !! k = Some p -> val p = false.
Proof.
  induction keys as [|k' keys IH]; [by intros _ ?%elem_of_nil|].
  rewrite placed_cons. intros Ht [->|Hk]%elem_of_cons Hp.
  - rewrite Hp, total_cons in Ht. pose proof (total_nonneg val (placed place keys)).
    destruct (val p); [lia|done].
  - apply IH; [|done|done]. destruct (place !! k'); [|done].
    rewrite total_cons in Ht. pose proof (total_nonneg val (placed place keys)).
    destruct (val n); lia.
Qed.

(** When the placed variables of a list of distinct keys sum to one,
    exactly one key of the list has a true variable. *)
Lemma total_one_placed (val : nat -> bool) (place : gmap (Z * Z * Z * Z * Z) nat) keys :
  NoDup keys -> total val (placed place keys) = 1%Z ->
  exists k p, k ∈ keys /\ place !! k = Some p /\ val p = true
              /\ forall k' p', k' ∈ keys -> place !! k' = Some p' ->
                               val p' = true -> k' = k.
Proof.
  induction keys as [|k keys IH]; [done|].
  intros [Hk Hnd]%NoDup_cons. rewrite placed_cons.
  destruct (place !! k) as [p|] eqn:Hp.
  - rewrite total_cons. destruct (val p) eqn:Hv.
    + intros Ht. exists k, p. split_and!; [apply list_elem_of_here|done|done|].
      intros k' p' [->|Hk']%elem_of_cons Hp' Hv'; [done|].
      assert (total val (placed place keys) = 0%Z) as H0 by lia.
      rewrite (total_zero_placed val place keys k' p' H0 Hk' Hp') in Hv'. done.
    + intros Ht. destruct (IH Hnd) as (k0 & p0 & H1 & H2 & H3 & H4); [lia|].
      exists k0, p0. split_and!; [by apply list_elem_of_further|done|done|].
      intros k' p' [->|Hk']%elem_of_cons Hp' Hv'; [congruence|by apply (H4 k' p')].
  - intros Ht. destruct (IH Hnd Ht) as (k0 & p0 & H1 & H2 & H3 & H4).
    exists k0, p0. split_and!; [by apply list_elem_of_further|done|done|].
    intros k' p' [->|Hk']%elem_of_cons Hp' Hv'; [congruence|by apply (H4 k' p')].
Qed.

Lemma cell_keys_NoDup (fs : list (Z * Z)) (c : Z * Z) :
  NoDup fs -> NoDup (f ← fs; i ← [0; 1]%Z; [pkey c f i]).
Proof.
  intros Hnd. apply NoDup_bind; [| |done].
  - intros f1 f2 k _ _ H1 H2.
    apply list_elem_of_bind in H1 as (i1 & ->%list_elem_of_singleton & _).
    apply list_elem_of_bind in H2 as (i2 & H2%list_elem_of_singleton & _).
    by apply pkey_inj in H2 as (_ & -> & _).
  - intros f _. simpl. apply NoDup_cons. split; [|apply NoDup_singleton].
    intros H%list_elem_of_singleton. by apply pkey_inj in H as (_ & _ & ?).
Qed.

Lemma cell_keys_elem (fs : list (Z * Z)) (c : Z * Z) (k : Z * Z * Z * Z * Z) :
  k ∈ (f ← fs; i ← [0; 1]%Z; [pkey c f i])
  <-> exists f i, f ∈ fs /\ (i = 0 \/ i = 1)%Z /\ k = pkey c f i.
Proof.
  rewrite list_elem_of_bind. split.
  - intros (f & (i & ->%list_elem_of_singleton & Hi)%list_elem_of_bind & Hf).
    exists f, i. split_and!; [done| |done].
    apply elem_of_cons in Hi as [->|Hi]; [by left|].
    apply list_elem_of_singleton in Hi as ->. by right.
  - intros (f & i & Hf & Hi & ->). exists f. split; [|done].
    apply list_elem_of_bind. exists i. split; [by apply list_elem_of_singleton|].
    destruct Hi as [->| ->]; [apply list_elem_of_here|].
    apply list_elem_of_further, list_elem_of_here.
Qed.

Lemma admits_role clue (f : Z * Z) i : admits clue f i -> (i = 0 \/ i = 1)%Z.
Proof. unfold admits. tauto. Qed.

Lemma setup_fixes_NoDup graph space s :
  setup graph space = Some s -> NoDup (fixes s).*1.
Proof.
  intros Hs. destruct (setup_inv _ _ _ Hs) as (cs & Hcs & ->).
  destruct (set_placements_fields cs space) as (_ & _ & -> & _).
  by destruct (set_circuit_spec _ _ _ Hcs) as (H & _).
Qed.

(** A true placement variable is one that [set_placements] created. *)
Lemma lies_on_inv graph space s val (c f : Z * Z) i :
  setup graph space = Some s -> lies_on val (place s) c f i ->
  f ∈ (fixes s).*1 /\ (i = 0 \/ i = 1)%Z
  /\ exists clue, (c, clue) ∈ space /\ admits clue f i.
Proof.
  intros Hs Hl. unfold lies_on in Hl.
  destruct (place s !! pkey c f i) as [p|] eqn:Hp; [|done].
  assert (is_Some (place s !! pkey c f i)) as Hin by eauto.
  apply (setup_place_dom graph space s _ Hs) in Hin
    as (f' & [c' clue] & i' & Hf & Hc & Hk & Ha).
  apply pkey_inj in Hk as (-> & -> & ->). simpl in *.
  split; [done|]. split; [by apply admits_role in Ha|]. by exists clue.
Qed.

End one_end.

Section one_end_theorem.
Import CpModel DominoBraneSolver.

(** In a solution, exactly one end of one fix lies on a given cell, and
    it is one that the clue of the cell admits. *)
Lemma cell_end graph space s val (c : Z * Z) clue :
  setup graph space = Some s -> NoDup space.*1 -> satisfies val (model s) ->
  (c, clue) ∈ space ->
  exists (f : Z * Z) i,
    lies_on val (place s) c f i /\ f ∈ (fixes s).*1 /\ admits clue f i
    /\ forall (f' : Z * Z) i', lies_on val (place s) c f' i' -> f' = f /\ i' = i.
Proof.
  intros Hs Hnd Hval Hc.
  assert (c ∈ space.*1) as Hc1 by (by apply (list_elem_of_fmap_2 fst) in Hc).
  pose proof (cell_total graph space s val Hs Hval c Hc1) as Ht.
  unfold cell_vars in Ht.
  destruct (total_one_placed val (place s) _
              (cell_keys_NoDup _ c (setup_fixes_NoDup _ _ _ Hs)) Ht)
    as (k & p & Hk & Hp & Hv & Huniq).
  apply cell_keys_elem in Hk as (f & i & Hf & Hi & ->).
  assert (lies_on val (place s) c f i) as Hl by (unfold lies_on; by rewrite Hp).
  exists f, i. split; [done|]. split; [done|]. split.
  - destruct (lies_on_inv _ _ _ _ _ _ _ Hs Hl) as (_ & _ & clue' & Hc' & Ha).
    by rewrite (dict_value_unique space c clue clue' Hnd Hc Hc').
  - intros f' i' Hl'.
    destruct (lies_on_inv _ _ _ _ _ _ _ Hs Hl') as (Hf' & Hi' & _).
    unfold lies_on in Hl'.
    destruct (place s !! pkey c f' i') as [p'|] eqn:Hp'; [|done].
    assert (pkey c f' i' = pkey c f i) as Heq.
    { apply (Huniq _ p'); [|done|done]. apply cell_keys_elem. by exists f', i'. }
    by apply pkey_inj in Heq as (_ & -> & ->).
Qed.

(** X6. In every solution each cell of the space carries exactly one end
    of exactly one fix, and on a cell with a clue that end shows the
    clue: the [b] number for the end of index 1, the [a] number for the
    end of index 0. *)
Theorem one_end_per_cell graph space s val (c : Z * Z) clue :
  setup graph space = Some s -> NoDup space.*1 -> satisfies val (model s) ->
  (c, clue) ∈ space ->
  exists (f : Z * Z) i,
    lies_on val (place s) c f i /\ f ∈ (fixes s).*1 /\ (i = 0 \/ i = 1)%Z
    /\ (forall v, clue = Some v -> v = if decide (i = 1%Z) then f.2 else f.1)
    /\ forall (f' : Z * Z) i', lies_on val (place s) c f' i' -> f' = f /\ i' = i.
Proof.
  intros Hs Hnd Hval Hc.
  destruct (cell_end graph space s val c clue Hs Hnd Hval Hc)
    as (f & i & Hl & Hf & Ha & Hu).
  exists f, i. split; [done|]. split; [done|].
  split; [by apply admits_role in Ha|]. split; [|done].
  intros v ->. unfold admits in Ha.
  destruct Ha as [[-> [?|[= ->]]]|[-> [?|[= ->]]]]; done.
Qed.

End one_end_theorem.

Section clued_scenario.
Import CpModel DominoBraneSolver.

(** The tiling of the worked instance also solves the clued puzzle. *)
Lemma clued_tiling_is_solution :
  exists s, setup (DominoDigraph.graph 2) CluedScenario.clued = Some s
            /\ satisfies (Scenario.tiling s) (model s).
Proof.
  destruct (checked (λ s, bool_decide (satisfies (Scenario.tiling s) (model s)))
              (setup (DominoDigraph.graph 2) CluedScenario.clued)) as (s & Hs & H).
  { vm_compute. reflexivity. }
  exists s. split; [exact Hs|]. by apply bool_decide_eq_true in H.
Qed.

Lemma clued_NoDup : NoDup CluedScenario.clued.*1.
Proof. apply (bool_decide_unpack _). vm_compute. exact I. Qed.

End clued_scenario.

Lemma one_end_per_cell_witness :
  exists s,
    DominoBraneSolver.setup (DominoDigraph.graph 2) CluedScenario.clued = Some s
    /\ NoDup CluedScenario.clued.*1
    /\ CpModel.satisfies (Scenario.tiling s) (DominoBraneSolver.model s)
    /\ ((1, 1)%Z, Some 2%Z) ∈ CluedScenario.clued
    /\ exists (f : Z * Z) i,
         DominoBraneSolver.lies_on (Scenario.tiling s) (DominoBraneSolver.place s)
           (1, 1)%Z f i
         /\ f ∈ (DominoBraneSolver.fixes s).*1 /\ (i = 0 \/ i = 1)%Z
         /\ (forall v, Some 2%Z = Some v -> v = if decide (i = 1%Z) then f.2 else f.1)
         /\ forall (f' : Z * Z) i',
              DominoBraneSolver.lies_on (Scenario.tiling s)
                (DominoBraneSolver.place s) (1, 1)%Z f' i' ->
              f' = f /\ i' = i.
Proof.
  destruct clued_tiling_is_solution as (s & Hs & H).
  assert (((1, 1)%Z, Some 2%Z) ∈ CluedScenario.clued) as Hc
    by (apply (bool_decide_unpack _); vm_compute; exact I).
  exists s. split; [exact Hs|]. split; [exact clued_NoDup|]. split; [exact H|].
  split; [exact Hc|].
  exact (one_end_per_cell _ _ s (Scenario.tiling s) (1, 1)%Z (Some 2%Z)
           Hs clued_NoDup H Hc).
Defined.

(** ** The grid read off a solution *)

Section grid.
Import CpModel DominoBraneSolver SolutionManager.

Lemma grid_step_true val grid (c f : Z * Z) i x :
  val x = true ->
  grid_step val grid (pkey c f i, x) = Py.dict_set c (i, f) grid.
Proof. intros Hv. unfold grid_step, pkey. destruct c, f. simpl. by rewrite Hv. Qed.

Lemma grid_step_false val grid (k : Z * Z * Z * Z * Z) x :
  val x = false -> grid_step val grid (k, x) = grid.
Proof.
  intros Hv. unfold grid_step. destruct k as [[[[? ?] ?] ?] ?]. by rewrite Hv.
Qed.

Lemma pkey_surj (k : Z * Z * Z * Z * Z) : exists (c f : Z * Z) i, k = pkey c f i.
Proof. destruct k as [[[[x y] a] b] i]. by exists (x, y), (a, b), i. Qed.

Lemma grid_fold_NoDup val items grid :
  NoDup grid.*1 -> NoDup (foldl (grid_step val) grid items).*1.
Proof.
  revert grid. induction items as [|[k x] items IH]; intros grid Hnd; [done|].
  cbn [foldl]. apply IH. destruct (val x) eqn:Hv.
  - destruct (pkey_surj k) as (c & f & i & ->).
    rewrite grid_step_true by done. by apply dict_set_keys_NoDup.
  - by rewrite grid_step_false.
Qed.

Lemma grid_fold_keys val items grid (c : Z * Z) :
  c ∈ (foldl (grid_step val) grid items).*1
  <-> c ∈ grid.*1
      \/ exists (f : Z * Z) i x, (pkey c f i, x) ∈ items /\ val x = true.
Proof.
  revert grid. induction items as [|[k x] items IH]; intros grid; cbn [foldl].
  - split; [auto|]. intros [H|(f & i & x & []%elem_of_nil & _)]. done.
  - rewrite IH. destruct (val x) eqn:Hv.
    + destruct (pkey_surj k) as (c' & f' & i' & ->).
      rewrite grid_step_true by done. rewrite dict_set_keys_elem. split.
      * intros [[->|H]|(f & i & y & H1 & H2)]; [|by left|].
        -- right. exists f', i', x. split; [apply list_elem_of_here|done].
        -- right. exists f, i, y. split; [by apply list_elem_of_further|done].
      * intros [H|(f & i & y & [Heq|H1]%elem_of_cons & H2)].
        -- left. by right.
        -- pose proof (f_equal fst Heq) as Hk. cbn [fst] in Hk.
           apply pkey_inj in Hk as (-> & _ & _). left. by left.
        -- right. by exists f, i, y.
    + rewrite grid_step_false by done. split.
      * intros [H|(f & i & y & H1 & H2)]; [by left|].
        right. exists f, i, y. split; [by apply list_elem_of_further|done].
      * intros [H|(f & i & y & [Heq|H1]%elem_of_cons & H2)]; [by left| |].
        -- pose proof (f_equal snd Heq) as Hx. cbn [snd] in Hx. congruence.
        -- right. by exists f, i, y.
Qed.

Lemma grid_fold_elem val items grid (c : Z * Z) (e : Z * (Z * Z)) :
  (c, e) ∈ foldl (grid_step val) grid items ->
  (c, e) ∈ grid \/ exists x, (pkey c e.2 e.1, x) ∈ items /\ val x = true.
Proof.
  revert grid. induction items as [|[k x] items IH]; intros grid; cbn [foldl]; [auto|].
  intros [H|(y & H1 & H2)]%IH.
  - destruct (val x) eqn:Hv.
    + destruct (pkey_surj k) as (c' & f' & i' & ->).
      rewrite grid_step_true in H by done.
      apply dict_set_elem_inv in H as [[= -> ->]|H]; [|by left].
      right. exists x. split; [apply list_elem_of_here|done].
    + rewrite grid_step_false in H by done. by left.
  - right. exists y. split; [by apply list_elem_of_further|done].
Qed.

Lemma set_grid_fold val items :
  set_grid val items = foldl (grid_step val) [] items.
Proof. done. Qed.

End grid.

Section grid_theorem.
Import CpModel DominoBraneSolver SolutionManager.

(** X7. For a solution, the grid that [set_grid] hands to the drawing
    routine has exactly one entry for every cell of the space and none
    for any other cell, and the entry of a cell is the end lying on it;
    this for every order in which the dict [place] is iterated. *)
Theorem set_grid_solution graph space s val
    (items : list ((Z * Z * Z * Z * Z) * nat)) :
  setup graph space = Some s -> NoDup space.*1 -> satisfies val (model s) ->
  (forall k x, (k, x) ∈ items <-> place s !! k = Some x) ->
  NoDup (set_grid val items).*1
  /\ (forall c, c ∈ (set_grid val items).*1 <-> c ∈ space.*1)
  /\ (forall (c : Z * Z) i (f : Z * Z),
        (c, (i, f)) ∈ set_grid val items <-> lies_on val (place s) c f i).
Proof.
  intros Hs Hnd Hval Hitems.
  assert (forall (c f : Z * Z) i,
            (exists x, (pkey c f i, x) ∈ items /\ val x = true)
            <-> lies_on val (place s) c f i) as Hlies.
  { intros c f i. unfold lies_on. split.
    - intros (x & Hx%Hitems & Hv). by rewrite Hx.
    - destruct (place s !! pkey c f i) as [x|] eqn:Hx; [|done].
      intros Hv. exists x. split; [by apply Hitems|done]. }
  assert (forall c, c ∈ (set_grid val items).*1 <-> c ∈ space.*1) as Hkeys.
  { intros c. unfold set_grid. rewrite grid_fold_keys. split.
    - intros [[]%elem_of_nil|(f & i & x & Hx & Hv)].
      assert (lies_on val (place s) c f i) as Hl by (apply Hlies; eauto).
      destruct (lies_on_inv _ _ _ _ _ _ _ Hs Hl) as (_ & _ & clue & Hc & _).
      by apply (list_elem_of_fmap_2 fst) in Hc.
    - intros ([c' clue] & -> & Hc)%list_elem_of_fmap. simpl.
      destruct (cell_end graph space s val c' clue Hs Hnd Hval Hc)
        as (f & i & Hl & _).
      apply Hlies in Hl as (x & Hx & Hv). right. by exists f, i, x. }
  split; [apply grid_fold_NoDup, NoDup_nil_2|]. split; [done|].
  intros c i f. split.
  - intros [[]%elem_of_nil|H]%grid_fold_elem. by apply Hlies.
  - intros Hl.
    destruct (lies_on_inv _ _ _ _ _ _ _ Hs Hl) as (_ & _ & clue & Hc & _).
    assert (c ∈ (set_grid val items).*1) as Hin.
    { apply Hkeys. by apply (list_elem_of_fmap_2 fst) in Hc. }
    apply list_elem_of_fmap in Hin as ([c' [i' f']] & -> & Hin). simpl in *.
    assert (lies_on val (place s) c' f' i') as Hl'.
    { apply grid_fold_elem in Hin as [[]%elem_of_nil|H]. by apply Hlies. }
    destruct (cell_end graph space s val c' clue Hs Hnd Hval Hc)
      as (f0 & i0 & _ & _ & _ & Hu).
    destruct (Hu f i Hl) as [-> ->]. destruct (Hu f' i' Hl') as [-> ->]. done.
Qed.

End grid_theorem.

Lemma set_grid_solution_witness :
  exists s,
    DominoBraneSolver.setup (DominoDigraph.graph 2) CluedScenario.clued = Some s
    /\ NoDup CluedScenario.clued.*1
    /\ CpModel.satisfies (Scenario.tiling s) (DominoBraneSolver.model s)
    /\ (forall k x, (k, x) ∈ map_to_list (DominoBraneSolver.place s)
                    <-> DominoBraneSolver.place s !! k = Some x)
    /\ NoDup (SolutionManager.set_grid (Scenario.tiling s)
                (map_to_list (DominoBraneSolver.place s))).*1
    /\ (forall c,
          c ∈ (SolutionManager.set_grid (Scenario.tiling s)
                 (map_to_list (DominoBraneSolver.place s))).*1
          <-> c ∈ CluedScenario.clued.*1)
    /\ (forall (c : Z * Z) i (f : Z * Z),
          (c, (i, f)) ∈ SolutionManager.set_grid (Scenario.tiling s)
                          (map_to_list (DominoBraneSolver.place s))
          <-> DominoBraneSolver.lies_on (Scenario.tiling s)
                (DominoBraneSolver.place s) c f i).
Proof.
  destruct clued_tiling_is_solution as (s & Hs & H).
  assert (forall k x, (k, x) ∈ map_to_list (DominoBraneSolver.place s)
                      <-> DominoBraneSolver.place s !! k = Some x) as Hitems
    by (intros k x; apply elem_of_map_to_list).
  exists s. split; [exact Hs|]. split; [exact clued_NoDup|]. split; [exact H|].
  split; [exact Hitems|].
  exact (set_grid_solution _ _ s (Scenario.tiling s) _ Hs clued_NoDup H Hitems).
Defined.

(** ** The hint on the number of active fixes *)

Section hint.
Import CpModel DominoBraneSolver.

Lemma total_snd (val : nat -> bool) (l : list ((Z * Z) * nat)) :
  total val l.*2 = Z.of_nat (sum_list_with (λ f, if val f.2 then 1 else 0)%nat l).
Proof.
  induction l as [|f l IH]; [done|].
  rewrite fmap_cons, total_cons, IH. simpl. destruct (val f.2); lia.
Qed.

Lemma sum_list_with_fmap {A B : Type} (g : B -> nat) (h : A -> B) (l : list A) :
  sum_list_with g (h <$> l) = sum_list_with (λ x, g (h x)) l.
Proof. induction l as [|x l IH]; simpl; [done|]. by f_equal. Qed.

(** The cells are twice as many as the active fixes, once every cell
    carries one end and every active fix lays down both of its ends. *)
Lemma cells_twice_fixes (val : nat -> bool) (fixes : list ((Z * Z) * nat))
    (space : list ((Z * Z) * option Z)) (place : gmap (Z * Z * Z * Z * Z) nat) :
  (forall c, c ∈ space.*1 -> total val (cell_vars fixes place c) = 1%Z) ->
  (forall f, f ∈ fixes ->
     total val (role_vars space place f.1 1) = (if val f.2 then 1 else 0)%Z
     /\ total val (role_vars space place f.1 0) = (if val f.2 then 1 else 0)%Z) ->
  Z.of_nat (length space) = (2 * total val fixes.*2)%Z.
Proof.
  intros Hcell Hfix.
  assert (length space
          = sum_list_with (λ c, length (filter (λ x, val x = true)
                                          (cell_vars fixes place c))) space.*1)
    as Hlen.
  { rewrite <- (length_fmap fst space), <- sum_list_with_const.
    apply sum_list_with_ext_in. intros c Hc. specialize (Hcell c Hc).
    unfold total in Hcell. lia. }
  rewrite count_cells_fixes in Hlen. rewrite Hlen, total_snd.
  rewrite sum_list_with_fmap.
  assert (forall l : list ((Z * Z) * nat), (forall f, f ∈ l -> f ∈ fixes) ->
            sum_list_with
              (λ x, length (filter (λ x0, val x0 = true) (role_vars space place x.1 0))
                    + length (filter (λ x0, val x0 = true)
                                (role_vars space place x.1 1)))%nat l
            = (2 * sum_list_with (λ f, if val f.2 then 1 else 0) l)%nat) as Hsum.
  { induction l as [|f l IH]; intros Hl; [done|]. simpl.
    rewrite IH by (intros g Hg; apply Hl; by right).
    destruct (Hfix f) as [H1 H0]; [apply Hl; by left|].
    unfold total in H1, H0. destruct (val f.2); lia. }
  rewrite Hsum by done. lia.
Qed.

(** X8. The constraint [sum(fixes) == len(space) // 2], added as a hint,
    is implied by the constraints that connect fixes and cells: any
    assignment that satisfies these satisfies it. *)
Theorem hint_implied graph space s val :
  setup graph space = Some s ->
  (forall c, c ∈ fix_constraints (fixes s) space (place s) -> holds val c) ->
  (forall c, c ∈ cell_constraints (fixes s) space (place s) -> holds val c) ->
  LinearEq (fixes s).*2 [] (Z.of_nat (length space) `div` 2) []
    ∈ constraints (model s)
  /\ holds val (LinearEq (fixes s).*2 [] (Z.of_nat (length space) `div` 2) []).
Proof.
  intros Hs Hfixc Hcellc. split.
  - destruct (setup_inv _ _ _ Hs) as (cs & Hcs & ->).
    rewrite set_placements_constraints.
    destruct (set_placements_fields cs space) as (_ & _ & -> & _).
    rewrite !elem_of_app. right; left. apply list_elem_of_here.
  - simpl. intros _. rewrite total_nil.
    assert (Z.of_nat (length space) = (2 * total val (fixes s).*2)%Z) as Hlen.
    { apply (cells_twice_fixes val (fixes s) space (place s)).
      - intros c Hc.
        assert (holds val (LinearEq (cell_vars (fixes s) (place s) c) [] 1 []))
          as H.
        { apply Hcellc. unfold cell_constraints. apply list_elem_of_bind.
          exists c. split; [apply list_elem_of_here|done]. }
        simpl in H. rewrite H by constructor. done.
      - intros f Hf.
        assert (holds val (LinearEq (role_vars space (place s) f.1 1) [f.2] 0 [])
                /\ holds val (LinearEq (role_vars space (place s) f.1 0) [f.2] 0 []))
          as [H1 H0].
        { split; apply Hfixc; unfold fix_constraints; apply list_elem_of_bind;
            exists f; (split; [|done]).
          - apply list_elem_of_here.
          - apply list_elem_of_further, list_elem_of_here. }
        simpl in H1, H0. rewrite H1, H0 by constructor.
        rewrite total_singleton. split; lia. }
    rewrite Hlen. rewrite Z.mul_comm, Z.div_mul by lia. lia.
Qed.

End hint.

Lemma hint_implied_witness :
  exists s,
    DominoBraneSolver.setup (DominoDigraph.graph 2) (DominoBraneSolver.Space 2) = Some s
    /\ (forall c, c ∈ DominoBraneSolver.fix_constraints (DominoBraneSolver.fixes s)
                        (DominoBraneSolver.Space 2) (DominoBraneSolver.place s) ->
                  CpModel.holds (Scenario.tiling s) c)
    /\ (forall c, c ∈ DominoBraneSolver.cell_constraints (DominoBraneSolver.fixes s)
                        (DominoBraneSolver.Space 2) (DominoBraneSolver.place s) ->
                  CpModel.holds (Scenario.tiling s) c)
    /\ CpModel.LinearEq (DominoBraneSolver.fixes s).*2 []
         (Z.of_nat (length (DominoBraneSolver.Space 2)) `div` 2) []
       ∈ CpModel.constraints (DominoBraneSolver.model s)
    /\ CpModel.holds (Scenario.tiling s)
         (CpModel.LinearEq (DominoBraneSolver.fixes s).*2 []
            (Z.of_nat (length (DominoBraneSolver.Space 2)) `div` 2) []).
Proof.
  destruct tiling_is_solution as (s & Hs & H).
  assert (forall c, c ∈ DominoBraneSolver.fix_constraints (DominoBraneSolver.fixes s)
                          (DominoBraneSolver.Space 2) (DominoBraneSolver.place s) ->
                    CpModel.holds (Scenario.tiling s) c) as Hf.
  { intros c Hc.
    exact (satisfies_elem _ _ _ H (setup_fix_constraints _ _ _ _ Hs Hc)). }
  assert (forall c, c ∈ DominoBraneSolver.cell_constraints (DominoBraneSolver.fixes s)
                          (DominoBraneSolver.Space 2) (DominoBraneSolver.place s) ->
                    CpModel.holds (Scenario.tiling s) c) as Hc.
  { intros c Hc.
    exact (satisfies_elem _ _ _ H (setup_cell_constraints _ _ _ _ Hs Hc)). }
  exists s. split; [exact Hs|]. split; [exact Hf|]. split; [exact Hc|].
  exact (hint_implied _ _ s (Scenario.tiling s) Hs Hf Hc).
Defined.

(** ** Loading the clues of a puzzle *)

Section puzzle.
Import DominoBraneSolver Puzzle.
Local Open Scope Z_scope.

Lemma list_get_is_Some {A : Type} (l : list A) (i : Z) :
  is_Some (list_get l i) <-> - Z.of_nat (length l) <= i < Z.of_nat (length l).
Proof.
  unfold list_get. destruct (decide (0 <= i)).
  - rewrite lookup_lt_is_Some. lia.
  - destruct (decide (- Z.of_nat (length l) <= i)).
    + rewrite lookup_lt_is_Some. lia.
    + split; [by intros [? ?]|lia].
Qed.

Lemma load_spec puzzle (space sp : list ((Z * Z) * option Z)) :
  load puzzle space = Some sp ->
  sp.*1 = space.*1
  /\ forall c clue, (c, clue) ∈ sp -> clue_at puzzle c = Some clue.
Proof.
  unfold load. rewrite mapM_Some. intros H.
  induction H as [|e e' space sp He _ IH]; [split; [done|by intros c clue ?%elem_of_nil]|].
  destruct IH as [IH1 IH2].
  destruct (clue_at puzzle e.1) as [clue|] eqn:Hc; [|done].
  cbn [mbind option_bind] in He. injection He as <-. split.
  - rewrite !fmap_cons, IH1. done.
  - intros c' clue' [[= -> ->]|H]%elem_of_cons; [done|by apply IH2].
Qed.

Lemma load_is_Some puzzle (space : list ((Z * Z) * option Z)) :
  is_Some (load puzzle space)
  <-> forall c, c ∈ space.*1 -> is_Some (clue_at puzzle c).
Proof.
  unfold load. rewrite mapM_is_Some, Forall_forall. split.
  - intros H c ([c' clue] & -> & Hin)%list_elem_of_fmap.
    specialize (H _ Hin). simpl in *.
    destruct (clue_at puzzle c'); [eauto|by destruct H].
  - intros H [c clue] Hin. simpl.
    destruct (H c) as [x ->]; [by apply (list_elem_of_fmap_2 fst) in Hin|].
    simpl. eauto.
Qed.

Lemma db4_demo_clue (c : Z * Z) :
  0 <= c.1 -> 0 <= c.2 ->
  is_Some (clue_at db4_demo c) <-> c.1 < 5 /\ c.2 < 6.
Proof.
  intros H1 H2. unfold clue_at. split.
  - intros [clue Hc].
    destruct (list_get db4_demo c.2) as [row|] eqn:Hrow; [|done].
    assert (is_Some (list_get db4_demo c.2)) as Hr by eauto.
    apply list_get_is_Some in Hr. simpl in Hr.
    cbn [mbind option_bind] in Hc.
    assert (is_Some (list_get row c.1)) as Hx by eauto.
    apply list_get_is_Some in Hx.
    assert (length row = 5%nat) as Hlen.
    { unfold list_get in Hrow. rewrite decide_True in Hrow by done.
      apply list_elem_of_lookup_2 in Hrow. unfold db4_demo in Hrow.
      repeat (apply elem_of_cons in Hrow as [->|Hrow]; [done|]).
      by apply elem_of_nil in Hrow. }
    rewrite Hlen in Hx. lia.
  - intros [Hx Hy].
    destruct (proj2 (list_get_is_Some db4_demo c.2)) as [row Hrow]; [simpl; lia|].
    rewrite Hrow. cbn [mbind option_bind].
    apply list_get_is_Some.
    assert (length row = 5%nat) as Hlen.
    { unfold list_get in Hrow. rewrite decide_True in Hrow by done.
      apply list_elem_of_lookup_2 in Hrow. unfold db4_demo in Hrow.
      repeat (apply elem_of_cons in Hrow as [->|Hrow]; [done|]).
      by apply elem_of_nil in Hrow. }
    rewrite Hlen. lia.
Qed.

(** X9. Loading a puzzle keeps the cells of the space and their order and
    gives each cell the entry [puzzle[y][x]]; it raises [IndexError] when
    a cell falls outside the puzzle.  With the built-in puzzle of six rows
    of five, [solve_domino_digraph(scale)] gets its space exactly when
    [scale <= 4]. *)
Theorem demo_puzzle_bounds :
  (forall puzzle space sp,
     load puzzle space = Some sp ->
     sp.*1 = space.*1
     /\ forall c clue, (c, clue) ∈ sp -> clue_at puzzle c = Some clue)
  /\ (forall puzzle space,
        load puzzle space = None
        <-> exists c, c ∈ space.*1 /\ clue_at puzzle c = None)
  /\ (forall scale, is_Some (demo_space scale) <-> scale <= 4).
Proof.
  split; [apply load_spec|]. split.
  - intros puzzle space. rewrite eq_None_not_Some, load_is_Some. split.
    + intros H.
      assert (¬ Forall (λ c, is_Some (clue_at puzzle c)) space.*1) as H'
        by (by rewrite Forall_forall).
      apply not_Forall_Exists in H'; [|apply _].
      apply Exists_exists in H' as (c & Hc & Hn).
      exists c. split; [done|]. by apply eq_None_not_Some.
    + intros (c & Hc & Hn) H. specialize (H c Hc). rewrite Hn in H.
      by destruct H.
  - intros scale. unfold demo_space. rewrite load_is_Some. split.
    + intros H. destruct (Z.le_gt_cases scale 4) as [|Hgt]; [done|].
      assert ((0, scale + 1) ∈ (Space scale).*1) as Hin.
      { apply list_elem_of_fmap. exists ((0, scale + 1), None). split; [done|].
        apply Space_elem. simpl. split; [done|lia]. }
      apply H, db4_demo_clue in Hin; simpl in *; lia.
    + intros Hs c ([c' clue] & -> & (_ & H1 & H2)%Space_elem)%list_elem_of_fmap.
      simpl in *. apply db4_demo_clue; lia.
Qed.

End puzzle.

(** ** The tour of a circuit constraint *)

Section circuit_tour.
Import CpModel CircuitTour.
Context (val : nat -> bool) (L : list (nat * nat * nat)).

Local Abbreviation succ := (successor val L).

Lemma filter_one_unique {A : Type} (P : A -> Prop) `{forall x, Decision (P x)}
    (l : list A) (a b : A) :
  length (filter P l) = 1%nat -> a ∈ l -> b ∈ l -> P a -> P b -> a = b.
Proof.
  intros Hlen Ha Hb HPa HPb.
  assert (a ∈ filter P l) as Ha' by (by apply list_elem_of_filter).
  assert (b ∈ filter P l) as Hb' by (by apply list_elem_of_filter).
  destruct (filter P l) as [|x [|y l']]; try done.
  apply list_elem_of_singleton in Ha', Hb'. congruence.
Qed.

(** The arc that [successor] follows. *)
Lemma successor_arc n :
  out_degree val L n = 1%nat ->
  exists a, a ∈ L /\ head a = n /\ val (arc_var a) = true /\ succ n = tail a.
Proof.
  unfold out_degree, successor, Py.next_where. intros Hlen.
  destruct (filter (λ a, head a = n ∧ val (arc_var a) = true) L) as [|x l] eqn:E;
    [done|].
  assert (x ∈ filter (λ a, head a = n ∧ val (arc_var a) = true) L) as Hx
    by (rewrite E; apply list_elem_of_here).
  apply list_elem_of_filter in Hx as [HP Hx].
  destruct (list_find_elem_of (λ a, head a = n ∧ val (arc_var a) = true) L x Hx HP)
    as [[i y] Hy].
  rewrite Hy. simpl. apply list_find_Some in Hy as (Hi & [H1 H2] & _).
  exists y. split_and!; try done. by apply list_elem_of_lookup_2 in Hi.
Qed.

Hypothesis Hc : circuit_holds val L.

Lemma circuit_degrees n :
  n ∈ nodes L -> out_degree val L n = 1%nat /\ in_degree val L n = 1%nat.
Proof.
  intros Hn. destruct Hc as [Hdeg _]. rewrite Forall_forall in Hdeg. by apply Hdeg.
Qed.

Lemma circuit_out_unique (a b : nat * nat * nat) :
  a ∈ L -> b ∈ L -> head a = head b ->
  val (arc_var a) = true -> val (arc_var b) = true -> a = b.
Proof.
  intros Ha Hb Hh Hva Hvb.
  assert (head b ∈ nodes L) as Hn by (apply nodes_elem; exists b; auto).
  destruct (circuit_degrees _ Hn) as [Hout _].
  by apply (filter_one_unique _ L a b Hout).
Qed.

Lemma circuit_in_unique (a b : nat * nat * nat) :
  a ∈ L -> b ∈ L -> tail a = tail b ->
  val (arc_var a) = true -> val (arc_var b) = true -> a = b.
Proof.
  intros Ha Hb Hh Hva Hvb.
  assert (tail b ∈ nodes L) as Hn by (apply nodes_elem; exists b; auto).
  destruct (circuit_degrees _ Hn) as [_ Hin].
  by apply (filter_one_unique _ L a b Hin).
Qed.

Lemma successor_on_tour n :
  on_tour val L n ->
  on_tour val L (succ n) /\ succ n ≠ n
  /\ exists a, a ∈ L /\ head a = n /\ tail a = succ n /\ val (arc_var a) = true.
Proof.
  intros [Hn Hns]. destruct (circuit_degrees n Hn) as [Hout _].
  destruct (successor_arc n Hout) as (a & Ha & Hh & Hv & Hs).
  assert (succ n ≠ n) as Hne.
  { intros Heq. apply Hns. unfold skipped. apply Exists_exists.
    exists a. split_and!; [done|done|congruence|done]. }
  split; [|split; [done|by exists a]]. split.
  - apply nodes_elem. exists a. auto.
  - intros (b & Hb & Hbh & Hbt & Hbv)%Exists_exists.
    assert (a = b) as -> by (apply circuit_in_unique; [done|done|congruence|done|done]).
    congruence.
Qed.

Lemma walk_length k n : length (walk val L k n) = k.
Proof. revert n. induction k as [|k IH]; intros n; simpl; [done|]. by rewrite IH. Qed.

Lemma walk_lookup k n i :
  (i < k)%nat -> walk val L k n !! i = Some (Nat.iter i succ n).
Proof.
  revert n i. induction k as [|k IH]; intros n i Hi; [lia|].
  destruct i as [|i]; [done|]. simpl walk. rewrite lookup_cons.
  rewrite IH by lia. by rewrite Nat.iter_succ_r.
Qed.

Lemma walk_elem k n m :
  m ∈ walk val L k n <-> exists i, (i < k)%nat /\ m = Nat.iter i succ n.
Proof.
  rewrite list_elem_of_lookup. split.
  - intros (i & Hi). assert (i < k)%nat as Hlt.
    { apply lookup_lt_Some in Hi. by rewrite walk_length in Hi. }
    rewrite walk_lookup in Hi by done. exists i. split; [done|congruence].
  - intros (i & Hi & ->). exists i. by apply walk_lookup.
Qed.

Lemma iter_on_tour i n : on_tour val L n -> on_tour val L (Nat.iter i succ n).
Proof.
  intros Hn. induction i as [|i IH]; [done|]. simpl. by apply successor_on_tour.
Qed.

(** The walk from the first node of the tour visits every node of the tour
    once and returns to where it began. *)
Lemma circuit_cycle n0 rest :
  filter (λ n, ¬ skipped val L n) (nodes L) = n0 :: rest ->
  walk val L (S (length rest)) n0 ≡ₚ n0 :: rest
  /\ NoDup (walk val L (S (length rest)) n0)
  /\ Nat.iter (S (length rest)) succ n0 = n0.
Proof.
  intros HK.
  assert (forall n, n ∈ n0 :: rest <-> on_tour val L n) as HKelem.
  { intros n. rewrite <- HK, list_elem_of_filter. unfold on_tour. tauto. }
  assert (NoDup (n0 :: rest)) as HKnd.
  { rewrite <- HK. apply NoDup_filter, NoDup_remove_dups. }
  assert (on_tour val L n0) as Hn0 by (apply HKelem, list_elem_of_here).
  set (W := walk val L (S (length rest)) n0).
  assert (forall n, n ∈ n0 :: rest -> n ∈ W) as Hcover.
  { intros n [->|Hn]%elem_of_cons; [apply list_elem_of_here|].
    destruct Hc as [_ Hwalk]. rewrite HK in Hwalk.
    rewrite Forall_forall in Hwalk. by apply Hwalk. }
  assert (W ≡ₚ n0 :: rest) as Hperm.
  { symmetry. apply submseteq_length_Permutation.
    - by apply NoDup_submseteq.
    - unfold W. rewrite walk_length. simpl. lia. }
  assert (NoDup W) as HWnd by (by rewrite Hperm).
  split; [done|]. split; [done|].
  set (r := length rest) in *.
  assert (on_tour val L (Nat.iter (S r) succ n0)) as Hm by (by apply iter_on_tour).
  apply HKelem, Hcover, walk_elem in Hm as (j & Hj & Hm).
  destruct j as [|j]; [done|]. exfalso.
  destruct (successor_on_tour (Nat.iter j succ n0) (iter_on_tour j n0 Hn0))
    as (_ & _ & a & Ha & Hah & Hat & Hav).
  destruct (successor_on_tour (Nat.iter r succ n0) (iter_on_tour r n0 Hn0))
    as (_ & _ & b & Hb & Hbh & Hbt & Hbv).
  assert (a = b) as Hab.
  { apply circuit_in_unique; try done. rewrite Hat, Hbt. simpl in Hm. congruence. }
  assert (j = r) as ->; [|lia].
  apply (NoDup_lookup W j r (Nat.iter j succ n0)); [done| |]; unfold W.
  - apply walk_lookup. lia.
  - rewrite walk_lookup by lia. f_equal. congruence.
Qed.

End circuit_tour.

Section tour_arcs.
Import CpModel CircuitTour Renderer.
Context (val : nat -> bool) (A Lp : list (nat * nat * nat)).
Hypothesis Hc : circuit_holds val (A ++ Lp).
Hypothesis HA : forall a, a ∈ A -> head a ≠ tail a.
Hypothesis HLp : forall a, a ∈ Lp -> tail a = head a.

Local Abbreviation L := (A ++ Lp).
Local Abbreviation succ := (successor val L).

(** The arcs of the path along a walk. *)
Lemma path_arcs_walk k n fin (u v : nat) :
  (u, v) ∈ path_arcs n (walk val L k (succ n)) fin
  <-> (exists i, (i < k)%nat /\ u = Nat.iter i succ n /\ v = Nat.iter (S i) succ n)
      \/ (u = Nat.iter k succ n /\ v = fin).
Proof.
  revert n. induction k as [|k IH]; intros n.
  - simpl. rewrite list_elem_of_singleton. split.
    + intros [= -> ->]. by right.
    + intros [(i & Hi & _)|[-> ->]]; [lia|done].
  - simpl walk. cbn [path_arcs]. rewrite elem_of_cons, IH. split.
    + intros [[= -> ->]|[(i & Hi & -> & ->)|[-> ->]]].
      * left. exists 0%nat. split; [lia|done].
      * left. exists (S i). split; [lia|]. by rewrite <- !Nat.iter_succ_r.
      * right. by rewrite <- Nat.iter_succ_r.
    + intros [(i & Hi & -> & ->)|[-> ->]].
      * destruct i as [|i]; [by left|]. right; left. exists i.
        split; [lia|]. by rewrite <- !Nat.iter_succ_r.
      * right; right. by rewrite <- Nat.iter_succ_r.
Qed.

Lemma tour_arcs_walk k n (u v : nat) :
  Nat.iter (S k) succ n = n ->
  (u, v) ∈ tour_arcs (walk val L (S k) n) <-> u ∈ walk val L (S k) n /\ v = succ u.
Proof.
  intros Hclose. rewrite (walk_elem val L (S k) n u).
  simpl walk. cbn [tour_arcs]. rewrite path_arcs_walk. split.
  - intros [(i & Hi & -> & ->)|[-> ->]].
    + split; [exists i; split; [lia|done]|done].
    + split; [exists k; split; [lia|done]|]. symmetry. exact Hclose.
  - intros [(i & Hi & ->) ->]. destruct (decide (i = k)) as [->|Hne].
    + right. split; [done|]. exact Hclose.
    + left. exists i. split; [lia|done].
Qed.

Lemma true_arc_head_on_tour (a : nat * nat * nat) :
  a ∈ A -> val (arc_var a) = true ->
  on_tour val L (head a) /\ tail a = succ (head a).
Proof.
  intros Ha Hv.
  assert (a ∈ L) as HaL by (apply elem_of_app; by left).
  assert (head a ∈ nodes L) as Hn by (apply nodes_elem; exists a; auto).
  assert (¬ skipped val L (head a)) as Hns.
  { intros (b & Hb & Hbh & Hbt & Hbv)%Exists_exists.
    assert (a = b) as -> by (by apply (circuit_out_unique val L Hc)).
    apply (HA b Ha). congruence. }
  split; [done|].
  destruct (successor_on_tour val L Hc (head a) (conj Hn Hns))
    as (_ & _ & b & Hb & Hbh & Hbt & Hbv).
  assert (a = b) as -> by (by apply (circuit_out_unique val L Hc)).
  done.
Qed.

Lemma tour_node_true_arc n :
  on_tour val L n ->
  exists a, a ∈ A /\ head a = n /\ tail a = succ n /\ val (arc_var a) = true.
Proof.
  intros Hn.
  destruct (successor_on_tour val L Hc n Hn) as (_ & Hne & a & Ha & Hh & Ht & Hv).
  exists a. split; [|done].
  apply elem_of_app in Ha as [Ha|Ha]; [done|].
  destruct Hne. rewrite <- Ht, <- Hh. by apply HLp.
Qed.

Lemma true_heads_NoDup (l : list (nat * nat * nat)) :
  (forall n, (out_degree val l n <= 1)%nat) ->
  NoDup (head <$> filter (λ a, val (arc_var a) = true) l).
Proof.
  induction l as [|a l IH]; intros Hdeg; [apply NoDup_nil_2|].
  assert (forall n, (out_degree val l n <= 1)%nat) as Hdeg'.
  { intros n. specialize (Hdeg n). rewrite out_degree_cons in Hdeg. lia. }
  rewrite filter_cons. destruct (decide (val (arc_var a) = true)) as [Hv|Hv];
    [|by apply IH].
  rewrite fmap_cons. apply NoDup_cons. split; [|by apply IH].
  intros (b & Hb & [Hbv Hbl]%list_elem_of_filter)%list_elem_of_fmap.
  specialize (Hdeg (head a)). rewrite out_degree_cons, decide_True in Hdeg by done.
  assert (b ∈ filter (λ a0, head a0 = head a ∧ val (arc_var a0) = true) l) as Hin
    by (by apply list_elem_of_filter).
  unfold out_degree in Hdeg.
  destruct (filter (λ a0, head a0 = head a ∧ val (arc_var a0) = true) l);
    [by apply elem_of_nil in Hin|simpl in Hdeg; lia].
Qed.

Lemma arcs_out_degree_le n : (out_degree val A n <= 1)%nat.
Proof.
  destruct (decide (n ∈ nodes L)) as [Hn|Hn].
  - destruct (circuit_degrees val L Hc n Hn) as [Hout _].
    rewrite out_degree_app in Hout. lia.
  - rewrite out_degree_none; [lia|]. intros a Ha Hh. apply Hn.
    apply nodes_elem. exists a. split; [apply elem_of_app; by left|by left].
Qed.

(** The true arcs are the arcs of the closed tour along the walk. *)
Lemma tour_true_arcs n0 rest :
  filter (λ n, ¬ skipped val L n) (nodes L) = n0 :: rest ->
  (λ a, (head a, tail a)) <$> filter (λ a, val (arc_var a) = true) A
  ≡ₚ tour_arcs (walk val L (S (length rest)) n0).
Proof.
  intros HK.
  destruct (circuit_cycle val L Hc n0 rest HK) as (Hperm & Hnd & Hclose).
  assert (forall n, n ∈ walk val L (S (length rest)) n0 <-> on_tour val L n)
    as HW.
  { intros n. rewrite Hperm, <- HK, list_elem_of_filter. unfold on_tour. tauto. }
  apply NoDup_Permutation.
  - apply (NoDup_fmap_1 fst). rewrite <- list_fmap_compose.
    apply true_heads_NoDup, arcs_out_degree_le.
  - apply (NoDup_fmap_1 fst). simpl walk. cbn [tour_arcs].
    rewrite path_arcs_heads. exact Hnd.
  - intros [u v]. rewrite (tour_arcs_walk _ _ u v Hclose), HW. split.
    + intros (a & [= -> ->] & [Hv Ha]%list_elem_of_filter)%list_elem_of_fmap.
      by apply true_arc_head_on_tour.
    + intros [Hu ->].
      destruct (tour_node_true_arc u Hu) as (a & Ha & Hh & Ht & Hv).
      apply list_elem_of_fmap. exists a. split; [by rewrite Hh, Ht|].
      by apply list_elem_of_filter.
Qed.

(** When every node is excluded, no arc is true. *)
Lemma no_tour_no_arcs :
  filter (λ n, ¬ skipped val L n) (nodes L) = [] ->
  filter (λ a, val (arc_var a) = true) A = [].
Proof.
  intros HK. destruct (filter _ A) as [|a T] eqn:E; [done|].
  assert (a ∈ filter (λ a, val (arc_var a) = true) A) as Ha
    by (rewrite E; apply list_elem_of_here).
  apply list_elem_of_filter in Ha as [Hv Ha].
  destruct (true_arc_head_on_tour a Ha Hv) as [[Hn Hns] _].
  assert (head a ∈ filter (λ n, ¬ skipped val L n) (nodes L)) as Hin
    by (by apply list_elem_of_filter).
  rewrite HK in Hin. by apply elem_of_nil in Hin.
Qed.

End tour_arcs.

(** ** How [set_circuit] wires the arcs *)

Section wiring.
Import CpModel DominoBraneSolver.

Lemma wired_mono fixes cons cons' a l :
  cons `prefix_of` cons' -> wired fixes cons a l -> wired fixes cons' a l.
Proof.
  intros Hp (H1 & H2 & H3 & fh & ft & H4 & H5 & H6 & H7 & H8 & H9).
  split_and!; try done. exists fh, ft.
  split_and!; try done; by apply (elem_of_prefix cons).
Qed.

Lemma tail_arcs_wired fixes (h : Z * Z) ts tv m tv' arcs' m' :
  tail_arcs fixes h ts tv m = Some (tv', arcs', m') ->
  NoDup ts -> (forall t, t ∈ ts -> t ∉ tv.*1) ->
  exists new,
    tv' = tv ++ new
    /\ Forall2 (wired fixes (constraints m')) arcs'
         ((λ e : (Z * Z) * nat, ((h, e.1), e.2)) <$> new).
Proof.
  revert tv m tv' arcs' m'.
  induction ts as [|t ts IH]; intros tv m tv' arcs' m'; simpl.
  - intros [= <- <- <-] _ _. exists []. rewrite app_nil_r. split; [done|constructor].
  - destruct (Py.dict_get h fixes) as [fh|] eqn:Hfh; simpl; [|done].
    destruct (Py.dict_get t fixes) as [ft|] eqn:Hft; simpl; [|done].
    destruct (idx fixes h) as [ih|] eqn:Hih; simpl; [|done].
    destruct (idx fixes t) as [it|] eqn:Hit; simpl; [|done].
    destruct (tail_arcs fixes h ts _ _) as [[[tv1 arcs1] m1]|] eqn:Hrec; simpl; [|done].
    intros [= <- <- <-] [Ht Hnd]%NoDup_cons Hfresh.
    pose proof (tail_arcs_spec _ _ _ _ _ _ _ _ Hrec) as (Hp & _ & _).
    apply IH in Hrec as (new & Htv & Hall); [|done|].
    + exists ((t, n_vars m) :: new). split.
      * rewrite Htv, dict_set_fresh by (apply Hfresh, list_elem_of_here).
        by rewrite <- app_assoc.
      * rewrite fmap_cons. constructor; [|done].
        split_and!; try done. exists fh, ft. split_and!; try done;
          (eapply elem_of_prefix; [|exact Hp]); simpl;
          rewrite !elem_of_app, !list_elem_of_singleton; auto 10.
    + intros t' Ht'. rewrite dict_set_keys_elem. intros [->|Hin]; [done|].
      by apply (Hfresh t'); [apply list_elem_of_further|].
Qed.

Lemma head_arcs_wired fixes n (hs : list ((Z * Z) * list (Z * Z))) m
    dir d_arcs d_loops m' :
  head_arcs fixes n hs m = Some (dir, d_arcs, d_loops, m') ->
  Forall (λ e : (Z * Z) * list (Z * Z), NoDup e.2) hs ->
  Forall2 (wired fixes (constraints m')) d_arcs
    (hd ← dir; tv ← tail_vars hd.2; [((hd.1, tv.1), tv.2)]).
Proof.
  revert m dir d_arcs d_loops m'.
  induction hs as [|[h ts] hs IH]; intros m dir d_arcs d_loops m'; simpl.
  - intros [= <- <- <- <-] _. constructor.
  - intros Hsome Hnds. revert Hsome.
    destruct (tail_arcs fixes h ts [] m) as [[[tv h_arcs] m1]|] eqn:Ht; simpl; [|done].
    apply tail_arcs_wired in Ht as (new & -> & Hw);
      [| |by intros ? _ []%elem_of_nil].
    2:{ by apply Forall_cons in Hnds as [? _]. }
    assert (new ≫= (λ tv : (Z * Z) * nat, [((h, tv.1), tv.2)])
            = (λ e : (Z * Z) * nat, ((h, e.1), e.2)) <$> new) as Hnew.
    { clear. induction new as [|x new IH]; [done|].
      rewrite bind_cons, fmap_cons, IH. done. }
    apply Forall_cons in Hnds as [_ Hall].
    destruct (decide (1 < n)%nat) as [Hn|Hn].
    + destruct (idx fixes h) as [ih|] eqn:Hih; simpl; [|done].
      destruct (head_arcs fixes n hs _) as [[[[dir1 arcs1] loops1] m3]|] eqn:Hrec;
        simpl; [|done].
      intros [= <- <- <- <-].
      pose proof (head_arcs_spec _ _ _ _ _ _ _ _ Hrec) as (Hp & _).
      apply IH in Hrec; [|done].
      rewrite bind_cons. apply Forall2_app; [|done]. simpl. rewrite Hnew.
      eapply Forall2_impl; [exact Hw|]. intros a l. by apply wired_mono.
    + simpl.
      destruct (head_arcs fixes n hs m1) as [[[[dir1 arcs1] loops1] m3]|] eqn:Hrec;
        simpl; [|done].
      intros [= <- <- <- <-].
      pose proof (head_arcs_spec _ _ _ _ _ _ _ _ Hrec) as (Hp & _).
      apply IH in Hrec; [|done].
      rewrite bind_cons. apply Forall2_app; [|done]. simpl. rewrite Hnew.
      eapply Forall2_impl; [exact Hw|]. intros a l. by apply wired_mono.
Qed.

Lemma links_cons (dd : (Z * Z) * list ((Z * Z) * head_dir))
    (cg : list ((Z * Z) * list ((Z * Z) * head_dir))) :
  links (dd :: cg)
  = (hd ← dd.2; tv ← tail_vars hd.2; [((hd.1, tv.1), tv.2)]) ++ links cg.
Proof. unfold links. by rewrite bind_cons. Qed.

Lemma piece_arcs_wired fixes (graph : graph_t) m (cg : cgraph_t)
    (arcs loops : list arc) m' :
  piece_arcs fixes graph m = Some (cg, arcs, loops, m') ->
  tails_distinct graph ->
  Forall2 (wired fixes (constraints m')) arcs (links cg).
Proof.
  revert m cg arcs loops m'.
  induction graph as [|[d fs] graph IH]; intros m cg arcs loops m'; simpl.
  - intros [= <- <- <- <-] _. constructor.
  - destruct (head_arcs fixes (length fs) fs m) as [[[[dir d_arcs] d_loops] m1]|] eqn:Hh;
      simpl; [|done].
    destruct (piece_arcs fixes graph _) as [[[[cg1 arcs1] loops1] m2]|] eqn:Hrec;
      simpl; [|done].
    intros [= <- <- <- <-] [Hnd Hall]%Forall_cons.
    pose proof (piece_arcs_spec _ _ _ _ _ _ _ Hrec) as (Hp & _).
    apply IH in Hrec; [|done].
    apply head_arcs_wired in Hh; [|done].
    rewrite links_cons. apply Forall2_app; [|done]. simpl.
    eapply Forall2_impl; [exact Hh|]. intros a l. apply wired_mono.
    etrans; [|exact Hp]. apply Add_prefix.
Qed.

Lemma set_circuit_wired (graph : graph_t) m cs :
  set_circuit graph m = Some cs -> tails_distinct graph ->
  Forall2 (wired (cs_fixes cs) (constraints (cs_model cs))) (cs_arcs cs)
    (links (cs_graph cs)).
Proof.
  unfold set_circuit. destruct (new_fixes _ _ _) as [fixes m1] eqn:Hnf.
  destruct (piece_arcs fixes graph m1) as [[[[cg arcs] loops] m2]|] eqn:Hp;
    simpl; [|done].
  intros [= <-] Htd. simpl.
  apply piece_arcs_wired in Hp; [|done].
  eapply Forall2_impl; [exact Hp|]. intros a l. apply wired_mono.
  simpl. rewrite <- app_assoc. by apply prefix_app_r.
Qed.

End wiring.

(** ** The chain of a solution *)

Section solution_chain.
Import CpModel CircuitTour DominoBraneSolver Renderer.

Lemma Forall2_filter {A B : Type} (R : A -> B -> Prop) (P : A -> Prop) (Q : B -> Prop)
    `{forall x, Decision (P x)} `{forall y, Decision (Q y)} (l : list A) (k : list B) :
  Forall2 R l k -> (forall a b, R a b -> (P a <-> Q b)) ->
  Forall2 R (filter P l) (filter Q k).
Proof.
  intros Hall HPQ. induction Hall as [|a b l k Hab _ IH]; [constructor|].
  rewrite !filter_cons.
  destruct (decide (P a)) as [HP|HP], (decide (Q b)) as [HQ|HQ]; try done.
  - by constructor.
  - by apply (HPQ a b Hab) in HP.
  - by apply (HPQ a b Hab) in HQ.
Qed.

Lemma Forall2_fmap_eq {A B C : Type} (R : A -> B -> Prop) (f : A -> C) (g : B -> C)
    (l : list A) (k : list B) :
  Forall2 R l k -> (forall a b, R a b -> f a = g b) -> f <$> l = g <$> k.
Proof.
  intros Hall Hfg. induction Hall as [|a b l k Hab _ IH]; [done|].
  rewrite !fmap_cons, IH. f_equal. by apply Hfg.
Qed.

Lemma used_arcs_links (val : nat -> bool)
    (cg : list ((Z * Z) * list ((Z * Z) * head_dir))) :
  used_arcs val cg = fst <$> filter (λ l, val l.2 = true) (links cg).
Proof.
  unfold used_arcs, links.
  induction cg as [|fs cg IH]; [done|].
  rewrite !bind_cons, filter_app, fmap_app, IH. f_equal. clear IH.
  induction fs.2 as [|hd hds IH]; [done|].
  rewrite !bind_cons, filter_app, fmap_app, IH. f_equal. clear IH.
  induction (tail_vars hd.2) as [|tv tvs IH]; [done|].
  rewrite !bind_cons, filter_app, fmap_app, IH. f_equal.
  rewrite filter_cons, filter_nil. simpl. by case_decide.
Qed.

Lemma path_arcs_fmap {N M : Type} (f : N -> M) n rest fin :
  path_arcs (f n) (f <$> rest) (f fin) = prod_map f f <$> path_arcs n rest fin.
Proof.
  revert n. induction rest as [|m rest IH]; intros n; [done|].
  rewrite fmap_cons. cbn [path_arcs]. by rewrite IH, fmap_cons.
Qed.

Lemma tour_arcs_fmap {N M : Type} (f : N -> M) (c : list N) :
  tour_arcs (f <$> c) = prod_map f f <$> tour_arcs c.
Proof. destruct c as [|n rest]; [done|]. apply path_arcs_fmap. Qed.

Lemma tour_arcs_length {N : Type} (c : list N) : length (tour_arcs c) = length c.
Proof.
  destruct c as [|n rest]; [done|]. cbn [tour_arcs].
  rewrite <- (length_fmap fst), path_arcs_heads. done.
Qed.

Lemma fix_at_idx fixes (h : Z * Z) i : idx fixes h = Some i -> fix_at fixes i = h.
Proof. unfold idx, fix_at. intros Hi%index_of_Some. by rewrite Hi. Qed.

Lemma idx_fix_at fixes i :
  NoDup fixes.*1 -> (i < length fixes)%nat -> idx fixes (fix_at fixes i) = Some i.
Proof.
  intros Hnd Hi. unfold idx, fix_at.
  destruct (lookup_lt_is_Some_2 fixes.*1 i) as [h Hh]; [by rewrite length_fmap|].
  rewrite Hh. simpl. by apply index_of_lookup.
Qed.

(** The circuit constraint holds in a solution. *)
Lemma solution_circuit graph space s val :
  setup graph space = Some s -> satisfies val (model s) ->
  circuit_holds val (arcs s ++ loops s).
Proof.
  intros Hs Hval. destruct (setup_inv _ _ _ Hs) as (cs & Hcs & Heq).
  destruct (set_circuit_spec _ _ _ Hcs) as (_ & _ & _ & _ & _ & _ & Hcirc & _).
  destruct (set_placements_fields cs space) as (_ & _ & _ & Ea & El).
  rewrite <- Heq in Ea, El. rewrite Ea, El.
  exact (satisfies_elem _ _ _ Hval
           (setup_circuit_constraints graph space s cs _ Hcs Heq Hcirc)).
Qed.

Lemma solution_wired graph space s :
  setup graph space = Some s -> tails_distinct graph ->
  Forall2 (wired (fixes s) (constraints (model s))) (arcs s)
    (links (DominoBraneSolver.graph s)).
Proof.
  intros Hs Htd. destruct (setup_inv _ _ _ Hs) as (cs & Hcs & Heq).
  destruct (set_placements_fields cs space) as (Eg & _ & Ef & Ea & _).
  rewrite <- Heq in Eg, Ef, Ea. rewrite Eg, Ef, Ea.
  eapply Forall2_impl; [exact (set_circuit_wired _ _ _ Hcs Htd)|].
  intros a l (H1 & H2 & H3 & fh & ft & H4 & H5 & H6 & H7 & H8 & H9).
  split_and!; try done. exists fh, ft.
  split_and!; try done;
    by apply (setup_circuit_constraints graph space s cs _ Hcs Heq).
Qed.

Lemma solution_arc_count graph space s val :
  setup graph space = Some s -> satisfies val (model s) ->
  length (filter (λ a, val (arc_var a) = true) (arcs s)) = length graph.
Proof.
  intros Hs Hval. destruct (setup_inv _ _ _ Hs) as (cs & Hcs & Heq).
  destruct (set_circuit_spec _ _ _ Hcs) as (_ & _ & _ & _ & _ & Hsum & _).
  destruct (set_placements_fields cs space) as (_ & _ & _ & Ea & _).
  rewrite <- Heq in Ea. rewrite Ea.
  pose proof (satisfies_elem _ _ _ Hval
                (setup_circuit_constraints graph space s cs _ Hcs Heq Hsum)) as H.
  simpl in H. specialize (H (Forall_nil_2 _)).
  rewrite total_count, total_nil in H. lia.
Qed.

Lemma solution_arcs_shape graph space s :
  setup graph space = Some s -> no_self_tail graph ->
  (forall a, a ∈ arcs s -> head a ≠ tail a)
  /\ (forall a, a ∈ loops s -> tail a = head a)
  /\ (forall n, n ∈ nodes (arcs s ++ loops s) -> (n < length (fixes s))%nat)
  /\ NoDup (fixes s).*1.
Proof.
  intros Hs Hself. destruct (setup_inv _ _ _ Hs) as (cs & Hcs & Heq).
  destruct (set_circuit_spec _ _ _ Hcs) as (Hnd & _ & _ & Harcs & Hloops & _).
  destruct (set_placements_fields cs space) as (_ & _ & Ef & Ea & El).
  rewrite <- Heq in Ef, Ea, El. rewrite Ef, Ea, El. split_and!.
  - intros a. by apply (arcs_no_self_loop (cs_fixes cs) graph).
  - intros a. by apply (loops_are_loops (cs_fixes cs) graph).
  - intros n. by apply (circuit_nodes_bound graph).
  - done.
Qed.

(** The nodes on the tour of a solution, in the order of the tour, and
    the arcs the renderer is given. *)
Lemma solution_tour (graph : graph_t) space s val :
  setup graph space = Some s ->
  no_self_tail graph -> tails_distinct graph -> graph ≠ [] ->
  satisfies val (model s) ->
  exists W,
    W ≠ [] /\ NoDup W
    /\ (forall n, n ∈ W <-> on_tour val (arcs s ++ loops s) n)
    /\ length W = length graph
    /\ NoDup (fix_at (fixes s) <$> W)
    /\ used_arcs val (DominoBraneSolver.graph s)
       ≡ₚ tour_arcs (fix_at (fixes s) <$> W).
Proof.
  intros Hs Hself Htd Hne Hval.
  pose proof (solution_circuit _ _ _ _ Hs Hval) as Hc.
  destruct (solution_arcs_shape _ _ _ Hs Hself) as (HA & HLp & Hbound & Hnd).
  pose proof (solution_arc_count _ _ _ _ Hs Hval) as Hcount.
  pose proof (solution_wired _ _ _ Hs Htd) as Hw.
  destruct (filter (λ n, ¬ skipped val (arcs s ++ loops s) n)
              (nodes (arcs s ++ loops s))) as [|n0 rest] eqn:HK.
  { rewrite (no_tour_no_arcs val _ _ Hc HA HK) in Hcount.
    destruct graph; [done|discriminate Hcount]. }
  pose proof (tour_true_arcs val _ _ Hc HA HLp n0 rest HK) as Htour.
  destruct (circuit_cycle val _ Hc n0 rest HK) as (Hperm & HWnd & _).
  set (W := walk val (arcs s ++ loops s) (S (length rest)) n0) in *.
  assert (forall n, n ∈ W <-> on_tour val (arcs s ++ loops s) n) as HW.
  { intros n. rewrite Hperm, <- HK, list_elem_of_filter. unfold on_tour. tauto. }
  assert (used_arcs val (DominoBraneSolver.graph s)
          = prod_map (fix_at (fixes s)) (fix_at (fixes s))
              <$> ((λ a, (head a, tail a))
                     <$> filter (λ a, val (arc_var a) = true) (arcs s))) as Hused.
  { rewrite used_arcs_links, <- list_fmap_compose. symmetry.
    apply (Forall2_fmap_eq (wired (fixes s) (constraints (model s)))).
    - apply Forall2_filter; [done|]. intros a l (_ & _ & <- & _). done.
    - intros a [[h t] x] (H1 & H2 & _). simpl in *.
      by rewrite (fix_at_idx _ _ _ H1), (fix_at_idx _ _ _ H2). }
  exists W. split_and!.
  - unfold W. done.
  - done.
  - done.
  - rewrite <- Hcount, <- (tour_arcs_length W), <- Htour. by rewrite length_fmap.
  - apply NoDup_fmap_2_strong; [|done].
    intros i j Hi Hj Heq.
    assert (i < length (fixes s))%nat as Hil by (apply Hbound, HW, Hi).
    assert (j < length (fixes s))%nat as Hjl by (apply Hbound, HW, Hj).
    pose proof (idx_fix_at _ i Hnd Hil) as H1.
    pose proof (idx_fix_at _ j Hnd Hjl) as H2.
    rewrite Heq in H1. congruence.
  - rewrite Hused, Htour, tour_arcs_fmap. done.
Qed.

End solution_chain.

Section chain_theorems.
Import CpModel CircuitTour DominoBraneSolver Renderer.

Lemma graph_nonempty size : (0 <= size)%Z -> DominoDigraph.graph size ≠ [].
Proof.
  intros Hs Hnil. pose proof (dominoes_length size Hs) as H.
  rewrite <- graph_length, Hnil in H. simpl in H. lia.
Qed.

(** An arc of the circuit with its entry in the graph. *)
Lemma wired_arc_link fixes cons (arcs : list (nat * nat * nat))
    (ls : list (((Z * Z) * (Z * Z)) * nat)) a :
  Forall2 (wired fixes cons) arcs ls -> a ∈ arcs ->
  exists l, l ∈ ls /\ wired fixes cons a l.
Proof.
  intros Hall (i & Hi)%list_elem_of_lookup.
  destruct (Forall2_lookup_l _ _ _ _ _ Hall Hi) as (l & Hl & Hw).
  exists l. split; [by apply list_elem_of_lookup_2 in Hl|done].
Qed.

Lemma wired_link_arc fixes cons (arcs : list (nat * nat * nat))
    (ls : list (((Z * Z) * (Z * Z)) * nat)) l :
  Forall2 (wired fixes cons) arcs ls -> l ∈ ls ->
  exists a, a ∈ arcs /\ wired fixes cons a l.
Proof.
  intros Hall (i & Hi)%list_elem_of_lookup.
  destruct (Forall2_lookup_r _ _ _ _ _ Hall Hi) as (a & Ha & Hw).
  exists a. split; [by apply list_elem_of_lookup_2 in Ha|done].
Qed.

(** A link of the graph joins a fix to one of its tails. *)
Lemma link_tail (graph : graph_t) space s (h t : Z * Z) x :
  setup graph space = Some s -> tails_distinct graph ->
  ((h, t), x) ∈ links (DominoBraneSolver.graph s) ->
  exists d dir ts, (d, dir) ∈ graph /\ (h, ts) ∈ dir /\ t ∈ ts.
Proof.
  intros Hs Htd Hl.
  destruct (wired_link_arc _ _ _ _ _ (solution_wired _ _ _ Hs Htd) Hl)
    as (a & Ha & Hh & Ht & _). simpl in *.
  destruct (setup_inv _ _ _ Hs) as (cs & Hcs & Heq).
  destruct (set_circuit_spec _ _ _ Hcs) as (_ & _ & _ & Harcs & _).
  destruct (set_placements_fields cs space) as (_ & _ & Ef & Ea & _).
  rewrite <- Heq in Ef, Ea. rewrite Ea in Ha. rewrite Ef in Hh, Ht.
  apply (list_elem_of_fmap_2 ends) in Ha. rewrite Harcs in Ha.
  apply list_elem_of_bind in Ha as ([d dir] & Ha & Hd).
  apply list_elem_of_bind in Ha as ([h0 ts] & Ha & Hh0).
  unfold arc_nodes in Ha. apply list_elem_of_fmap in Ha as (t0 & [= H1 H2] & Ht0).
  simpl in *.
  assert (h0 = h) as -> by (by apply (index_of_inj h0 h (cs_fixes cs).*1 (head a))).
  assert (t0 = t) as -> by (by apply (index_of_inj t0 t (cs_fixes cs).*1 (tail a))).
  by exists d, dir, ts.
Qed.

(** Of every domino, a solution uses an arc that leaves one of its fixes. *)
Lemma piece_used (graph : graph_t) space s val (d : Z * Z) dir :
  setup graph space = Some s -> tails_distinct graph -> satisfies val (model s) ->
  (d, dir) ∈ graph ->
  exists (h t : Z * Z), h ∈ dir.*1 /\ (h, t) ∈ used_arcs val (DominoBraneSolver.graph s).
Proof.
  intros Hs Htd Hval Hd.
  destruct (setup_inv _ _ _ Hs) as (cs & Hcs & Heq).
  destruct (set_circuit_spec _ _ _ Hcs) as (_ & _ & Hstrip & _ & _ & _ & _ & Hv).
  destruct (Hv Htd) as [_ Hall].
  destruct (set_placements_fields cs space) as (Eg & _).
  rewrite <- Heq in Eg. rewrite Eg.
  assert ((d, dir) ∈ strip <$> cs_graph cs) as Hin by (by rewrite Hstrip).
  apply list_elem_of_fmap in Hin as (dd & Hdd & Hin).
  rewrite Forall_forall in Hall. destruct (Hall dd Hin) as [Hc _].
  pose proof (satisfies_elem _ _ _ Hval
                (setup_circuit_constraints graph space s cs _ Hcs Heq Hc)) as H.
  simpl in H. specialize (H (Forall_nil_2 _)). rewrite total_nil in H.
  unfold total in H.
  destruct (filter (λ x, val x = true) (piece_vars dd)) as [|x l] eqn:E;
    [simpl in H; lia|].
  assert (x ∈ filter (λ x, val x = true) (piece_vars dd)) as Hx
    by (rewrite E; apply list_elem_of_here).
  apply list_elem_of_filter in Hx as [Hvx Hx].
  unfold piece_vars in Hx. apply list_elem_of_bind in Hx as (hd & Hx & Hhd).
  apply list_elem_of_fmap in Hx as (tv & -> & Htv).
  exists hd.1, tv.1. split.
  - injection Hdd as _ ->. rewrite <- list_fmap_compose.
    apply list_elem_of_fmap. by exists hd.
  - unfold used_arcs. apply list_elem_of_bind. exists dd. split; [|done].
    apply list_elem_of_bind. exists hd. split; [|done].
    apply list_elem_of_bind. exists tv. split; [|done].
    rewrite decide_True by done. apply list_elem_of_here.
Qed.

Lemma tour_arcs_heads {N : Type} (c : list N) : (tour_arcs c).*1 = c.
Proof. destruct c as [|n rest]; [done|]. apply path_arcs_heads. Qed.

(** X10. In every solution for a domino set, the arcs handed to the
    renderer are those of one closed tour through distinct fixes; the
    tour has one fix of every domino and no second one, and along it
    the first number of each fix is the second number of the fix before. *)
Theorem solution_chain size space s val :
  (0 <= size)%Z ->
  setup (DominoDigraph.graph size) space = Some s -> satisfies val (model s) ->
  exists c : list (Z * Z),
    c ≠ [] /\ NoDup c
    /\ used_arcs val (DominoBraneSolver.graph s) ≡ₚ tour_arcs c
    /\ length c = length (DominoDigraph.graph size)
    /\ (forall (d : Z * Z) dir, (d, dir) ∈ DominoDigraph.graph size ->
          exists h : Z * Z,
            h ∈ dir.*1 /\ h ∈ c
            /\ forall h' : Z * Z, h' ∈ dir.*1 -> h' ∈ c -> h' = h)
    /\ (forall h t : Z * Z,
          (h, t) ∈ used_arcs val (DominoBraneSolver.graph s) -> t.1 = h.2).
Proof.
  intros Hsize Hs Hval.
  pose proof (graph_no_self_tail size) as Hself.
  pose proof (graph_tails_distinct size) as Htd.
  pose proof (graph_nodes_NoDup size) as Hnodes.
  destruct (solution_tour _ space s val Hs Hself Htd (graph_nonempty size Hsize) Hval)
    as (W & HWne & HWnd & HW & Hlen & Hcnd & Hperm).
  destruct (solution_arcs_shape _ _ _ Hs Hself) as (_ & _ & Hbound & Hfnd).
  exists (fix_at (fixes s) <$> W). split_and!.
  - by destruct W.
  - done.
  - done.
  - by rewrite length_fmap.
  - intros d dir Hd.
    destruct (piece_used _ space s val d dir Hs Htd Hval Hd)
      as (h & t & Hh & Hused).
    assert (h ∈ fix_at (fixes s) <$> W) as Hhc.
    { rewrite <- (tour_arcs_heads (fix_at (fixes s) <$> W)), <- Hperm.
      apply list_elem_of_fmap. by exists (h, t). }
    exists h. split; [done|]. split; [done|].
    intros h' Hh' Hh'c. destruct (decide (h' = h)) as [|Hne]; [done|]. exfalso.
    assert (forall k : Z * Z, k ∈ fix_at (fixes s) <$> W ->
              exists i, idx (fixes s) k = Some i
                        /\ ¬ skipped val (arcs s ++ loops s) i) as Hon.
    { intros k (w & -> & Hw)%list_elem_of_fmap. exists w.
      apply HW in Hw as Hw'. destruct Hw' as [Hn Hns].
      split; [|done]. apply idx_fix_at; [done|by apply Hbound]. }
    destruct (Hon h Hhc) as (i & Hi & Hsi).
    destruct (Hon h' Hh'c) as (i' & Hi' & Hsi').
    pose proof (graph_fix_count size _ Hd) as Hcount. simpl in Hcount.
    apply list_elem_of_fmap in Hh as ([h0 ts] & -> & Hh).
    apply list_elem_of_fmap in Hh' as ([h0' ts'] & -> & Hh'). simpl in *.
    destruct dir as [|e1 [|e2 [|e3 dir]]].
    + by apply elem_of_nil in Hh.
    + apply list_elem_of_singleton in Hh, Hh'. congruence.
    + assert (forall x : (Z * Z) * list (Z * Z), x ∈ [e1; e2] -> x = e1 \/ x = e2)
        as Hcase.
      { intros x [->|Hx%list_elem_of_singleton]%elem_of_cons; auto. }
      destruct (Hcase _ Hh) as [E|E], (Hcase _ Hh') as [E'|E'].
      * congruence.
      * subst e1 e2.
        destruct (one_of_pair _ space s (d, [(h0, ts); (h0', ts')]) (h0, ts) (h0', ts')
                    i i' val Hs Hnodes Hself Htd Hd eq_refl Hi Hi' Hval) as [H1 H2].
        tauto.
      * subst e1 e2.
        destruct (one_of_pair _ space s (d, [(h0', ts'); (h0, ts)]) (h0', ts') (h0, ts)
                    i' i val Hs Hnodes Hself Htd Hd eq_refl Hi' Hi Hval) as [H1 H2].
        tauto.
      * congruence.
    + case_decide; simpl in Hcount; lia.
  - intros h t Hused. rewrite used_arcs_links in Hused.
    apply list_elem_of_fmap in Hused as ([[h0 t0] x] & [= -> ->] & [_ Hl]%list_elem_of_filter).
    destruct (link_tail _ space s h0 t0 x Hs Htd Hl) as (d & dir & ts & Hd & Hh & Ht).
    by apply (fix_tails_elem size d dir h0 ts t0 Hd Hh) in Ht as (? & _).
Qed.

End chain_theorems.

Section active_fixes.
Import CpModel CircuitTour DominoBraneSolver Renderer.

Lemma total_active (val : nat -> bool) (fixes : list ((Z * Z) * nat)) :
  total val fixes.*2
  = Z.of_nat (length (filter (λ f : (Z * Z) * nat, val f.2 = true) fixes)).
Proof.
  induction fixes as [|f fixes IH]; [done|].
  rewrite fmap_cons, total_cons, IH, filter_cons.
  destruct (decide (val f.2 = true)) as [->|Hv]; [simpl; lia|].
  apply not_true_is_false in Hv. rewrite Hv. lia.
Qed.

(** The fix of a node on the tour is active. *)
Lemma tour_fix_active (graph : graph_t) space s val w :
  setup graph space = Some s -> no_self_tail graph -> tails_distinct graph ->
  satisfies val (model s) ->
  on_tour val (arcs s ++ loops s) w ->
  exists x, (fix_at (fixes s) w, x) ∈ fixes s /\ val x = true.
Proof.
  intros Hs Hself Htd Hval Hw.
  pose proof (solution_circuit _ _ _ _ Hs Hval) as Hc.
  destruct (solution_arcs_shape _ _ _ Hs Hself) as (_ & HLp & _ & _).
  destruct (tour_node_true_arc val _ _ Hc HLp w Hw) as (a & Ha & Hh & _ & Hv).
  destruct (wired_arc_link _ _ _ _ a (solution_wired _ _ _ Hs Htd) Ha)
    as (l & _ & Hi & _ & Hx & fh & _ & Hfh & _ & Himp & _).
  exists fh. rewrite Hh in Hi. rewrite (fix_at_idx _ _ _ Hi). split.
  - by apply dict_get_Some_elem.
  - pose proof (satisfies_elem _ _ _ Hval Himp) as H. simpl in H.
    apply H. by rewrite <- Hx.
Qed.

(** The fixes on the tour are among the active ones. *)
Lemma tour_within_active (graph : graph_t) space s val W :
  setup graph space = Some s -> no_self_tail graph -> tails_distinct graph ->
  satisfies val (model s) ->
  (forall n, n ∈ W -> on_tour val (arcs s ++ loops s) n) ->
  NoDup (fix_at (fixes s) <$> W) ->
  fix_at (fixes s) <$> W
  ⊆+ (filter (λ f : (Z * Z) * nat, val f.2 = true) (fixes s)).*1.
Proof.
  intros Hs Hself Htd Hval HW Hnd. apply NoDup_submseteq; [done|].
  intros h (w & -> & Hw)%list_elem_of_fmap.
  destruct (tour_fix_active _ space s val w Hs Hself Htd Hval (HW w Hw))
    as (x & Hin & Hv).
  apply list_elem_of_fmap. exists (fix_at (fixes s) w, x). split; [done|].
  by apply list_elem_of_filter.
Qed.

Lemma solution_cells_fixes graph space s val :
  setup graph space = Some s -> satisfies val (model s) ->
  length space
  = (2 * length (filter (λ f : (Z * Z) * nat, val f.2 = true) (fixes s)))%nat.
Proof.
  intros Hs Hval.
  pose proof (cells_twice_fixes val (fixes s) space (place s)
                (cell_total _ _ _ _ Hs Hval) (fix_total _ _ _ _ Hs Hval)) as H.
  rewrite total_active in H. lia.
Qed.

(** X11. A space with fewer than two cells for every domino admits no
    solution. *)
Theorem small_space_infeasible size space s :
  setup (DominoDigraph.graph size) space = Some s ->
  (length space < 2 * length (DominoDigraph.graph size))%nat ->
  forall val, ¬ satisfies val (model s).
Proof.
  intros Hs Hsmall val Hval.
  destruct (decide (DominoDigraph.graph size = [])) as [Hnil|Hne].
  { rewrite Hnil in Hsmall. simpl in Hsmall. lia. }
  destruct (solution_tour _ space s val Hs (graph_no_self_tail size)
              (graph_tails_distinct size) Hne Hval)
    as (W & _ & _ & HW & Hlen & Hcnd & _).
  pose proof (tour_within_active _ space s val W Hs (graph_no_self_tail size)
                (graph_tails_distinct size) Hval (λ n, proj1 (HW n)) Hcnd) as Hsub.
  apply submseteq_length in Hsub. rewrite !length_fmap in Hsub.
  pose proof (solution_cells_fixes _ _ _ _ Hs Hval). lia.
Qed.

(** X12. When the space has exactly two cells for every domino, the
    active fixes of a solution are exactly the fixes on the tour: the
    activity variable of a fix is true if and only if its node is not
    excluded from the circuit. *)
Theorem active_iff_on_tour size space s val (h : Z * Z) x i :
  (0 <= size)%Z ->
  setup (DominoDigraph.graph size) space = Some s ->
  length space = (2 * length (DominoDigraph.graph size))%nat ->
  satisfies val (model s) ->
  (h, x) ∈ fixes s -> idx (fixes s) h = Some i ->
  val x = true <-> ¬ skipped val (arcs s ++ loops s) i.
Proof.
  intros Hsize Hs Hfit Hval Hhx Hi.
  pose proof (graph_no_self_tail size) as Hself.
  pose proof (graph_tails_distinct size) as Htd.
  destruct (solution_tour _ space s val Hs Hself Htd (graph_nonempty size Hsize) Hval)
    as (W & _ & HWnd & HW & Hlen & Hcnd & _).
  destruct (solution_arcs_shape _ _ _ Hs Hself) as (_ & _ & Hbound & Hfnd).
  pose proof (tour_within_active _ space s val W Hs Hself Htd Hval
                (λ n, proj1 (HW n)) Hcnd) as Hsub.
  pose proof (solution_cells_fixes _ _ _ _ Hs Hval) as Hcells.
  assert (fix_at (fixes s) <$> W
          ≡ₚ (filter (λ f : (Z * Z) * nat, val f.2 = true) (fixes s)).*1) as Hperm.
  { apply submseteq_length_Permutation; [done|]. rewrite !length_fmap. lia. }
  assert (h ∈ fix_at (fixes s) <$> W <-> ¬ skipped val (arcs s ++ loops s) i)
    as Htour.
  { split.
    - intros (w & Hw & Hin)%list_elem_of_fmap.
      apply HW in Hin as Hon. destruct Hon as [Hn Hns].
      pose proof (idx_fix_at _ w Hfnd (Hbound w Hn)) as Hiw.
      rewrite <- Hw, Hi in Hiw. by injection Hiw as ->.
    - intros Hns. apply list_elem_of_fmap. exists i.
      split; [by rewrite (fix_at_idx _ _ _ Hi)|]. apply HW. split; [|done].
      destruct (setup_inv _ _ _ Hs) as (cs & Hcs & Heq).
      destruct (set_circuit_spec _ _ _ Hcs)
        as (Hnd & Hk & Hstrip & Harcs & Hloops & _ & _ & Hv).
      destruct (Hv Htd) as [_ Hall].
      destruct (set_placements_fields cs space) as (_ & _ & Ef & Ea & El).
      rewrite <- Heq in Ef, Ea, El. rewrite Ea, El.
      apply (circuit_nodes_cover (DominoDigraph.graph size) (cs_fixes cs)
               (cs_graph cs) _ _ val); try done.
      + rewrite Forall_forall in Hall |- *. intros dd Hdd.
        destruct (Hall dd Hdd) as [Hin Hl]. split; [|done].
        pose proof (satisfies_elem _ _ _ Hval
                      (setup_circuit_constraints _ space s cs _ Hcs Heq Hin)) as H.
        simpl in H. rewrite H by constructor. done.
      + rewrite <- Ef. by apply (idx_lt _ h). }
  rewrite <- Htour, Hperm. split.
  - intros Hv. apply list_elem_of_fmap. exists (h, x). split; [done|].
    by apply list_elem_of_filter.
  - intros ([h' x'] & Hh' & [Hv Hin]%list_elem_of_filter)%list_elem_of_fmap.
    simpl in *. subst h'.
    by rewrite (dict_value_unique (fixes s) h x x' Hfnd Hhx Hin).
Qed.

End active_fixes.

Section fixes_nodes.
Import CpModel DominoBraneSolver.

Lemma setup_fixes_nodes (graph : graph_t) space s (k : Z * Z) :
  setup graph space = Some s -> k ∈ (fixes s).*1 <-> k ∈ graph_nodes graph.
Proof.
  intros Hs. destruct (setup_inv _ _ _ Hs) as (cs & Hcs & ->).
  destruct (set_placements_fields cs space) as (_ & _ & -> & _).
  destruct (set_circuit_spec _ _ _ Hcs) as (_ & Hk & _). apply Hk.
Qed.

End fixes_nodes.

Lemma solution_chain_witness :
  exists s,
    (0 <= 2)%Z
    /\ DominoBraneSolver.setup (DominoDigraph.graph 2) (DominoBraneSolver.Space 2) = Some s
    /\ CpModel.satisfies (Scenario.tiling s) (DominoBraneSolver.model s)
    /\ exists c : list (Z * Z),
         c ≠ [] /\ NoDup c
         /\ DominoBraneSolver.used_arcs (Scenario.tiling s) (DominoBraneSolver.graph s)
            ≡ₚ Renderer.tour_arcs c
         /\ length c = length (DominoDigraph.graph 2)
         /\ (forall (d : Z * Z) dir, (d, dir) ∈ DominoDigraph.graph 2 ->
               exists h : Z * Z,
                 h ∈ dir.*1 /\ h ∈ c
                 /\ forall h' : Z * Z, h' ∈ dir.*1 -> h' ∈ c -> h' = h)
         /\ (forall h t : Z * Z,
               (h, t) ∈ DominoBraneSolver.used_arcs (Scenario.tiling s)
                          (DominoBraneSolver.graph s) -> t.1 = h.2).
Proof.
  destruct tiling_is_solution as (s & Hs & H).
  assert (0 <= 2)%Z as Hsize by lia.
  exists s. split; [exact Hsize|]. split; [exact Hs|]. split; [exact H|].
  exact (solution_chain 2 _ s (Scenario.tiling s) Hsize Hs H).
Defined.

Lemma small_space_infeasible_witness :
  exists s,
    DominoBraneSolver.setup (DominoDigraph.graph 2) (DominoBraneSolver.Space 1) = Some s
    /\ (length (DominoBraneSolver.Space 1) < 2 * length (DominoDigraph.graph 2))%nat
    /\ forall val, ¬ CpModel.satisfies val (DominoBraneSolver.model s).
Proof.
  destruct (checked (λ _, true)
              (DominoBraneSolver.setup (DominoDigraph.graph 2)
                 (DominoBraneSolver.Space 1))) as (s & Hs & _).
  { vm_compute. reflexivity. }
  assert (length (DominoBraneSolver.Space 1) < 2 * length (DominoDigraph.graph 2))%nat
    as Hsmall by (vm_compute; lia).
  exists s. split; [exact Hs|]. split; [exact Hsmall|].
  exact (small_space_infeasible 2 _ s Hs Hsmall).
Defined.

Lemma active_iff_on_tour_witness :
  exists s x i,
    (0 <= 2)%Z
    /\ DominoBraneSolver.setup (DominoDigraph.graph 2) (DominoBraneSolver.Space 2) = Some s
    /\ length (DominoBraneSolver.Space 2) = (2 * length (DominoDigraph.graph 2))%nat
    /\ CpModel.satisfies (Scenario.tiling s) (DominoBraneSolver.model s)
    /\ ((0, 1)%Z, x) ∈ DominoBraneSolver.fixes s
    /\ DominoBraneSolver.idx (DominoBraneSolver.fixes s) (0, 1)%Z = Some i
    /\ (Scenario.tiling s x = true
        <-> ¬ CpModel.skipped (Scenario.tiling s)
                (DominoBraneSolver.arcs s ++ DominoBraneSolver.loops s) i).
Proof.
  destruct tiling_is_solution as (s & Hs & H).
  assert (0 <= 2)%Z as Hsize by lia.
  assert ((0, 1)%Z ∈ (DominoBraneSolver.fixes s).*1) as Hk.
  { apply (setup_fixes_nodes _ _ s _ Hs).
    apply (bool_decide_unpack _). vm_compute. exact I. }
  destruct (dict_key_elem _ _ Hk) as [x Hx].
  destruct (proj2 (idx_is_Some (DominoBraneSolver.fixes s) (0, 1)%Z) Hk) as [i Hi].
  assert (length (DominoBraneSolver.Space 2) = (2 * length (DominoDigraph.graph 2))%nat)
    as Hfit by (vm_compute; reflexivity).
  exists s, x, i. split; [exact Hsize|]. split; [exact Hs|]. split; [exact Hfit|].
  split; [exact H|]. split; [exact Hx|]. split; [exact Hi|].
  exact (active_iff_on_tour 2 _ s (Scenario.tiling s) (0, 1)%Z x i
           Hsize Hs Hfit H Hx Hi).
Defined.

(** ** The renderer on the solutions of the model *)

Section renderer_solution.
Import CircuitTour DominoBraneSolver Renderer.

(** C2. For every non-empty list of used arcs the renderer returns a
    report, never an error.  The chain lists the heads of the arcs it
    followed: these start with the first used arc, each is joined to the
    next, and the arcs listed after 'unused:' are exactly the used arcs
    that were not followed, none of which continues the last one
    followed.  'duplicates found!' is reported exactly when a fix occurs
    twice in the chain.  When the used arcs are those of one closed tour
    through distinct fixes, each fix of the tour is appended exactly once,
    in tour order (the last entry leads back to the first), no arc is left
    over and no duplicate is reported.  This is so for every solution of
    the model of a domino set: no diagnostic is raised, and the chain has
    as many fixes as there are dominoes, no fix twice and a fix of every
    domino. *)
Theorem render_closed_tour :
  (forall (N : Type) (EqN : EqDecision N) (used : list (N * N)),
     used ≠ [] ->
     exists r followed,
       render used = Done r
       /\ chain r = followed.*1
       /\ used ≡ₚ followed ++ unused r
       /\ head followed = head used
       /\ chained followed
       /\ (forall lst l, last followed = Some lst -> l ∈ unused r -> l.1 ≠ lst.2)
       /\ (duplicates r = true <-> ¬ NoDup (chain r))
       /\ (closed_tour used ->
           unused r = []
           /\ duplicates r = false
           /\ NoDup (chain r)
           /\ chain r ≡ₚ used.*1
           /\ head (chain r) = fst <$> head used
           /\ tour_arcs (chain r) ≡ₚ used))
  /\ forall size space s val,
       (0 <= size)%Z ->
       setup (DominoDigraph.graph size) space = Some s ->
       CpModel.satisfies val (model s) ->
       exists r,
         render (used_arcs val (DominoBraneSolver.graph s)) = Done r
         /\ unused r = []
         /\ duplicates r = false
         /\ NoDup (chain r)
         /\ length (chain r) = length (DominoDigraph.graph size)
         /\ (forall (d : Z * Z) dir, (d, dir) ∈ DominoDigraph.graph size ->
               exists h : Z * Z, h ∈ dir.*1 /\ h ∈ chain r)
         /\ tour_arcs (chain r) ≡ₚ used_arcs val (DominoBraneSolver.graph s).
Proof.
  split.
  - intros N EqN used Hne. by apply render_report.
  - intros size space s val Hsize Hs Hval.
    pose proof (graph_no_self_tail size) as Hself.
    pose proof (graph_tails_distinct size) as Htd.
    destruct (solution_tour _ space s val Hs Hself Htd (graph_nonempty size Hsize) Hval)
      as (W & HWne & HWnd & HW & Hlen & Hcnd & Hperm).
    set (used := used_arcs val (DominoBraneSolver.graph s)) in *.
    assert (closed_tour used) as Htour.
    { exists (fix_at (fixes s) <$> W). split_and!; [by destruct W|done|done]. }
    assert (used ≠ []) as Hne.
    { intros Hnil. rewrite Hnil in Hperm. apply Permutation_nil_l in Hperm.
      apply (f_equal length) in Hperm. rewrite tour_arcs_length, length_fmap in Hperm.
      destruct W; [done|discriminate Hperm]. }
    destruct (render_report used Hne)
      as (r & followed & Hr & _ & _ & _ & _ & _ & _ & Hclosed).
    destruct (Hclosed Htour) as (Hun & Hdup & Hnd & Hch & _ & Harcs).
    exists r. split_and!; try done.
    + rewrite Hch, length_fmap, Hperm, tour_arcs_length.
      by rewrite length_fmap.
    + intros d dir Hd.
      destruct (piece_used _ space s val d dir Hs Htd Hval Hd) as (h & t & Hh & Hused).
      exists h. split; [done|]. rewrite Hch.
      apply list_elem_of_fmap. by exists (h, t).
Qed.

End renderer_solution.

(** The tour [0:0] [0:1] [1:1] [1:2] [2:2] [2:0] of the six dominoes of
    size 2, its arcs listed in another order; a defective list of used
    arcs, in which the fix 2 is met twice and the arc [(5, 6)] is never
    reached; and the tiling. *)
Lemma render_closed_tour_witness :
  (exists r,
     Renderer.render
       [((1, 1), (1, 2)); ((0, 0), (0, 1)); ((2, 0), (0, 0));
        ((0, 1), (1, 1)); ((2, 2), (2, 0)); ((1, 2), (2, 2))]%Z = Renderer.Done r
     /\ Renderer.unused r = []
     /\ Renderer.duplicates r = false
     /\ NoDup (Renderer.chain r)
     /\ Renderer.chain r ≡ₚ [(1, 1); (0, 0); (2, 0); (0, 1); (2, 2); (1, 2)]%Z
     /\ head (Renderer.chain r) = Some (1, 1)%Z
     /\ Renderer.tour_arcs (Renderer.chain r) ≡ₚ
          [((1, 1), (1, 2)); ((0, 0), (0, 1)); ((2, 0), (0, 0));
           ((0, 1), (1, 1)); ((2, 2), (2, 0)); ((1, 2), (2, 2))]%Z)
  /\ (exists r followed,
        Renderer.render [(1, 2); (2, 3); (3, 2); (2, 4); (5, 6)]%nat = Renderer.Done r
        /\ Renderer.chain r = [1; 2; 3; 2]%nat
        /\ Renderer.chain r = followed.*1
        /\ [(1, 2); (2, 3); (3, 2); (2, 4); (5, 6)]%nat ≡ₚ followed ++ Renderer.unused r
        /\ Renderer.unused r = [(5, 6)]%nat
        /\ Renderer.duplicates r = true
        /\ ¬ NoDup (Renderer.chain r))
  /\ (exists s r,
        DominoBraneSolver.setup (DominoDigraph.graph 2) (DominoBraneSolver.Space 2)
        = Some s
        /\ CpModel.satisfies (Scenario.tiling s) (DominoBraneSolver.model s)
        /\ Renderer.render
             (DominoBraneSolver.used_arcs (Scenario.tiling s) (DominoBraneSolver.graph s))
           = Renderer.Done r
        /\ Renderer.unused r = []
        /\ Renderer.duplicates r = false
        /\ NoDup (Renderer.chain r)
        /\ length (Renderer.chain r) = length (DominoDigraph.graph 2)).
Proof.
  destruct render_closed_tour as [Hgen Hsol].
  split; [|split].
  - destruct (Hgen _ _
                [((1, 1), (1, 2)); ((0, 0), (0, 1)); ((2, 0), (0, 0));
                 ((0, 1), (1, 1)); ((2, 2), (2, 0)); ((1, 2), (2, 2))]%Z)
      as (r & followed & Hr & _ & _ & _ & _ & _ & _ & Htour); [done|].
    exists r. split; [exact Hr|]. apply Htour.
    exists [(0, 0); (0, 1); (1, 1); (1, 2); (2, 2); (2, 0)]%Z.
    split; [done|]. split.
    + apply (bool_decide_unpack _). vm_compute. exact I.
    + apply (bool_decide_unpack _). vm_compute. exact I.
  - destruct (Hgen _ _ [(1, 2); (2, 3); (3, 2); (2, 4); (5, 6)]%nat)
      as (r & followed & Hr & Hchain & Hperm & _ & _ & _ & Hdup & _); [done|].
    exists r, followed.
    assert (r = Renderer.Report [1; 2; 3; 2]%nat true [(5, 6)]%nat) as Heq.
    { vm_compute in Hr. by injection Hr. }
    split; [exact Hr|]. split; [by rewrite Heq|]. split; [exact Hchain|].
    split; [exact Hperm|]. split; [by rewrite Heq|].
    assert (Renderer.duplicates r = true) as Hd by (by rewrite Heq).
    split; [exact Hd|]. by apply Hdup.
  - destruct tiling_is_solution as (s & Hs & Hval).
    assert (0 <= 2)%Z as Hsize by lia.
    destruct (Hsol 2%Z _ s (Scenario.tiling s) Hsize Hs Hval)
      as (r & Hr & Hun & Hdup & Hnd & Hlen & _).
    exists s, r. split; [exact Hs|]. split; [exact Hval|]. split; [exact Hr|].
    split; [exact Hun|]. split; [exact Hdup|]. split; [exact Hnd|]. exact Hlen.
Defined.

(** ** The placement constraints, read over the graph and the space given *)

Section links_wired.
Import CpModel DominoBraneSolver.

(** The entries of [tail_vars] after the loop over the tails of [h]:
    every tail has an entry, and every entry that was not there before
    holds the variable of an arc the loop appended, wired to [h] and to
    the tail. *)
Lemma tail_arcs_links fixes (h : Z * Z) ts tv m tv' arcs' m' :
  tail_arcs fixes h ts tv m = Some (tv', arcs', m') ->
  (forall e : (Z * Z) * nat, e ∈ tv' ->
     e ∈ tv \/ exists a, a ∈ arcs' /\ wired fixes (constraints m') a ((h, e.1), e.2))
  /\ (forall t, t ∈ ts -> t ∈ tv'.*1)
  /\ (forall k, k ∈ tv.*1 -> k ∈ tv'.*1).
Proof.
  revert tv m tv' arcs' m'.
  induction ts as [|t ts IH]; intros tv m tv' arcs' m'; simpl.
  - intros [= <- <- <-]. split_and!; [auto| |auto]. by intros t ?%elem_of_nil.
  - destruct (Py.dict_get h fixes) as [fh|] eqn:Hfh; simpl; [|done].
    destruct (Py.dict_get t fixes) as [ft|] eqn:Hft; simpl; [|done].
    destruct (idx fixes h) as [ih|] eqn:Hih; simpl; [|done].
    destruct (idx fixes t) as [it|] eqn:Hit; simpl; [|done].
    destruct (tail_arcs fixes h ts _ _) as [[[tv1 arcs1] m1]|] eqn:Hrec; simpl; [|done].
    intros [= <- <- <-].
    pose proof (tail_arcs_spec _ _ _ _ _ _ _ _ Hrec) as (Hp & _ & _).
    apply IH in Hrec as (Hent & Hts & Hkeep).
    split_and!.
    + intros e He. destruct (Hent e He) as [Hin|(a & Ha & Hw)].
      * apply dict_set_elem_inv in Hin as [->|Hin]; [|by left].
        right. exists (ih, it, n_vars m). split; [apply list_elem_of_here|].
        split_and!; try done. exists fh, ft. split_and!; try done;
          (eapply elem_of_prefix; [|exact Hp]); simpl;
          rewrite !elem_of_app, !list_elem_of_singleton; auto 10.
      * right. exists a. split; [by apply list_elem_of_further|done].
    + intros t' [->|Ht']%elem_of_cons; [|by apply Hts].
      apply Hkeep, dict_set_keys_elem. by left.
    + intros k Hk. apply Hkeep, dict_set_keys_elem. by right.
Qed.

Lemma head_arcs_links fixes n (hs : list ((Z * Z) * list (Z * Z))) m
    dir d_arcs d_loops m' :
  head_arcs fixes n hs m = Some (dir, d_arcs, d_loops, m') ->
  forall hd, hd ∈ dir ->
    (forall e : (Z * Z) * nat, e ∈ tail_vars hd.2 ->
       exists a, a ∈ d_arcs /\ wired fixes (constraints m') a ((hd.1, e.1), e.2))
    /\ forall t, t ∈ tails hd.2 -> t ∈ (tail_vars hd.2).*1.
Proof.
  revert m dir d_arcs d_loops m'.
  induction hs as [|[h ts] hs IH]; intros m dir d_arcs d_loops m'; simpl.
  - intros [= <- <- <- <-] hd []%elem_of_nil.
  - destruct (tail_arcs fixes h ts [] m) as [[[tv h_arcs] m1]|] eqn:Ht; simpl; [|done].
    apply tail_arcs_links in Ht as (Hent & Hts & _).
    assert (forall m2 dir1 arcs1 loops1 m3,
              constraints m1 `prefix_of` constraints m2 ->
              head_arcs fixes n hs m2 = Some (dir1, arcs1, loops1, m3) ->
              forall hd, hd ∈ (h, HeadDir ts tv) :: dir1 ->
                (forall e : (Z * Z) * nat, e ∈ tail_vars hd.2 ->
                   exists a, a ∈ h_arcs ++ arcs1
                             /\ wired fixes (constraints m3) a ((hd.1, e.1), e.2))
                /\ forall t, t ∈ tails hd.2 -> t ∈ (tail_vars hd.2).*1) as Hstep.
    { intros m2 dir1 arcs1 loops1 m3 Hpre Hrec hd Hhd.
      pose proof (head_arcs_spec _ _ _ _ _ _ _ _ Hrec) as (Hp & _).
      apply elem_of_cons in Hhd as [->|Hhd]; simpl.
      - split; [|done]. intros e He.
        destruct (Hent e He) as [[]%elem_of_nil|(a & Ha & Hw)].
        exists a. split; [rewrite elem_of_app; by left|].
        eapply wired_mono; [|exact Hw]. by etrans.
      - destruct (IH _ _ _ _ _ Hrec hd Hhd) as [H1 H2]. split; [|done].
        intros e He. destruct (H1 e He) as (a & Ha & Hw).
        exists a. split; [rewrite elem_of_app; by right|done]. }
    destruct (decide (1 < n)%nat) as [Hn|Hn].
    + destruct (idx fixes h) as [ih|] eqn:Hih; simpl; [|done].
      destruct (head_arcs fixes n hs _) as [[[[dir1 arcs1] loops1] m3]|] eqn:Hrec;
        simpl; [|done].
      intros [= <- <- <- <-]. eapply Hstep; [|exact Hrec]. simpl. done.
    + simpl.
      destruct (head_arcs fixes n hs m1) as [[[[dir1 arcs1] loops1] m3]|] eqn:Hrec;
        simpl; [|done].
      intros [= <- <- <- <-]. eapply Hstep; [|exact Hrec]. simpl. done.
Qed.

Lemma piece_arcs_links fixes (graph : graph_t) m (cg : cgraph_t)
    (arcs loops : list arc) m' :
  piece_arcs fixes graph m = Some (cg, arcs, loops, m') ->
  forall dd hd, dd ∈ cg -> hd ∈ dd.2 ->
    (forall e : (Z * Z) * nat, e ∈ tail_vars hd.2 ->
       exists a, a ∈ arcs /\ wired fixes (constraints m') a ((hd.1, e.1), e.2))
    /\ forall t, t ∈ tails hd.2 -> t ∈ (tail_vars hd.2).*1.
Proof.
  revert m cg arcs loops m'.
  induction graph as [|[d fs] graph IH]; intros m cg arcs loops m'; simpl.
  - intros [= <- <- <- <-] dd hd []%elem_of_nil.
  - destruct (head_arcs fixes (length fs) fs m) as [[[[dir d_arcs] d_loops] m1]|] eqn:Hh;
      simpl; [|done].
    destruct (piece_arcs fixes graph _) as [[[[cg1 arcs1] loops1] m2]|] eqn:Hrec;
      simpl; [|done].
    intros [= <- <- <- <-] dd hd Hdd Hhd.
    pose proof (piece_arcs_spec _ _ _ _ _ _ _ Hrec) as (Hp & _).
    apply elem_of_cons in Hdd as [->|Hdd]; simpl in *.
    + destruct (head_arcs_links _ _ _ _ _ _ _ _ Hh hd Hhd) as [H1 H2].
      split; [|done]. intros e He. destruct (H1 e He) as (a & Ha & Hw).
      exists a. split; [rewrite elem_of_app; by left|].
      eapply wired_mono; [|exact Hw]. etrans; [|exact Hp]. apply Add_prefix.
    + destruct (IH _ _ _ _ _ Hrec dd hd Hdd Hhd) as [H1 H2]. split; [|done].
      intros e He. destruct (H1 e He) as (a & Ha & Hw).
      exists a. split; [rewrite elem_of_app; by right|done].
Qed.

(** Every entry of [tail_vars] holds the variable of an arc handed to the
    circuit constraint, and every tail has an entry. *)
Lemma setup_links (graph : graph_t) space s :
  setup graph space = Some s ->
  forall dd hd, dd ∈ DominoBraneSolver.graph s -> hd ∈ dd.2 ->
    (forall e : (Z * Z) * nat, e ∈ tail_vars hd.2 ->
       exists a, a ∈ arcs s
                 /\ wired (fixes s) (constraints (model s)) a ((hd.1, e.1), e.2))
    /\ forall t, t ∈ tails hd.2 -> t ∈ (tail_vars hd.2).*1.
Proof.
  intros Hs. destruct (setup_inv _ _ _ Hs) as (cs & Hcs & Heq).
  destruct (set_placements_fields cs space) as (Eg & _ & Ef & Ea & _).
  rewrite <- Heq in Eg, Ef, Ea. rewrite Eg, Ef, Ea.
  pose proof Hcs as Hcs'. unfold set_circuit in Hcs'.
  destruct (new_fixes _ _ _) as [fixes m1] eqn:Hnf.
  destruct (piece_arcs fixes graph m1) as [[[[cg arcs] loops] m2]|] eqn:Hp;
    simpl in Hcs'; [|done].
  injection Hcs' as <-. simpl. intros dd hd Hdd Hhd.
  destruct (piece_arcs_links _ _ _ _ _ _ _ Hp dd hd Hdd Hhd) as [H1 H2].
  split; [|done]. intros e He. destruct (H1 e He) as (a & Ha & Hw).
  exists a. split; [done|].
  destruct Hw as (W1 & W2 & W3 & fh & ft & W4 & W5 & W6 & W7 & W8 & W9).
  split_and!; try done. exists fh, ft.
  assert (forall c, c ∈ constraints m2 -> c ∈ constraints (model s)) as Hlift.
  { intros c Hc. apply (setup_circuit_constraints graph space s _ c Hcs Heq).
    simpl. rewrite !elem_of_app. auto. }
  split_and!; try done; by apply Hlift.
Qed.

(** The links of the graph are the arcs of the graph given, each with a
    variable.  *)
Lemma links_elem (cg : cgraph_t) (h t : Z * Z) x :
  ((h, t), x) ∈ links cg
  <-> exists dd hd, dd ∈ cg /\ hd ∈ dd.2 /\ hd.1 = h /\ (t, x) ∈ tail_vars hd.2.
Proof.
  unfold links. rewrite list_elem_of_bind. split.
  - intros (dd & Hl & Hdd).
    apply list_elem_of_bind in Hl as (hd & Hl & Hhd).
    apply list_elem_of_bind in Hl as ([t' x'] & Hl & Htv).
    apply list_elem_of_singleton in Hl. simpl in Hl. injection Hl as -> -> ->.
    by exists dd, hd.
  - intros (dd & hd & Hdd & Hhd & <- & Htv). exists dd. split; [|done].
    apply list_elem_of_bind. exists hd. split; [|done].
    apply list_elem_of_bind. exists (t, x). split; [|done].
    by apply list_elem_of_singleton.
Qed.

Lemma link_arc (graph : graph_t) space s (h t : Z * Z) x :
  setup graph space = Some s ->
  ((h, t), x) ∈ links (DominoBraneSolver.graph s) ->
  exists a, a ∈ arcs s /\ wired (fixes s) (constraints (model s)) a ((h, t), x).
Proof.
  intros Hs (dd & hd & Hdd & Hhd & <- & Htv)%links_elem.
  destruct (setup_links _ _ _ Hs dd hd Hdd Hhd) as [H1 _].
  exact (H1 (t, x) Htv).
Qed.

(** A link joins a fix of the graph given to one of its tails. *)
Lemma link_graph (graph : graph_t) space s (h t : Z * Z) x :
  setup graph space = Some s ->
  ((h, t), x) ∈ links (DominoBraneSolver.graph s) ->
  exists (d : Z * Z) dir ts, (d, dir) ∈ graph /\ (h, ts) ∈ dir /\ t ∈ ts.
Proof.
  intros Hs Hl.
  destruct (link_arc _ _ _ _ _ _ Hs Hl) as (a & Ha & Hh & Ht & _). simpl in *.
  destruct (setup_inv _ _ _ Hs) as (cs & Hcs & Heq).
  destruct (set_circuit_spec _ _ _ Hcs) as (_ & _ & _ & Harcs & _).
  destruct (set_placements_fields cs space) as (_ & _ & Ef & Ea & _).
  rewrite <- Heq in Ef, Ea. rewrite Ea in Ha. rewrite Ef in Hh, Ht.
  apply (list_elem_of_fmap_2 ends) in Ha. rewrite Harcs in Ha.
  apply list_elem_of_bind in Ha as ([d dir] & Ha & Hd).
  apply list_elem_of_bind in Ha as ([h0 ts] & Ha & Hh0).
  unfold arc_nodes in Ha. apply list_elem_of_fmap in Ha as (t0 & [= H1 H2] & Ht0).
  simpl in *.
  assert (h0 = h) as -> by (by apply (index_of_inj h0 h (cs_fixes cs).*1 (head a))).
  assert (t0 = t) as -> by (by apply (index_of_inj t0 t (cs_fixes cs).*1 (tail a))).
  by exists d, dir, ts.
Qed.

(** Every arc of the graph given has a link. *)
Lemma graph_link (graph : graph_t) space s (d : Z * Z) dir (h : Z * Z) ts (t : Z * Z) :
  setup graph space = Some s ->
  (d, dir) ∈ graph -> (h, ts) ∈ dir -> t ∈ ts ->
  exists x, ((h, t), x) ∈ links (DominoBraneSolver.graph s).
Proof.
  intros Hs Hd Hh Ht.
  destruct (setup_inv _ _ _ Hs) as (cs & Hcs & Heq).
  destruct (set_circuit_spec _ _ _ Hcs) as (_ & _ & Hstrip & _).
  destruct (set_placements_fields cs space) as (Eg & _).
  rewrite <- Heq in Eg. rewrite <- Eg in Hstrip.
  assert ((d, dir) ∈ strip <$> DominoBraneSolver.graph s) as Hin by (by rewrite Hstrip).
  apply list_elem_of_fmap in Hin as (dd & Hdd & Hin).
  unfold strip in Hdd. injection Hdd as _ ->.
  apply list_elem_of_fmap in Hh as (hd & Hhd & Hh).
  unfold strip_head in Hhd. injection Hhd as -> ->.
  destruct (setup_links _ _ _ Hs dd hd Hin Hh) as [_ H2].
  apply H2, dict_key_elem in Ht as (x & Hx).
  exists x. apply links_elem. by exists dd, hd.
Qed.

End links_wired.

Section placement_sums.
Import CpModel DominoBraneSolver.

(** When the variables found under a list of keys sum to one, exactly
    one key of the list has a true variable. *)
Lemma total_one_key (val : nat -> bool) (place : gmap (Z * Z * Z * Z * Z) nat)
    (keys : list (Z * Z * Z * Z * Z)) :
  total val (omap (λ k, place !! k) keys) = 1%Z ->
  exists k p, k ∈ keys /\ place !! k = Some p /\ val p = true
              /\ forall k' p', k' ∈ keys -> place !! k' = Some p' ->
                               val p' = true -> k' = k.
Proof.
  change (omap (λ k, place !! k) keys) with (placed place keys).
  induction keys as [|k keys IH]; [done|].
  rewrite placed_cons.
  destruct (place !! k) as [p|] eqn:Hp.
  - rewrite total_cons. destruct (val p) eqn:Hv.
    + intros Ht. exists k, p. split_and!; [apply list_elem_of_here|done|done|].
      intros k' p' [->|Hk']%elem_of_cons Hp' Hv'; [done|].
      assert (total val (placed place keys) = 0%Z) as H0 by lia.
      rewrite (total_zero_placed val place keys k' p' H0 Hk' Hp') in Hv'. done.
    + intros Ht. destruct IH as (k0 & p0 & H1 & H2 & H3 & H4); [lia|].
      exists k0, p0. split_and!; [by apply list_elem_of_further|done|done|].
      intros k' p' [->|Hk']%elem_of_cons Hp' Hv'; [congruence|by apply (H4 k' p')].
  - intros Ht. destruct (IH Ht) as (k0 & p0 & H1 & H2 & H3 & H4).
    exists k0, p0. split_and!; [by apply list_elem_of_further|done|done|].
    intros k' p' [->|Hk']%elem_of_cons Hp' Hv'; [congruence|by apply (H4 k' p')].
Qed.

(** The two sums of a fix are among the constraints. *)
Lemma fix_sums graph space s (f : Z * Z) a i :
  setup graph space = Some s -> (f, a) ∈ fixes s -> (i = 0 \/ i = 1)%Z ->
  LinearEq (omap (λ k, place s !! k) ((λ c, pkey c f i) <$> space.*1)) [a] 0 []
  ∈ constraints (model s).
Proof.
  intros Hs Hf Hi. apply (setup_fix_constraints _ _ _ _ Hs).
  unfold fix_constraints. apply list_elem_of_bind. exists (f, a). split; [|done].
  unfold role_vars, placed. simpl.
  destruct Hi as [-> | ->];
    [apply list_elem_of_further, list_elem_of_here|apply list_elem_of_here].
Qed.

(** The sum of a cell is among the constraints. *)
Lemma cell_sum graph space s (c : Z * Z) :
  setup graph space = Some s -> c ∈ space.*1 ->
  LinearEq (omap (λ k, place s !! k) (f ← (fixes s).*1; i ← [0; 1]%Z; [pkey c f i]))
    [] 1 []
  ∈ constraints (model s).
Proof.
  intros Hs Hc. apply (setup_cell_constraints _ _ _ _ Hs).
  unfold cell_constraints. apply list_elem_of_bind. exists c. split; [|done].
  apply list_elem_of_here.
Qed.

(** In a solution a fix that is active has each of its ends on exactly
    one cell, and a fix that is not has them nowhere. *)
Lemma fix_end graph space s val (f : Z * Z) a i :
  setup graph space = Some s -> satisfies val (model s) ->
  (f, a) ∈ fixes s -> (i = 0 \/ i = 1)%Z ->
  if val a
  then exists c, c ∈ space.*1 /\ lies_on val (place s) c f i
                 /\ forall c', lies_on val (place s) c' f i -> c' = c
  else forall c, ¬ lies_on val (place s) c f i.
Proof.
  intros Hs Hval Hf Hi.
  pose proof (satisfies_elem _ _ _ Hval (fix_sums _ _ _ f a i Hs Hf Hi)) as Hsum.
  simpl in Hsum. specialize (Hsum (Forall_nil_2 _)).
  rewrite total_singleton in Hsum.
  assert (forall c', lies_on val (place s) c' f i -> c' ∈ space.*1) as Hin.
  { intros c' Hl. destruct (lies_on_inv _ _ _ _ _ _ _ Hs Hl) as (_ & _ & clue & Hc & _).
    by apply (list_elem_of_fmap_2 fst) in Hc. }
  destruct (val a).
  - destruct (total_one_key val (place s) _ Hsum) as (k & p & Hk & Hp & Hv & Hu).
    apply list_elem_of_fmap in Hk as (c & -> & Hc).
    exists c. split; [done|]. split; [unfold lies_on; by rewrite Hp|].
    intros c' Hl. pose proof (Hin c' Hl) as Hc'. unfold lies_on in Hl.
    destruct (place s !! pkey c' f i) as [p'|] eqn:Hp'; [|done].
    assert (pkey c' f i = pkey c f i) as Heq.
    { apply (Hu _ p'); [|done|done].
      by apply (list_elem_of_fmap_2 (λ c : Z * Z, pkey c f i)). }
    by apply pkey_inj in Heq as (-> & _).
  - intros c Hl. pose proof (Hin c Hl) as Hc. unfold lies_on in Hl.
    destruct (place s !! pkey c f i) as [p|] eqn:Hp; [|done].
    assert (val p = false) as Hfalse.
    { apply (total_zero_placed val (place s) ((λ c, pkey c f i) <$> space.*1)
               (pkey c f i) p); [by (unfold placed; lia)| |done].
      by apply (list_elem_of_fmap_2 (λ c : Z * Z, pkey c f i)). }
    congruence.
Qed.

(** In a solution exactly one end of one fix lies on a cell. *)
Lemma cell_one_end graph space s val (c : Z * Z) :
  setup graph space = Some s -> satisfies val (model s) -> c ∈ space.*1 ->
  exists (f : Z * Z) i,
    lies_on val (place s) c f i /\ f ∈ graph_nodes graph /\ (i = 0 \/ i = 1)%Z
    /\ forall (f' : Z * Z) i', lies_on val (place s) c f' i' -> f' = f /\ i' = i.
Proof.
  intros Hs Hval Hc.
  pose proof (satisfies_elem _ _ _ Hval (cell_sum _ _ _ c Hs Hc)) as Hsum.
  simpl in Hsum. specialize (Hsum (Forall_nil_2 _)).
  destruct (total_one_key val (place s) _ Hsum) as (k & p & Hk & Hp & Hv & Hu).
  apply cell_keys_elem in Hk as (f & i & Hf & Hi & ->).
  exists f, i. split_and!; [unfold lies_on; by rewrite Hp| |done|].
  - by apply (setup_fixes_nodes graph space s).
  - intros f' i' Hl.
    destruct (lies_on_inv _ _ _ _ _ _ _ Hs Hl) as (Hf' & Hi' & _).
    unfold lies_on in Hl.
    destruct (place s !! pkey c f' i') as [p'|] eqn:Hp'; [|done].
    assert (pkey c f' i' = pkey c f i) as Heq.
    { apply (Hu _ p'); [|done|done]. apply cell_keys_elem. by exists f', i'. }
    by apply pkey_inj in Heq as (_ & -> & ->).
Qed.

(** The literals of the disjunction built around the cell [c] for the
    fix [f]: the placements of index 0 of [f] on the cells of the space
    that share an edge with [c], and nothing else. *)
Lemma halves_elem (space : list ((Z * Z) * option Z)) (place : gmap (Z * Z * Z * Z * Z) nat) (c f : Z * Z) (l : lit) :
  l ∈ Pos <$> halves space place c f
  <-> exists (c' : Z * Z) q, c' ∈ space.*1 /\ orthogonal c c'
                             /\ place !! pkey c' f 0 = Some q /\ l = Pos q.
Proof.
  rewrite list_elem_of_fmap. unfold halves, placed. split.
  - intros (q & -> & Hq). apply list_elem_of_omap in Hq as (k & Hk & Hq).
    apply list_elem_of_fmap in Hk as (c' & -> & Hc'%adj_elem).
    exists c', q. tauto.
  - intros (c' & q & Hc' & Ho & Hq & ->). exists q. split; [done|].
    apply list_elem_of_omap. exists (pkey c' f 0). split; [|done].
    apply (list_elem_of_fmap_2 (λ ij : Z * Z, pkey ij f 0)), adj_elem. done.
Qed.

End placement_sums.

Section placement_theorems.
Import CpModel DominoBraneSolver.

(** A placement variable belongs to a fix of the graph, to one of its
    two ends and to a cell of the space whose clue, if it has one, is the
    number of that end. *)
Lemma place_key_inv (graph : graph_t) space s (c f : Z * Z) i p :
  setup graph space = Some s -> place s !! pkey c f i = Some p ->
  f ∈ graph_nodes graph /\ f ∈ (fixes s).*1 /\ c ∈ space.*1
  /\ exists clue, (c, clue) ∈ space /\ admits clue f i.
Proof.
  intros Hs Hp.
  assert (is_Some (place s !! pkey c f i)) as Hin by eauto.
  apply (setup_place_dom graph space s _ Hs) in Hin
    as (f' & [c' clue] & i' & Hf & Hc & Hk & Ha).
  apply pkey_inj in Hk as (-> & -> & ->). simpl in *.
  split_and!; [by apply (setup_fixes_nodes graph space s)|done| |by exists clue].
  by apply (list_elem_of_fmap_2 fst) in Hc.
Qed.

(** The disjunction a placement of index 1 enforces for its own fix. *)
Lemma halves_constraint (graph : graph_t) space s (c f : Z * Z) p :
  setup graph space = Some s -> place s !! pkey c f 1 = Some p ->
  BoolOr (Pos <$> halves space (place s) c f) [Pos p] ∈ constraints (model s).
Proof.
  intros Hs Hp. destruct (place_key_inv _ _ _ _ _ _ _ Hs Hp) as (_ & Hf & Hc & _).
  apply (setup_cell_constraints _ _ _ _ Hs).
  unfold cell_constraints. apply list_elem_of_bind. exists c. split; [|done].
  apply list_elem_of_further, list_elem_of_bind. exists f. split; [|done].
  rewrite Hp. apply list_elem_of_here.
Qed.

(** The disjunction a placement of index 1 enforces, together with an
    arc, for the fix the arc leads to. *)
Lemma glue_constraint (graph : graph_t) space s (h t c : Z * Z) x p :
  setup graph space = Some s ->
  ((h, t), x) ∈ links (DominoBraneSolver.graph s) ->
  place s !! pkey c h 1 = Some p ->
  BoolOr (Pos <$> halves space (place s) c t) [Pos p; Pos x] ∈ constraints (model s).
Proof.
  intros Hs Hl Hp. destruct (place_key_inv _ _ _ _ _ _ _ Hs Hp) as (_ & _ & Hc & _).
  unfold links in Hl.
  apply list_elem_of_bind in Hl as (dd & Hl & Hdd).
  apply list_elem_of_bind in Hl as (hd & Hl & Hhd).
  apply list_elem_of_bind in Hl as (tv & Hl & Htv).
  apply list_elem_of_singleton in Hl. injection Hl as -> -> ->.
  apply (setup_glue_constraints _ _ _ _ Hs).
  unfold glue_constraints. apply list_elem_of_bind. exists dd. split; [|done].
  apply list_elem_of_bind. exists hd. split; [|done].
  apply list_elem_of_bind. exists tv. split; [|done].
  apply list_elem_of_bind. exists c. split; [|done].
  rewrite Hp. apply list_elem_of_here.
Qed.

(** C3. The built model holds, for every cell of the space, the constraint
    that the placement variables at that cell (every fix of the graph,
    both ends) sum to 1, and for every fix and each of its two ends the
    constraint that the placement variables of that end over the cells of
    the space sum to the activity variable of the fix; there is no
    placement variable besides these.  Hence in every solution exactly
    one end of one fix lies on each cell, an active fix has each of its
    ends on exactly one cell, and an inactive fix lies nowhere. *)
Theorem exact_cover (graph : graph_t) space s :
  setup graph space = Some s ->
  NoDup (fixes s).*1
  /\ (forall f, f ∈ (fixes s).*1 <-> f ∈ graph_nodes graph)
  /\ (forall (c f : Z * Z) i p, place s !! pkey c f i = Some p ->
        c ∈ space.*1 /\ f ∈ (fixes s).*1 /\ (i = 0 \/ i = 1)%Z)
  /\ (forall c : Z * Z, c ∈ space.*1 ->
        LinearEq (omap (λ k, place s !! k)
                    (f ← (fixes s).*1; i ← [0; 1]%Z; [pkey c f i])) [] 1 []
        ∈ constraints (model s))
  /\ (forall (f : Z * Z) a i, (f, a) ∈ fixes s -> (i = 0 \/ i = 1)%Z ->
        LinearEq (omap (λ k, place s !! k) ((λ c, pkey c f i) <$> space.*1)) [a] 0 []
        ∈ constraints (model s))
  /\ forall val, satisfies val (model s) ->
       (forall c : Z * Z, c ∈ space.*1 ->
          exists (f : Z * Z) i,
            lies_on val (place s) c f i /\ f ∈ graph_nodes graph
            /\ (i = 0 \/ i = 1)%Z
            /\ forall (f' : Z * Z) i', lies_on val (place s) c f' i' ->
                                       f' = f /\ i' = i)
       /\ (forall (f : Z * Z) a i, (f, a) ∈ fixes s -> (i = 0 \/ i = 1)%Z ->
             if val a
             then exists c, c ∈ space.*1 /\ lies_on val (place s) c f i
                            /\ forall c', lies_on val (place s) c' f i -> c' = c
             else forall c, ¬ lies_on val (place s) c f i).
Proof.
  intros Hs. split_and!.
  - by apply (setup_fixes_NoDup graph space).
  - intros f. by apply (setup_fixes_nodes graph space s).
  - intros c f i p Hp.
    destruct (place_key_inv _ _ _ _ _ _ _ Hs Hp) as (_ & Hf & Hc & clue & _ & Ha).
    split_and!; [done|done|]. by apply admits_role in Ha.
  - intros c Hc. by apply (cell_sum graph space s).
  - intros f a i Hf Hi. by apply (fix_sums graph space s).
  - intros val Hval. split.
    + intros c Hc. by apply (cell_one_end graph space s).
    + intros f a i Hf Hi. by apply (fix_end graph space s).
Qed.

(** C4. For every fix and every cell where the fix has a placement
    variable of index 1 (the one named 'H'), the model holds a disjunction,
    enforced by that variable alone, whose literals are exactly the
    placement variables of index 0 (named 'T') of the same fix on the
    cells of the space that share an edge with the cell.  Hence in every
    solution in which that placement is true the other end of the fix lies
    on a cell of the space sharing an edge with it, and nowhere else. *)
Theorem halves_adjacent (graph : graph_t) space s (c f : Z * Z) p :
  setup graph space = Some s -> place s !! pkey c f 1 = Some p ->
  c ∈ space.*1 /\ f ∈ graph_nodes graph
  /\ (exists lits,
        BoolOr lits [Pos p] ∈ constraints (model s)
        /\ forall l, l ∈ lits
             <-> exists (c' : Z * Z) q,
                   c' ∈ space.*1 /\ orthogonal c c'
                   /\ place s !! pkey c' f 0 = Some q /\ l = Pos q)
  /\ forall val, satisfies val (model s) -> val p = true ->
       (exists c', c' ∈ space.*1 /\ orthogonal c c'
                   /\ lies_on val (place s) c' f 0)
       /\ forall c', lies_on val (place s) c' f 0 -> orthogonal c c'.
Proof.
  intros Hs Hp.
  destruct (place_key_inv _ _ _ _ _ _ _ Hs Hp) as (Hn & Hf & Hc & _).
  pose proof (halves_constraint _ _ _ _ _ _ Hs Hp) as Hin.
  split_and!; [done|done| |].
  - exists (Pos <$> halves space (place s) c f). split; [done|].
    intros l. apply halves_elem.
  - intros val Hval Hpv.
    apply (satisfies_elem _ _ _ Hval) in Hin. simpl in Hin.
    destruct (halves_true val space (place s) c f) as (c1 & Hc1 & Ho & Hl1).
    { apply Hin. by repeat constructor. }
    split; [by exists c1|].
    intros c' Hl'.
    apply dict_key_elem in Hf as (a & Ha).
    pose proof (fix_end graph space s val f a 0 Hs Hval Ha (or_introl eq_refl)) as He.
    destruct (val a).
    + destruct He as (c0 & _ & _ & Hu). by rewrite (Hu c' Hl'), <- (Hu c1 Hl1).
    + by destruct (He c').
Qed.

(** C1. Every arc (h, t) of the graph given has an entry in the
    [tail_vars] of h, and every such entry belongs to an arc of the graph
    and holds the variable of an arc handed to the circuit constraint;
    where no tails list repeats a fix these are all the arcs handed over.
    For every such arc and every cell where h has a placement variable of
    index 1 -- the end that shows h's second number, its trailing value:
    the variable the code names 'H' -- the model holds a disjunction,
    enforced by that variable and by the arc together, whose literals are
    exactly the placement variables of index 0 of t -- the end that shows
    t's first number, its leading value -- on the cells of the space that
    share an edge with the cell.  Hence in every solution in which the arc
    is used, wherever the trailing end of h lies, the leading end of t
    lies on a cell sharing an edge with it, and there is such a pair of
    cells: a fix (a, b) having head value a and tail value b, the head of
    t is next to the tail of h. *)
Theorem glue_arc_to_placement (graph : graph_t) space s :
  setup graph space = Some s ->
  strip <$> DominoBraneSolver.graph s = graph
  /\ (forall (d : Z * Z) dir (h : Z * Z) ts (t : Z * Z),
        (d, dir) ∈ graph -> (h, ts) ∈ dir -> t ∈ ts ->
        exists x, ((h, t), x) ∈ links (DominoBraneSolver.graph s))
  /\ (tails_distinct graph ->
      forall a, a ∈ arcs s ->
        exists h t : Z * Z,
          ((h, t), arc_var a) ∈ links (DominoBraneSolver.graph s)
          /\ idx (fixes s) h = Some (head a) /\ idx (fixes s) t = Some (tail a))
  /\ forall (h t : Z * Z) x,
       ((h, t), x) ∈ links (DominoBraneSolver.graph s) ->
       (exists (d : Z * Z) dir ts, (d, dir) ∈ graph /\ (h, ts) ∈ dir /\ t ∈ ts)
       /\ (exists a, a ∈ arcs s /\ arc_var a = x
                     /\ idx (fixes s) h = Some (head a)
                     /\ idx (fixes s) t = Some (tail a))
       /\ (forall (c : Z * Z) p, place s !! pkey c h 1 = Some p ->
             (exists clue, (c, clue) ∈ space /\ (clue = None \/ clue = Some h.2))
             /\ exists lits,
                  BoolOr lits [Pos p; Pos x] ∈ constraints (model s)
                  /\ forall l, l ∈ lits
                       <-> exists (c' : Z * Z) q,
                             c' ∈ space.*1 /\ orthogonal c c'
                             /\ place s !! pkey c' t 0 = Some q /\ l = Pos q)
       /\ (forall (c' : Z * Z) q, place s !! pkey c' t 0 = Some q ->
             exists clue, (c', clue) ∈ space /\ (clue = None \/ clue = Some t.1))
       /\ forall val, satisfies val (model s) -> val x = true ->
            (forall c, lies_on val (place s) c h 1 ->
               exists c', c' ∈ space.*1 /\ orthogonal c c'
                          /\ lies_on val (place s) c' t 0)
            /\ exists c c', c ∈ space.*1 /\ c' ∈ space.*1 /\ orthogonal c c'
                            /\ lies_on val (place s) c h 1
                            /\ lies_on val (place s) c' t 0.
Proof.
  intros Hs. split_and!.
  - destruct (setup_inv _ _ _ Hs) as (cs & Hcs & Heq).
    destruct (set_circuit_spec _ _ _ Hcs) as (_ & _ & Hstrip & _).
    destruct (set_placements_fields cs space) as (Eg & _).
    rewrite <- Heq in Eg. by rewrite Eg.
  - intros d dir h ts t Hd Hh Ht. by apply (graph_link graph space s d dir h ts t).
  - intros Htd a (i & Hi)%list_elem_of_lookup.
    destruct (Forall2_lookup_l _ _ _ _ _ (solution_wired _ _ _ Hs Htd) Hi)
      as ([[h t] x] & Hl & Hh & Ht & Hx & _).
    apply list_elem_of_lookup_2 in Hl. simpl in Hh, Ht, Hx. subst x.
    by exists h, t.
  - intros h t x Hl.
    destruct (link_arc _ _ _ _ _ _ Hs Hl)
      as (a & Ha & Hih & Hit & Hx & fh & ft & Hfh & Hft & Himp & _).
    simpl in Hih, Hit, Hx, Hfh, Hft, Himp.
    split_and!.
    + by apply (link_graph graph space s h t x).
    + by exists a.
    + intros c p Hp. split.
      * destruct (place_key_inv _ _ _ _ _ _ _ Hs Hp) as (_ & _ & _ & clue & Hc & Hadm).
        exists clue. split; [done|]. unfold admits in Hadm.
        destruct Hadm as [[_ Hadm]|[[=] _]]. done.
      * exists (Pos <$> halves space (place s) c t). split.
        -- by apply (glue_constraint graph space s h t c).
        -- intros l. apply halves_elem.
    + intros c' q Hq.
      destruct (place_key_inv _ _ _ _ _ _ _ Hs Hq) as (_ & _ & _ & clue & Hc & Hadm).
      exists clue. split; [done|]. unfold admits in Hadm.
      destruct Hadm as [[[=] _]|[_ Hadm]]. done.
    + intros val Hval Hused.
      assert (forall c, lies_on val (place s) c h 1 ->
                exists c', c' ∈ space.*1 /\ orthogonal c c'
                           /\ lies_on val (place s) c' t 0) as Hglue.
      { intros c Hlc. unfold lies_on in Hlc.
        destruct (place s !! pkey c h 1) as [p|] eqn:Hp; [|done].
        pose proof (glue_constraint graph space s h t c _ p Hs Hl Hp) as Hin.
        apply (satisfies_elem _ _ _ Hval) in Hin. simpl in Hin.
        apply (halves_true val space). apply Hin. by repeat constructor. }
      split; [done|].
      pose proof (satisfies_elem _ _ _ Hval Himp) as Hact. simpl in Hact.
      specialize (Hact Hused).
      apply dict_get_Some_elem in Hfh.
      pose proof (fix_end graph space s val h fh 1 Hs Hval Hfh (or_intror eq_refl))
        as He.
      rewrite Hact in He. destruct He as (c & Hc & Hlc & _).
      destruct (Hglue c Hlc) as (c' & Hc' & Ho & Hlc').
      by exists c, c'.
Qed.

End placement_theorems.

(** *** The theorems on the placements, applied to the tiling *)

Section placement_witnesses.
Import CpModel DominoBraneSolver.

Lemma exact_cover_witness :
  exists s val,
    DominoBraneSolver.setup (DominoDigraph.graph 2) (DominoBraneSolver.Space 2) = Some s
    /\ CpModel.satisfies val (DominoBraneSolver.model s)
    /\ DominoBraneSolver.lies_on val (DominoBraneSolver.place s) (1, 0)%Z (0, 0)%Z 1
    /\ (forall c : Z * Z, c ∈ (DominoBraneSolver.Space 2).*1 ->
          exists (f : Z * Z) i,
            DominoBraneSolver.lies_on val (DominoBraneSolver.place s) c f i
            /\ f ∈ DominoBraneSolver.graph_nodes (DominoDigraph.graph 2)
            /\ (i = 0 \/ i = 1)%Z
            /\ forall (f' : Z * Z) i',
                 DominoBraneSolver.lies_on val (DominoBraneSolver.place s) c f' i' ->
                 f' = f /\ i' = i)
    /\ (forall (f : Z * Z) a i,
          (f, a) ∈ DominoBraneSolver.fixes s -> (i = 0 \/ i = 1)%Z ->
          if val a
          then exists c, c ∈ (DominoBraneSolver.Space 2).*1
                 /\ DominoBraneSolver.lies_on val (DominoBraneSolver.place s) c f i
                 /\ forall c',
                      DominoBraneSolver.lies_on val (DominoBraneSolver.place s) c' f i ->
                      c' = c
          else forall c,
                 ¬ DominoBraneSolver.lies_on val (DominoBraneSolver.place s) c f i).
Proof.
  destruct (checked
    (λ s, bool_decide
       (CpModel.satisfies (Scenario.tiling s) (DominoBraneSolver.model s)
        /\ DominoBraneSolver.lies_on (Scenario.tiling s) (DominoBraneSolver.place s)
             (1, 0)%Z (0, 0)%Z 1))
    (DominoBraneSolver.setup (DominoDigraph.graph 2) (DominoBraneSolver.Space 2)))
    as (s & Hs & H).
  { vm_compute. reflexivity. }
  apply bool_decide_eq_true in H. destruct H as [Hval Hl].
  exists s, (Scenario.tiling s). split; [exact Hs|]. split; [exact Hval|].
  split; [exact Hl|].
  destruct (exact_cover _ _ s Hs) as (_ & _ & _ & _ & _ & Hsem).
  exact (Hsem (Scenario.tiling s) Hval).
Defined.

Lemma halves_adjacent_witness :
  exists s p val,
    DominoBraneSolver.setup (DominoDigraph.graph 2) (DominoBraneSolver.Space 2) = Some s
    /\ DominoBraneSolver.place s !! DominoBraneSolver.pkey (1, 0)%Z (0, 0)%Z 1 = Some p
    /\ CpModel.satisfies val (DominoBraneSolver.model s)
    /\ val p = true
    /\ DominoBraneSolver.lies_on val (DominoBraneSolver.place s) (0, 0)%Z (0, 0)%Z 0
    /\ (exists lits,
          CpModel.BoolOr lits [CpModel.Pos p]
          ∈ CpModel.constraints (DominoBraneSolver.model s)
          /\ forall l, l ∈ lits
               <-> exists (c' : Z * Z) q,
                     c' ∈ (DominoBraneSolver.Space 2).*1
                     /\ DominoBraneSolver.orthogonal (1, 0)%Z c'
                     /\ DominoBraneSolver.place s
                          !! DominoBraneSolver.pkey c' (0, 0)%Z 0 = Some q
                     /\ l = CpModel.Pos q)
    /\ (exists c', c' ∈ (DominoBraneSolver.Space 2).*1
                   /\ DominoBraneSolver.orthogonal (1, 0)%Z c'
                   /\ DominoBraneSolver.lies_on val (DominoBraneSolver.place s)
                        c' (0, 0)%Z 0)
    /\ forall c', DominoBraneSolver.lies_on val (DominoBraneSolver.place s) c' (0, 0)%Z 0 ->
                  DominoBraneSolver.orthogonal (1, 0)%Z c'.
Proof.
  destruct (checked
    (λ s, bool_decide
       (CpModel.satisfies (Scenario.tiling s) (DominoBraneSolver.model s)
        /\ DominoBraneSolver.lies_on (Scenario.tiling s) (DominoBraneSolver.place s)
             (1, 0)%Z (0, 0)%Z 1
        /\ DominoBraneSolver.lies_on (Scenario.tiling s) (DominoBraneSolver.place s)
             (0, 0)%Z (0, 0)%Z 0))
    (DominoBraneSolver.setup (DominoDigraph.graph 2) (DominoBraneSolver.Space 2)))
    as (s & Hs & H).
  { vm_compute. reflexivity. }
  apply bool_decide_eq_true in H. destruct H as (Hval & Hl1 & Hl0).
  unfold DominoBraneSolver.lies_on in Hl1.
  destruct (DominoBraneSolver.place s !! DominoBraneSolver.pkey (1, 0)%Z (0, 0)%Z 1)
    as [p|] eqn:Hp; [|destruct Hl1].
  exists s, p, (Scenario.tiling s).
  split; [exact Hs|]. split; [exact Hp|]. split; [exact Hval|].
  split; [exact Hl1|]. split; [exact Hl0|].
  destruct (halves_adjacent _ _ s (1, 0)%Z (0, 0)%Z p Hs Hp) as (_ & _ & Hor & Hsem).
  split; [exact Hor|]. exact (Hsem (Scenario.tiling s) Hval Hl1).
Defined.

Lemma glue_arc_to_placement_witness :
  exists s val x,
    DominoBraneSolver.setup (DominoDigraph.graph 2) (DominoBraneSolver.Space 2) = Some s
    /\ CpModel.satisfies val (DominoBraneSolver.model s)
    /\ (((0, 0), (0, 1))%Z, x) ∈ links (DominoBraneSolver.graph s)
    /\ val x = true
    /\ DominoBraneSolver.lies_on val (DominoBraneSolver.place s) (1, 0)%Z (0, 0)%Z 1
    /\ DominoBraneSolver.lies_on val (DominoBraneSolver.place s) (2, 0)%Z (0, 1)%Z 0
    /\ (exists a, a ∈ DominoBraneSolver.arcs s /\ CpModel.arc_var a = x
          /\ DominoBraneSolver.idx (DominoBraneSolver.fixes s) (0, 0)%Z
             = Some (CpModel.head a)
          /\ DominoBraneSolver.idx (DominoBraneSolver.fixes s) (0, 1)%Z
             = Some (CpModel.tail a))
    /\ (forall c, DominoBraneSolver.lies_on val (DominoBraneSolver.place s) c (0, 0)%Z 1 ->
          exists c', c' ∈ (DominoBraneSolver.Space 2).*1
                     /\ DominoBraneSolver.orthogonal c c'
                     /\ DominoBraneSolver.lies_on val (DominoBraneSolver.place s)
                          c' (0, 1)%Z 0)
    /\ exists c c', c ∈ (DominoBraneSolver.Space 2).*1
                    /\ c' ∈ (DominoBraneSolver.Space 2).*1
                    /\ DominoBraneSolver.orthogonal c c'
                    /\ DominoBraneSolver.lies_on val (DominoBraneSolver.place s)
                         c (0, 0)%Z 1
                    /\ DominoBraneSolver.lies_on val (DominoBraneSolver.place s)
                         c' (0, 1)%Z 0.
Proof.
  destruct (checked
    (λ s, bool_decide
       (CpModel.satisfies (Scenario.tiling s) (DominoBraneSolver.model s)
        /\ Exists (λ l : ((Z * Z) * (Z * Z)) * nat,
             l.1 = ((0, 0), (0, 1))%Z /\ Scenario.tiling s l.2 = true)
             (links (DominoBraneSolver.graph s))
        /\ DominoBraneSolver.lies_on (Scenario.tiling s) (DominoBraneSolver.place s)
             (1, 0)%Z (0, 0)%Z 1
        /\ DominoBraneSolver.lies_on (Scenario.tiling s) (DominoBraneSolver.place s)
             (2, 0)%Z (0, 1)%Z 0))
    (DominoBraneSolver.setup (DominoDigraph.graph 2) (DominoBraneSolver.Space 2)))
    as (s & Hs & H).
  { vm_compute. reflexivity. }
  apply bool_decide_eq_true in H. destruct H as (Hval & Hl & Hl1 & Hl0).
  apply Exists_exists in Hl as ([l x] & Hl & Hlk & Hused).
  simpl in Hlk, Hused. subst l.
  exists s, (Scenario.tiling s), x.
  split; [exact Hs|]. split; [exact Hval|]. split; [exact Hl|].
  split; [exact Hused|]. split; [exact Hl1|]. split; [exact Hl0|].
  destruct (glue_arc_to_placement _ _ s Hs) as (_ & _ & _ & Harc).
  destruct (Harc _ _ _ Hl) as (_ & Ha & _ & _ & Hsem).
  split; [exact Ha|].
  exact (Hsem (Scenario.tiling s) Hval Hused).
Defined.

End placement_witnesses.

(** ** The circuit-only model builder of [domino_circuit.py] *)

Section dict_build.
Context {K V : Type} `{EqDecision K}.

(** Filling a dict with pairwise distinct keys lists them in order. *)
Lemma dict_fill (acc l : list (K * V)) :
  NoDup (acc ++ l).*1 ->
  foldl (λ d (e : K * V), Py.dict_set e.1 e.2 d) acc l = acc ++ l.
Proof.
  revert acc. induction l as [|[k v] l IH]; intros acc Hnd; simpl.
  - by rewrite app_nil_r.
  - rewrite fmap_app, fmap_cons in Hnd.
    assert (k ∉ acc.*1) as Hk.
    { apply NoDup_app in Hnd as (_ & Hdis & _). intros Hin.
      apply (Hdis k Hin). apply list_elem_of_here. }
    rewrite dict_set_fresh by done. rewrite IH.
    + by rewrite <- app_assoc.
    + rewrite <- app_assoc. simpl. by rewrite fmap_app, fmap_cons.
Qed.

End dict_build.

Section dc_facts.
Import CpModel DominoBraneSolver.

Lemma graph_nodes_entries (graph : graph_t) :
  graph_nodes graph = (m ← graph; m.2).*1.
Proof.
  unfold graph_nodes. induction graph as [|m graph IH]; [done|].
  rewrite !bind_cons, fmap_app, IH. done.
Qed.

Lemma nodal_of_NoDup (graph : graph_t) :
  NoDup (graph_nodes graph) -> DominoCircuit.nodal_of graph = (m ← graph; m.2).
Proof.
  intros Hnd. unfold DominoCircuit.nodal_of.
  rewrite (dict_fill [] (m ← graph; m.2)); [done|].
  simpl. by rewrite <- graph_nodes_entries.
Qed.

Lemma nodal_keys (graph : graph_t) :
  NoDup (graph_nodes graph) -> (DominoCircuit.nodal_of graph).*1 = graph_nodes graph.
Proof. intros Hnd. by rewrite nodal_of_NoDup, graph_nodes_entries. Qed.

Lemma new_fixes_keys nodes (fixes : list ((Z * Z) * nat)) m fixes' m' :
  new_fixes nodes fixes m = (fixes', m') ->
  NoDup (fixes.*1 ++ nodes) -> fixes'.*1 = fixes.*1 ++ nodes.
Proof.
  revert fixes m. induction nodes as [|n nodes IH]; intros fixes m; simpl.
  - intros [= <- <-] _. by rewrite app_nil_r.
  - intros Hnf Hnd.
    assert (n ∉ fixes.*1) as Hn.
    { apply NoDup_app in Hnd as (_ & Hdis & _). intros Hin.
      apply (Hdis n Hin). apply list_elem_of_here. }
    apply IH in Hnf.
    + rewrite Hnf, dict_set_fresh by done.
      rewrite fmap_app. simpl. by rewrite <- app_assoc.
    + rewrite dict_set_fresh by done.
      rewrite fmap_app. simpl. by rewrite <- app_assoc.
Qed.

Lemma set_circuit_keys (graph : graph_t) m cs :
  set_circuit graph m = Some cs -> NoDup (graph_nodes graph) ->
  (cs_fixes cs).*1 = graph_nodes graph.
Proof.
  unfold set_circuit.
  destruct (new_fixes (graph_nodes graph) [] m) as [fixes m1] eqn:Hf.
  destruct (piece_arcs fixes graph m1) as [[[[cg arcs] loops] m2]|]; simpl; [|done].
  intros [= <-] Hnd. simpl. by apply new_fixes_keys in Hf.
Qed.

End dc_facts.

Section dc_builder.
Import CpModel DominoCircuit DominoCircuitFacts.
Import DominoBraneSolver(ends).

Lemma dc_idx_is_Some nodal (k : Z * Z) : is_Some (idx nodal k) <-> k ∈ nodal.*1.
Proof.
  unfold idx. split; [|apply index_of_elem].
  intros [i Hi]. apply index_of_Some in Hi. by apply list_elem_of_lookup_2 in Hi.
Qed.

Lemma dc_idx_lt nodal (k : Z * Z) i : idx nodal k = Some i -> (i < length nodal)%nat.
Proof.
  unfold idx. intros Hi%index_of_Some. apply lookup_lt_Some in Hi.
  by rewrite length_fmap in Hi.
Qed.

Lemma new_arcs_spec nodal (pairs : list ((Z * Z) * (Z * Z))) m arcs m' :
  new_arcs nodal pairs m = Some (arcs, m') ->
  ends <$> arcs = (λ p : (Z * Z) * (Z * Z), (idx nodal p.1, idx nodal p.2)) <$> pairs
  /\ arc_var <$> arcs = seq (n_vars m) (length pairs)
  /\ constraints m' = constraints m
  /\ n_vars m' = (n_vars m + length pairs)%nat.
Proof.
  revert m arcs m'. induction pairs as [|[h t] pairs IH]; intros m arcs m'; simpl.
  - intros [= <- <-]. split_and!; try done; lia.
  - destruct (idx nodal h) as [ih|] eqn:Hh; simpl; [|done].
    destruct (idx nodal t) as [it|] eqn:Ht; simpl; [|done].
    destruct (new_arcs nodal pairs _) as [[arcs1 m1]|] eqn:Hrec; simpl; [|done].
    intros [= <- <-]. apply IH in Hrec as (H1 & H2 & H3 & H4).
    split_and!.
    + rewrite fmap_cons, H1. done.
    + rewrite fmap_cons, H2. done.
    + done.
    + simpl in H4. lia.
Qed.

Lemma new_arcs_is_Some nodal (pairs : list ((Z * Z) * (Z * Z))) m :
  is_Some (new_arcs nodal pairs m)
  <-> Forall (λ p : (Z * Z) * (Z * Z), p.1 ∈ nodal.*1 /\ p.2 ∈ nodal.*1) pairs.
Proof.
  revert m. induction pairs as [|[h t] pairs IH]; intros m; simpl.
  - split; [constructor|eauto].
  - rewrite Forall_cons. simpl. rewrite <- !dc_idx_is_Some.
    destruct (idx nodal h) as [ih|]; simpl; [|split; [by intros [? ?]|by intros [[[? ?] _] _]]].
    destruct (idx nodal t) as [it|]; simpl; [|split; [by intros [? ?]|by intros [[_ [? ?]] _]]].
    specialize (IH (Model (S (n_vars m)) (constraints m))).
    destruct (new_arcs nodal pairs _) as [[arcs1 m1]|]; simpl.
    + split; [|eauto]. intros _. split; [eauto|]. apply IH. eauto.
    + split; [by intros [? ?]|]. intros [_ H]. apply IH in H. by destruct H.
Qed.

Lemma new_loops_spec nodal (ns : list (Z * Z)) m loops m' :
  new_loops nodal ns m = Some (loops, m') ->
  ends <$> loops = (λ n : Z * Z, (idx nodal n, idx nodal n)) <$> ns
  /\ arc_var <$> loops = seq (n_vars m) (length ns)
  /\ constraints m' = constraints m.
Proof.
  revert m loops m'. induction ns as [|n ns IH]; intros m loops m'; simpl.
  - intros [= <- <-]. done.
  - destruct (idx nodal n) as [i|] eqn:Hn; simpl; [|done].
    destruct (new_loops nodal ns _) as [[loops1 m1]|] eqn:Hrec; simpl; [|done].
    intros [= <- <-]. apply IH in Hrec as (H1 & H2 & H3).
    split_and!; [|by rewrite fmap_cons, H2|done].
    rewrite fmap_cons, H1. done.
Qed.

Lemma new_loops_is_Some nodal (ns : list (Z * Z)) m :
  is_Some (new_loops nodal ns m) <-> Forall (λ n, n ∈ nodal.*1) ns.
Proof.
  revert m. induction ns as [|n ns IH]; intros m; simpl.
  - split; [constructor|eauto].
  - rewrite Forall_cons, <- dc_idx_is_Some.
    destruct (idx nodal n) as [i|]; simpl; [|split; [by intros [? ?]|by intros [[? ?] _]]].
    specialize (IH (Model (S (n_vars m)) (constraints m))).
    destruct (new_loops nodal ns _) as [[loops1 m1]|]; simpl.
    + split; [|eauto]. intros _. split; [eauto|]. apply IH. eauto.
    + split; [by intros [? ?]|]. intros [_ H]. apply IH in H. by destruct H.
Qed.

(** [heads] lists the variables of the arcs that leave the piece. *)
Lemma heads_of_spec nodal (p : list ((Z * Z) * list (Z * Z)))
    (arcs : list (nat * nat * nat)) :
  Forall (λ a, head a < length nodal)%nat arcs ->
  heads_of nodal p arcs = Some (arc_var <$> filter (leaves nodal p) arcs).
Proof.
  unfold heads_of. induction arcs as [|a arcs IH]; intros Hall; [done|].
  apply Forall_cons in Hall as [Ha Hall]. specialize (IH Hall).
  destruct (mapM _ arcs) as [hs|] eqn:E; [|done]. simpl in IH.
  injection IH as IH. simpl mapM. rewrite E.
  destruct (lookup_lt_is_Some_2 nodal.*1 (head a)) as [k Hk];
    [by rewrite length_fmap|].
  unfold rev at 1. rewrite Hk. simpl. f_equal.
  assert (leaves nodal p a <-> k ∈ p.*1) as Hl.
  { unfold leaves, rev. by rewrite Hk. }
  rewrite filter_cons, IH.
  destruct (decide (k ∈ p.*1)) as [Hin|Hin], (decide (leaves nodal p a)) as [Hle|Hle];
    try done; tauto.
Qed.

End dc_builder.

Section dc_lock_out.
Import CpModel DominoCircuit DominoCircuitFacts.
Import DominoBraneSolver(ends).

Lemma ends_head_lt nodal (l : list (nat * nat * nat)) (ns : list (Z * Z)) :
  ends <$> l = (λ n : Z * Z, (idx nodal n, idx nodal n)) <$> ns ->
  forall a, a ∈ l ->
    tail a = head a
    /\ exists n, n ∈ ns /\ idx nodal n = Some (head a).
Proof.
  intros Heq a Ha. apply (list_elem_of_fmap_2 ends) in Ha. rewrite Heq in Ha.
  apply list_elem_of_fmap in Ha as (n & [= H1 H2] & Hn).
  split; [congruence|]. exists n. done.
Qed.

Lemma lock_out_spec nodal (pieces : list (list ((Z * Z) * list (Z * Z))))
    (arcs : list (nat * nat * nat)) m arcs' m' :
  lock_out nodal pieces arcs m = Some (arcs', m') ->
  exists loops,
    arcs' = arcs ++ loops
    /\ ends <$> loops = pieces ≫= loop_pairs nodal
    /\ constraints m `prefix_of` constraints m'.
Proof.
  revert arcs m arcs' m'.
  induction pieces as [|p pieces IH]; intros arcs m arcs' m'; simpl.
  - intros [= <- <-]. exists []. by rewrite app_nil_r.
  - unfold loop_pairs at 1. destruct (decide (1 < length p)%nat) as [Hp|Hp].
    + destruct (heads_of nodal p arcs) as [hs|]; simpl; [|done].
      destruct (new_loops nodal p.*1 _) as [[loops m2]|] eqn:Hl; simpl; [|done].
      apply new_loops_spec in Hl as (Hl1 & _ & Hl3).
      intros (loops' & -> & H2 & H3)%IH.
      exists (loops ++ loops'). split; [by rewrite app_assoc|]. split.
      * rewrite fmap_app, Hl1, H2, <- list_fmap_compose. done.
      * etrans; [|exact H3]. rewrite Hl3. apply Add_prefix.
    + intros (loops' & -> & H2 & H3)%IH. exists loops'. done.
Qed.

Lemma filter_none {A : Type} (P : A -> Prop) `{forall x, Decision (P x)} (l : list A) :
  Forall (λ x, ¬ P x) l -> filter P l = [].
Proof.
  induction 1 as [|x l Hx _ IH]; [done|]. by rewrite filter_cons, decide_False.
Qed.

Lemma lock_out_heads nodal (pieces : list (list ((Z * Z) * list (Z * Z))))
    (arcs : list (nat * nat * nat)) m arcs' m' :
  lock_out nodal pieces arcs m = Some (arcs', m') ->
  Forall (λ a, head a < length nodal)%nat arcs ->
  NoDup (pieces ≫= (λ p, p.*1)) ->
  forall p, p ∈ pieces -> (1 < length p)%nat ->
    LinearEq (arc_var <$> filter (leaves nodal p) arcs) [] 1 [] ∈ constraints m'.
Proof.
  revert arcs m arcs' m'.
  induction pieces as [|p0 pieces IH]; intros arcs m arcs' m' Hlock Hlt Hnd p Hp Hlen;
    [by apply elem_of_nil in Hp|].
  rewrite bind_cons in Hnd. apply NoDup_app in Hnd as (_ & Hdis & Hnd).
  simpl in Hlock. destruct (decide (1 < length p0)%nat) as [Hp0|Hp0].
  - rewrite (heads_of_spec nodal p0 arcs Hlt) in Hlock. simpl in Hlock.
    destruct (new_loops nodal p0.*1 _) as [[loops m2]|] eqn:Hl; simpl in Hlock;
      [|done].
    apply new_loops_spec in Hl as (Hl1 & _ & Hl3).
    pose proof (ends_head_lt nodal loops p0.*1 Hl1) as Hloops.
    apply elem_of_cons in Hp as [->|Hp].
    + apply lock_out_spec in Hlock as (_ & _ & _ & Hpre).
      eapply elem_of_prefix; [|exact Hpre]. rewrite Hl3. simpl.
      apply elem_of_app. right. apply list_elem_of_here.
    + assert (filter (leaves nodal p) loops = []) as Hnone.
      { apply filter_none, Forall_forall. intros a Ha Hle.
        destruct (Hloops a Ha) as (_ & n & Hn & Hi).
        unfold leaves, rev in Hle. unfold idx in Hi.
        apply index_of_Some in Hi. rewrite Hi in Hle.
        apply (Hdis n Hn). apply list_elem_of_bind. by exists p. }
      assert (Forall (λ a, head a < length nodal)%nat (arcs ++ loops)) as Hlt'.
      { apply Forall_app. split; [done|]. apply Forall_forall. intros a Ha.
        destruct (Hloops a Ha) as (_ & n & _ & Hi). by apply (dc_idx_lt nodal n). }
      pose proof (IH _ _ _ _ Hlock Hlt' Hnd p Hp Hlen) as H.
      by rewrite filter_app, Hnone, app_nil_r in H.
  - apply elem_of_cons in Hp as [->|Hp]; [done|]. by apply (IH arcs m arcs' m').
Qed.

End dc_lock_out.

Section dc_setup.
Import CpModel DominoCircuit DominoCircuitFacts.
Import DominoBraneSolver(ends, graph_nodes, tails_closed, arc_nodes, loop_nodes).

Lemma heads_of_is_Some nodal (p : list ((Z * Z) * list (Z * Z)))
    (arcs : list (nat * nat * nat)) :
  Forall (λ a, head a < length nodal)%nat arcs -> is_Some (heads_of nodal p arcs).
Proof. intros H. rewrite (heads_of_spec nodal p arcs H). eauto. Qed.

Lemma lock_out_is_Some nodal (pieces : list (list ((Z * Z) * list (Z * Z))))
    (arcs : list (nat * nat * nat)) m :
  Forall (λ a, head a < length nodal)%nat arcs ->
  Forall (λ p : list ((Z * Z) * list (Z * Z)), Forall (λ n, n ∈ nodal.*1) p.*1) pieces ->
  is_Some (lock_out nodal pieces arcs m).
Proof.
  revert arcs m. induction pieces as [|p pieces IH]; intros arcs m Hlt Hall; simpl;
    [eauto|].
  apply Forall_cons in Hall as [Hp Hall].
  destruct (decide (1 < length p)%nat); [|by apply IH].
  rewrite (heads_of_spec nodal p arcs Hlt). simpl.
  destruct (proj2 (new_loops_is_Some nodal p.*1
                     (Add (LinearEq (arc_var <$> filter (leaves nodal p) arcs) [] 1 []) m))
              Hp) as [[loops m2] Hl].
  rewrite Hl. simpl. apply IH; [|done].
  apply Forall_app. split; [done|].
  apply new_loops_spec in Hl as (Hl1 & _).
  apply Forall_forall. intros a Ha.
  destruct (ends_head_lt nodal loops p.*1 Hl1 a Ha) as (_ & n & _ & Hi).
  by apply (dc_idx_lt nodal n).
Qed.

Lemma arc_pairs_bind (graph : list ((Z * Z) * list ((Z * Z) * list (Z * Z)))) :
  arc_pairs (m ← graph; m.2)
  = graph ≫= (λ p, p.2 ≫= (λ e : (Z * Z) * list (Z * Z), (λ t, (e.1, t)) <$> e.2)).
Proof.
  unfold arc_pairs. induction graph as [|p graph IH]; [done|].
  rewrite !bind_cons, bind_app, IH. f_equal.
Qed.

(** The result of [__init__]. *)
Lemma init_spec (graph : list ((Z * Z) * list ((Z * Z) * list (Z * Z)))) s0 :
  init graph = Some s0 ->
  model s0 = CpModel.new /\ DominoCircuit.graph s0 = graph
  /\ nodal s0 = nodal_of graph /\ arcs s0 = []
  /\ Forall (λ e : (Z * Z) * list (Z * Z),
               Forall (λ t, t ∈ (nodal_of graph).*1) e.2) (nodal_of graph).
Proof.
  unfold init.
  destruct (mapM _ (nodal_of graph)) as [nodes|] eqn:E; simpl; [|done].
  intros [= <-]. simpl. split_and!; try done.
  assert (is_Some (mapM (λ e : (Z * Z) * list (Z * Z),
                           ih ← idx (nodal_of graph) e.1;
                           its ← mapM (idx (nodal_of graph)) e.2;
                           Some (ih, its)) (nodal_of graph))) as H by eauto.
  apply mapM_is_Some in H. eapply Forall_impl; [exact H|].
  intros e He. simpl in He.
  destruct (idx (nodal_of graph) e.1); simpl in He; [|by destruct He].
  destruct (mapM (idx (nodal_of graph)) e.2) as [its|] eqn:Ets; simpl in He;
    [|by destruct He].
  assert (is_Some (mapM (idx (nodal_of graph)) e.2)) as H' by eauto.
  apply mapM_is_Some in H'. eapply Forall_impl; [exact H'|].
  intros t Ht. by apply dc_idx_is_Some.
Qed.

Lemma init_is_Some (graph : list ((Z * Z) * list ((Z * Z) * list (Z * Z)))) :
  is_Some (init graph)
  <-> Forall (λ e : (Z * Z) * list (Z * Z),
                Forall (λ t, t ∈ (nodal_of graph).*1) e.2) (nodal_of graph).
Proof.
  split.
  - intros [s0 Hs0]. by apply init_spec in Hs0 as (_ & _ & _ & _ & H).
  - intros Hall. unfold init.
    assert (is_Some (mapM (λ e : (Z * Z) * list (Z * Z),
                             ih ← idx (nodal_of graph) e.1;
                             its ← mapM (idx (nodal_of graph)) e.2;
                             Some (ih, its)) (nodal_of graph))) as [nodes ->];
      [|simpl; eauto].
    apply mapM_is_Some. rewrite Forall_forall in Hall |- *. intros e He. simpl.
    destruct (proj2 (dc_idx_is_Some (nodal_of graph) e.1)) as [ih ->];
      [by apply (list_elem_of_fmap_2 fst) in He|].
    simpl.
    assert (is_Some (mapM (idx (nodal_of graph)) e.2)) as [its ->]; [|simpl; eauto].
    apply mapM_is_Some. eapply Forall_impl; [exact (Hall e He)|].
    intros t Ht. by apply dc_idx_is_Some.
Qed.

Lemma init_closed (graph : list ((Z * Z) * list ((Z * Z) * list (Z * Z)))) :
  NoDup (graph_nodes graph) -> is_Some (init graph) <-> tails_closed graph.
Proof.
  intros Hnd. rewrite init_is_Some, nodal_keys, nodal_of_NoDup by done.
  unfold tails_closed. rewrite !Forall_forall. split.
  - intros H p Hp. rewrite Forall_forall. intros e He. apply H.
    apply list_elem_of_bind. by exists p.
  - intros H e (p & He & Hp)%list_elem_of_bind. specialize (H p Hp).
    rewrite Forall_forall in H. by apply H.
Qed.

(** After [__init__], [setup] cannot fail. *)
Lemma dc_setup_is_Some (graph : list ((Z * Z) * list ((Z * Z) * list (Z * Z)))) s0 :
  init graph = Some s0 -> is_Some (setup s0).
Proof.
  intros Hs0. destruct (init_spec graph s0 Hs0) as (Hm & Hg & Hn & _ & Hclosed).
  unfold setup. rewrite Hn, Hg.
  assert (is_Some (new_arcs (nodal_of graph) (arc_pairs (nodal_of graph)) (model s0)))
    as [[arcs0 m1] Ha].
  { apply new_arcs_is_Some. unfold arc_pairs. rewrite Forall_forall.
    intros pr (e & Hpr & He)%list_elem_of_bind.
    apply list_elem_of_bind in Hpr as (t & ->%list_elem_of_singleton & Ht).
    simpl. split; [by apply (list_elem_of_fmap_2 fst) in He|].
    rewrite Forall_forall in Hclosed. specialize (Hclosed e He).
    rewrite Forall_forall in Hclosed. by apply Hclosed. }
  rewrite Ha. simpl.
  destruct (lock_out_is_Some (nodal_of graph) (snd <$> graph) arcs0
              (Add (LinearEq (arc_var <$> arcs0) [] (Z.of_nat (length graph)) []) m1))
    as [[arcs1 m3] Hl].
  - apply new_arcs_spec in Ha as (Ha1 & _). apply Forall_forall. intros a Hin.
    apply (list_elem_of_fmap_2 ends) in Hin. rewrite Ha1 in Hin.
    apply list_elem_of_fmap in Hin as (pr & [= H1 _] & _).
    by apply (dc_idx_lt (nodal_of graph) pr.1).
  - apply Forall_forall. intros p (m & -> & Hm')%list_elem_of_fmap.
    apply Forall_forall. intros n (e & -> & He)%list_elem_of_fmap.
    unfold nodal_of.
    assert (forall (l acc : list ((Z * Z) * list (Z * Z))),
              e ∈ l -> e.1 ∈ (foldl (λ d (e : (Z * Z) * list (Z * Z)),
                                       Py.dict_set e.1 e.2 d) acc l).*1) as Hfold.
    { clear. intros l. induction l as [|x l IH]; intros acc Hin;
        [by apply elem_of_nil in Hin|]. simpl.
      assert (forall (l' acc' : list ((Z * Z) * list (Z * Z))) k,
                k ∈ acc'.*1 ->
                k ∈ (foldl (λ d (e : (Z * Z) * list (Z * Z)),
                              Py.dict_set e.1 e.2 d) acc' l').*1) as Hkeep.
      { clear. intros l'. induction l' as [|y l' IH]; intros acc' k Hk; [done|].
        simpl. apply IH. apply dict_set_keys_elem. by right. }
      apply elem_of_cons in Hin as [->|Hin]; [|by apply IH].
      apply Hkeep. apply dict_set_keys_elem. by left. }
    apply Hfold. apply list_elem_of_bind. by exists m.
  - rewrite Hl. simpl. eauto.
Qed.

End dc_setup.

Section dc_theorems.
Import CpModel DominoCircuit DominoCircuitFacts.
Import DominoBraneSolver(ends, graph_nodes, tails_closed, arc_nodes, loop_nodes, cs_fixes, cs_arcs, cs_loops, cs_graph, cs_model).

Lemma pieces_keys (graph : list ((Z * Z) * list ((Z * Z) * list (Z * Z)))) :
  (snd <$> graph) ≫= (λ p : list ((Z * Z) * list (Z * Z)), p.*1) = graph_nodes graph.
Proof.
  unfold graph_nodes. induction graph as [|m graph IH]; [done|].
  rewrite fmap_cons, !bind_cons, IH. done.
Qed.

(** What [setup] builds, for a graph whose fixes are pairwise distinct. *)
Lemma dc_setup_spec (graph : list ((Z * Z) * list ((Z * Z) * list (Z * Z)))) s0 s :
  NoDup (graph_nodes graph) -> init graph = Some s0 -> setup s0 = Some s ->
  exists arcs0 loops,
    arcs s = arcs0 ++ loops
    /\ nodal s = (m ← graph; m.2)
    /\ ends <$> arcs0
       = (λ p : (Z * Z) * (Z * Z), (idx (nodal s) p.1, idx (nodal s) p.2))
           <$> arc_pairs (nodal s)
    /\ ends <$> loops = (snd <$> graph) ≫= loop_pairs (nodal s)
    /\ LinearEq (arc_var <$> arcs0) [] (Z.of_nat (length graph)) []
         ∈ constraints (model s)
    /\ Circuit (arcs0 ++ loops) ∈ constraints (model s)
    /\ forall p, p ∈ graph -> (1 < length p.2)%nat ->
         LinearEq (arc_var <$> filter (leaves (nodal s) p.2) arcs0) [] 1 []
           ∈ constraints (model s).
Proof.
  intros Hnd Hs0 Hs.
  destruct (init_spec graph s0 Hs0) as (Hm & Hg & Hn & _ & _).
  unfold setup in Hs. rewrite Hn, Hg, Hm in Hs.
  destruct (new_arcs (nodal_of graph) (arc_pairs (nodal_of graph)) CpModel.new)
    as [[arcs0 m1]|] eqn:Ha; simpl in Hs; [|done].
  destruct (lock_out (nodal_of graph) (snd <$> graph) arcs0 _)
    as [[arcs1 m3]|] eqn:Hl; simpl in Hs; [|done].
  injection Hs as <-. simpl.
  pose proof (new_arcs_spec _ _ _ _ _ Ha) as (Ha1 & _ & Ha3 & _).
  pose proof (lock_out_spec _ _ _ _ _ _ Hl) as (loops & -> & Hl2 & Hl3).
  assert (Forall (λ a, head a < length (nodal_of graph))%nat arcs0) as Hlt.
  { apply Forall_forall. intros a Hin.
    apply (list_elem_of_fmap_2 ends) in Hin. rewrite Ha1 in Hin.
    apply list_elem_of_fmap in Hin as (pr & [= H1 _] & _).
    by apply (dc_idx_lt (nodal_of graph) pr.1). }
  exists arcs0, loops. split_and!; try done.
  - by apply nodal_of_NoDup.
  - rewrite elem_of_app. left. eapply elem_of_prefix; [|exact Hl3].
    simpl. rewrite elem_of_app. right. apply list_elem_of_here.
  - rewrite elem_of_app. right. apply list_elem_of_here.
  - intros p Hp Hlen. rewrite elem_of_app. left.
    apply (lock_out_heads _ _ _ _ _ _ Hl Hlt); [|by apply list_elem_of_fmap_2|done].
    by rewrite pieces_keys.
Qed.


(** X14. For a graph whose fixes are pairwise distinct, the circuit-only
    builder and [DominoBraneSolver] hand the same directed graph to the
    circuit constraint: the same (head, tail) index pairs in the same
    order, arcs first and self-loops after; and both bound the number of
    true arcs by the number of dominoes. *)
Theorem same_circuit (graph : list ((Z * Z) * list ((Z * Z) * list (Z * Z))))
    space s0 s s' :
  NoDup (graph_nodes graph) ->
  init graph = Some s0 -> setup s0 = Some s ->
  DominoBraneSolver.setup graph space = Some s' ->
  Circuit (arcs s) ∈ constraints (model s)
  /\ Circuit (DominoBraneSolver.arcs s' ++ DominoBraneSolver.loops s')
       ∈ constraints (DominoBraneSolver.model s')
  /\ ends <$> arcs s
     = ends <$> (DominoBraneSolver.arcs s' ++ DominoBraneSolver.loops s')
  /\ LinearEq (arc_var <$> take (length (DominoBraneSolver.arcs s')) (arcs s)) []
       (Z.of_nat (length graph)) [] ∈ constraints (model s)
  /\ LinearEq (arc_var <$> DominoBraneSolver.arcs s') []
       (Z.of_nat (length graph)) [] ∈ constraints (DominoBraneSolver.model s').
Proof.
  intros Hnd Hs0 Hs Hs'.
  destruct (dc_setup_spec graph s0 s Hnd Hs0 Hs)
    as (arcs0 & loops & Harcs & Hnodal & Ha & Hl & Hsum & Hcirc & _).
  destruct (setup_inv _ _ _ Hs') as (cs & Hcs & Heq).
  destruct (set_circuit_spec _ _ _ Hcs)
    as (_ & _ & _ & Harcs' & Hloops' & Hsum' & Hcirc' & _).
  pose proof (set_circuit_keys _ _ _ Hcs Hnd) as Hkeys.
  destruct (set_placements_fields cs space) as (_ & _ & _ & Ea & El).
  rewrite <- Heq in Ea, El. rewrite Ea, El.
  pose proof (λ c, setup_circuit_constraints graph space s' cs c Hcs Heq) as Hlift.
  assert ((nodal s).*1 = (cs_fixes cs).*1) as Hsame.
  { rewrite Hnodal, Hkeys. symmetry. apply graph_nodes_entries. }
  assert (ends <$> arcs0 = ends <$> cs_arcs cs) as Heq1.
  { rewrite Ha, Harcs', Hnodal, arc_pairs_bind. rewrite <- Hnodal.
    clear -Hsame. induction graph as [|p graph IH]; [done|].
    rewrite !bind_cons, fmap_app, IH. f_equal.
    induction p.2 as [|e es IHe]; [done|].
    rewrite !bind_cons, fmap_app, IHe. f_equal.
    unfold arc_nodes, DominoBraneSolver.idx, idx. rewrite Hsame.
    rewrite <- list_fmap_compose. done. }
  assert (ends <$> loops = ends <$> cs_loops cs) as Heq2.
  { rewrite Hl, Hloops'. clear -Hsame.
    induction graph as [|p graph IH]; [done|].
    rewrite fmap_cons, !bind_cons, IH. f_equal.
    unfold loop_pairs, loop_nodes, DominoBraneSolver.idx, idx. by rewrite Hsame. }
  assert (length arcs0 = length (cs_arcs cs)) as Hlen.
  { apply (f_equal length) in Heq1. by rewrite !length_fmap in Heq1. }
  split_and!.
  - by rewrite Harcs.
  - by apply Hlift.
  - by rewrite Harcs, !fmap_app, Heq1, Heq2.
  - rewrite Harcs, <- Hlen, take_app_length. done.
  - by apply Hlift.
Qed.

End dc_theorems.

Section dc_tour.
Import CpModel CircuitTour DominoCircuit DominoCircuitFacts Renderer.
Import DominoBraneSolver(ends, graph_nodes, tails_closed, no_self_tail).

Lemma filter_ext_in {A : Type} (P Q : A -> Prop) `{forall x, Decision (P x)}
    `{forall x, Decision (Q x)} (l : list A) :
  (forall x, x ∈ l -> (P x <-> Q x)) -> filter P l = filter Q l.
Proof.
  induction l as [|x l IH]; intros HPQ; [done|].
  rewrite !filter_cons, IH by (intros y Hy; apply HPQ; by right).
  destruct (decide (P x)) as [HP|HP], (decide (Q x)) as [HQ|HQ]; try done.
  - destruct HQ. by apply (HPQ x); [left|].
  - destruct HP. by apply (HPQ x); [left|].
Qed.

Lemma dc_arc_pair nodal (arcs0 : list (nat * nat * nat)) a :
  ends <$> arcs0
  = (λ p : (Z * Z) * (Z * Z), (idx nodal p.1, idx nodal p.2)) <$> arc_pairs nodal ->
  a ∈ arcs0 ->
  exists e t, e ∈ nodal /\ t ∈ e.2
              /\ idx nodal e.1 = Some (head a) /\ idx nodal t = Some (tail a).
Proof.
  intros Heq Ha. apply (list_elem_of_fmap_2 ends) in Ha. rewrite Heq in Ha.
  apply list_elem_of_fmap in Ha as (pr & [= H1 H2] & Hpr).
  unfold arc_pairs in Hpr. apply list_elem_of_bind in Hpr as (e & Hpr & He).
  apply list_elem_of_bind in Hpr as (t & ->%list_elem_of_singleton & Ht).
  by exists e, t.
Qed.

(** X15. In every solution of the circuit-only model, the arcs the
    solution printer would follow (true, and not self-loops) are the arcs
    of one closed tour through pairwise distinct nodes, as many as there
    are dominoes; and of every domino with more than one fix exactly one
    fix is on that tour. *)
Theorem circuit_solver_tour (graph : list ((Z * Z) * list ((Z * Z) * list (Z * Z))))
    s0 s val :
  NoDup (graph_nodes graph) -> no_self_tail graph -> graph ≠ [] ->
  init graph = Some s0 -> setup s0 = Some s -> satisfies val (model s) ->
  exists W : list nat,
    NoDup W /\ length W = length graph
    /\ (λ a, (head a, tail a))
         <$> filter (λ a, val (arc_var a) = true /\ head a ≠ tail a) (arcs s)
       ≡ₚ tour_arcs W
    /\ forall p, p ∈ graph -> (1 < length p.2)%nat ->
         exists w, w ∈ W
           /\ (exists k, rev (nodal s) w = Some k /\ k ∈ p.2.*1)
           /\ forall w', w' ∈ W ->
                (exists k, rev (nodal s) w' = Some k /\ k ∈ p.2.*1) -> w' = w.
Proof.
  intros Hnd Hself Hne Hs0 Hs Hval.
  destruct (dc_setup_spec graph s0 s Hnd Hs0 Hs)
    as (arcs0 & loops & Harcs & Hnodal & Ha & Hl & Hsum & Hcirc & Hheads).
  pose proof (satisfies_elem _ _ _ Hval Hcirc) as Hc. simpl in Hc.
  assert (NoDup (nodal s).*1) as Hknd.
  { rewrite Hnodal, <- graph_nodes_entries. done. }
  assert (forall a, a ∈ arcs0 -> head a ≠ tail a) as HA.
  { intros a Hin Heq.
    destruct (dc_arc_pair _ _ a Ha Hin) as (e & t & He & Ht & Hh & Htl).
    rewrite Heq in Hh.
    assert (e.1 = t) as Het by (by apply (index_of_inj e.1 t (nodal s).*1 (tail a))).
    rewrite Hnodal in He. apply list_elem_of_bind in He as (p & He & Hp).
    unfold no_self_tail in Hself. rewrite Forall_forall in Hself.
    specialize (Hself p Hp). rewrite Forall_forall in Hself.
    apply (Hself e He). by rewrite Het. }
  assert (forall a, a ∈ loops -> tail a = head a) as HLp.
  { intros a Hin. apply (list_elem_of_fmap_2 ends) in Hin. rewrite Hl in Hin.
    apply list_elem_of_bind in Hin as (p & Hin & _).
    unfold loop_pairs in Hin. case_decide; [|by apply elem_of_nil in Hin].
    apply list_elem_of_fmap in Hin as (e & [= H1 H2] & _). congruence. }
  assert (length (filter (λ a, val (arc_var a) = true) arcs0) = length graph)
    as Hcount.
  { pose proof (satisfies_elem _ _ _ Hval Hsum) as H. simpl in H.
    specialize (H (Forall_nil_2 _)). rewrite total_count, total_nil in H. lia. }
  assert (filter (λ a, val (arc_var a) = true /\ head a ≠ tail a) (arcs s)
          = filter (λ a, val (arc_var a) = true) arcs0) as Hused.
  { rewrite Harcs, filter_app.
    rewrite (filter_none _ loops), app_nil_r.
    - apply filter_ext_in. intros a Hin. specialize (HA a Hin). tauto.
    - apply Forall_forall. intros a Hin [_ H]. apply H. symmetry. by apply HLp. }
  destruct (filter (λ n, ¬ skipped val (arcs0 ++ loops) n) (CpModel.nodes (arcs0 ++ loops)))
    as [|n0 rest] eqn:HK.
  { rewrite (no_tour_no_arcs val _ _ Hc HA HK) in Hcount.
    destruct graph; [done|discriminate Hcount]. }
  pose proof (tour_true_arcs val _ _ Hc HA HLp n0 rest HK) as Htour.
  destruct (circuit_cycle val _ Hc n0 rest HK) as (Hperm & HWnd & _).
  set (W := walk val (arcs0 ++ loops) (S (length rest)) n0) in *.
  assert (forall n, n ∈ W <-> on_tour val (arcs0 ++ loops) n) as HW.
  { intros n. rewrite Hperm, <- HK, list_elem_of_filter. unfold on_tour. tauto. }
  exists W. split; [done|]. split.
  { rewrite <- Hcount, <- (tour_arcs_length W), <- Htour. by rewrite length_fmap. }
  split; [by rewrite Hused|].
  intros p Hp Hlen.
  pose proof (satisfies_elem _ _ _ Hval (Hheads p Hp Hlen)) as Hone. simpl in Hone.
  specialize (Hone (Forall_nil_2 _)). rewrite total_count, total_nil in Hone.
  assert (length (filter (λ a, val (arc_var a) = true)
                    (filter (leaves (nodal s) p.2) arcs0)) = 1%nat) as Hone' by lia.
  clear Hone.
  destruct (filter (λ a, val (arc_var a) = true)
              (filter (leaves (nodal s) p.2) arcs0)) as [|a l] eqn:E; [done|].
  assert (a ∈ filter (λ a, val (arc_var a) = true)
                (filter (leaves (nodal s) p.2) arcs0)) as Hin
    by (rewrite E; apply list_elem_of_here).
  rewrite <- E in Hone'. clear E l.
  apply list_elem_of_filter in Hin as [Hv Hin].
  apply list_elem_of_filter in Hin as [Hle Hin].
  destruct (true_arc_head_on_tour val _ _ Hc HA a Hin Hv) as [Hon _].
  assert (forall w, (exists k, rev (nodal s) w = Some k /\ k ∈ p.2.*1)
                    <-> forall b, head b = w -> leaves (nodal s) p.2 b) as Hleaves.
  { intros w. unfold leaves. split.
    - intros (k & Hk & Hkp) b <-. by rewrite Hk.
    - intros H. specialize (H (w, w, 0%nat) eq_refl). unfold head in H. simpl in H.
      destruct (rev (nodal s) w) as [k|]; [eauto|done]. }
  exists (head a). split; [by apply HW|]. split.
  { unfold leaves in Hle. destruct (rev (nodal s) (head a)) as [k|]; [eauto|done]. }
  intros w' Hw' Hk'.
  destruct (tour_node_true_arc val _ _ Hc HLp w' (proj1 (HW w') Hw'))
    as (b & Hb & Hbh & _ & Hbv).
  assert (b = a) as ->; [|done].
  apply (filter_one_unique (λ a, val (arc_var a) = true)
           (filter (leaves (nodal s) p.2) arcs0)); try done.
  - apply list_elem_of_filter. split; [|done]. by apply (proj1 (Hleaves w') Hk').
  - by apply list_elem_of_filter.
Qed.

End dc_tour.

Section circuit_scenario_facts.
Import CpModel DominoCircuit CircuitScenario.

(** The chain is a solution of the circuit-only model built for size 2. *)
Lemma chain_is_solution :
  exists s0 s, init (DominoDigraph.graph 2) = Some s0 /\ setup s0 = Some s
               /\ satisfies (chain s) (model s).
Proof.
  destruct (checked (λ s, bool_decide (satisfies (chain s) (model s)))
              (init (DominoDigraph.graph 2) ≫= setup)) as (s & Hs & H).
  { vm_compute. reflexivity. }
  destruct (init (DominoDigraph.graph 2)) as [s0|] eqn:Hs0; [|discriminate Hs].
  exists s0, s. split; [reflexivity|]. split; [exact Hs|].
  by apply bool_decide_eq_true in H.
Qed.

End circuit_scenario_facts.

Lemma same_circuit_witness :
  exists s0 s s',
    NoDup (DominoBraneSolver.graph_nodes (DominoDigraph.graph 2))
    /\ DominoCircuit.init (DominoDigraph.graph 2) = Some s0
    /\ DominoCircuit.setup s0 = Some s
    /\ DominoBraneSolver.setup (DominoDigraph.graph 2) (DominoBraneSolver.Space 2)
       = Some s'
    /\ CpModel.Circuit (DominoCircuit.arcs s)
         ∈ CpModel.constraints (DominoCircuit.model s)
    /\ CpModel.Circuit (DominoBraneSolver.arcs s' ++ DominoBraneSolver.loops s')
         ∈ CpModel.constraints (DominoBraneSolver.model s')
    /\ DominoBraneSolver.ends <$> DominoCircuit.arcs s
       = DominoBraneSolver.ends
           <$> (DominoBraneSolver.arcs s' ++ DominoBraneSolver.loops s')
    /\ CpModel.LinearEq
         (CpModel.arc_var
            <$> take (length (DominoBraneSolver.arcs s')) (DominoCircuit.arcs s))
         [] (Z.of_nat (length (DominoDigraph.graph 2))) []
         ∈ CpModel.constraints (DominoCircuit.model s)
    /\ CpModel.LinearEq (CpModel.arc_var <$> DominoBraneSolver.arcs s') []
         (Z.of_nat (length (DominoDigraph.graph 2))) []
         ∈ CpModel.constraints (DominoBraneSolver.model s').
Proof.
  destruct chain_is_solution as (s0 & s & Hs0 & Hs & _).
  destruct tiling_is_solution as (s' & Hs' & _).
  pose proof (graph_nodes_NoDup 2) as Hnd.
  exists s0, s, s'. split; [exact Hnd|]. split; [exact Hs0|]. split; [exact Hs|].
  split; [exact Hs'|].
  exact (same_circuit _ (DominoBraneSolver.Space 2) s0 s s' Hnd Hs0 Hs Hs').
Defined.

Lemma circuit_solver_tour_witness :
  exists s0 s,
    NoDup (DominoBraneSolver.graph_nodes (DominoDigraph.graph 2))
    /\ DominoBraneSolver.no_self_tail (DominoDigraph.graph 2)
    /\ DominoDigraph.graph 2 ≠ []
    /\ DominoCircuit.init (DominoDigraph.graph 2) = Some s0
    /\ DominoCircuit.setup s0 = Some s
    /\ CpModel.satisfies (CircuitScenario.chain s) (DominoCircuit.model s)
    /\ exists W : list nat,
         NoDup W /\ length W = length (DominoDigraph.graph 2)
         /\ (λ a, (CpModel.head a, CpModel.tail a))
              <$> filter (λ a, CircuitScenario.chain s (CpModel.arc_var a) = true
                               /\ CpModel.head a ≠ CpModel.tail a)
                    (DominoCircuit.arcs s)
            ≡ₚ Renderer.tour_arcs W
         /\ forall p, p ∈ DominoDigraph.graph 2 -> (1 < length p.2)%nat ->
              exists w, w ∈ W
                /\ (exists k, DominoCircuit.rev (DominoCircuit.nodal s) w = Some k
                              /\ k ∈ p.2.*1)
                /\ forall w', w' ∈ W ->
                     (exists k, DominoCircuit.rev (DominoCircuit.nodal s) w' = Some k
                                /\ k ∈ p.2.*1) -> w' = w.
Proof.
  destruct chain_is_solution as (s0 & s & Hs0 & Hs & H).
  pose proof (graph_nodes_NoDup 2) as Hnd.
  pose proof (graph_no_self_tail 2) as Hself.
  assert (DominoDigraph.graph 2 ≠ []) as Hne.
  { intros E. apply (f_equal length) in E. vm_compute in E. discriminate E. }
  exists s0, s. split; [exact Hnd|]. split; [exact Hself|]. split; [exact Hne|].
  split; [exact Hs0|]. split; [exact Hs|]. split; [exact H|].
  exact (circuit_solver_tour _ s0 s (CircuitScenario.chain s)
           Hnd Hself Hne Hs0 Hs H).
Defined.

Section circuit_from.
Import CpModel CircuitTour.
Context (val : nat -> bool) (L : list (nat * nat * nat)).
Hypothesis Hc : circuit_holds val L.

Local Abbreviation succ := (successor val L).

(** Two nodes of the tour with the same successor are the same node. *)
Lemma successor_inj a b :
  on_tour val L a -> on_tour val L b -> succ a = succ b -> a = b.
Proof.
  intros Ha Hb Heq.
  destruct (successor_on_tour val L Hc a Ha) as (_ & _ & x & Hx & Hxh & Hxt & Hxv).
  destruct (successor_on_tour val L Hc b Hb) as (_ & _ & y & Hy & Hyh & Hyt & Hyv).
  assert (x = y) as -> by (apply (circuit_in_unique val L Hc); congruence).
  congruence.
Qed.

Lemma iter_successor_inj i a b :
  on_tour val L a -> on_tour val L b ->
  Nat.iter i succ a = Nat.iter i succ b -> a = b.
Proof.
  intros Ha Hb. induction i as [|i IH]; [done|]. simpl. intros Heq.
  apply IH, successor_inj; try done; by apply (iter_on_tour val L Hc).
Qed.

Lemma iter_comm i j n : Nat.iter i succ (Nat.iter j succ n) = Nat.iter j succ (Nat.iter i succ n).
Proof. by rewrite <- !Nat.iter_add, Nat.add_comm. Qed.

(** The walk from any node of the tour visits every node of the tour once
    and returns to where it began. *)
Lemma circuit_cycle_from n :
  on_tour val L n ->
  let K := filter (λ n, ¬ skipped val L n) (nodes L) in
  walk val L (length K) n ≡ₚ K
  /\ NoDup (walk val L (length K) n)
  /\ Nat.iter (length K) succ n = n.
Proof.
  intros Hn K.
  assert (forall m, m ∈ K <-> on_tour val L m) as HKelem.
  { intros m. unfold K. rewrite list_elem_of_filter. unfold on_tour. tauto. }
  destruct K as [|n0 rest] eqn:HK.
  { apply HKelem in Hn. by apply elem_of_nil in Hn. }
  destruct (circuit_cycle val L Hc n0 rest HK) as (Hperm & Hnd & Hclose).
  cbn [length]. set (k := S (length rest)) in *.
  assert (on_tour val L n0) as Hn0 by (apply HKelem, list_elem_of_here).
  assert (n ∈ walk val L k n0) as Hin by (rewrite Hperm; by apply HKelem).
  apply walk_elem in Hin as (i & Hi & ->).
  assert (forall d, (d < k)%nat -> Nat.iter d succ n0 = n0 -> d = 0%nat) as Hfirst.
  { intros d Hd Hd0.
    apply (NoDup_lookup (walk val L k n0) d 0 n0 Hnd).
    - rewrite walk_lookup by done. by f_equal.
    - rewrite walk_lookup by lia. done. }
  assert (NoDup (walk val L k (Nat.iter i succ n0))) as HWnd.
  { apply NoDup_alt. intros j j' m Hj Hj'.
    assert (j < k)%nat as Hjk
      by (apply lookup_lt_Some in Hj; by rewrite walk_length in Hj).
    assert (j' < k)%nat as Hjk'
      by (apply lookup_lt_Some in Hj'; by rewrite walk_length in Hj').
    rewrite walk_lookup in Hj, Hj' by done.
    assert (forall a b, (a <= b)%nat -> (b < k)%nat ->
              Nat.iter a succ (Nat.iter i succ n0)
              = Nat.iter b succ (Nat.iter i succ n0) -> a = b) as Hord.
    { intros a b Hab Hb Heq.
      replace b with (a + (b - a))%nat in Heq by lia.
      rewrite Nat.iter_add in Heq.
      apply iter_successor_inj in Heq; [|by apply (iter_on_tour val L Hc)..].
      rewrite iter_comm in Heq.
      apply iter_successor_inj in Heq; [|by try apply (iter_on_tour val L Hc)..].
      assert (b - a = 0)%nat; [|lia]. apply Hfirst; [lia|done]. }
    destruct (decide (j <= j')%nat).
    - apply Hord; [done..|congruence].
    - symmetry. apply Hord; [lia|done|congruence]. }
  split; [|split; [done|]].
  - apply submseteq_length_Permutation.
    + apply NoDup_submseteq; [done|]. intros m (j & _ & ->)%walk_elem.
      apply HKelem. by do 2 apply (iter_on_tour val L Hc).
    + rewrite walk_length. simpl. lia.
  - by rewrite iter_comm, Hclose.
Qed.

End circuit_from.

Section next_where_facts.
Context {A : Type}.

Lemma snd_shift (o : option (nat * A)) :
  snd <$> (prod_map S id <$> o) = snd <$> o.
Proof. by destruct o as [[]|]. Qed.

Lemma next_where_filter (P Q : A -> Prop) `{forall y, Decision (P y)}
    `{forall y, Decision (Q y)} (l : list A) :
  Py.next_where P (filter Q l) = Py.next_where (λ a, P a ∧ Q a) l.
Proof.
  unfold Py.next_where. induction l as [|a l IH]; [done|].
  rewrite filter_cons. cbn [list_find].
  destruct (decide (Q a)) as [HQ|HQ]; cbn [list_find].
  - destruct (decide (P a)) as [HP|HP].
    + by rewrite decide_True.
    + rewrite decide_False by tauto. by rewrite !snd_shift.
  - rewrite decide_False by tauto. by rewrite snd_shift.
Qed.

End next_where_facts.

Section store_path.
Import CpModel CircuitTour DigraphCircuit.
Context {K : Type} `{EqDecision K}.
Context (val : nat -> bool) (s : solver K) (A Lp : list (nat * nat * nat)) (x : nat).
Hypothesis Harcs : arcs s = (A ++ Lp) ++ [(stop s, start s, x)].
Hypothesis Hc : circuit_holds val (arcs s).
Hypothesis HA : forall a, a ∈ A -> head a ≠ tail a /\ head a ≠ stop s.
Hypothesis HLp : forall a, a ∈ Lp -> tail a = head a /\ head a ≠ start s /\ head a ≠ stop s.
Hypothesis Hss : start s ≠ stop s.

Local Abbreviation L := (arcs s).
Local Abbreviation succ := (successor val L).
Local Abbreviation dummy := (stop s, start s, x).

Lemma arcs_cases a :
  a ∈ L <-> a ∈ A \/ a ∈ Lp \/ a = dummy.
Proof. rewrite Harcs, !elem_of_app, list_elem_of_singleton. tauto. Qed.

Lemma dummy_elem : dummy ∈ L.
Proof. apply arcs_cases. auto. Qed.

Lemma stop_on_tour : on_tour val L (stop s).
Proof.
  split.
  - apply nodes_elem. exists dummy. split; [apply dummy_elem|by left].
  - intros (a & Ha & Hh & Ht & _)%Exists_exists.
    apply arcs_cases in Ha as [Ha|[Ha| ->]].
    + destruct (HA a Ha) as [_ H']. by apply H'.
    + destruct (HLp a Ha) as (_ & _ & H'). by apply H'.
    + by apply Hss.
Qed.

Lemma dummy_true : val x = true /\ succ (stop s) = start s.
Proof.
  destruct (successor_on_tour val L Hc _ stop_on_tour)
    as (_ & _ & a & Ha & Hh & Ht & Hv).
  apply arcs_cases in Ha as [Ha|[Ha| ->]].
  - destruct (HA a Ha) as [_ H']. by destruct H'.
  - destruct (HLp a Ha) as (_ & _ & H'). by destruct H'.
  - done.
Qed.

Lemma nonloop_on_tour a :
  a ∈ L -> head a ≠ tail a -> val (arc_var a) = true ->
  on_tour val L (head a) /\ on_tour val L (tail a) /\ succ (head a) = tail a.
Proof.
  intros Ha Hne Hv.
  assert (on_tour val L (head a)) as Hon.
  { split; [apply nodes_elem; exists a; auto|].
    intros (b & Hb & Hbh & Hbt & Hbv)%Exists_exists.
    assert (a = b) as -> by (by apply (circuit_out_unique val L Hc)).
    apply Hne. congruence. }
  destruct (successor_on_tour val L Hc _ Hon) as (Hon' & _ & b & Hb & Hbh & Hbt & Hbv).
  assert (a = b) as -> by (by apply (circuit_out_unique val L Hc)).
  rewrite <- Hbt in Hon'. done.
Qed.

Lemma start_on_tour : on_tour val L (start s).
Proof.
  destruct dummy_true as [Hv _].
  by destruct (nonloop_on_tour dummy dummy_elem (not_eq_sym Hss) Hv) as (_ & H' & _).
Qed.

(** From a node of the tour other than [stop], the true arc is one of [A]. *)
Lemma tour_arc n :
  on_tour val L n -> n ≠ stop s ->
  exists a, a ∈ A /\ head a = n /\ tail a = succ n /\ val (arc_var a) = true.
Proof.
  intros Hn Hne.
  destruct (successor_on_tour val L Hc n Hn) as (_ & Hsn & a & Ha & Hh & Ht & Hv).
  apply arcs_cases in Ha as [Ha|[Ha| ->]].
  - by exists a.
  - destruct (HLp a Ha) as (H' & _). congruence.
  - by destruct Hne.
Qed.

(** What [next] finds among the used arcs, from a node of the tour. *)
Lemma next_used n :
  on_tour val L n ->
  exists a, Py.next_where (λ l : nat * nat * nat, head l = n)
              (filter (λ a, val (arc_var a) = true) L) = Some a
            /\ head a = n /\ tail a = succ n.
Proof.
  intros Hn. rewrite next_where_filter.
  destruct (successor_on_tour val L Hc n Hn) as (_ & Hsn & _).
  unfold successor in Hsn |- *.
  destruct (Py.next_where _ L) as [a|] eqn:E; [|done].
  exists a. split; [done|]. apply next_where_Some in E as [_ [Hh _]]. done.
Qed.

Let k := length (filter (λ n, ¬ skipped val L n) (CpModel.nodes L)).
Let W := walk val L k (start s).

Lemma tour_from_start :
  W ≡ₚ filter (λ n, ¬ skipped val L n) (CpModel.nodes L) /\ NoDup W
  /\ Nat.iter k succ (start s) = start s.
Proof. apply (circuit_cycle_from val L Hc _ start_on_tour). Qed.

Lemma W_elem n : n ∈ W <-> on_tour val L n.
Proof.
  destruct tour_from_start as (Hperm & _). rewrite Hperm, list_elem_of_filter.
  unfold on_tour. tauto.
Qed.

Lemma tour_size : (2 <= k)%nat.
Proof.
  destruct tour_from_start as (_ & Hnd & _).
  pose proof (proj2 (W_elem _) start_on_tour) as H1.
  pose proof (proj2 (W_elem _) stop_on_tour) as H2.
  apply list_elem_of_lookup in H1 as [i Hi], H2 as [j Hj].
  assert (i ≠ j) by (intros ->; rewrite Hi in Hj; injection Hj; apply Hss).
  apply lookup_lt_Some in Hi, Hj. unfold W in Hi, Hj.
  rewrite walk_length in Hi, Hj. lia.
Qed.

Lemma first_return i :
  (i < k)%nat -> Nat.iter i succ (start s) = start s -> i = 0%nat.
Proof.
  intros Hi Heq. destruct tour_from_start as (_ & Hnd & _).
  apply (NoDup_lookup W i 0 (start s) Hnd); unfold W.
  - rewrite walk_lookup by done. by f_equal.
  - rewrite walk_lookup by lia. done.
Qed.

Lemma last_is_stop : Nat.iter (k - 1) succ (start s) = stop s.
Proof.
  destruct tour_from_start as (_ & _ & Hclose). pose proof tour_size as Hk.
  destruct dummy_true as [_ Hd].
  apply (successor_inj val L Hc).
  - apply (iter_on_tour val L Hc), start_on_tour.
  - apply stop_on_tour.
  - rewrite Hd. change (Nat.iter (S (k - 1)) succ (start s) = start s).
    by replace (S (k - 1)) with k by lia.
Qed.

Lemma before_stop i :
  (i < k - 1)%nat -> Nat.iter i succ (start s) ≠ stop s.
Proof.
  intros Hi Heq. destruct tour_from_start as (_ & Hnd & _).
  assert (i = k - 1)%nat; [|lia].
  apply (NoDup_lookup W i (k - 1) (stop s) Hnd); unfold W.
  - rewrite walk_lookup by lia. by f_equal.
  - rewrite walk_lookup by lia. f_equal. apply last_is_stop.
Qed.

(** Consecutive nodes of the walk are joined by a true arc of [A]. *)
Lemma W_links i n m :
  W !! i = Some n -> W !! S i = Some m ->
  exists a, a ∈ A /\ head a = n /\ tail a = m /\ val (arc_var a) = true.
Proof.
  intros Hi Hsi.
  assert (S i < k)%nat as Hlt
    by (apply lookup_lt_Some in Hsi; unfold W in Hsi; by rewrite walk_length in Hsi).
  unfold W in Hi, Hsi. rewrite walk_lookup in Hi, Hsi by lia.
  injection Hi as <-. injection Hsi as <-.
  destruct (tour_arc (Nat.iter i succ (start s))) as (a & Ha & Hh & Ht & Hv).
  - apply (iter_on_tour val L Hc), start_on_tour.
  - apply before_stop. lia.
  - exists a. by rewrite Hh, Ht.
Qed.

(** The true arcs of [A] are one fewer than the nodes of the tour. *)
Lemma true_arcs_count :
  length (filter (λ a, val (arc_var a) = true) A) = (k - 1)%nat.
Proof.
  destruct tour_from_start as (_ & Hnd & _). pose proof tour_size as Hk.
  assert (head <$> filter (λ a, val (arc_var a) = true) A ≡ₚ take (k - 1) W) as Hperm.
  { apply NoDup_Permutation.
    - apply true_heads_NoDup. intros n.
      destruct (decide (n ∈ CpModel.nodes L)) as [Hn|Hn].
      + destruct (circuit_degrees val L Hc n Hn) as [Hout _].
        rewrite Harcs, !out_degree_app in Hout. lia.
      + rewrite out_degree_none; [lia|]. intros a Ha <-. apply Hn.
        apply nodes_elem. exists a. split; [|by left]. apply arcs_cases. auto.
    - apply (sublist_NoDup (take (k - 1) W) W); [done|apply sublist_take].
    - intros n. rewrite list_elem_of_fmap. split.
      + intros (a & -> & [Hv Ha]%list_elem_of_filter).
        destruct (HA a Ha) as [Hne Hns].
        destruct (nonloop_on_tour a) as (Hon & _); [apply arcs_cases; auto|done..|].
        apply W_elem, list_elem_of_lookup in Hon as [i Hi].
        assert (i < k)%nat as Hlt
          by (apply lookup_lt_Some in Hi; unfold W in Hi; by rewrite walk_length in Hi).
        apply list_elem_of_lookup. exists i. rewrite lookup_take_lt; [done|].
        destruct (decide (i = k - 1)%nat) as [->|]; [|lia].
        unfold W in Hi. rewrite walk_lookup in Hi by lia.
        rewrite last_is_stop in Hi. congruence.
      + intros (i & Hi)%list_elem_of_lookup.
        assert (i < k - 1)%nat as Hlt.
        { apply lookup_lt_Some in Hi. rewrite length_take in Hi. lia. }
        rewrite lookup_take_lt in Hi by done.
        unfold W in Hi. rewrite walk_lookup in Hi by lia. injection Hi as <-.
        destruct (tour_arc (Nat.iter i succ (start s))) as (a & Ha & Hh & _ & Hv).
        * apply (iter_on_tour val L Hc), start_on_tour.
        * by apply before_stop.
        * exists a. split; [done|]. by apply list_elem_of_filter. }
  apply Permutation_length in Hperm.
  rewrite length_fmap, length_take in Hperm. unfold W in Hperm.
  rewrite walk_length in Hperm. lia.
Qed.

(** The loop of [store] along the walk. *)
Lemma follow_walk j :
  forall cur fuel res path,
    on_tour val L cur ->
    (forall i, (i < j)%nat -> Nat.iter (S i) succ cur ≠ start s) ->
    Nat.iter (S j) succ cur = start s ->
    (j < fuel)%nat ->
    Forall2 (λ n key, keys s !! n = Some key) (walk val L (S j) cur) path ->
    follow fuel s (filter (λ a, val (arc_var a) = true) L) cur res
    = Stored (res ++ path).
Proof.
  induction j as [|j IH]; intros cur fuel res path Hon Hnot Hret Hfuel Hpath.
  - destruct fuel as [|fuel]; [lia|]. cbn [follow].
    destruct (next_used cur Hon) as (a & -> & Hh & Ht).
    simpl in Hpath. apply Forall2_cons_inv_l in Hpath as (key & p' & Hkey & Hp' & ->).
    apply Forall2_nil_inv_l in Hp' as ->.
    rewrite Hh, Hkey. rewrite decide_True; [done|]. rewrite Ht. exact Hret.
  - destruct fuel as [|fuel]; [lia|]. cbn [follow].
    destruct (next_used cur Hon) as (a & -> & Hh & Ht).
    cbn [walk] in Hpath.
    apply Forall2_cons_inv_l in Hpath as (key & p' & Hkey & Hp' & ->).
    rewrite Hh, Hkey. rewrite decide_False.
    + rewrite Ht, (IH (succ cur) fuel (res ++ [key]) p').
      * by rewrite <- app_assoc.
      * by apply (successor_on_tour val L Hc).
      * intros i Hi. rewrite <- Nat.iter_succ_r. apply Hnot. lia.
      * rewrite <- Nat.iter_succ_r. exact Hret.
      * lia.
      * exact Hp'.
    + rewrite Ht. apply (Hnot 0%nat). lia.
Qed.

(** [store] on a solution: it ends within [k] turns and returns the keys
    of the walk from [start]. *)
Lemma follow_tour fuel res path :
  (k <= fuel)%nat ->
  Forall2 (λ n key, keys s !! n = Some key) W path ->
  follow fuel s (filter (λ a, val (arc_var a) = true) L) (start s) res
  = Stored (res ++ path).
Proof.
  intros Hfuel Hpath. pose proof tour_size as Hk.
  destruct tour_from_start as (_ & _ & Hclose).
  apply (follow_walk (k - 1)).
  - apply start_on_tour.
  - intros i Hi Heq. apply first_return in Heq; [done|lia].
  - by replace (S (k - 1)) with k by lia.
  - lia.
  - by replace (S (k - 1)) with k by lia.
Qed.

End store_path.

Section digraph_builder.
Import CpModel DigraphCircuit DigraphCircuitFacts.
Context {K : Type} `{EqDecision K}.

Lemma dg_new_arcs_spec pairs m arcs0 m' :
  new_arcs pairs m = (arcs0, m') ->
  ends_of <$> arcs0 = pairs /\ constraints m' = constraints m.
Proof.
  revert m arcs0 m'. induction pairs as [|[h t] pairs IH]; intros m arcs0 m' Hn.
  - injection Hn as <- <-. done.
  - cbn [new_arcs] in Hn. unfold NewBoolVar in Hn.
    destruct (new_arcs pairs _) as [arcs' m''] eqn:E.
    injection Hn as <- <-. destruct (IH _ _ _ E) as [<- ->]. done.
Qed.

Lemma dg_init_spec (desc : desc_t K) s0 :
  init desc = Some s0 ->
  model s0 = CpModel.new /\ keys s0 = (d_nodes desc).*1
  /\ Py.index_of (d_start desc) (d_nodes desc).*1 = Some (start s0)
  /\ Py.index_of (d_stop desc) (d_nodes desc).*1 = Some (stop s0)
  /\ indexed desc (nodes s0)
  /\ result s0 = []
  /\ min_maxing s0 = match d_steps desc with Steps _ => false | _ => true end
  /\ step_count s0 = match d_steps desc with Steps n => Some n | _ => None end.
Proof.
  unfold init. intros Hi.
  destruct (Py.index_of (d_start desc) _) as [st|] eqn:Hst; [|done].
  destruct (Py.index_of (d_stop desc) _) as [sp|] eqn:Hsp; [|done].
  simpl in Hi.
  destruct (mapM _ (d_nodes desc)) as [ns|] eqn:Hns; [|done].
  injection Hi as <-. simpl. split_and!; try done.
  apply mapM_Some in Hns. unfold indexed.
  eapply Forall2_impl; [exact Hns|]. intros e r Hr. simpl in Hr.
  destruct (Py.index_of e.1 _) as [ih|] eqn:Hih; [|done]. simpl in Hr.
  destruct (mapM _ e.2) as [its|] eqn:Hits; [|done]. injection Hr as <-.
  split; [done|]. by apply mapM_Some in Hits.
Qed.

Lemma dg_init_is_Some (desc : desc_t K) :
  is_Some (init desc)
  <-> d_start desc ∈ (d_nodes desc).*1 /\ d_stop desc ∈ (d_nodes desc).*1
      /\ forall e t, e ∈ d_nodes desc -> t ∈ e.2 -> t ∈ (d_nodes desc).*1.
Proof.
  split.
  - intros [s0 Hs0]. destruct (dg_init_spec desc s0 Hs0)
      as (_ & _ & Hst & Hsp & Hix & _).
    split; [|split].
    + apply index_of_Some in Hst. by eapply list_elem_of_lookup_2.
    + apply index_of_Some in Hsp. by eapply list_elem_of_lookup_2.
    + intros e t He Ht. unfold indexed in Hix.
      apply list_elem_of_lookup in He as [i He].
      destruct (Forall2_lookup_l _ _ _ _ _ Hix He) as (r & _ & _ & Hts).
      apply list_elem_of_lookup in Ht as [j Ht].
      destruct (Forall2_lookup_l _ _ _ _ _ Hts Ht) as (it & _ & Hit).
      apply index_of_Some in Hit. by eapply list_elem_of_lookup_2.
  - intros (Hst & Hsp & Hts). unfold init.
    destruct (index_of_elem _ _ Hst) as [st ->].
    destruct (index_of_elem _ _ Hsp) as [sp ->]. simpl.
    assert (is_Some (mapM (λ e : K * list K,
                             ih ← Py.index_of e.1 (d_nodes desc).*1;
                             its ← mapM (λ t, Py.index_of t (d_nodes desc).*1) e.2;
                             Some (ih, its)) (d_nodes desc))) as [ns ->]; [|done].
    apply mapM_is_Some, Forall_forall. intros e He. unfold compose. cbn beta.
    destruct (index_of_elem e.1 (d_nodes desc).*1) as [ih ->];
      [by apply list_elem_of_fmap_2|]. simpl.
    assert (is_Some (mapM (λ t, Py.index_of t (d_nodes desc).*1) e.2)) as [its ->];
      [|done].
    apply mapM_is_Some, Forall_forall. intros t Ht. unfold compose.
    apply index_of_elem. by apply (Hts e).
Qed.

(** The index pairs of the arcs, read off [desc.nodes]. *)
Lemma indexed_pairs (desc : desc_t K) nodes h t :
  indexed desc nodes ->
  (h, t) ∈ arc_pairs nodes ->
  exists e kt, e ∈ d_nodes desc /\ kt ∈ e.2
               /\ Py.index_of e.1 (d_nodes desc).*1 = Some h
               /\ Py.index_of kt (d_nodes desc).*1 = Some t.
Proof.
  intros Hix Hin. unfold arc_pairs in Hin.
  apply list_elem_of_bind in Hin as (r & Hin & Hr).
  apply list_elem_of_bind in Hin as (t' & [= -> ->]%list_elem_of_singleton & Ht).
  apply list_elem_of_lookup in Hr as [i Hr].
  destruct (Forall2_lookup_r _ _ _ _ _ Hix Hr) as (e & He & Hh & Hts).
  apply list_elem_of_lookup in Ht as [j Ht].
  destruct (Forall2_lookup_r _ _ _ _ _ Hts Ht) as (kt & Hkt & Hit).
  exists e, kt. split; [by eapply list_elem_of_lookup_2|].
  split; [by eapply list_elem_of_lookup_2|done].
Qed.

Lemma dg_setup_spec (s0 : solver K) :
  exists arcs0 loops x,
    arcs (setup s0) = (arcs0 ++ loops) ++ [(stop s0, start s0, x)]
    /\ ends_of <$> arcs0 = arc_pairs (nodes s0)
    /\ ends_of <$> loops = (λ n, (n, n)) <$> optional s0
    /\ vars (setup s0) = arc_var <$> arcs0
    /\ keys (setup s0) = keys s0 /\ start (setup s0) = start s0
    /\ stop (setup s0) = stop s0 /\ result (setup s0) = result s0
    /\ (model s0 = CpModel.new ->
        Circuit (arcs (setup s0)) ∈ constraints (model (setup s0))
        /\ forall n, min_maxing s0 = false -> step_count s0 = Some n ->
             LinearEq (vars (setup s0)) [] n [] ∈ constraints (model (setup s0))).
Proof.
  unfold setup.
  destruct (new_arcs (arc_pairs (nodes s0)) (model s0)) as [arcs0 m1] eqn:E1.
  destruct (new_arcs ((λ n, (n, n)) <$> optional s0) m1) as [loops m2] eqn:E2.
  unfold NewBoolVar.
  destruct (dg_new_arcs_spec _ _ _ _ E1) as [H1 C1].
  destruct (dg_new_arcs_spec _ _ _ _ E2) as [H2 C2].
  exists arcs0, loops, (n_vars m2).
  destruct (min_maxing s0) eqn:Hmm.
  - simpl. split_and!; try done. intros Hnew. split; [|done].
    rewrite C2, C1, Hnew. simpl. apply list_elem_of_here.
  - destruct (step_count s0) as [n|] eqn:Hsc; simpl; split_and!; try done.
    + intros Hnew. rewrite C2, C1, Hnew. simpl. split.
      * apply list_elem_of_here.
      * intros n' _ [= <-]. apply list_elem_of_further, list_elem_of_here.
    + intros Hnew. rewrite C2, C1, Hnew. simpl. split; [apply list_elem_of_here|done].
Qed.

End digraph_builder.

Section digraph_store.
Import CpModel CircuitTour DigraphCircuit DigraphCircuitFacts.
Context {K : Type} `{EqDecision K}.

Lemma Forall_Forall2_total {X Y : Type} (R : X -> Y -> Prop) (l : list X) :
  Forall (λ x, exists y, R x y) l -> exists k, Forall2 R l k.
Proof.
  induction 1 as [|x l [y Hy] _ [k IH]]; [by exists []|].
  exists (y :: k). by constructor.
Qed.

(** What [store] leaves in the solver, on a solution of the model built
    for a description whose [stop] node has no tails. *)
Lemma store_solution (desc : desc_t K) s0 val fuel :
  NoDup (d_nodes desc).*1 ->
  Forall (λ e : K * list K, e.1 ∉ e.2) (d_nodes desc) ->
  Py.dict_get (d_stop desc) (d_nodes desc) = Some [] ->
  d_start desc ≠ d_stop desc ->
  init desc = Some s0 ->
  satisfies val (model (setup s0)) ->
  (length (d_nodes desc) <= fuel)%nat ->
  exists s' path,
    store fuel val (setup s0) = Stored s'
    /\ result s' = path
    /\ step_count s' = Some (Z.of_nat (length path) - 1)%Z
    /\ path !! 0%nat = Some (d_start desc)
    /\ last path = Some (d_stop desc)
    /\ NoDup path
    /\ (forall i h t, path !! i = Some h -> path !! S i = Some t ->
          exists ts, (h, ts) ∈ d_nodes desc /\ t ∈ ts)
    /\ total val (vars (setup s0)) = (Z.of_nat (length path) - 1)%Z.
Proof.
  intros Hnd Hself Hsink Hne Hs0 Hval Hfuel.
  destruct (dg_init_spec desc s0 Hs0)
    as (Hnew & Hkeys & Hst & Hsp & Hix & Hres & _).
  destruct (dg_setup_spec s0)
    as (arcs0 & loops & x & Harcs & Ha & Hl & Hvars & Hk' & Hst' & Hsp' & Hres' & Hm).
  destruct (Hm Hnew) as [Hcirc _]. clear Hm.
  set (s := setup s0) in *.
  pose proof (satisfies_elem _ _ _ Hval Hcirc) as Hc. simpl in Hc.
  rewrite <- Hst', <- Hsp' in Harcs. rewrite <- Hst' in Hst. rewrite <- Hsp' in Hsp.
  rewrite <- Hk' in Hkeys. rewrite <- Hkeys in Hst, Hsp.
  assert (forall a, a ∈ arcs0 ->
            exists e kt, e ∈ d_nodes desc /\ kt ∈ e.2
                         /\ Py.index_of e.1 (keys s) = Some (head a)
                         /\ Py.index_of kt (keys s) = Some (tail a)) as Harc.
  { intros a Hin. rewrite Hkeys. apply (indexed_pairs desc (nodes s0)); [done|].
    rewrite <- Ha. by apply (list_elem_of_fmap_2 ends_of) in Hin. }
  assert (forall a, a ∈ arcs0 -> head a ≠ tail a /\ head a ≠ stop s) as HA.
  { intros a Hin. destruct (Harc a Hin) as (e & kt & He & Hkt & Hh & Ht). split.
    - intros Heq. rewrite Heq in Hh.
      rewrite Forall_forall in Hself. apply (Hself e He).
      by rewrite (index_of_inj _ _ _ _ Hh Ht).
    - intros Heq. rewrite Heq in Hh.
      pose proof (index_of_inj _ _ _ _ Hh Hsp) as He1.
      apply dict_get_Some_elem in Hsink. destruct e as [k ts]. simpl in *. subst k.
      rewrite (dict_value_unique _ _ _ _ Hnd He Hsink) in Hkt.
      by apply elem_of_nil in Hkt. }
  assert (forall a, a ∈ loops ->
            tail a = head a /\ head a ≠ start s /\ head a ≠ stop s
            /\ (head a < length (keys s))%nat) as HLp'.
  { intros a Hin. apply (list_elem_of_fmap_2 ends_of) in Hin. rewrite Hl in Hin.
    apply list_elem_of_fmap in Hin as (n & [= Hh Ht] & Hn).
    unfold optional in Hn. apply list_elem_of_filter in Hn as [Hn Hseq].
    apply elem_of_seq in Hseq. rewrite Hst', Hsp', Hk', Hh, Ht.
    split; [done|]. split; [|split; [|lia]].
    - intros ->. apply Hn. apply list_elem_of_here.
    - intros ->. apply Hn. apply list_elem_of_further, list_elem_of_here. }
  assert (forall a, a ∈ loops -> tail a = head a /\ head a ≠ start s /\ head a ≠ stop s)
    as HLp by (intros a Hin; destruct (HLp' a Hin); tauto).
  assert (start s ≠ stop s) as Hss.
  { intros Heq. rewrite Heq in Hst. apply Hne. exact (index_of_inj _ _ _ _ Hst Hsp). }
  assert (forall n, n ∈ CpModel.nodes (arcs s) -> is_Some (keys s !! n)) as Hkeyed.
  { intros n (a & Hin & Hn)%nodes_elem.
    apply (arcs_cases s arcs0 loops x Harcs) in Hin as [Hin|[Hin| ->]].
    - destruct (Harc a Hin) as (e & kt & _ & _ & Hh%index_of_Some & Ht%index_of_Some).
      destruct Hn as [<-|<-]; eauto.
    - destruct (HLp' a Hin) as (Ht & _ & _ & Hlt). apply lookup_lt_is_Some.
      destruct Hn as [<-|<-]; [done|by rewrite Ht].
    - apply index_of_Some in Hst, Hsp.
      destruct Hn as [<-|<-]; eauto. }
  set (k := length (filter (λ n, ¬ skipped val (arcs s) n) (CpModel.nodes (arcs s)))).
  set (W := walk val (arcs s) k (start s)).
  destruct (tour_from_start val s arcs0 loops x Harcs Hc HA HLp Hss)
    as (HWperm & HWnd & Hclose).
  fold k in HWperm, HWnd, Hclose. fold W in HWperm, HWnd.
  pose proof (tour_size val s arcs0 loops x Harcs Hc HA HLp Hss) as Hk2. fold k in Hk2.
  assert (forall n, n ∈ W -> n ∈ CpModel.nodes (arcs s)) as HWnodes.
  { intros n Hn. rewrite HWperm in Hn. by apply list_elem_of_filter in Hn as [_ Hn]. }
  destruct (Forall_Forall2_total (λ n key, keys s !! n = Some key) W)
    as [path Hpath].
  { apply Forall_forall. intros n Hn. by apply Hkeyed, HWnodes. }
  assert (length path = k) as Hlen.
  { rewrite <- (Forall2_length _ _ _ Hpath). unfold W. by rewrite walk_length. }
  assert (k <= fuel)%nat as Hkf.
  { assert (length W <= length (seq 0 (length (keys s))))%nat as Hle.
    { apply submseteq_length, NoDup_submseteq; [done|]. intros n Hn.
      apply elem_of_seq. split; [lia|]. simpl.
      by apply lookup_lt_is_Some, Hkeyed, HWnodes. }
    unfold W in Hle. rewrite walk_length, length_seq, Hkeys, length_fmap in Hle. lia. }
  pose proof (follow_tour val s arcs0 loops x Harcs Hc HA HLp Hss fuel (result s) path
                Hkf Hpath) as Hfollow.
  rewrite Hres', Hres in Hfollow. simpl in Hfollow.
  eexists _, path. split.
  { unfold store. rewrite Hres', Hres, Hfollow. reflexivity. }
  simpl. split; [done|]. split; [done|].
  assert (forall i key, path !! i = Some key ->
            exists n, W !! i = Some n /\ keys s !! n = Some key) as Hat.
  { intros i key Hi. destruct (Forall2_lookup_r _ _ _ _ _ Hpath Hi) as (n & Hn & Hk).
    by exists n. }
  split; [|split; [|split; [|split]]].
  - assert (W !! 0%nat = Some (start s)) as H0
      by (unfold W; rewrite walk_lookup by lia; done).
    destruct (Forall2_lookup_l _ _ _ _ _ Hpath H0) as (key & -> & Hk).
    apply index_of_Some in Hst. congruence.
  - rewrite last_lookup, Hlen.
    assert (W !! pred k = Some (stop s)) as H0.
    { unfold W. rewrite walk_lookup by lia. f_equal.
      replace (pred k) with (k - 1)%nat by lia.
      apply (last_is_stop val s arcs0 loops x Harcs Hc HA HLp Hss). }
    destruct (Forall2_lookup_l _ _ _ _ _ Hpath H0) as (key & -> & Hk).
    apply index_of_Some in Hsp. congruence.
  - apply NoDup_alt. intros i j key Hi Hj.
    destruct (Hat i key Hi) as (n & Hn & Hkn).
    destruct (Hat j key Hj) as (m & Hm & Hkm).
    rewrite Hkeys in Hkn, Hkm.
    rewrite (NoDup_lookup _ n m key Hnd Hkn Hkm) in Hn.
    by apply (NoDup_lookup W i j m HWnd).
  - intros i h t Hi Hsi.
    destruct (Hat i h Hi) as (n & Hn & Hkn).
    destruct (Hat (S i) t Hsi) as (m & Hm & Hkm).
    destruct (W_links val s arcs0 loops x Harcs Hc HA HLp Hss i n m Hn Hm)
      as (a & Hin & Hh & Ht & _).
    destruct (Harc a Hin) as (e & kt & He & Hkt & Heh%index_of_Some & Het%index_of_Some).
    rewrite Hh in Heh. rewrite Ht in Het.
    exists e.2. destruct e as [k1 ts]. simpl in *.
    assert (h = k1) as -> by congruence. assert (t = kt) as -> by congruence. done.
  - rewrite Hvars, total_count.
    rewrite (true_arcs_count val s arcs0 loops x Harcs Hc HA HLp Hss).
    fold k. lia.
Qed.

(** X16. [DiGraphSolver(desc)] of [digraph/circuit.py] raises [KeyError]
    exactly when [desc.start], [desc.stop] or one of the listed tails is
    not a key of [desc.nodes]. *)
Theorem digraph_key_error (desc : desc_t K) :
  init desc = None
  <-> ¬ (d_start desc ∈ (d_nodes desc).*1 /\ d_stop desc ∈ (d_nodes desc).*1
         /\ forall e t, e ∈ d_nodes desc -> t ∈ e.2 -> t ∈ (d_nodes desc).*1).
Proof. rewrite <- dg_init_is_Some. apply eq_None_not_Some. Qed.

(** X17. When [desc.nodes[desc.stop]] is empty, no node is among its own
    tails and [start] differs from [stop], [store] run on any solution of
    the model ends within one turn per node and leaves in [result] a path
    through pairwise distinct nodes that begins with [desc.start], ends
    with [desc.stop], and whose every step is an arc of [desc.nodes]. *)
Theorem store_path (desc : desc_t K) s0 val fuel :
  NoDup (d_nodes desc).*1 ->
  Forall (λ e : K * list K, e.1 ∉ e.2) (d_nodes desc) ->
  Py.dict_get (d_stop desc) (d_nodes desc) = Some [] ->
  d_start desc ≠ d_stop desc ->
  init desc = Some s0 ->
  satisfies val (model (setup s0)) ->
  (length (d_nodes desc) <= fuel)%nat ->
  exists s',
    store fuel val (setup s0) = Stored s'
    /\ result s' !! 0%nat = Some (d_start desc)
    /\ last (result s') = Some (d_stop desc)
    /\ NoDup (result s')
    /\ forall i h t, result s' !! i = Some h -> result s' !! S i = Some t ->
         exists ts, (h, ts) ∈ d_nodes desc /\ t ∈ ts.
Proof.
  intros Hnd Hself Hsink Hne Hs0 Hval Hfuel.
  destruct (store_solution desc s0 val fuel Hnd Hself Hsink Hne Hs0 Hval Hfuel)
    as (s' & path & Hst & <- & _ & H0 & Hl & Hpnd & Hlinks & _).
  by exists s'.
Qed.

(** X18. Under the same conditions, the [step_count] that [store] leaves
    is the number of true arc variables, [sum(self.vars)], the dummy arc
    and the self-loops not counted; when a number of steps was asked for,
    it is that number. *)
Theorem store_step_count (desc : desc_t K) s0 val fuel :
  NoDup (d_nodes desc).*1 ->
  Forall (λ e : K * list K, e.1 ∉ e.2) (d_nodes desc) ->
  Py.dict_get (d_stop desc) (d_nodes desc) = Some [] ->
  d_start desc ≠ d_stop desc ->
  init desc = Some s0 ->
  satisfies val (model (setup s0)) ->
  (length (d_nodes desc) <= fuel)%nat ->
  exists s',
    store fuel val (setup s0) = Stored s'
    /\ step_count s' = Some (Z.of_nat (length (result s')) - 1)%Z
    /\ step_count s' = Some (total val (vars (setup s0)))
    /\ forall n, d_steps desc = Steps n -> step_count s' = Some n.
Proof.
  intros Hnd Hself Hsink Hne Hs0 Hval Hfuel.
  destruct (store_solution desc s0 val fuel Hnd Hself Hsink Hne Hs0 Hval Hfuel)
    as (s' & path & Hst & <- & Hsc & _ & _ & _ & _ & Htot).
  exists s'. split; [done|]. split; [done|]. split; [by rewrite Htot|].
  intros n Hn. rewrite Hsc, <- Htot. f_equal.
  destruct (dg_init_spec desc s0 Hs0) as (Hnew & _ & _ & _ & _ & _ & Hmm & Hcnt).
  rewrite Hn in Hmm, Hcnt.
  destruct (dg_setup_spec s0) as (_ & _ & _ & _ & _ & _ & _ & _ & _ & _ & _ & Hm).
  destruct (Hm Hnew) as [_ Hlin].
  pose proof (satisfies_elem _ _ _ Hval (Hlin n Hmm Hcnt)) as H. simpl in H.
  rewrite (H (Forall_nil_2 _)), total_nil. lia.
Qed.

End digraph_store.

Section digraph_scenario_facts.
Import CpModel DigraphCircuit DigraphScenario.

(** The path a-b-c is a solution of the model built for the three-node
    digraph. *)
Lemma a_b_c_is_solution :
  exists s0, init abc = Some s0 /\ satisfies a_b_c (model (setup s0)).
Proof.
  destruct (checked (λ s0, bool_decide (satisfies a_b_c (model (setup s0))))
              (init abc)) as (s0 & Hs0 & H).
  { vm_compute. reflexivity. }
  exists s0. split; [exact Hs0|]. by apply bool_decide_eq_true in H.
Qed.

Lemma abc_wf :
  NoDup (d_nodes abc).*1
  /\ Forall (λ e : string * list string, e.1 ∉ e.2) (d_nodes abc)
  /\ Py.dict_get (d_stop abc) (d_nodes abc) = Some []
  /\ d_start abc ≠ d_stop abc.
Proof.
  split; [|split; [|split]].
  - apply (bool_decide_unpack _). vm_compute. exact I.
  - apply (bool_decide_unpack _). vm_compute. exact I.
  - vm_compute. reflexivity.
  - apply (bool_decide_unpack _). vm_compute. exact I.
Qed.

End digraph_scenario_facts.

Lemma store_path_witness :
  exists s0 s',
    NoDup (DigraphCircuit.d_nodes DigraphScenario.abc).*1
    /\ Forall (λ e : string * list string, e.1 ∉ e.2)
         (DigraphCircuit.d_nodes DigraphScenario.abc)
    /\ Py.dict_get (DigraphCircuit.d_stop DigraphScenario.abc)
         (DigraphCircuit.d_nodes DigraphScenario.abc) = Some []
    /\ DigraphCircuit.d_start DigraphScenario.abc
       ≠ DigraphCircuit.d_stop DigraphScenario.abc
    /\ DigraphCircuit.init DigraphScenario.abc = Some s0
    /\ CpModel.satisfies DigraphScenario.a_b_c
         (DigraphCircuit.model (DigraphCircuit.setup s0))
    /\ (length (DigraphCircuit.d_nodes DigraphScenario.abc) <= 3)%nat
    /\ DigraphCircuit.store 3 DigraphScenario.a_b_c (DigraphCircuit.setup s0)
       = DigraphCircuit.Stored s'
    /\ DigraphCircuit.result s' !! 0%nat
       = Some (DigraphCircuit.d_start DigraphScenario.abc)
    /\ last (DigraphCircuit.result s')
       = Some (DigraphCircuit.d_stop DigraphScenario.abc)
    /\ NoDup (DigraphCircuit.result s')
    /\ forall i h t,
         DigraphCircuit.result s' !! i = Some h ->
         DigraphCircuit.result s' !! S i = Some t ->
         exists ts, (h, ts) ∈ DigraphCircuit.d_nodes DigraphScenario.abc /\ t ∈ ts.
Proof.
  destruct a_b_c_is_solution as (s0 & Hs0 & Hval).
  destruct abc_wf as (Hnd & Hself & Hsink & Hne).
  assert (length (DigraphCircuit.d_nodes DigraphScenario.abc) <= 3)%nat as Hfuel
    by (vm_compute; lia).
  destruct (store_path DigraphScenario.abc s0 DigraphScenario.a_b_c 3
              Hnd Hself Hsink Hne Hs0 Hval Hfuel) as (s' & H).
  exists s0, s'. split; [exact Hnd|]. split; [exact Hself|]. split; [exact Hsink|].
  split; [exact Hne|]. split; [exact Hs0|]. split; [exact Hval|].
  split; [exact Hfuel|]. exact H.
Defined.

Lemma store_step_count_witness :
  exists s0 s',
    NoDup (DigraphCircuit.d_nodes DigraphScenario.abc).*1
    /\ Forall (λ e : string * list string, e.1 ∉ e.2)
         (DigraphCircuit.d_nodes DigraphScenario.abc)
    /\ Py.dict_get (DigraphCircuit.d_stop DigraphScenario.abc)
         (DigraphCircuit.d_nodes DigraphScenario.abc) = Some []
    /\ DigraphCircuit.d_start DigraphScenario.abc
       ≠ DigraphCircuit.d_stop DigraphScenario.abc
    /\ DigraphCircuit.init DigraphScenario.abc = Some s0
    /\ CpModel.satisfies DigraphScenario.a_b_c
         (DigraphCircuit.model (DigraphCircuit.setup s0))
    /\ (length (DigraphCircuit.d_nodes DigraphScenario.abc) <= 3)%nat
    /\ DigraphCircuit.store 3 DigraphScenario.a_b_c (DigraphCircuit.setup s0)
       = DigraphCircuit.Stored s'
    /\ DigraphCircuit.step_count s'
       = Some (Z.of_nat (length (DigraphCircuit.result s')) - 1)%Z
    /\ DigraphCircuit.step_count s'
       = Some (CpModel.total DigraphScenario.a_b_c
                 (DigraphCircuit.vars (DigraphCircuit.setup s0)))
    /\ forall n, DigraphCircuit.d_steps DigraphScenario.abc = DigraphCircuit.Steps n ->
         DigraphCircuit.step_count s' = Some n.
Proof.
  destruct a_b_c_is_solution as (s0 & Hs0 & Hval).
  destruct abc_wf as (Hnd & Hself & Hsink & Hne).
  assert (length (DigraphCircuit.d_nodes DigraphScenario.abc) <= 3)%nat as Hfuel
    by (vm_compute; lia).
  destruct (store_step_count DigraphScenario.abc s0 DigraphScenario.a_b_c 3
              Hnd Hself Hsink Hne Hs0 Hval Hfuel) as (s' & H).
  exists s0, s'. split; [exact Hnd|]. split; [exact Hself|]. split; [exact Hsink|].
  split; [exact Hne|]. split; [exact Hs0|]. split; [exact Hval|].
  split; [exact Hfuel|]. exact H.
Defined.

Section normalise_more.
Import ShapeCollection.
Local Open Scope Z_scope.

Lemma foldl_min_elem (l : list Z) (a : Z) :
  foldl Z.min a l = a \/ foldl Z.min a l ∈ l.
Proof.
  revert a. induction l as [|y l IH]; intros a; simpl; [by left|].
  destruct (IH (Z.min a y)) as [H|H].
  - rewrite H. destruct (Z.min_spec a y) as [[_ ->]|[_ ->]]; [by left|].
    right. apply list_elem_of_here.
  - right. by apply list_elem_of_further.
Qed.

Lemma foldl_max_elem (l : list Z) (a : Z) :
  foldl Z.max a l = a \/ foldl Z.max a l ∈ l.
Proof.
  revert a. induction l as [|y l IH]; intros a; simpl; [by left|].
  destruct (IH (Z.max a y)) as [H|H].
  - rewrite H. destruct (Z.max_spec a y) as [[_ ->]|[_ ->]]; [|by left].
    right. apply list_elem_of_here.
  - right. by apply list_elem_of_further.
Qed.

Lemma py_min_elem l m : py_min l = Some m -> m ∈ l.
Proof.
  destruct l as [|a l]; simpl; [done|]. intros [= <-].
  destruct (foldl_min_elem l a) as [->|H]; [apply list_elem_of_here|].
  by apply list_elem_of_further.
Qed.

Lemma py_max_elem l m : py_max l = Some m -> m ∈ l.
Proof.
  destruct l as [|a l]; simpl; [done|]. intros [= <-].
  destruct (foldl_max_elem l a) as [->|H]; [apply list_elem_of_here|].
  by apply list_elem_of_further.
Qed.

(** The minimum and the maximum depend on the elements only. *)
Lemma py_min_ext l1 l2 :
  (forall x, x ∈ l1 <-> x ∈ l2) -> py_min l1 = py_min l2.
Proof.
  intros Heq. destruct (py_min l1) as [m1|] eqn:H1, (py_min l2) as [m2|] eqn:H2.
  - f_equal. apply Z.le_antisymm.
    + apply (py_min_le _ _ _ H1), Heq. by apply py_min_elem.
    + apply (py_min_le _ _ _ H2), Heq. by apply py_min_elem.
  - apply py_min_elem, Heq in H1. destruct l2; [by apply elem_of_nil in H1|done].
  - apply py_min_elem, Heq in H2. destruct l1; [by apply elem_of_nil in H2|done].
  - done.
Qed.

Lemma py_max_ext l1 l2 :
  (forall x, x ∈ l1 <-> x ∈ l2) -> py_max l1 = py_max l2.
Proof.
  intros Heq. destruct (py_max l1) as [m1|] eqn:H1, (py_max l2) as [m2|] eqn:H2.
  - f_equal. apply Z.le_antisymm.
    + apply (py_max_ge _ _ _ H2), Heq. by apply py_max_elem.
    + apply (py_max_ge _ _ _ H1), Heq. by apply py_max_elem.
  - apply py_max_elem, Heq in H1. destruct l2; [by apply elem_of_nil in H1|done].
  - apply py_max_elem, Heq in H2. destruct l1; [by apply elem_of_nil in H2|done].
  - done.
Qed.

(** The points of the normalised shape: those of the shape, moved by its
    least coordinates. *)
Lemma normalise_pts_elem (d o : list (Z * Z)) :
  normalise_pts d = Some o ->
  exists lx ly,
    py_min d.*1 = Some lx /\ py_min d.*2 = Some ly
    /\ forall x y, (x, y) ∈ o <-> (x + lx, y + ly) ∈ d.
Proof.
  unfold normalise_pts.
  destruct (py_min d.*1) as [lx|] eqn:Hlx; [|done].
  destruct (py_max d.*1) as [mx|] eqn:Hmx; [|done].
  destruct (py_min d.*2) as [ly|] eqn:Hly; [|done].
  destruct (py_max d.*2) as [my|] eqn:Hmy; [|done].
  simpl. intros [= <-]. exists lx, ly. split; [done|]. split; [done|].
  intros x y. rewrite list_elem_of_bind. split.
  - intros (x' & (y' & Hin & _)%list_elem_of_bind & _).
    case_decide as Hd; [|by apply elem_of_nil in Hin].
    by apply list_elem_of_singleton in Hin as [= -> ->].
  - intros Hin. exists x.
    assert ((x + lx) ∈ d.*1) as H1 by (by apply (list_elem_of_fmap_2 fst) in Hin).
    assert ((y + ly) ∈ d.*2) as H2 by (by apply (list_elem_of_fmap_2 snd) in Hin).
    pose proof (py_min_le _ _ _ Hlx H1). pose proof (py_max_ge _ _ _ Hmx H1).
    pose proof (py_min_le _ _ _ Hly H2). pose proof (py_max_ge _ _ _ Hmy H2).
    split; [|apply range_elem; lia].
    apply list_elem_of_bind. exists y. split; [|apply range_elem; lia].
    rewrite decide_True by done. apply list_elem_of_here.
Qed.

Lemma normalise_pts_is_Some (d : list (Z * Z)) :
  d ≠ [] -> is_Some (normalise_pts d).
Proof. intros Hd. destruct (normalise_pts_Some d Hd) as (o & -> & _). done. Qed.

(** Two shapes with the same points up to a translation have the same
    normal form. *)
Lemma normalise_pts_shift (d1 d2 : list (Z * Z)) dx dy :
  (forall x y, (x, y) ∈ d2 <-> (x - dx, y - dy) ∈ d1) ->
  normalise_pts d1 = normalise_pts d2.
Proof.
  intros Hrel.
  destruct d1 as [|q1 d1'] eqn:E1.
  { destruct d2 as [|[x y] d2']; [done|].
    exfalso. eapply elem_of_nil. apply (Hrel x y). apply list_elem_of_here. }
  rewrite <- E1 in *. assert (d1 ≠ []) as Hne1 by (by rewrite E1). clear E1 q1 d1'.
  assert (d2 ≠ []) as Hne2.
  { destruct d1 as [|[x y] d1']; [done|]. intros ->.
    eapply elem_of_nil. apply (Hrel (x + dx) (y + dy)).
    replace (x + dx - dx) with x by lia. replace (y + dy - dy) with y by lia.
    apply list_elem_of_here. }
  destruct (normalise_pts_is_Some d1 Hne1) as [o1 H1].
  destruct (normalise_pts_is_Some d2 Hne2) as [o2 H2].
  rewrite H1, H2. f_equal. apply (normalise_pts_canonical d1 d2); [done..|].
  destruct (normalise_pts_elem d1 o1 H1) as (lx1 & ly1 & Hx1 & Hy1 & He1).
  destruct (normalise_pts_elem d2 o2 H2) as (lx2 & ly2 & Hx2 & Hy2 & He2).
  assert (forall x, x ∈ d2.*1 <-> x - dx ∈ d1.*1) as Hxs.
  { intros x. rewrite !list_elem_of_fmap. split.
    - intros ([x' y'] & -> & Hin). exists (x' - dx, y' - dy). split; [done|].
      by apply Hrel.
    - intros ([x' y'] & Heq & Hin). simpl in Heq. exists (x, y' + dy). split; [done|].
      apply Hrel. replace (y' + dy - dy) with y' by lia. by rewrite Heq. }
  assert (forall y, y ∈ d2.*2 <-> y - dy ∈ d1.*2) as Hys.
  { intros y. rewrite !list_elem_of_fmap. split.
    - intros ([x' y'] & -> & Hin). exists (x' - dx, y' - dy). split; [done|].
      by apply Hrel.
    - intros ([x' y'] & Heq & Hin). simpl in Heq. exists (x' + dx, y). split; [done|].
      apply Hrel. replace (x' + dx - dx) with x' by lia. by rewrite Heq. }
  assert (lx2 = lx1 + dx) as ->.
  { apply Z.le_antisymm.
    - apply (py_min_le _ _ _ Hx2), Hxs. replace (lx1 + dx - dx) with lx1 by lia.
      by apply py_min_elem.
    - assert (lx1 <= lx2 - dx); [|lia].
      apply (py_min_le _ _ _ Hx1), Hxs. by apply py_min_elem. }
  assert (ly2 = ly1 + dy) as ->.
  { apply Z.le_antisymm.
    - apply (py_min_le _ _ _ Hy2), Hys. replace (ly1 + dy - dy) with ly1 by lia.
      by apply py_min_elem.
    - assert (ly1 <= ly2 - dy); [|lia].
      apply (py_min_le _ _ _ Hy1), Hys. by apply py_min_elem. }
  intros [x y]. rewrite He1, He2, Hrel.
  replace (x + (lx1 + dx) - dx) with (x + lx1) by lia.
  replace (y + (ly1 + dy) - dy) with (y + ly1) by lia. done.
Qed.

(** The normal form is its own normal form, and it touches both axes. *)
Lemma normalise_pts_fixed (d o : list (Z * Z)) :
  normalise_pts d = Some o ->
  normalise_pts o = Some o /\ py_min o.*1 = Some 0 /\ py_min o.*2 = Some 0.
Proof.
  intros Hd.
  destruct (normalise_pts_elem d o Hd) as (lx & ly & Hx & Hy & He).
  assert (normalise_pts o = Some o) as Ho.
  { rewrite <- Hd. symmetry. apply (normalise_pts_shift d o (- lx) (- ly)).
    intros x y. rewrite He. by replace (x - - lx) with (x + lx) by lia;
      replace (y - - ly) with (y + ly) by lia. }
  split; [done|].
  pose proof (py_min_elem _ _ Hx) as Hxin. pose proof (py_min_elem _ _ Hy) as Hyin.
  apply list_elem_of_fmap in Hxin as ([x1 y1] & Hx1 & Hin1).
  apply list_elem_of_fmap in Hyin as ([x2 y2] & Hy2 & Hin2).
  simpl in Hx1, Hy2.
  assert ((0, y1 - ly) ∈ o) as Ha.
  { apply He. replace (0 + lx) with x1 by lia.
    by replace (y1 - ly + ly) with y1 by lia. }
  assert ((x2 - lx, 0) ∈ o) as Hb.
  { apply He. replace (0 + ly) with y2 by lia.
    by replace (x2 - lx + lx) with x2 by lia. }
  assert (forall x y, (x, y) ∈ o -> 0 <= x /\ 0 <= y) as Hpos.
  { intros x y Hin%He.
    pose proof (py_min_le _ _ _ Hx (list_elem_of_fmap_2 fst _ _ Hin)).
    pose proof (py_min_le _ _ _ Hy (list_elem_of_fmap_2 snd _ _ Hin)).
    simpl in *. lia. }
  split.
  - destruct (py_min o.*1) as [m|] eqn:Hm.
    + f_equal. apply Z.le_antisymm.
      * apply (py_min_le _ _ _ Hm). by apply (list_elem_of_fmap_2 fst) in Ha.
      * apply py_min_elem, list_elem_of_fmap in Hm as ([x y] & -> & Hin).
        by destruct (Hpos x y Hin).
    + destruct o; [by apply elem_of_nil in Ha|done].
  - destruct (py_min o.*2) as [m|] eqn:Hm.
    + f_equal. apply Z.le_antisymm.
      * apply (py_min_le _ _ _ Hm). by apply (list_elem_of_fmap_2 snd) in Hb.
      * apply py_min_elem, list_elem_of_fmap in Hm as ([x y] & -> & Hin).
        by destruct (Hpos x y Hin).
    + destruct o; [by apply elem_of_nil in Ha|done].
Qed.

End normalise_more.

Section square_facts.
Import ShapeCollection.
Local Open Scope Z_scope.

Lemma square_index (p : Z) : (Z.to_nat (p `mod` 8) < 8)%nat.
Proof. pose proof (Z.mod_pos_bound p 8). lia. Qed.

Lemma below_8 (P : nat -> Prop) (i : nat) :
  (i < 8)%nat ->
  P 0%nat -> P 1%nat -> P 2%nat -> P 3%nat -> P 4%nat -> P 5%nat -> P 6%nat ->
  P 7%nat -> P i.
Proof. intros Hi. do 8 (destruct i as [|i]; [tauto|]). lia. Qed.

Ltac square_pointwise :=
  intros pts; unfold square_p; rewrite <- ?list_fmap_compose;
  apply list_fmap_ext; intros ? [a b] _; cbn; f_equal; lia.

Ltac square_try r k :=
  exists r; split; [lia|];
  change (Z.to_nat (r `mod` 8)) with k; square_pointwise.

Ltac square_inv r k :=
  exists r; split; [lia|]; intros pts;
  change (Z.to_nat (r `mod` 8)) with k; rewrite <- list_fmap_compose;
  rewrite <- (list_fmap_id pts) at 2;
  apply list_fmap_ext; intros ? [a b] _; cbn; f_equal; lia.

Lemma square_p_compose (p q : Z) :
  exists r, 0 <= r < 8
            /\ forall pts, square_p (square_p pts p) q = square_p pts r.
Proof.
  pose proof (square_index p) as Hi. pose proof (square_index q) as Hj.
  unfold square_p.
  set (i := Z.to_nat (p `mod` 8)) in *. set (j := Z.to_nat (q `mod` 8)) in *.
  clearbody i j. clear p q.
  pattern i; apply (below_8 _ i Hi); pattern j; apply (below_8 _ j Hj);
    first [ square_try 0 0%nat | square_try 1 1%nat | square_try 2 2%nat
          | square_try 3 3%nat | square_try 4 4%nat | square_try 5 5%nat
          | square_try 6 6%nat | square_try 7 7%nat ].
Qed.

Lemma square_p_inverse (p : Z) :
  exists q, 0 <= q < 8 /\ forall pts, square_p (square_p pts p) q = pts.
Proof.
  pose proof (square_index p) as Hi. unfold square_p.
  set (i := Z.to_nat (p `mod` 8)) in *. clearbody i.
  clear p. pattern i; apply (below_8 _ i Hi);
    first [ square_inv 0 0%nat | square_inv 1 1%nat | square_inv 2 2%nat
          | square_inv 3 3%nat | square_inv 4 4%nat | square_inv 5 5%nat
          | square_inv 6 6%nat | square_inv 7 7%nat ].
Qed.

Lemma square_p_period (pts : list (Z * Z)) (p : Z) :
  square_p pts (p + 8) = square_p pts p.
Proof.
  unfold square_p. replace ((p + 8) `mod` 8) with (p `mod` 8); [done|].
  rewrite <- (Z.mod_add p 1 8) by lia. by rewrite Z.mul_1_l.
Qed.

Lemma square_p_length (pts : list (Z * Z)) (p : Z) :
  length (square_p pts p) = length pts.
Proof. unfold square_p. by rewrite length_fmap. Qed.

End square_facts.

Section rotated_shape.
Import ShapeCollection.
Local Open Scope Z_scope.

(** [d2] is [d1] moved by [(dx, dy)]. *)
Local Abbreviation moved d1 d2 dx dy :=
  (forall x y : Z, (x, y) ∈ (d2 : list (Z * Z)) <-> (x - dx, y - dy) ∈ (d1 : list (Z * Z))).

Ltac moved_try dx' dy' :=
  exists dx', dy'; intros x y; unfold square_p; rewrite !list_elem_of_fmap;
  split;
  [ intros ([a b] & Heq & Hin); cbn in Heq; injection Heq as -> ->;
    match goal with H : forall x y : Z, _ <-> _ |- _ => apply H in Hin end;
    eexists (_, _); split; [|exact Hin]; cbn; f_equal; lia
  | intros ([a b] & Heq & Hin); cbn in Heq; injection Heq as Hx Hy;
    match goal with
    | H : forall x y : Z, _ <-> _, dx : Z, dy : Z |- _ =>
        exists (a + dx, b + dy); split;
        [cbn; f_equal; lia
        |apply H; by replace (a + dx - dx) with a by lia;
           replace (b + dy - dy) with b by lia]
    end ].

(** A symmetry of the square takes a moved shape to a moved image. *)
Lemma square_p_moved (d1 d2 : list (Z * Z)) (dx dy r : Z) :
  moved d1 d2 dx dy ->
  exists dx' dy', moved (square_p d1 r) (square_p d2 r) dx' dy'.
Proof.
  intros Hrel. pose proof (square_index r) as Hi. unfold square_p.
  set (i := Z.to_nat (r `mod` 8)) in *. clearbody i. clear r.
  pattern i; apply (below_8 _ i Hi);
    first [ moved_try dx dy | moved_try (- dy) dx | moved_try (- dx) (- dy)
          | moved_try dy (- dx) | moved_try dy dx | moved_try (- dx) dy
          | moved_try (- dy) (- dx) | moved_try dx (- dy) ].
Qed.

Lemma normalise_pts_moved (d o : list (Z * Z)) :
  normalise_pts d = Some o -> exists dx dy, moved d o dx dy.
Proof.
  intros (lx & ly & _ & _ & He)%normalise_pts_elem.
  exists (- lx), (- ly). intros x y. rewrite He.
  by replace (x - - lx) with (x + lx) by lia; replace (y - - ly) with (y + ly) by lia.
Qed.

(** The images of a shape given in another orientation. *)
Lemma images_rotated (pts base base' : list (Z * Z)) (p : Z) :
  normalise_pts pts = Some base ->
  normalise_pts (square_p pts p) = Some base' ->
  forall o, o ∈ images base' <-> o ∈ images base.
Proof.
  intros Hb Hb' o.
  destruct (normalise_pts_moved _ _ Hb) as (dx & dy & Hm).
  destruct (normalise_pts_moved _ _ Hb') as (dx' & dy' & Hm').
  rewrite !images_elem. split.
  - intros (f & _ & Hf).
    destruct (square_p_compose p f) as (r & Hr & Hcomp).
    exists r. split; [done|]. rewrite <- Hf.
    destruct (square_p_moved _ _ _ _ r Hm) as (ex & ey & H1).
    destruct (square_p_moved _ _ _ _ f Hm') as (ex' & ey' & H2).
    rewrite <- (normalise_pts_shift _ _ _ _ H1).
    rewrite <- (normalise_pts_shift _ _ _ _ H2). by rewrite Hcomp.
  - intros (f & _ & Hf).
    destruct (square_p_inverse p) as (q & _ & Hinv).
    destruct (square_p_compose q f) as (r & Hr & Hcomp).
    exists r. split; [done|]. rewrite <- Hf.
    destruct (square_p_moved _ _ _ _ f Hm) as (ex & ey & H1).
    destruct (square_p_moved _ _ _ _ r Hm') as (ex' & ey' & H2).
    rewrite <- (normalise_pts_shift _ _ _ _ H1).
    rewrite <- (normalise_pts_shift _ _ _ _ H2).
    by rewrite <- Hcomp, Hinv.
Qed.

End rotated_shape.

Section shape_theorems.
Import ShapeCollection.
Local Open Scope Z_scope.

(** X19. [_normalise_pts_] sees the point-set only, and that up to a
    translation: two lists holding the same points, one moved by
    [(dx, dy)], listed in any order and with any repetition, have the
    same normal form (or both raise). *)
Theorem normalise_pts_invariant (d1 d2 : list (Z * Z)) (dx dy : Z) :
  (forall x y, (x, y) ∈ d2 <-> (x - dx, y - dy) ∈ d1) ->
  normalise_pts d1 = normalise_pts d2.
Proof. apply normalise_pts_shift. Qed.

(** X20. The result of [_normalise_pts_] is a normal form: normalising it
    again returns it unchanged; its least x and its least y are 0; its
    points are those of the shape moved by the least coordinates of the
    shape, each listed once, column by column. *)
Theorem normalise_pts_normal_form (d o : list (Z * Z)) :
  normalise_pts d = Some o ->
  normalise_pts o = Some o
  /\ py_min o.*1 = Some 0 /\ py_min o.*2 = Some 0
  /\ StronglySorted lex_lt o /\ NoDup o
  /\ exists lx ly, py_min d.*1 = Some lx /\ py_min d.*2 = Some ly
                   /\ forall x y, (x, y) ∈ o <-> (x + lx, y + ly) ∈ d.
Proof.
  intros Hd. destruct (normalise_pts_fixed d o Hd) as (H1 & H2 & H3).
  pose proof (normalise_pts_sorted d o Hd) as Hs.
  split; [done|]. split; [done|]. split; [done|]. split; [done|].
  split; [by apply (@StronglySorted_NoDup _ lex_lt lex_lt_irreflexive)|].
  by apply normalise_pts_elem.
Qed.

(** X21. The eight maps of [_square_p] form a group acting on point
    lists: index 0 is the identity, the index is read modulo 8 (negative
    indices included), the composition of two of the maps is one of the
    eight, and each has an inverse among them. *)
Theorem square_p_group :
  (forall pts, square_p pts 0 = pts)
  /\ (forall pts p, square_p pts (p + 8) = square_p pts p
                    /\ square_p pts p = square_p pts (p `mod` 8))
  /\ (forall p q, exists r, 0 <= r < 8
        /\ forall pts, square_p (square_p pts p) q = square_p pts r)
  /\ (forall p, exists q, 0 <= q < 8
        /\ forall pts, square_p (square_p pts p) q = pts).
Proof.
  split; [|split; [|split]].
  - intros pts. unfold square_p. rewrite <- (list_fmap_id pts) at 2.
    apply list_fmap_ext. by intros ? [a b] _.
  - intros pts p. split; [apply square_p_period|].
    unfold square_p. by rewrite Z.mod_mod by lia.
  - apply square_p_compose.
  - apply square_p_inverse.
Qed.

(** X22. The library does not depend on the orientation in which a shape
    is given: where the keys of distinct images do not collide, [fix]
    keeps for the shape turned by any of the eight symmetries the same
    orientations as for the shape itself, up to the order in which they
    are numbered. *)
Theorem orientations_rotated (hash_str : list (Z * Z) -> Z)
    (pts base : list (Z * Z)) (os : list (list (Z * Z))) (p : Z) :
  normalise_pts pts = Some base ->
  collision_free hash_str base ->
  orientations hash_str pts = Some os ->
  exists os', orientations hash_str (square_p pts p) = Some os' /\ os' ≡ₚ os.
Proof.
  intros Hb Hfree Hos.
  assert (pts ≠ []) as Hne by (intros ->; done).
  destruct (normalise_pts_Some pts Hne) as (base0 & Hb0 & Hbne).
  rewrite Hb in Hb0. injection Hb0 as <-.
  assert (square_p pts p ≠ []) as Hne'.
  { intros H%(f_equal length). rewrite square_p_length in H. by destruct pts. }
  destruct (normalise_pts_Some _ Hne') as (base' & Hb' & Hbne').
  pose proof (images_rotated pts base base' p Hb Hb') as Himg.
  destruct (orientations_spec hash_str pts base Hb Hbne)
    as (os0 & Hos0 & Hin & Hnd & _ & Hall).
  rewrite Hos in Hos0. injection Hos0 as <-.
  destruct (orientations_spec hash_str _ base' Hb' Hbne')
    as (os' & Hos' & Hin' & Hnd' & _ & Hall').
  exists os'. split; [done|].
  assert (collision_free hash_str base') as Hfree'.
  { intros x y Hx%Himg Hy%Himg. by apply Hfree. }
  apply NoDup_Permutation; [done..|]. intros o. split.
  - intros Ho%Hin'%Himg. by apply Hall.
  - intros Ho%Hin. apply Hall'; [done|]. by apply Himg.
Qed.

End shape_theorems.

Lemma normalise_pts_invariant_witness :
  (forall x y : Z,
     (x, y) ∈ [(6, 3); (5, 2); (6, 2); (6, 3)]%Z
     <-> ((x - 5)%Z, (y - 2)%Z) ∈ ShapeScenario.tromino)
  /\ ShapeCollection.normalise_pts ShapeScenario.tromino
     = ShapeCollection.normalise_pts [(6, 3); (5, 2); (6, 2); (6, 3)]%Z.
Proof.
  assert (forall x y : Z,
            (x, y) ∈ [(6, 3); (5, 2); (6, 2); (6, 3)]%Z
            <-> ((x - 5)%Z, (y - 2)%Z) ∈ ShapeScenario.tromino) as Hrel.
  { intros x y. unfold ShapeScenario.tromino.
    rewrite !elem_of_cons, !elem_of_nil. split.
    - intros [H|[H|[H|[H|[]]]]]; injection H as -> ->; simpl; tauto.
    - intros [H|[H|[H|[]]]]; injection H as Hx Hy;
        assert (x = x - 5 + 5)%Z as -> by lia; assert (y = y - 2 + 2)%Z as -> by lia;
        rewrite Hx, Hy; simpl; tauto. }
  split; [exact Hrel|].
  exact (normalise_pts_invariant ShapeScenario.tromino _ 5 2 Hrel).
Defined.

Lemma normalise_pts_normal_form_witness :
  ShapeCollection.normalise_pts [(6, 3); (5, 2); (6, 2); (6, 3)]%Z
  = Some [(0, 0); (1, 0); (1, 1)]%Z
  /\ ShapeCollection.normalise_pts [(0, 0); (1, 0); (1, 1)]%Z
     = Some [(0, 0); (1, 0); (1, 1)]%Z
  /\ ShapeCollection.py_min [(0, 0); (1, 0); (1, 1)]%Z.*1 = Some 0%Z
  /\ ShapeCollection.py_min [(0, 0); (1, 0); (1, 1)]%Z.*2 = Some 0%Z
  /\ StronglySorted ShapeCollection.lex_lt [(0, 0); (1, 0); (1, 1)]%Z
  /\ NoDup [(0, 0); (1, 0); (1, 1)]%Z
  /\ exists lx ly,
       ShapeCollection.py_min [(6, 3); (5, 2); (6, 2); (6, 3)]%Z.*1 = Some lx
       /\ ShapeCollection.py_min [(6, 3); (5, 2); (6, 2); (6, 3)]%Z.*2 = Some ly
       /\ forall x y, (x, y) ∈ [(0, 0); (1, 0); (1, 1)]%Z
                      <-> ((x + lx)%Z, (y + ly)%Z) ∈ [(6, 3); (5, 2); (6, 2); (6, 3)]%Z.
Proof.
  assert (ShapeCollection.normalise_pts [(6, 3); (5, 2); (6, 2); (6, 3)]%Z
          = Some [(0, 0); (1, 0); (1, 1)]%Z) as H by (vm_compute; reflexivity).
  split; [exact H|].
  exact (normalise_pts_normal_form _ _ H).
Defined.

Lemma orientations_rotated_witness :
  exists os',
    ShapeCollection.normalise_pts ShapeScenario.tromino
    = Some [(0, 0); (1, 0); (1, 1)]%Z
    /\ ShapeCollection.collision_free ShapeScenario.positional
         [(0, 0); (1, 0); (1, 1)]%Z
    /\ ShapeCollection.orientations ShapeScenario.positional ShapeScenario.tromino
       = Some [[(0, 0); (1, 0); (1, 1)]; [(0, 1); (1, 0); (1, 1)];
               [(0, 0); (0, 1); (1, 1)]; [(0, 0); (0, 1); (1, 0)]]%Z
    /\ ShapeCollection.orientations ShapeScenario.positional
         (ShapeCollection.square_p ShapeScenario.tromino 1) = Some os'
    /\ os' ≡ₚ [[(0, 0); (1, 0); (1, 1)]; [(0, 1); (1, 0); (1, 1)];
               [(0, 0); (0, 1); (1, 1)]; [(0, 0); (0, 1); (1, 0)]]%Z.
Proof.
  assert (ShapeCollection.normalise_pts ShapeScenario.tromino
          = Some [(0, 0); (1, 0); (1, 1)]%Z) as Hb by (vm_compute; reflexivity).
  destruct tromino_orientations as [Hos Hfree].
  destruct (orientations_rotated ShapeScenario.positional ShapeScenario.tromino
              _ _ 1%Z Hb Hfree Hos) as (os' & Hos' & Hperm).
  exists os'. split; [exact Hb|]. split; [exact Hfree|]. split; [exact Hos|].
  split; [exact Hos'|exact Hperm].
Defined.

Section dict_from_facts.
Import PolyominoPuzzle.
Context {K V : Type} `{EqDecision K}.
Implicit Types (d l : list (K * V)).

Lemma dict_get_set_eq k v d : Py.dict_get k (Py.dict_set k v d) = Some v.
Proof.
  induction d as [|[k0 v0] d IH]; simpl; [by rewrite decide_True|].
  destruct (decide (k0 = k)) as [->|Hne]; simpl.
  - by rewrite decide_True.
  - by rewrite decide_False.
Qed.

Lemma dict_get_set_ne k k' v d :
  k' ≠ k -> Py.dict_get k' (Py.dict_set k v d) = Py.dict_get k' d.
Proof.
  intros Hne. induction d as [|[k0 v0] d IH]; simpl.
  - rewrite decide_False; [done|]. congruence.
  - destruct (decide (k0 = k)) as [->|Hne0]; simpl.
    + rewrite !decide_False; [done|congruence..].
    + destruct (decide (k0 = k')); [done|]. apply IH.
Qed.

Lemma dict_set_keys_same k v d : k ∈ d.*1 -> (Py.dict_set k v d).*1 = d.*1.
Proof.
  induction d as [|[k0 v0] d IH]; [by intros ?%elem_of_nil|].
  cbn [Py.dict_set]. destruct (decide (k0 = k)) as [->|Hne]; [done|].
  rewrite !fmap_cons, elem_of_cons. cbn [fst]. intros [->|Hk]; [done|].
  by rewrite IH.
Qed.

Lemma dict_get_NoDup k v d : NoDup d.*1 -> (k, v) ∈ d -> Py.dict_get k d = Some v.
Proof.
  intros Hnd Hin. destruct (dict_get_elem k d) as [v' Hv'].
  { by apply (list_elem_of_fmap_2 fst) in Hin. }
  rewrite Hv'. f_equal. apply dict_get_Some_elem in Hv'.
  by apply (dict_value_unique d k).
Qed.

Lemma foldl_dict_set_keys_elem acc l k :
  k ∈ (foldl (λ d (e : K * V), Py.dict_set e.1 e.2 d) acc l).*1
  <-> k ∈ acc.*1 \/ k ∈ l.*1.
Proof.
  revert acc. induction l as [|[k0 v0] l IH]; intros acc; simpl.
  - rewrite elem_of_nil. tauto.
  - rewrite IH, dict_set_keys_elem, elem_of_cons. tauto.
Qed.

Lemma foldl_dict_set_elem acc l kv :
  kv ∈ foldl (λ d (e : K * V), Py.dict_set e.1 e.2 d) acc l -> kv ∈ acc \/ kv ∈ l.
Proof.
  revert acc. induction l as [|[k0 v0] l IH]; intros acc; simpl; [by left|].
  intros [[->|Hin]%dict_set_elem_inv|Hin]%IH.
  - right. apply list_elem_of_here.
  - by left.
  - right. by apply list_elem_of_further.
Qed.

Lemma foldl_dict_set_NoDup acc l :
  NoDup acc.*1 -> NoDup (foldl (λ d (e : K * V), Py.dict_set e.1 e.2 d) acc l).*1.
Proof.
  revert acc. induction l as [|[k0 v0] l IH]; intros acc Hnd; simpl; [done|].
  by apply IH, dict_set_keys_NoDup.
Qed.

Lemma dict_from_keys_elem l k : k ∈ (dict_from l).*1 <-> k ∈ l.*1.
Proof.
  unfold dict_from. rewrite foldl_dict_set_keys_elem. simpl.
  rewrite elem_of_nil. tauto.
Qed.

Lemma dict_from_elem l kv : kv ∈ dict_from l -> kv ∈ l.
Proof. by intros [?%elem_of_nil|?]%foldl_dict_set_elem. Qed.

Lemma dict_from_keys_NoDup l : NoDup (dict_from l).*1.
Proof. apply foldl_dict_set_NoDup. constructor. Qed.

Lemma dict_from_NoDup l : NoDup l.*1 -> dict_from l = l.
Proof. intros Hnd. unfold dict_from. by rewrite (dict_fill [] l). Qed.

End dict_from_facts.

Section mapM_facts.
Context {A B : Type}.

(** A comprehension whose body cannot fail. *)
Lemma mapM_total_bind (f : A -> option (list B)) (g : A -> list B) (l : list A) :
  (forall x, x ∈ l -> f x = Some (g x)) -> mjoin <$> mapM f l = Some (l ≫= g).
Proof.
  induction l as [|x l IH]; intros Hf; [done|].
  simpl mapM. rewrite (Hf x) by apply list_elem_of_here. simpl.
  destruct (mapM f l) as [ys|] eqn:E.
  - simpl. specialize (IH (λ y Hy, Hf y (list_elem_of_further _ _ _ Hy))).
    simpl in IH. injection IH as IH. by rewrite IH.
  - specialize (IH (λ y Hy, Hf y (list_elem_of_further _ _ _ Hy))). done.
Qed.

Lemma mapM_total (f : A -> option B) (g : A -> B) (l : list A) :
  (forall x, x ∈ l -> f x = Some (g x)) -> mapM f l = Some (g <$> l).
Proof.
  intros Hf. apply mapM_Some. apply Forall2_fmap_r, Forall_Forall2_diag.
  apply Forall_forall. intros x Hx. by apply Hf.
Qed.

End mapM_facts.

Section puzzle_builder.
Import CpModel PolyominoPuzzle PolyominoPuzzleFacts.
Context {K : Type} `{EqDecision K}.
Implicit Types (lib : list ((K * nat) * list (Z * Z))) (ground : list (Z * Z)).

Lemma legal_translate_Some lib ground (nf : K * nat) pt :
  nf ∈ lib.*1 ->
  exists pts, Py.dict_get nf lib = Some pts
    /\ legal lib nf ground pt
       = Some (bool_decide (Forall (λ p, move pt p ∈ ground) pts))
    /\ translate lib nf pt = Some (remove_dups (move pt <$> pts)).
Proof.
  intros Hin. destruct (dict_get_elem nf lib Hin) as [pts Hpts].
  exists pts. unfold legal, translate. by rewrite Hpts.
Qed.

(** The candidates are the legal placements of the available pieces. *)
Lemma candidates_Some lib (available : list (K * Z)) ground :
  exists cands,
    candidates lib available ground = Some cands
    /\ forall f pp, (f, pp) ∈ cands <->
         f.1 ∈ lib.*1 /\ f.1.1 ∈ available.*1 /\ f.2 ∈ ground
         /\ legal lib f.1 ground f.2 = Some true
         /\ translate lib f.1 f.2 = Some pp.
Proof.
  set (inner := λ (nf : K * nat) (pt : Z * Z),
         match legal lib nf ground pt, translate lib nf pt with
         | Some true, Some pp => [((nf, pt), pp)]
         | _, _ => []
         end).
  set (outer := λ nf : K * nat,
         if decide (nf.1 ∈ available.*1) then ground ≫= inner nf else []).
  exists (lib.*1 ≫= outer). split.
  - unfold candidates. apply mapM_total_bind. intros nf Hnf. unfold outer.
    case_decide; [|done]. apply mapM_total_bind. intros pt Hpt. unfold inner.
    destruct (legal_translate_Some lib ground nf pt Hnf) as (pts & _ & -> & ->).
    simpl. by destruct (bool_decide _).
  - intros [[k i] pt] pp. simpl. rewrite list_elem_of_bind. split.
    + intros (nf & Hin & Hnf). unfold outer in Hin.
      case_decide as Hav; [|by apply elem_of_nil in Hin].
      apply list_elem_of_bind in Hin as (pt' & Hin & Hpt'). unfold inner in Hin.
      destruct (legal lib nf ground pt') as [[|]|] eqn:Hl;
        try (by apply elem_of_nil in Hin).
      destruct (translate lib nf pt') as [pp'|] eqn:Ht;
        [|by apply elem_of_nil in Hin].
      apply list_elem_of_singleton in Hin. injection Hin as <- <- <-. done.
    + intros (Hnf & Hav & Hpt & Hl & Ht). exists (k, i). split; [|done].
      unfold outer. rewrite decide_True by done.
      apply list_elem_of_bind. exists pt. split; [|done].
      unfold inner. rewrite Hl, Ht. apply list_elem_of_here.
Qed.

(** A legal placement lies within the ground. *)
Lemma legal_cells lib ground (f : K * nat * (Z * Z)) pp pt :
  legal lib f.1 ground f.2 = Some true -> translate lib f.1 f.2 = Some pp ->
  pt ∈ pp -> pt ∈ ground.
Proof.
  unfold legal, translate. destruct (Py.dict_get f.1 lib) as [pts|]; [|done].
  simpl. intros [= Hl%bool_decide_eq_true] [= <-].
  rewrite elem_of_remove_dups. intros (p & -> & Hp)%list_elem_of_fmap.
  rewrite Forall_forall in Hl. by apply Hl.
Qed.

(** *** The variables *)

Lemma presence_elem (cands : list ((K * nat * (Z * Z)) * list (Z * Z))) f x :
  (f, x) ∈ dict_from (imap (λ i c, (c.1, i)) cands) ->
  exists pp, cands !! x = Some (f, pp).
Proof.
  intros Hin%dict_from_elem. apply elem_of_lookup_imap in Hin as (i & [f' pp] & Heq & Hi).
  injection Heq as -> ->. by exists pp.
Qed.

Lemma presence_keys (cands : list ((K * nat * (Z * Z)) * list (Z * Z))) f :
  f ∈ (dict_from (imap (λ i c, (c.1, i)) cands)).*1 <-> f ∈ cands.*1.
Proof.
  rewrite dict_from_keys_elem, !list_elem_of_fmap. split.
  - intros ([f' x] & -> & Hin). apply elem_of_lookup_imap in Hin as (i & c & Heq & Hi).
    injection Heq as -> ->. exists c. split; [done|]. by eapply list_elem_of_lookup_2.
  - intros (c & -> & [i Hi]%list_elem_of_lookup). exists (c.1, i). split; [done|].
    apply elem_of_lookup_imap. by exists i, c.
Qed.

(** *** The dict [pos_items] *)

Lemma add_points_spec (f : K * nat * (Z * Z)) pp
    (pos : list ((Z * Z) * list (K * nat * (Z * Z)))) :
  (forall pt, pt ∈ pp -> pt ∈ pos.*1) ->
  exists pos',
    add_points f pp pos = Some pos' /\ pos'.*1 = pos.*1
    /\ forall pt s, Py.dict_get pt pos = Some s ->
         Py.dict_get pt pos' = Some (if decide (pt ∈ pp) then set_add f s else s).
Proof.
  revert pos. induction pp as [|p pp IH]; intros pos Hin; cbn [add_points].
  - exists pos. split; [done|]. split; [done|]. intros pt s Hs.
    rewrite decide_False; [done|]. apply not_elem_of_nil.
  - destruct (dict_get_elem p pos) as [s0 Hs0]; [apply Hin, list_elem_of_here|].
    rewrite Hs0. simpl.
    assert (p ∈ pos.*1) as Hp by (apply Hin, list_elem_of_here).
    destruct (IH (Py.dict_set p (set_add f s0) pos)) as (pos' & Hadd & Hkeys & Hget).
    { intros pt Hpt. rewrite dict_set_keys_same by done.
      by apply Hin, list_elem_of_further. }
    exists pos'. split; [done|]. split; [by rewrite Hkeys, dict_set_keys_same|].
    intros pt s Hs. destruct (decide (pt = p)) as [->|Hne].
    + rewrite Hs in Hs0. injection Hs0 as <-.
      rewrite (Hget p (set_add f s)) by apply dict_get_set_eq.
      rewrite (decide_True (P := p ∈ p :: pp)) by apply list_elem_of_here.
      f_equal. case_decide; [|done].
      unfold set_add at 1. rewrite decide_True; [done|].
      unfold set_add. case_decide; [done|]. apply elem_of_app. right.
      apply list_elem_of_here.
    + rewrite (Hget pt s) by (by rewrite dict_get_set_ne).
      f_equal. destruct (decide (pt ∈ pp)) as [Hi|Hi].
      * rewrite decide_True; [done|]. by apply list_elem_of_further.
      * rewrite decide_False; [done|]. rewrite elem_of_cons. tauto.
Qed.

Lemma fill_pos_spec (fixeds : list (K * nat * (Z * Z)))
    (placement : list ((K * nat * (Z * Z)) * list (Z * Z)))
    (pos : list ((Z * Z) * list (K * nat * (Z * Z)))) :
  (forall f, f ∈ fixeds ->
     exists pp, Py.dict_get f placement = Some pp
                /\ forall pt, pt ∈ pp -> pt ∈ pos.*1) ->
  exists pos',
    fill_pos fixeds placement pos = Some pos' /\ pos'.*1 = pos.*1
    /\ forall pt s, Py.dict_get pt pos = Some s ->
         Py.dict_get pt pos'
         = Some (foldl (λ s f,
                          if decide (pt ∈ default [] (Py.dict_get f placement))
                          then set_add f s else s) s fixeds).
Proof.
  revert pos. induction fixeds as [|f fixeds IH]; intros pos Hall; cbn [fill_pos].
  - exists pos. done.
  - destruct (Hall f) as (pp & Hpp & Hin); [apply list_elem_of_here|].
    rewrite Hpp. simpl.
    destruct (add_points_spec f pp pos Hin) as (pos1 & -> & Hk1 & Hg1). simpl.
    destruct (IH pos1) as (pos' & Hfill & Hk & Hg).
    { intros g Hg. destruct (Hall g) as (pp' & Hpp' & Hin');
        [by apply list_elem_of_further|].
      exists pp'. split; [done|]. by rewrite Hk1. }
    exists pos'. split; [done|]. split; [by rewrite Hk, Hk1|].
    intros pt s Hs. rewrite (Hg pt _ (Hg1 pt s Hs)). cbn [foldl].
    by rewrite Hpp.
Qed.

Lemma foldl_set_add {A : Type} `{EqDecision A} (P : A -> Prop)
    `{forall x, Decision (P x)} (l s : list A) :
  let r := foldl (λ s x, if decide (P x) then set_add x s else s) s l in
  (forall x, x ∈ r <-> x ∈ s \/ (x ∈ l /\ P x)) /\ (NoDup s -> NoDup r).
Proof.
  revert s. induction l as [|y l IH]; intros s; cbn [foldl].
  - split; [|done]. intros x. rewrite elem_of_nil. tauto.
  - destruct (IH (if decide (P y) then set_add y s else s)) as [Hel Hnd].
    split.
    + intros x. rewrite Hel, elem_of_cons. case_decide as HP.
      * unfold set_add. case_decide as Hy.
        -- split; [tauto|]. intros [?|[[->|?] ?]]; tauto.
        -- rewrite elem_of_app, list_elem_of_singleton.
           split; [intros [[?| ->]|[? ?]]; tauto|]. intros [?|[[->|?] ?]]; tauto.
      * split; [tauto|]. intros [?|[[->|?] ?]]; tauto.
    + intros Hs. apply Hnd. case_decide; [|done]. unfold set_add.
      case_decide as Hy; [done|]. apply NoDup_app. split; [done|].
      split; [|apply NoDup_singleton].
      intros x Hx ->%list_elem_of_singleton. done.
Qed.

End puzzle_builder.

Section puzzle_parts.
Import CpModel PolyominoPuzzle PolyominoPuzzleFacts.
Context {K : Type} `{EqDecision K}.
Implicit Types (lib : list ((K * nat) * list (Z * Z))).

Lemma empty_sets_keys (ground : list (Z * Z)) :
  ((λ x : Z * Z, (x, @nil (K * nat * (Z * Z)))) <$> ground).*1 = ground.
Proof. rewrite <- list_fmap_compose. apply list_fmap_id. Qed.

(** What [process] builds. *)
Lemma process_parts lib (names : list K) (problem : problem_t K) :
  exists pz,
    process lib names problem = Some pz
    /\ allow_gaps pz = default false (p_gaps problem)
    /\ ground pz = default default_ground (p_fill problem)
    /\ NoDup (presence pz).*1
    /\ (forall f f' x, (f, x) ∈ presence pz -> (f', x) ∈ presence pz -> f = f')
    /\ (forall f, f ∈ (presence pz).*1 <->
          f.1 ∈ lib.*1 /\ f.1.1 ∈ (available_of names problem).*1
          /\ f.2 ∈ ground pz /\ legal lib f.1 (ground pz) f.2 = Some true)
    /\ (forall f pt, f ∈ (presence pz).*1 -> pt ∈ cells lib f -> pt ∈ ground pz)
    /\ NoDup (pos_items pz).*1
    /\ (forall pt, pt ∈ (pos_items pz).*1 <-> pt ∈ ground pz)
    /\ (forall pt s, (pt, s) ∈ pos_items pz ->
          NoDup s
          /\ (forall f, f ∈ s <-> f ∈ (presence pz).*1 /\ pt ∈ cells lib f)
          /\ exists items,
               Forall2 (λ f x, (f, x) ∈ presence pz) s items
               /\ (if allow_gaps pz then SumLe items 1 else SumEq items 1)
                  ∈ constraints pz)
    /\ (forall e, e ∈ available_of names problem ->
          (if decide (0 < e.2)%Z then SumEq (free (presence pz) e.1) e.2
           else SumGe (free (presence pz) e.1) (- e.2)) ∈ constraints pz)
    /\ maximising pz = bool_decide (is_Some (objective pz))
    /\ objective pz
       = (if decide (to_maximise (presence pz) (available_of names problem) = [])
          then None
          else Some (to_maximise (presence pz) (available_of names problem))).
Proof.
  unfold process. fold (available_of names problem).
  set (av := available_of names problem).
  set (gr := default default_ground (p_fill problem)).
  destruct (candidates_Some lib av gr) as (cands & -> & Hc). cbn [mbind option_bind].
  set (pres := dict_from (imap (λ i c, (c.1, i)) cands)).
  assert (forall f, f ∈ pres.*1 -> exists pp,
            Py.dict_get f (dict_from cands) = Some pp
            /\ translate lib f.1 f.2 = Some pp
            /\ legal lib f.1 gr f.2 = Some true
            /\ f.1 ∈ lib.*1 /\ f.1.1 ∈ av.*1 /\ f.2 ∈ gr) as Hplc.
  { intros f Hf%presence_keys.
    destruct (dict_get_elem f (dict_from cands)) as [pp Hpp];
      [by apply dict_from_keys_elem|].
    exists pp. split; [done|].
    apply dict_get_Some_elem, dict_from_elem, Hc in Hpp. tauto. }
  assert (forall f pt, f ∈ pres.*1 -> pt ∈ cells lib f -> pt ∈ gr) as Hcells.
  { intros f pt Hf Hpt. destruct (Hplc f Hf) as (pp & _ & Ht & Hl & _).
    unfold cells in Hpt. rewrite Ht in Hpt. by apply (legal_cells lib gr f pp). }
  assert (forall f, f ∈ pres.*1 ->
            default [] (Py.dict_get f (dict_from cands)) = cells lib f) as Hsame.
  { intros f Hf. destruct (Hplc f Hf) as (pp & -> & Ht & _).
    unfold cells. by rewrite Ht. }
  set (pos0 := dict_from ((λ x : Z * Z, (x, @nil (K * nat * (Z * Z)))) <$> gr)).
  assert (forall pt, pt ∈ pos0.*1 <-> pt ∈ gr) as Hpos0.
  { intros pt. unfold pos0. by rewrite dict_from_keys_elem, empty_sets_keys. }
  destruct (fill_pos_spec pres.*1 (dict_from cands) pos0) as (pos & -> & Hkeys & Hget).
  { intros f Hf. destruct (Hplc f Hf) as (pp & Hpp & Ht & Hl & _).
    exists pp. split; [done|]. intros pt Hpt. apply Hpos0.
    by apply (legal_cells lib gr f pp). }
  cbn [mbind option_bind].
  assert (NoDup pos.*1) as Hposnd by (rewrite Hkeys; apply dict_from_keys_NoDup).
  assert (forall pt s, (pt, s) ∈ pos ->
            NoDup s /\ forall f, f ∈ s <-> f ∈ pres.*1 /\ pt ∈ cells lib f) as Hsets.
  { intros pt s Hin.
    assert (pt ∈ pos0.*1) as Hpt
      by (rewrite <- Hkeys; by apply (list_elem_of_fmap_2 fst) in Hin).
    destruct (dict_get_elem pt pos0 Hpt) as [s0 Hs0].
    assert (s0 = []) as ->.
    { apply dict_get_Some_elem, dict_from_elem in Hs0.
      by apply list_elem_of_fmap in Hs0 as (? & [= _ ->] & _). }
    pose proof (Hget pt [] Hs0) as Hs.
    rewrite (dict_get_NoDup pt s pos Hposnd Hin) in Hs. injection Hs as ->.
    destruct (foldl_set_add
                (λ f, pt ∈ default [] (Py.dict_get f (dict_from cands)))
                pres.*1 []) as [Hel Hnd].
    split; [apply Hnd; constructor|].
    intros f. rewrite Hel, elem_of_nil. split.
    - intros [[]|[Hf Hp]]. split; [done|]. by rewrite <- Hsame.
    - intros [Hf Hp]. right. split; [done|]. by rewrite Hsame. }
  assert (exists cs,
            cell_constraints (default false (p_gaps problem)) pres pos = Some cs
            /\ forall pt s, (pt, s) ∈ pos ->
                 exists items, Forall2 (λ f x, (f, x) ∈ pres) s items
                   /\ (if default false (p_gaps problem)
                       then SumLe items 1 else SumEq items 1) ∈ cs) as (cs & -> & Hcs).
  { unfold cell_constraints.
    set (v := λ f : K * nat * (Z * Z), default 0%nat (Py.dict_get f pres)).
    set (mk := λ e : (Z * Z) * list (K * nat * (Z * Z)),
           if default false (p_gaps problem) then SumLe (v <$> e.2) 1
           else SumEq (v <$> e.2) 1).
    exists (mk <$> pos). split.
    - apply mapM_total. intros [pt s] Hin. cbn [snd].
      rewrite (mapM_total _ v); [done|]. intros f Hf.
      destruct (Hsets pt s Hin) as [_ Hel]. apply Hel in Hf as [Hf _].
      destruct (dict_get_elem f pres Hf) as [x Hx]. unfold v. cbn beta.
      by rewrite Hx.
    - intros pt s Hin. exists (v <$> s). split.
      + apply Forall2_fmap_r, Forall_Forall2_diag, Forall_forall. intros f Hf.
        destruct (Hsets pt s Hin) as [_ Hel]. apply Hel in Hf as [Hf _].
        destruct (dict_get_elem f pres Hf) as [x Hx]. unfold v, compose. cbn beta.
        rewrite Hx.
        by apply dict_get_Some_elem.
      + by apply (list_elem_of_fmap_2 mk) in Hin. }
  cbn [mbind option_bind]. eexists. split; [reflexivity|]. cbn.
  split; [done|]. split; [done|].
  split; [apply dict_from_keys_NoDup|].
  split.
  { intros f f' x (pp & Hx)%presence_elem (pp' & Hx')%presence_elem. congruence. }
  split.
  { intros f. split.
    - intros Hf. destruct (Hplc f Hf) as (pp & _ & _ & Hl & ?). tauto.
    - intros (H1 & H2 & H3 & Hl). apply presence_keys.
      destruct (legal_translate_Some lib gr f.1 f.2 H1) as (pts & _ & _ & Ht).
      apply list_elem_of_fmap. exists (f, remove_dups (move f.2 <$> pts)).
      split; [done|]. apply Hc. tauto. }
  split; [done|]. split; [done|].
  split; [intros pt; by rewrite Hkeys|].
  split.
  { intros pt s Hin. destruct (Hsets pt s Hin) as [Hnd Hel].
    split; [done|]. split; [done|].
    destruct (Hcs pt s Hin) as (items & Hit & Hc').
    exists items. split; [done|]. apply elem_of_app. by right. }
  split.
  { intros e He. apply elem_of_app. left. unfold count_constraints.
    by apply (list_elem_of_fmap_2
                (λ e : K * Z,
                   if decide (0 < e.2)%Z then SumEq (free pres e.1) e.2
                   else SumGe (free pres e.1) (- e.2))) in He. }
  split; [|done].
  destruct (decide (to_maximise pres av = [])) as [->|Hne]; [done|].
  rewrite bool_decide_true by done. symmetry. apply bool_decide_true. by eexists.
Qed.

End puzzle_parts.

Section puzzle_cover.
Import CpModel PolyominoPuzzle PolyominoPuzzleFacts.
Context {K : Type} `{EqDecision K}.
Implicit Types (lib : list ((K * nat) * list (Z * Z))).

Lemma length_filter_fmap {A B : Type} (P : B -> Prop) `{forall y, Decision (P y)}
    (f : A -> B) (l : list A) :
  length (filter P (f <$> l)) = length (filter (λ x, P (f x)) l).
Proof.
  induction l as [|x l IH]; [done|]. rewrite fmap_cons, !filter_cons.
  destruct (decide (P (f x))); simpl; by rewrite IH.
Qed.

Lemma filter_le_one_unique {A : Type} (P : A -> Prop) `{forall x, Decision (P x)}
    (l : list A) (a b : A) :
  (length (filter P l) <= 1)%nat -> a ∈ l -> b ∈ l -> P a -> P b -> a = b.
Proof.
  intros Hlen Ha Hb HPa HPb.
  assert (a ∈ filter P l) as Ha' by (by apply list_elem_of_filter).
  assert (b ∈ filter P l) as Hb' by (by apply list_elem_of_filter).
  destruct (filter P l) as [|x [|y l']]; simpl in Hlen; [|..|lia].
  - by apply elem_of_nil in Ha'.
  - apply list_elem_of_singleton in Ha', Hb'. congruence.
Qed.

Lemma dict_values_NoDup {A B : Type} (l : list (A * B)) :
  NoDup l.*1 -> (forall a a' b, (a, b) ∈ l -> (a', b) ∈ l -> a = a') -> NoDup l.*2.
Proof.
  intros Hnd Hinj. apply NoDup_fmap_2_strong; [|by apply (NoDup_fmap_1 fst)].
  intros [a b] [a' b'] Hin Hin' Heq. simpl in Heq. subst b'.
  by rewrite (Hinj a a' b).
Qed.

Lemma process_Some_parts lib (names : list K) (problem : problem_t K) pz :
  process lib names problem = Some pz ->
  NoDup (presence pz).*1
  /\ (forall f f' x, (f, x) ∈ presence pz -> (f', x) ∈ presence pz -> f = f')
  /\ (forall f pt, f ∈ (presence pz).*1 -> pt ∈ cells lib f -> pt ∈ ground pz)
  /\ NoDup (pos_items pz).*1
  /\ (forall pt, pt ∈ (pos_items pz).*1 <-> pt ∈ ground pz)
  /\ (forall pt s, (pt, s) ∈ pos_items pz ->
        NoDup s
        /\ (forall f, f ∈ s <-> f ∈ (presence pz).*1 /\ pt ∈ cells lib f)
        /\ exists items,
             Forall2 (λ f x, (f, x) ∈ presence pz) s items
             /\ (if allow_gaps pz then SumLe items 1 else SumEq items 1)
                ∈ constraints pz)
  /\ (forall e, e ∈ available_of names problem ->
        (if decide (0 < e.2)%Z then SumEq (free (presence pz) e.1) e.2
         else SumGe (free (presence pz) e.1) (- e.2)) ∈ constraints pz).
Proof.
  intros Hp. destruct (process_parts lib names problem)
    as (pz' & Hp' & _ & _ & H1 & H2 & _ & H3 & H4 & H5 & H6 & H7 & _).
  rewrite Hp in Hp'. injection Hp' as <-. done.
Qed.

(** The sum constrained for a point of the ground counts the true
    placements that cover it. *)
Lemma cover_count lib (names : list K) (problem : problem_t K) pz
    (val : nat -> bool) pt :
  process lib names problem = Some pz -> pt ∈ ground pz ->
  exists items,
    (if allow_gaps pz then SumLe items 1 else SumEq items 1) ∈ constraints pz
    /\ total val items
       = Z.of_nat (length (filter (λ e : (K * nat * (Z * Z)) * nat,
                                     val e.2 = true /\ pt ∈ cells lib e.1)
                             (presence pz))).
Proof.
  intros Hp Hpt.
  destruct (process_Some_parts lib names problem pz Hp)
    as (Hnd & Hinj & _ & Hpnd & Hpk & Hsets & _).
  apply Hpk, dict_key_elem in Hpt as [s Hs].
  destruct (Hsets pt s Hs) as (Hsnd & Hel & items & Hit & Hc).
  exists items. split; [done|].
  set (Q := filter (λ e : (K * nat * (Z * Z)) * nat, pt ∈ cells lib e.1) (presence pz)).
  assert (items ≡ₚ Q.*2) as Hperm.
  { apply NoDup_Permutation.
    - apply NoDup_alt. intros i j x Hi Hj.
      destruct (Forall2_lookup_r _ _ _ _ _ Hit Hi) as (f & Hf & Hfx).
      destruct (Forall2_lookup_r _ _ _ _ _ Hit Hj) as (f' & Hf' & Hfx').
      rewrite (Hinj f f' x Hfx Hfx') in Hf.
      by apply (NoDup_lookup s i j f').
    - apply dict_values_NoDup.
      + apply NoDup_fmap_2_strong;
          [|by apply NoDup_filter, (NoDup_fmap_1 fst)].
        intros [f x] [f' x'] [_ Hf]%list_elem_of_filter [_ Hf']%list_elem_of_filter Heq.
        simpl in Heq. subst f'. by rewrite (dict_value_unique _ _ _ _ Hnd Hf Hf').
      + intros f f' x [_ Hf]%list_elem_of_filter [_ Hf']%list_elem_of_filter.
        by apply (Hinj f f' x).
    - intros x. split.
      + intros [i Hi]%list_elem_of_lookup.
        destruct (Forall2_lookup_r _ _ _ _ _ Hit Hi) as (f & Hf & Hfx).
        apply list_elem_of_lookup_2, Hel in Hf as [_ Hcov].
        apply list_elem_of_fmap. exists (f, x). split; [done|].
        by apply list_elem_of_filter.
      + intros ([f x'] & -> & [Hcov Hin]%list_elem_of_filter)%list_elem_of_fmap.
        simpl in *.
        assert (f ∈ s) as [i Hi]%list_elem_of_lookup.
        { apply Hel. split; [|done]. by apply (list_elem_of_fmap_2 fst) in Hin. }
        destruct (Forall2_lookup_l _ _ _ _ _ Hit Hi) as (x & Hx & Hfx).
        rewrite (dict_value_unique _ _ _ _ Hnd Hin Hfx).
        by eapply list_elem_of_lookup_2. }
  unfold total. f_equal. rewrite Hperm. unfold Q.
  rewrite (length_filter_fmap (λ x, val x = true) snd).
  by rewrite list_filter_filter.
Qed.

End puzzle_cover.

Section puzzle_theorems.
Import CpModel PolyominoPuzzle PolyominoPuzzleFacts.
Context {K : Type} `{EqDecision K}.
Implicit Types (lib : list ((K * nat) * list (Z * Z))).

Lemma length_filter_sum {A : Type} (P : A -> Prop) `{forall x, Decision (P x)}
    (l : list A) :
  length (filter P l) = sum_list_with (λ x, if decide (P x) then 1%nat else 0%nat) l.
Proof.
  induction l as [|x l IH]; [done|]. rewrite filter_cons. simpl.
  destruct (decide (P x)); simpl; by rewrite IH.
Qed.

Lemma move_inj (offs : Z * Z) : Inj eq eq (move offs).
Proof. intros [a b] [c d]. unfold move. simpl. intros [= ? ?]. f_equal; lia. Qed.

Lemma cells_length lib (f : K * nat * (Z * Z)) :
  f.1 ∈ lib.*1 ->
  exists pts, (f.1, pts) ∈ lib /\ length (cells lib f) = length (remove_dups pts).
Proof.
  intros Hin. destruct (dict_get_elem f.1 lib Hin) as [pts Hpts].
  exists pts. split; [by apply dict_get_Some_elem|].
  unfold cells, translate. rewrite Hpts. simpl.
  rewrite <- (length_fmap (move f.2) (remove_dups pts)).
  apply Permutation_length, NoDup_Permutation.
  - apply NoDup_remove_dups.
  - apply (NoDup_fmap_2 (move f.2) (Inj0 := move_inj f.2)), NoDup_remove_dups.
  - intros x. rewrite elem_of_remove_dups, !list_elem_of_fmap.
    split; intros (p & -> & Hp); exists p; split; try done;
      by apply elem_of_remove_dups.
Qed.

Lemma cells_NoDup lib (f : K * nat * (Z * Z)) : NoDup (cells lib f).
Proof.
  unfold cells, translate. destruct (Py.dict_get f.1 lib); simpl;
    [apply NoDup_remove_dups|constructor].
Qed.

(** X23. [process] never raises [KeyError]: whatever the library, the
    names and the problem, it builds its model.  It creates a variable
    for a key [(name, i, point)] exactly when [(name, i)] is an
    orientation of the library, [name] is available, [point] is in the
    ground and the orientation moved to [point] is legal; distinct keys
    get distinct variables, and every such placement lies within the
    ground. *)
Theorem process_never_raises lib (names : list K) (problem : problem_t K) :
  exists pz,
    process lib names problem = Some pz
    /\ ground pz = default default_ground (p_fill problem)
    /\ (forall f, f ∈ (presence pz).*1 <->
          f.1 ∈ lib.*1 /\ f.1.1 ∈ (available_of names problem).*1
          /\ f.2 ∈ ground pz /\ legal lib f.1 (ground pz) f.2 = Some true)
    /\ NoDup (presence pz).*1 /\ NoDup (presence pz).*2
    /\ (forall f pt, f ∈ (presence pz).*1 -> pt ∈ cells lib f -> pt ∈ ground pz).
Proof.
  destruct (process_parts lib names problem)
    as (pz & Hp & _ & Hg & Hnd & Hinj & Hkeys & Hin & _).
  exists pz. split; [done|]. split; [done|]. split; [done|]. split; [done|].
  split; [by apply dict_values_NoDup|done].
Qed.

(** X24. In every solution of the model the placed pieces lie within the
    ground and no two of them share a cell; when gaps are not allowed,
    every point of the ground is covered (so by exactly one placed
    piece). *)
Theorem process_exact_cover lib (names : list K) (problem : problem_t K) pz
    (val : nat -> bool) :
  process lib names problem = Some pz -> satisfies val pz ->
  (forall f pt, placed val pz f -> pt ∈ cells lib f -> pt ∈ ground pz)
  /\ (forall f f' pt, placed val pz f -> placed val pz f' ->
        pt ∈ cells lib f -> pt ∈ cells lib f' -> f = f')
  /\ (allow_gaps pz = false ->
      forall pt, pt ∈ ground pz -> exists f, placed val pz f /\ pt ∈ cells lib f).
Proof.
  intros Hp Hval.
  destruct (process_Some_parts lib names problem pz Hp) as (Hnd & Hinj & Hin & _).
  assert (forall f pt, placed val pz f -> pt ∈ cells lib f -> pt ∈ ground pz) as Hwithin.
  { intros f pt (x & Hx & _) Hpt. apply (Hin f); [|done].
    by apply (list_elem_of_fmap_2 fst) in Hx. }
  split; [done|]. split.
  - intros f f' pt Hf Hf' Hc Hc'. pose proof (Hwithin f pt Hf Hc) as Hpt.
    destruct Hf as (x & Hx & Hv), Hf' as (x' & Hx' & Hv').
    destruct (cover_count lib names problem pz val pt Hp Hpt) as (items & Hcon & Htot).
    unfold satisfies in Hval. rewrite Forall_forall in Hval.
    specialize (Hval _ Hcon).
    assert ((f, x) = (f', x')) as Heq; [|congruence].
    apply (filter_le_one_unique
             (λ e : (K * nat * (Z * Z)) * nat, val e.2 = true /\ pt ∈ cells lib e.1)
             (presence pz)); try done.
    destruct (allow_gaps pz); simpl in Hval; lia.
  - intros Hgaps pt Hpt.
    destruct (cover_count lib names problem pz val pt Hp Hpt) as (items & Hcon & Htot).
    unfold satisfies in Hval. rewrite Forall_forall in Hval.
    specialize (Hval _ Hcon). rewrite Hgaps in Hval. simpl in Hval.
    destruct (filter _ (presence pz)) as [|[f x] l] eqn:E; [simpl in Htot; lia|].
    assert ((f, x) ∈ filter (λ e : (K * nat * (Z * Z)) * nat,
                                val e.2 = true /\ pt ∈ cells lib e.1) (presence pz))
      as [[Hv Hc] Hx]%list_elem_of_filter by (rewrite E; apply list_elem_of_here).
    exists f. split; [by exists x|done].
Qed.

(** X25. In every solution the number of placed pieces of an available
    name is the number asked for when that number is positive, and at
    least its opposite otherwise. *)
Theorem process_piece_counts lib (names : list K) (problem : problem_t K) pz
    (val : nat -> bool) (k : K) (allowed : Z) :
  process lib names problem = Some pz -> satisfies val pz ->
  (k, allowed) ∈ available_of names problem ->
  let count := Z.of_nat (length (filter (λ e : (K * nat * (Z * Z)) * nat,
                                           val e.2 = true /\ e.1.1.1 = k)
                                   (presence pz))) in
  ((0 < allowed)%Z -> count = allowed)
  /\ ((allowed <= 0)%Z -> (- allowed <= count)%Z).
Proof.
  intros Hp Hval Hk count.
  destruct (process_Some_parts lib names problem pz Hp) as (_ & _ & _ & _ & _ & _ & Hav).
  specialize (Hav _ Hk). simpl in Hav.
  unfold satisfies in Hval. rewrite Forall_forall in Hval. specialize (Hval _ Hav).
  assert (total val (free (presence pz) k) = count) as Htot.
  { unfold total, free, count. f_equal.
    rewrite (length_filter_fmap (λ x, val x = true) snd).
    by rewrite list_filter_filter. }
  split; intros Ha.
  - rewrite decide_True in Hval by done. simpl in Hval. congruence.
  - rewrite decide_False in Hval by lia. simpl in Hval. lia.
Qed.

(** X26. When gaps are not allowed, the cells of the placed pieces of a
    solution add up to the cells of the ground; so if every orientation
    of the library has [n] cells, a solution places [len(ground) / n]
    pieces, and none exists unless [n] divides the size of the ground. *)
Theorem process_area lib (names : list K) (problem : problem_t K) pz
    (val : nat -> bool) (n : nat) :
  process lib names problem = Some pz -> satisfies val pz ->
  allow_gaps pz = false -> NoDup (ground pz) ->
  let placed_entries := filter (λ e : (K * nat * (Z * Z)) * nat, val e.2 = true)
                          (presence pz) in
  sum_list_with (λ e, length (cells lib e.1)) placed_entries = length (ground pz)
  /\ ((forall nf pts, (nf, pts) ∈ lib -> length (remove_dups pts) = n) ->
      (n * length placed_entries = length (ground pz))%nat).
Proof.
  intros Hp Hval Hgaps Hgnd P.
  destruct (process_Some_parts lib names problem pz Hp) as (Hnd & Hinj & Hin & _).
  assert (forall pt, pt ∈ ground pz ->
            sum_list_with (λ e : (K * nat * (Z * Z)) * nat,
                             if decide (pt ∈ cells lib e.1) then 1%nat else 0%nat) P
            = 1%nat) as Hone.
  { intros pt Hpt.
    destruct (cover_count lib names problem pz val pt Hp Hpt) as (items & Hcon & Htot).
    unfold satisfies in Hval. rewrite Forall_forall in Hval.
    specialize (Hval _ Hcon). rewrite Hgaps in Hval. simpl in Hval.
    rewrite <- length_filter_sum. unfold P. rewrite list_filter_filter.
    rewrite Hval in Htot.
    erewrite (filter_ext_in _ (λ e : (K * nat * (Z * Z)) * nat,
                val e.2 = true /\ pt ∈ cells lib e.1)); [lia|].
    intros e _. tauto. }
  assert (forall e, e ∈ P ->
            sum_list_with (λ pt, if decide (pt ∈ cells lib e.1) then 1%nat else 0%nat)
              (ground pz)
            = length (cells lib e.1)) as Hcell.
  { intros e [_ He]%list_elem_of_filter. rewrite <- length_filter_sum.
    apply Permutation_length, NoDup_Permutation.
    - by apply NoDup_filter.
    - apply cells_NoDup.
    - intros pt. rewrite list_elem_of_filter. split; [tauto|]. intros Hpt.
      split; [done|]. apply (Hin e.1); [|done].
      by apply (list_elem_of_fmap_2 fst) in He. }
  assert (sum_list_with (λ e, length (cells lib e.1)) P = length (ground pz)) as Harea.
  { rewrite <- (sum_list_with_ext_in _ _ P Hcell).
    rewrite <- sum_list_with_swap.
    rewrite (sum_list_with_ext_in _ (λ _, 1%nat) (ground pz) Hone).
    apply sum_list_with_const. }
  split; [done|]. intros Hn. rewrite <- Harea.
  rewrite (sum_list_with_ext_in _ (λ _, n) P).
  - clear. induction P as [|e P IH]; simpl; lia.
  - intros e [_ He]%list_elem_of_filter.
    destruct (process_parts lib names problem) as (pz' & Hp' & _ & _ & _ & _ & Hk & _).
    rewrite Hp in Hp'. injection Hp' as <-.
    apply (list_elem_of_fmap_2 fst), Hk in He as (Hlib & _).
    destruct (cells_length lib e.1 Hlib) as (pts & Hpts & ->). by apply (Hn e.1.1).
Qed.

End puzzle_theorems.

Section puzzle_scenario_facts.
Import CpModel PolyominoPuzzle PolyominoPuzzleFacts PuzzleScenario.

(** The library is the one [fix] builds for the domino shape. *)
Lemma domino_lib_built :
  ShapeCollection.fix_lib ShapeScenario.positional
    [("D"%string, [(0, 0); (1, 0)]%Z)] = Some domino_lib.
Proof. vm_compute. reflexivity. Qed.

(** The two lying dominoes are a solution of the model built for the box. *)
Lemma two_rows_is_solution :
  exists pz, process domino_lib ["D"%string] box2 = Some pz
             /\ satisfies two_rows pz
             /\ allow_gaps pz = false /\ NoDup (ground pz).
Proof.
  destruct (checked (λ pz, bool_decide (satisfies two_rows pz)
                           && negb (allow_gaps pz)
                           && bool_decide (NoDup (ground pz)))
              (process domino_lib ["D"%string] box2)) as (pz & Hs & H).
  { vm_compute. reflexivity. }
  apply andb_true_iff in H as [H H3]. apply andb_true_iff in H as [H1 H2].
  exists pz. split; [exact Hs|]. split; [by apply bool_decide_eq_true in H1|].
  split; [by apply negb_true_iff in H2|by apply bool_decide_eq_true in H3].
Qed.

End puzzle_scenario_facts.

Lemma process_exact_cover_witness :
  exists pz,
    PolyominoPuzzle.process PuzzleScenario.domino_lib ["D"%string] PuzzleScenario.box2
    = Some pz
    /\ PolyominoPuzzle.satisfies PuzzleScenario.two_rows pz
    /\ (forall f pt,
          PolyominoPuzzleFacts.placed PuzzleScenario.two_rows pz f ->
          pt ∈ PolyominoPuzzleFacts.cells PuzzleScenario.domino_lib f ->
          pt ∈ PolyominoPuzzle.ground pz)
    /\ (forall f f' pt,
          PolyominoPuzzleFacts.placed PuzzleScenario.two_rows pz f ->
          PolyominoPuzzleFacts.placed PuzzleScenario.two_rows pz f' ->
          pt ∈ PolyominoPuzzleFacts.cells PuzzleScenario.domino_lib f ->
          pt ∈ PolyominoPuzzleFacts.cells PuzzleScenario.domino_lib f' -> f = f')
    /\ (PolyominoPuzzle.allow_gaps pz = false ->
        forall pt, pt ∈ PolyominoPuzzle.ground pz ->
          exists f, PolyominoPuzzleFacts.placed PuzzleScenario.two_rows pz f
                    /\ pt ∈ PolyominoPuzzleFacts.cells PuzzleScenario.domino_lib f).
Proof.
  destruct two_rows_is_solution as (pz & Hp & Hval & _).
  exists pz. split; [exact Hp|]. split; [exact Hval|].
  exact (process_exact_cover PuzzleScenario.domino_lib ["D"%string]
           PuzzleScenario.box2 pz PuzzleScenario.two_rows Hp Hval).
Defined.

Lemma process_piece_counts_witness :
  exists pz,
    PolyominoPuzzle.process PuzzleScenario.domino_lib ["D"%string] PuzzleScenario.box2
    = Some pz
    /\ PolyominoPuzzle.satisfies PuzzleScenario.two_rows pz
    /\ ("D"%string, 2%Z)
       ∈ PolyominoPuzzleFacts.available_of ["D"%string] PuzzleScenario.box2
    /\ ((0 < 2)%Z ->
        Z.of_nat (length (filter (λ e : (string * nat * (Z * Z)) * nat,
                                    PuzzleScenario.two_rows e.2 = true
                                    /\ e.1.1.1 = "D"%string)
                            (PolyominoPuzzle.presence pz))) = 2%Z)
    /\ ((2 <= 0)%Z ->
        (- 2 <= Z.of_nat (length (filter (λ e : (string * nat * (Z * Z)) * nat,
                                            PuzzleScenario.two_rows e.2 = true
                                            /\ e.1.1.1 = "D"%string)
                                    (PolyominoPuzzle.presence pz))))%Z).
Proof.
  destruct two_rows_is_solution as (pz & Hp & Hval & _).
  assert (("D"%string, 2%Z)
          ∈ PolyominoPuzzleFacts.available_of ["D"%string] PuzzleScenario.box2) as Hk
    by (apply (bool_decide_unpack _); vm_compute; exact I).
  exists pz. split; [exact Hp|]. split; [exact Hval|]. split; [exact Hk|].
  exact (process_piece_counts PuzzleScenario.domino_lib ["D"%string]
           PuzzleScenario.box2 pz PuzzleScenario.two_rows "D"%string 2%Z Hp Hval Hk).
Defined.

Lemma process_area_witness :
  exists pz,
    PolyominoPuzzle.process PuzzleScenario.domino_lib ["D"%string] PuzzleScenario.box2
    = Some pz
    /\ PolyominoPuzzle.satisfies PuzzleScenario.two_rows pz
    /\ PolyominoPuzzle.allow_gaps pz = false
    /\ NoDup (PolyominoPuzzle.ground pz)
    /\ sum_list_with
         (λ e, length (PolyominoPuzzleFacts.cells PuzzleScenario.domino_lib e.1))
         (filter (λ e : (string * nat * (Z * Z)) * nat,
                    PuzzleScenario.two_rows e.2 = true)
            (PolyominoPuzzle.presence pz))
       = length (PolyominoPuzzle.ground pz)
    /\ ((forall nf pts, (nf, pts) ∈ PuzzleScenario.domino_lib ->
           length (remove_dups pts) = 2%nat) ->
        (2 * length (filter (λ e : (string * nat * (Z * Z)) * nat,
                               PuzzleScenario.two_rows e.2 = true)
                       (PolyominoPuzzle.presence pz))
         = length (PolyominoPuzzle.ground pz))%nat).
Proof.
  destruct two_rows_is_solution as (pz & Hp & Hval & Hgaps & Hnd).
  exists pz. split; [exact Hp|]. split; [exact Hval|]. split; [exact Hgaps|].
  split; [exact Hnd|].
  exact (process_area PuzzleScenario.domino_lib ["D"%string]
           PuzzleScenario.box2 pz PuzzleScenario.two_rows 2%nat Hp Hval Hgaps Hnd).
Defined.

Section box_facts.
Import BoxDrawing.
Local Open Scope Z_scope.

Local Abbreviation step :=
  (λ (value : Z) (iw : nat * bool),
     Z.lor value (if iw.2 then Z.shiftl 1 (Z.of_nat iw.1) else 0)).

Lemma land_15 (v : Z) : Z.land v 15 = v `mod` 16.
Proof. apply (Z.land_ones v 4). lia. Qed.

Lemma high_bit_masked (i : nat) : (4 <= i)%nat -> Z.land (Z.shiftl 1 (Z.of_nat i)) 15 = 0.
Proof.
  intros Hi. rewrite land_15, Z.shiftl_1_l.
  replace (Z.of_nat i) with (4 + (Z.of_nat i - 4)) by lia.
  rewrite Z.pow_add_r by lia. change (2 ^ 4) with 16.
  rewrite Z.mul_comm. apply Z.mod_mul. lia.
Qed.

(** Walls beyond the fourth leave the low four bits as they are. *)
Lemma fold_high_walls (l : list (nat * bool)) (v : Z) :
  Forall (λ iw, 4 <= iw.1)%nat l -> Z.land (foldl step v l) 15 = Z.land v 15.
Proof.
  revert v. induction l as [|[i w] l IH]; intros v Hall; [done|].
  apply Forall_cons in Hall as [Hi Hall]. cbn [foldl]. rewrite IH by done.
  simpl. destruct w; [|by rewrite Z.lor_0_r].
  by rewrite Z.land_lor_distr_l, high_bit_masked, Z.lor_0_r.
Qed.

Lemma box_value_app (l extra : list bool) :
  box_value (l ++ extra)
  = foldl step (box_value l) (imap (λ i wall, ((length l + i)%nat, wall)) extra).
Proof. unfold box_value. by rewrite imap_app, foldl_app. Qed.

(** X27. [box] never raises [IndexError], whatever the number of walls
    it is given; only the first four walls count; and on four walls the
    character returned is the one at index [W + 2 E + 4 N + 8 S], a
    different character for different walls. *)
Theorem box_walls :
  (forall walls, is_Some (box walls))
  /\ (forall w e n s extra, box ([w; e; n; s] ++ extra) = box [w; e; n; s])
  /\ (forall w e n s,
        box [w; e; n; s]
        = box_chars !! (Nat.b2n w + 2 * Nat.b2n e + 4 * Nat.b2n n + 8 * Nat.b2n s)%nat)
  /\ (forall w e n s w' e' n' s',
        box [w; e; n; s] = box [w'; e'; n'; s'] ->
        w = w' /\ e = e' /\ n = n' /\ s = s').
Proof.
  split; [|split; [|split]].
  - intros walls. unfold box. apply lookup_lt_is_Some. rewrite land_15.
    pose proof (Z.mod_pos_bound (box_value walls) 16). simpl. lia.
  - intros w e n s extra. unfold box. rewrite box_value_app. f_equal. f_equal.
    apply fold_high_walls. apply Forall_forall.
    intros [i wall] (j & ? & [= -> ->] & _)%elem_of_lookup_imap. simpl. lia.
  - intros [] [] [] []; vm_compute; reflexivity.
  - intros [] [] [] [] [] [] [] [] Heq; vm_compute in Heq;
      first [done | discriminate Heq].
Qed.

End box_facts.

Section by_key.
Import PolyominoDraw.
Context {A : Type} (key : A -> Z).
Local Open Scope Z_scope.

Lemma foldl_min_by (l : list A) (a : A) :
  let r := foldl (λ m b, if decide (key b < key m) then b else m) a l in
  (r = a \/ r ∈ l) /\ key r <= key a /\ forall b, b ∈ l -> key r <= key b.
Proof.
  revert a. induction l as [|c l IH]; intros a; cbn [foldl].
  - split; [by left|]. split; [lia|]. by intros b ?%elem_of_nil.
  - destruct (IH (if decide (key c < key a) then c else a)) as ([Hr|Hr] & Hle & Hall).
    + split; [|split].
      * rewrite Hr. case_decide; [right; apply list_elem_of_here|by left].
      * case_decide; lia.
      * intros b [->|Hb]%elem_of_cons; [case_decide; lia|by apply Hall].
    + split; [|split].
      * right. by apply list_elem_of_further.
      * case_decide; lia.
      * intros b [->|Hb]%elem_of_cons; [case_decide; lia|by apply Hall].
Qed.

Lemma foldl_max_by (l : list A) (a : A) :
  let r := foldl (λ m b, if decide (key m < key b) then b else m) a l in
  (r = a \/ r ∈ l) /\ key a <= key r /\ forall b, b ∈ l -> key b <= key r.
Proof.
  revert a. induction l as [|c l IH]; intros a; cbn [foldl].
  - split; [by left|]. split; [lia|]. by intros b ?%elem_of_nil.
  - destruct (IH (if decide (key a < key c) then c else a)) as ([Hr|Hr] & Hle & Hall).
    + split; [|split].
      * rewrite Hr. case_decide; [right; apply list_elem_of_here|by left].
      * case_decide; lia.
      * intros b [->|Hb]%elem_of_cons; [case_decide; lia|by apply Hall].
    + split; [|split].
      * right. by apply list_elem_of_further.
      * case_decide; lia.
      * intros b [->|Hb]%elem_of_cons; [case_decide; lia|by apply Hall].
Qed.

Lemma min_by_spec (l : list A) :
  l ≠ [] ->
  exists a, min_by key l = Some a /\ a ∈ l /\ forall b, b ∈ l -> key a <= key b.
Proof.
  destruct l as [|a l]; [done|]. intros _. eexists. split; [done|].
  destruct (foldl_min_by l a) as ([Hr|Hr] & Hle & Hall).
  - split; [rewrite Hr; apply list_elem_of_here|].
    intros b [->|Hb]%elem_of_cons; [done|by apply Hall].
  - split; [by apply list_elem_of_further|].
    intros b [->|Hb]%elem_of_cons; [done|by apply Hall].
Qed.

Lemma max_by_spec (l : list A) :
  l ≠ [] ->
  exists a, max_by key l = Some a /\ a ∈ l /\ forall b, b ∈ l -> key b <= key a.
Proof.
  destruct l as [|a l]; [done|]. intros _. eexists. split; [done|].
  destruct (foldl_max_by l a) as ([Hr|Hr] & Hle & Hall).
  - split; [rewrite Hr; apply list_elem_of_here|].
    intros b [->|Hb]%elem_of_cons; [done|by apply Hall].
  - split; [by apply list_elem_of_further|].
    intros b [->|Hb]%elem_of_cons; [done|by apply Hall].
Qed.

End by_key.

Section last_true.
Context {A : Type}.

(** The last element of a list with a property, if any. *)
Lemma foldl_last_true (P : A -> bool) (l : list A) (cur : option A) :
  let r := foldl (λ cur m, if P m then Some m else cur) cur l in
  (forall f, r = Some f -> cur = Some f \/ (f ∈ l /\ P f = true))
  /\ ((exists f, f ∈ l /\ P f = true) -> exists f, r = Some f /\ f ∈ l /\ P f = true)
  /\ ((forall f, f ∈ l -> P f = false) -> r = cur).
Proof.
  revert cur. induction l as [|m l IH]; intros cur; cbn [foldl].
  - split; [auto|]. split; [|done]. by intros (f & ?%elem_of_nil & _).
  - destruct (IH (if P m then Some m else cur)) as (H1 & H2 & H3).
    split; [|split].
    + intros f Hf. destruct (H1 f Hf) as [Hc|[Hin HP]].
      * destruct (P m) eqn:HPm; [|by left]. injection Hc as ->.
        right. split; [apply list_elem_of_here|done].
      * right. split; [by apply list_elem_of_further|done].
    + intros (f & Hin & HP).
      destruct (decide (Exists (λ g, P g = true) l)) as [Hex|Hno].
      * apply Exists_exists in Hex.
        destruct (H2 Hex) as (g & Hg & Hgl & HPg). exists g.
        split; [done|]. split; [by apply list_elem_of_further|done].
      * assert (forall g, g ∈ l -> P g = false) as Hall.
        { intros g Hg. destruct (P g) eqn:E; [|done]. destruct Hno.
          apply Exists_exists. eauto. }
        rewrite (H3 Hall).
        apply elem_of_cons in Hin as [->|Hin]; [|by rewrite Hall in HP].
        rewrite HP. exists m. split; [done|]. split; [apply list_elem_of_here|done].
    + intros Hall. rewrite H3.
      * by rewrite Hall by apply list_elem_of_here.
      * intros f Hf. by apply Hall, list_elem_of_further.
Qed.

End last_true.

Section draw_facts.
Import CpModel PolyominoPuzzle PolyominoPuzzleFacts PolyominoDraw.
Context {K : Type} `{EqDecision K}.
Local Open Scope Z_scope.

Lemma mark_spec (val : nat -> bool) (presence : list ((K * nat * (Z * Z)) * nat))
    (key : Z * Z) (maybes : list (K * nat * (Z * Z)))
    (grid : list ((Z * Z) * option (K * nat * (Z * Z)))) cur0 :
  (forall m, m ∈ maybes -> is_Some (Py.dict_get m presence)) ->
  Py.dict_get key grid = Some cur0 ->
  exists grid',
    mark val presence key maybes grid = Some grid' /\ grid'.*1 = grid.*1
    /\ Py.dict_get key grid'
       = Some (foldl (λ cur m,
                        if val (default 0%nat (Py.dict_get m presence))
                        then Some m else cur) cur0 maybes)
    /\ forall k', k' ≠ key -> Py.dict_get k' grid' = Py.dict_get k' grid.
Proof.
  revert grid cur0. induction maybes as [|m maybes IH]; intros grid cur0 Hall Hget.
  - exists grid. done.
  - destruct (Hall m) as [x Hx]; [apply list_elem_of_here|].
    cbn [mark foldl]. rewrite Hx. cbn [mbind option_bind].
    change (val (default 0%nat (Some x))) with (val x).
    assert (key ∈ grid.*1) as Hkey by (apply dict_get_is_Some; by eexists).
    destruct (val x).
    + destruct (IH (Py.dict_set key (Some m) grid) (Some m))
        as (grid' & Hm & Hk & Hg & Ho).
      * intros m' Hm'. by apply Hall, list_elem_of_further.
      * apply dict_get_set_eq.
      * exists grid'. split; [done|]. split; [by rewrite Hk, dict_set_keys_same|].
        split; [done|]. intros k' Hne. rewrite (Ho k' Hne). by apply dict_get_set_ne.
    + destruct (IH grid cur0) as (grid' & Hm & Hk & Hg & Ho); [|done|by exists grid'].
      intros m' Hm'. by apply Hall, list_elem_of_further.
Qed.

Context (lib : list ((K * nat) * list (Z * Z))) (names : list K)
        (problem : problem_t K) (pz : puzzle K) (val : nat -> bool).
Hypothesis Hp : process lib names problem = Some pz.
Hypothesis Hval : satisfies val pz.

Lemma placed_within f pt : placed val pz f -> pt ∈ cells lib f -> pt ∈ ground pz.
Proof.
  destruct (process_Some_parts lib names problem pz Hp) as (_ & _ & Hin & _).
  intros (x & Hx & _) Hpt. apply (Hin f); [|done].
  by apply (list_elem_of_fmap_2 fst) in Hx.
Qed.

Lemma placed_unique f f' pt :
  placed val pz f -> placed val pz f' ->
  pt ∈ cells lib f -> pt ∈ cells lib f' -> f = f'.
Proof.
  intros Hf Hf' Hc Hc'. pose proof (placed_within f pt Hf Hc) as Hpt.
  destruct Hf as (x & Hx & Hv), Hf' as (x' & Hx' & Hv').
  destruct (cover_count lib names problem pz val pt Hp Hpt) as (items & Hcon & Htot).
  pose proof Hval as Hall. unfold satisfies in Hall. rewrite Forall_forall in Hall.
  specialize (Hall _ Hcon).
  assert ((f, x) = (f', x')) as Heq; [|congruence].
  apply (filter_le_one_unique
           (λ e : (K * nat * (Z * Z)) * nat, val e.2 = true /\ pt ∈ cells lib e.1)
           (presence pz)); try done.
  destruct (allow_gaps pz); simpl in Hall; lia.
Qed.

(** What the entry of a cell says. *)
Local Abbreviation shows xy v :=
  (forall f : K * nat * (Z * Z), v = Some f <-> placed val pz f /\ xy ∈ cells lib f).

Lemma grid_cell_spec (x1 y1 : Z)
    (grid : list ((Z * Z) * option (K * nat * (Z * Z)))) (xy : Z * Z) :
  exists grid' v,
    grid_cell val pz x1 y1 grid xy = Some grid'
    /\ (forall k, k ∈ grid'.*1 <-> k = (xy.1 - x1, xy.2 - y1) \/ k ∈ grid.*1)
    /\ Py.dict_get (xy.1 - x1, xy.2 - y1) grid' = Some v
    /\ shows xy v
    /\ forall k', k' ≠ (xy.1 - x1, xy.2 - y1) ->
         Py.dict_get k' grid' = Py.dict_get k' grid.
Proof.
  destruct (process_Some_parts lib names problem pz Hp)
    as (Hnd & Hinj & Hin & Hpnd & Hpk & Hsets & _).
  unfold grid_cell. set (key := (xy.1 - x1, xy.2 - y1)).
  set (grid1 := Py.dict_set key None grid).
  assert (forall k, k ∈ grid1.*1 <-> k = key \/ k ∈ grid.*1) as Hk1
    by (intros k; apply dict_set_keys_elem).
  assert (Py.dict_get key grid1 = Some None) as Hg1 by apply dict_get_set_eq.
  assert (forall k', k' ≠ key -> Py.dict_get k' grid1 = Py.dict_get k' grid) as Ho1
    by (intros k' Hne; by apply dict_get_set_ne).
  destruct (decide (xy ∈ (pos_items pz).*1)) as [Hxy|Hxy].
  - pose proof Hxy as [s Hs]%dict_key_elem.
    rewrite (dict_get_NoDup xy s _ Hpnd Hs). cbn [mbind option_bind].
    destruct (Hsets xy s Hs) as (Hsnd & Hel & _).
    destruct (mark_spec val (presence pz) key s grid1 None) as (grid' & -> & Hk & Hg & Ho).
    { intros m [Hm _]%Hel. by apply dict_get_elem. }
    { done. }
    eexists grid', _. split; [done|]. split; [intros k; by rewrite Hk|].
    split; [exact Hg|]. split; [|intros k' Hne; by rewrite Ho, Ho1].
    destruct (foldl_last_true
                (λ m, val (default 0%nat (Py.dict_get m (presence pz)))) s None)
      as (H1 & H2 & _).
    intros f. split.
    + intros Hf. destruct (H1 f Hf) as [|[Hfs HP]]; [done|].
      apply Hel in Hfs as [Hfk Hc]. split; [|done].
      destruct (dict_get_elem f (presence pz) Hfk) as [x Hx].
      rewrite Hx in HP. exists x. split; [by apply dict_get_Some_elem|done].
    + intros [Hpl Hc]. pose proof Hpl as (x & Hx & Hv).
      assert (f ∈ s) as Hfs
        by (apply Hel; split; [by apply (list_elem_of_fmap_2 fst) in Hx|done]).
      destruct H2 as (g & Hg' & Hgs & HPg).
      { exists f. split; [done|]. by rewrite (dict_get_NoDup f x _ Hnd Hx). }
      rewrite Hg'. f_equal.
      apply Hel in Hgs as [Hgk Hgc].
      destruct (dict_get_elem g (presence pz) Hgk) as [x' Hx'].
      rewrite Hx' in HPg. apply (placed_unique g f xy); try done.
      exists x'. split; [by apply dict_get_Some_elem|done].
  - exists grid1, None. split; [done|]. split; [done|]. split; [done|].
    split; [|done]. intros f. split; [done|].
    intros [Hpl Hc]. destruct Hxy. apply Hpk. by apply (placed_within f).
Qed.

Lemma fill_grid_spec (x1 y1 : Z) (cs : list (Z * Z))
    (grid : list ((Z * Z) * option (K * nat * (Z * Z)))) :
  NoDup cs ->
  exists grid',
    fill_grid val pz x1 y1 cs grid = Some grid'
    /\ (forall k, k ∈ grid'.*1 <->
          (exists xy, xy ∈ cs /\ k = (xy.1 - x1, xy.2 - y1)) \/ k ∈ grid.*1)
    /\ (forall xy, xy ∈ cs ->
          exists v, Py.dict_get (xy.1 - x1, xy.2 - y1) grid' = Some v /\ shows xy v)
    /\ forall k, (forall xy, xy ∈ cs -> k ≠ (xy.1 - x1, xy.2 - y1)) ->
         Py.dict_get k grid' = Py.dict_get k grid.
Proof.
  revert grid. induction cs as [|xy cs IH]; intros grid Hnd; cbn [fill_grid].
  - exists grid. split; [done|]. split; [|split; [|done]].
    + intros k. split; [by right|]. by intros [(xy & ?%elem_of_nil & _)|].
    + by intros xy ?%elem_of_nil.
  - apply NoDup_cons in Hnd as [Hxy Hnd].
    destruct (grid_cell_spec x1 y1 grid xy) as (grid1 & v & -> & Hk1 & Hg1 & Hv & Ho1).
    cbn [mbind option_bind].
    destruct (IH grid1 Hnd) as (grid' & -> & Hk & Hcells & Ho).
    exists grid'. split; [done|]. split; [|split].
    + intros k. rewrite Hk, Hk1. split.
      * intros [(c & Hc & ->)|[->|Hg]].
        -- left. exists c. split; [by apply list_elem_of_further|done].
        -- left. exists xy. split; [apply list_elem_of_here|done].
        -- by right.
      * intros [(c & [->|Hc]%elem_of_cons & ->)|Hg].
        -- right. by left.
        -- left. by exists c.
        -- right. by right.
    + intros c [->|Hc]%elem_of_cons; [|by apply Hcells].
      exists v. split; [|done]. rewrite Ho; [done|].
      intros c Hc Heq. apply Hxy.
      assert (xy = c) as ->; [|done].
      destruct xy as [a b], c as [a' b']. simpl in Heq.
      injection Heq as H1 H2. f_equal; lia.
    + intros k Hne. rewrite Ho.
      * apply Ho1, Hne, list_elem_of_here.
      * intros c Hc. by apply Hne, list_elem_of_further.
Qed.

Lemma box_cells_NoDup (x1 y1 x2 y2 : Z) :
  NoDup (y ← Py.range y1 (y2 + 1); x ← Py.range x1 (x2 + 1); [(x, y)]).
Proof.
  apply NoDup_bind; [| |apply range_NoDup].
  - intros a1 a2 p _ _ H1 H2.
    apply list_elem_of_bind in H1 as (b1 & H1 & _).
    apply list_elem_of_bind in H2 as (b2 & H2 & _).
    apply list_elem_of_singleton in H1, H2. congruence.
  - intros a _. apply NoDup_bind; [| |apply range_NoDup].
    + intros b1 b2 p _ _ H1 H2. apply list_elem_of_singleton in H1, H2. congruence.
    + intros b _. apply NoDup_singleton.
Qed.

Lemma box_cells_elem (x1 y1 x2 y2 : Z) (p : Z * Z) :
  p ∈ (y ← Py.range y1 (y2 + 1); x ← Py.range x1 (x2 + 1); [(x, y)])
  <-> x1 <= p.1 <= x2 /\ y1 <= p.2 <= y2.
Proof.
  rewrite list_elem_of_bind. split.
  - intros (y & (x & ->%list_elem_of_singleton & Hx%range_elem)%list_elem_of_bind
              & Hy%range_elem). simpl. lia.
  - intros [H1 H2]. exists p.2. split; [|apply range_elem; lia].
    apply list_elem_of_bind. exists p.1. split; [|apply range_elem; lia].
    destruct p. apply list_elem_of_here.
Qed.

(** The grid of [draw], for a solution. *)
Lemma draw_grid_spec :
  (ground pz = [] -> draw_grid val pz = None)
  /\ (ground pz ≠ [] ->
      exists x1 y1 x2 y2 grid,
        draw_grid val pz = Some (x1, y1, x2, y2, grid)
        /\ (forall p, p ∈ ground pz -> x1 <= p.1 <= x2 /\ y1 <= p.2 <= y2)
        /\ (forall k, k ∈ grid.*1 <-> 0 <= k.1 <= x2 - x1 /\ 0 <= k.2 <= y2 - y1)
        /\ forall x y, x1 <= x <= x2 -> y1 <= y <= y2 ->
             exists v, Py.dict_get (x - x1, y - y1) grid = Some v /\ shows (x, y) v).
Proof.
  split.
  - intros Hg. unfold draw_grid. by rewrite Hg.
  - intros Hne. unfold draw_grid.
    destruct (min_by_spec fst (ground pz) Hne) as (a & -> & Ha & Hmina).
    destruct (min_by_spec snd (ground pz) Hne) as (b & -> & Hb & Hminb).
    destruct (max_by_spec fst (ground pz) Hne) as (c & -> & Hc & Hmaxc).
    destruct (max_by_spec snd (ground pz) Hne) as (d & -> & Hd & Hmaxd).
    cbn [mbind option_bind].
    destruct (fill_grid_spec a.1 b.2
                (y ← Py.range b.2 (d.2 + 1); x ← Py.range a.1 (c.1 + 1); [(x, y)]) [])
      as (grid & -> & Hk & Hcells & _); [apply box_cells_NoDup|].
    cbn [mbind option_bind].
    exists a.1, b.2, c.1, d.2, grid. split; [done|]. split; [|split].
    + intros p Hin. pose proof (Hmina p Hin). pose proof (Hminb p Hin).
      pose proof (Hmaxc p Hin). pose proof (Hmaxd p Hin). lia.
    + intros k. rewrite Hk. split.
      * intros [(xy & Hxy%box_cells_elem & ->)|?%elem_of_nil]; [|done]. simpl. lia.
      * intros [H1 H2]. left. exists (k.1 + a.1, k.2 + b.2). split.
        -- apply box_cells_elem. simpl. lia.
        -- destruct k as [k1 k2]. simpl. f_equal; lia.
    + intros x y Hx Hy. apply (Hcells (x, y)). apply box_cells_elem. simpl. lia.
Qed.

End draw_facts.


